(** * Forest-diversity simulations: a shallow embedding and its properties

    The development follows three of the JavaScript programs of the
    repository:

    - [immigration.js]: neutral ecological drift with immigration;
    - the two-species competition program (olive and orange trees competing
      for iron and calcium);
    - [socialdx.js]: the social-distancing (neighbour exclusion) model.

    Part I embeds the programs.  Part II defines the vocabulary of their
    properties.  Part III proves the lemmas, Part IV the properties, and
    Part V further properties of the programs: the layout of the forests,
    the controls of the page, extinction, the timeline, the counting of
    conflicts.

    Conventions of the embedding.

    - JavaScript numbers that hold counts, indices and the step counter are
      integers of [Z]; quantities that are genuinely fractional (resource
      capacities, pressure factors, pixel coordinates) are exact rationals
      of [Q], so the rounding of IEEE doubles is abstracted away (integers
      are exact in the program as long as they stay below [2^53]).
    - [Math.random()] reads the next element of a stream [random] of
      rationals of the half-open unit interval; the number of values
      consumed so far is part of the program state.  Probability
      distributions are not modelled: a draw is an arbitrary point of [0,1).
    - An array of [Tree] objects is a list; a reference to a tree is its
      index in that list (trees are created once and only their fields are
      mutated afterwards).
    - A thrown [TypeError] (reading a property of [undefined]) is [None].
    - [Object.keys] of a colour map is the list of its keys as the literal
      has them, which is what JavaScript gives when no key is written
      twice, is the numeral of an array index or is [__proto__]; the colour
      maps of the programs are so.
    - Of the timer, only whether one is installed is kept, not the handle
      that [setInterval] returns.
    - Canvas drawing is left out, apart from the colour chosen for a
      tree; what the programs write to the page (button label, step counter
      display) is kept as plain fields. *)

From Stdlib Require Import ZArith QArith Qround Lia Lqa.
From stdpp Require Import base option list gmap strings.

Local Close Scope Q_scope.
Local Open Scope Z_scope.

(* ===================================================================== *)
(** * Part I.  The embedding                                                *)
(* ===================================================================== *)

(** ** JavaScript values, numbers and objects used by the programs *)

Module Js.

(** The values a [species] field or variable can hold. *)
Inductive value : Type :=
| Str (s : string)
| Null
| Undefined.

#[global] Instance value_eq_dec : EqDecision value.
Proof. solve_decision. Defined.

(** [if (v)]: the empty string, [null] and [undefined] are falsy. *)
Definition truthy (v : value) : bool :=
  match v with
  | Str s => negb (String.eqb s "")
  | Null | Undefined => false
  end.

(** [obj[v]]: the property key a value is converted to. *)
Definition to_key (v : value) : string :=
  match v with
  | Str s => s
  | Null => "null"
  | Undefined => "undefined"
  end.

(** What [arr[i]] gives when read as a species: a missing element is
    [undefined]. *)
Definition of_option (o : option string) : value :=
  match o with
  | Some s => Str s
  | None => Undefined
  end.

(** An integer-valued number, or [NaN]. *)
Inductive number : Type :=
| Num (z : Z)
| NaN.

#[global] Instance number_eq_dec : EqDecision number.
Proof. solve_decision. Defined.

Definition add1 (n : number) : number :=
  match n with Num z => Num (z + 1) | NaN => NaN end.

Definition sub1 (n : number) : number :=
  match n with Num z => Num (z - 1) | NaN => NaN end.

(** [n === 0] *)
Definition is_zero (n : number) : bool :=
  match n with Num z => z =? 0 | NaN => false end.

(** [(a % b) === 0]: the remainder by zero, or by a non-number, is [NaN],
    which is not [=== 0]. *)
Definition rem_is_zero (a : Z) (b : number) : bool :=
  match b with
  | Num k => if k =? 0 then false else Z.rem a k =? 0
  | NaN => false
  end.

(** An object used as a dictionary of counters.  Reading a key that was
    never assigned gives [undefined], which arithmetic turns into [NaN]. *)
Definition get (o : gmap string number) (k : string) : number :=
  default NaN (o !! k).

(** [o[k] -= 1] and [o[k] += 1] *)
Definition decr (o : gmap string number) (k : string) : gmap string number :=
  <[k := sub1 (get o k)]> o.

Definition incr (o : gmap string number) (k : string) : gmap string number :=
  <[k := add1 (get o k)]> o.

(** The properties every object literal inherits from [Object.prototype];
    all of them hold truthy values. *)
Definition Object_prototype_keys : list string :=
  [ "constructor"; "__defineGetter__"; "__defineSetter__"; "hasOwnProperty";
    "__lookupGetter__"; "__lookupSetter__"; "isPrototypeOf";
    "propertyIsEnumerable"; "toString"; "valueOf"; "__proto__";
    "toLocaleString" ].

(** [arr[i]] for a number [i]: [undefined] outside the array. *)
Definition arr_get {A : Type} (arr : list A) (i : Z) : option A :=
  if i <? 0 then None else arr !! Z.to_nat i.

(** A result of [Math.random()]: the rational [num / (num + gap + 1)],
    which ranges over the rationals of [0,1). *)
Record sample : Type := mkSample { s_num : nat; s_gap : nat }.

Definition sample_Q (u : sample) : Q :=
  Z.of_nat (s_num u) # Pos.of_succ_nat (s_num u + s_gap u).

(** [Math.floor(u * len)] *)
Definition randomIndex (len : Z) (u : sample) : Z :=
  Qfloor (sample_Q u * inject_Z len)%Q.

(** [randomElement(arr)], given the value [u] that [Math.random()]
    returns: the index chosen, and the element there. *)
Definition randomElement {A : Type} (arr : list A) (u : sample) : option A :=
  arr_get arr (randomIndex (Z.of_nat (length arr)) u).

Definition square (n : Z) : Z := n * n.

(** [obj[v] || dflt], for an object literal [obj] whose values are
    strings: the own property of key [v], unless it is the empty string;
    nothing that is a string ([None]) when the property is one that [obj]
    inherits from [Object.prototype]; [dflt] otherwise.  When a key occurs
    twice in a literal, its last occurrence counts. *)
Definition lookup_or (obj : list (string * string)) (v : value) (dflt : string)
    : option string :=
  match (list_to_map (reverse obj) : gmap string string) !! to_key v with
  | Some c => Some (if String.eqb c "" then dflt else c)
  | None =>
      if bool_decide (to_key v ∈ Object_prototype_keys) then None else Some dflt
  end.

End Js.

Import Js.

(** ** The plot of trees shared by the drift programs

    [immigration.js] and the two-species competition program declare the
    same [Tree] constructor and the same [createForest]; they differ in
    their list [treeNames]. *)

Module Plot.

Definition canvasSize : Q := 500%Q.

Record Tree : Type := mkTree {
  col : Z;
  row : Z;
  x : Q;
  y : Q;
  r : Q;
  species : value;
  birthdate : Z
}.

(** [tree.species = sp] *)
Definition set_species (t : Tree) (sp : value) : Tree :=
  {| col := col t; row := row t; x := x t; y := y t; r := r t;
     species := sp; birthdate := birthdate t |}.

(** The variables of the tree-making loop of [createForest]. *)
Record planting : Type := mkPlanting {
  p_row : Z;
  p_col : Z;
  p_x : Q;
  p_y : Q;
  treeVector : list Tree;
  speciesCounts : gmap string number;
  p_draws : nat
}.

Section WithRandom.

Variable random : nat -> sample.
Variable treeNames : list string.

(** [treeNames.forEach(sp => speciesCounts[sp] = 0)] *)
Definition zeroCounts : gmap string number :=
  foldl (fun counts sp => <[sp := Num 0]> counts) ∅ treeNames.

(** One turn of the loop [for (let idx = 0; idx < N; idx++)].  The array
    is filled from index 0 upwards, so the assignment to
    [treeVector[idx]] appends. *)
Definition plant (treesPerRow : Z) (R r : Q) (stepCount : Z)
    (p : planting) : planting :=
  let t := mkTree (p_col p) (p_row p) (p_x p) (p_y p) r
             (of_option (randomElement treeNames (random (p_draws p))))
             stepCount in
  let col1 := p_col p + 1 in
  let col2 := if col1 >=? treesPerRow then 0 else col1 in
  let row2 := if col1 >=? treesPerRow then p_row p + 1 else p_row p in
  {| p_row := row2;
     p_col := col2;
     p_x := (2 * R * inject_Z col2 + R)%Q;
     p_y := (2 * R * inject_Z row2 + R)%Q;
     treeVector := treeVector p ++ [t];
     speciesCounts := incr (speciesCounts p) (to_key (species t));
     p_draws := S (p_draws p) |}.

Fixpoint plant_loop (n : nat) (treesPerRow : Z) (R r : Q) (stepCount : Z)
    (p : planting) : planting :=
  match n with
  | O => p
  | S n' => plant_loop n' treesPerRow R r stepCount
              (plant treesPerRow R r stepCount p)
  end.

(** [createForest(treesPerRow)], started when [draws] values of the
    random stream have been used.  Returns the array of trees, the
    counters, and the number of random values used afterwards.  (For
    [treesPerRow = 0] the radius is infinite in JavaScript; no tree is
    built then.) *)
Definition createForest (treesPerRow : Z) (stepCount : Z) (draws : nat)
    : list Tree * gmap string number * nat :=
  let N := square treesPerRow in
  let R := (canvasSize / (inject_Z treesPerRow * 2))%Q in
  let r := (R - 1)%Q in
  let p := plant_loop (Z.to_nat N) treesPerRow R r stepCount
             {| p_row := 0; p_col := 0; p_x := R; p_y := R;
                treeVector := []; speciesCounts := zeroCounts;
                p_draws := draws |} in
  (treeVector p, speciesCounts p, p_draws p).

End WithRandom.

End Plot.

(** ** [immigration.js]: neutral drift with immigration *)

Module Immigration.

Export Plot.

Inductive State : Type := idle | running | paused.

Definition maxSteps : Z := 500000.

Definition treeNames : list string :=
  [ "aspen"; "elm"; "maple"; "hickory"; "hemlock"; "birch"; "beech"; "oak";
    "pine"; "chestnut" ].

Definition immigrationIntervalList : list Z :=
  [ 10; 20; 30; 40; 50; 60; 70; 80; 90; 100; 200; 300; 400; 500; 600; 700;
    800; 900; 1000; 2000; 3000; 4000; 5000; 6000; 7000; 8000; 9000; 10000 ].

Definition treeColorMap : list (string * string) :=
  [ ("aspen", "#FA8072"); ("elm", "#2c9f2c"); ("maple", "#b24242");
    ("hickory", "#FFA500"); ("hemlock", "#FFD700"); ("birch", "#51de61");
    ("beech", "#808000"); ("oak", "#84ac39"); ("pine", "#b16e6e");
    ("chestnut", "#b9a76c") ].

(** [getTreeColor(species)]: what [drawTree] assigns to [ctx.fillStyle] *)
Definition getTreeColor (species : value) : option string :=
  lookup_or treeColorMap species "#ffffff".

Definition batchSize : nat := 40.

(** The global variables of the program, the number of random values drawn
    so far, and what the page shows.  [timer] tells whether an interval
    timer calling [runBatch] is installed.  The timeline is not kept:
    [timelineOn] is [false] in this program. *)
Record Globals : Type := mkGlobals {
  state : State;
  stepCount : Z;
  timer : bool;
  theForest : list Tree;
  theCensus : gmap string number;
  immigrationInterval : number;
  draws : nat;
  startStopButton : string;
  stepCountDisplay : Z
}.

Section WithRandom.

Variable random : nat -> sample.

(** The species the replacement takes: [arrivingSpecies] after the
    conditional of [replaceTree], where [u] is the value of the second
    call of [Math.random()]. *)
Definition arrivingSpecies (g : Globals) (u : sample) : option value :=
  if rem_is_zero (stepCount g) (immigrationInterval g)
  then Some (of_option (randomElement treeNames u))
  else species <$> randomElement (theForest g) u.

Definition replaceTree (g : Globals) : option Globals :=
  let forest := theForest g in
  let departing := randomIndex (Z.of_nat (length forest)) (random (draws g)) in
  arriving ← arrivingSpecies g (random (S (draws g)));
  departingTree ← arr_get forest departing;
  let census1 := decr (theCensus g) (to_key (species departingTree)) in
  let census2 := incr census1 (to_key arriving) in
  Some {| state := state g;
          stepCount := stepCount g + 1;
          timer := timer g;
          theForest := <[Z.to_nat departing := set_species departingTree arriving]> forest;
          theCensus := census2;
          immigrationInterval := immigrationInterval g;
          draws := S (S (draws g));
          startStopButton := startStopButton g;
          stepCountDisplay := stepCountDisplay g |}.

(** [for (let i = 0; i < n; i++) { replaceTree(); }] *)
Fixpoint replaceTrees (n : nat) (g : Globals) : option Globals :=
  match n with
  | O => Some g
  | S n' => g' ← replaceTree g; replaceTrees n' g'
  end.

Definition finished (g : Globals) : bool :=
  Z.rem (stepCount g) maxSteps =? 0.

Definition set_control (g : Globals) (st : State) (tm : bool)
    (label : string) : Globals :=
  {| state := st; stepCount := stepCount g; timer := tm;
     theForest := theForest g; theCensus := theCensus g;
     immigrationInterval := immigrationInterval g; draws := draws g;
     startStopButton := label; stepCountDisplay := stepCountDisplay g |}.

Definition doStartStop (g : Globals) : Globals :=
  match state g with
  | idle => set_control g running true "Pause"
  | running => set_control g paused false "Resume"
  | paused => set_control g running true "Pause"
  end.

Definition show_stepCount (g : Globals) : Globals :=
  {| state := state g; stepCount := stepCount g; timer := timer g;
     theForest := theForest g; theCensus := theCensus g;
     immigrationInterval := immigrationInterval g; draws := draws g;
     startStopButton := startStopButton g;
     stepCountDisplay := stepCount g |}.

Definition runBatch (g : Globals) : option Globals :=
  g1 ← replaceTrees batchSize g;
  let g2 := show_stepCount g1 in
  Some (if finished g2 then doStartStop g2 else g2).

(** The body of [init()] for a forest of [treesPerRow] trees per row:
    a new forest and its census replace the old ones. *)
Definition build (treesPerRow : Z) (g : Globals) : Globals :=
  let '(forest, census, d) :=
    createForest random treeNames treesPerRow (stepCount g) (draws g) in
  {| state := idle; stepCount := stepCount g; timer := timer g;
     theForest := forest; theCensus := census;
     immigrationInterval := immigrationInterval g; draws := d;
     startStopButton := startStopButton g;
     stepCountDisplay := stepCountDisplay g |}.

(** [init()] *)
Definition init (g : Globals) : Globals := build 25 g.

Definition doReset (g : Globals) : Globals :=
  init {| state := idle; stepCount := 0;
          timer := if state g is running then false else timer g;
          theForest := theForest g; theCensus := theCensus g;
          immigrationInterval := immigrationInterval g; draws := draws g;
          startStopButton := "Start"; stepCountDisplay := 0 |}.

(** [adjustImmigrationRate]: [sliderReadout] indexes the table of
    intervals; outside the table the interval becomes [undefined], which
    [%] treats as [NaN]. *)
Definition adjustImmigrationRate (sliderReadout : Z) (g : Globals) : Globals :=
  {| state := state g; stepCount := stepCount g; timer := timer g;
     theForest := theForest g; theCensus := theCensus g;
     immigrationInterval :=
       from_option Num NaN (arr_get immigrationIntervalList sliderReadout);
     draws := draws g;
     startStopButton := startStopButton g;
     stepCountDisplay := stepCountDisplay g |}.

(** The globals as declared, before [init()] runs: [theForest] and
    [theCensus] are not yet assigned, which an empty forest and an empty
    census stand for. *)
Definition declared : Globals :=
  {| state := idle; stepCount := 0; timer := false;
     theForest := []; theCensus := ∅;
     immigrationInterval := Num 100; draws := 0;
     startStopButton := "Start"; stepCountDisplay := 0 |}.

(** The program as loaded: the script ends with a call of [init()]. *)
Definition loaded : Globals := init declared.

End WithRandom.

End Immigration.

(** ** The two-species competition program *)

Module Coexist.

Export Plot.

Inductive State : Type := idle | running | paused | done.

Definition treeNames : list string := [ "olive"; "orange" ].

Definition treeColorMap : list (string * string) :=
  [ ("olive", "#808000"); ("orange", "#FFA500") ].

(** [getTreeColor(species)]: what [drawTree] assigns to [ctx.fillStyle] *)
Definition getTreeColor (species : value) : option string :=
  lookup_or treeColorMap species "#ffffff".

Definition batchSize : nat := 40.

Definition timelineInterval : Z := 1000.

(** A pressure factor: a quotient of numbers, which can be infinite or
    [NaN] when the divisor is zero or not a number. *)
Inductive real : Type :=
| Fin (q : Q)
| PosInf
| NegInf
| NotANumber.

(** [pop + poachingCoef * otherPop] *)
Definition demand (pop otherPop : number) (poachingCoef : Q) : option Q :=
  match pop, otherPop with
  | Num a, Num b => Some (inject_Z a + poachingCoef * inject_Z b)%Q
  | _, _ => None
  end.

(** [resource / d], where [d] is [None] for [NaN] *)
Definition quotient (resource : Q) (d : option Q) : real :=
  match d with
  | None => NotANumber
  | Some q =>
      if Qeq_bool q 0 then
        match (resource ?= 0)%Q with
        | Eq => NotANumber
        | Gt => PosInf
        | Lt => NegInf
        end
      else Fin (resource / q)%Q
  end.

(** [flipBiasedCoin(bias)], where [u] is what [Math.random()] returns *)
Definition flipBiasedCoin (bias : real) (u : sample) : bool :=
  match bias with
  | Fin b => if Qlt_le_dec (sample_Q u) b then true else false
  | PosInf => true
  | NegInf | NotANumber => false
  end.

(** The global variables, the number of random values drawn so far, and
    what the page shows ([buttonDisabled]: the [disabled] attribute of the
    start/stop button). *)
Record Globals : Type := mkGlobals {
  state : State;
  stepCount : Z;
  timer : bool;
  theForest : list Tree;
  theCensus : gmap string number;
  iron : Q;
  calcium : Q;
  poachingCoef : Q;
  timeline : gmap string (list number);
  timelineNumberOfSpecies : list Z;
  draws : nat;
  startStopButton : string;
  buttonDisabled : bool;
  stepCountDisplay : Z
}.

(** What running a piece of code with a bounded number of loop turns gives:
    its result, a thrown [TypeError], or a loop that is still turning. *)
Inductive outcome (A : Type) : Type :=
| Returns (a : A)
| Throws
| Spins.
Arguments Returns {A} a.
Arguments Throws {A}.
Arguments Spins {A}.

(** [timeline[name].push(v)] *)
Definition push (tl : gmap string (list number)) (name : string) (v : number)
    : gmap string (list number) :=
  <[name := default [] (tl !! name) ++ [v]]> tl.

(** [timelineSample()] on a census: the new timeline and the number of
    species present. *)
Definition timelineSample (census : gmap string number)
    (tl : gmap string (list number)) : gmap string (list number) * Z :=
  foldl (fun '(tl, present) name =>
           (push tl name (get census name),
            match get census name with
            | Num z => if 0 <? z then present + 1 else present
            | NaN => present
            end))
        (tl, 0) treeNames.

(** [initTimeline()] *)
Definition initTimeline : gmap string (list number) :=
  foldl (fun tl name => <[name := []]> tl) ∅ treeNames.

Section WithRandom.

Variable random : nat -> sample.

(** The loop of [testCoinFlip]: [n] turns left, one random value per turn. *)
Fixpoint testCoinFlip_loop (n : nat) (bias : real) (yeas nays : Z) (d : nat)
    : Z * Z * nat :=
  match n with
  | O => (yeas, nays, d)
  | S n' =>
      if flipBiasedCoin bias (random d)
      then testCoinFlip_loop n' bias (yeas + 1) nays (S d)
      else testCoinFlip_loop n' bias yeas (nays + 1) (S d)
  end.

(** [testCoinFlip(bias, reps)] when [d] random values have been used: the
    pair [[yeas, nays]] and the number of random values used afterwards. *)
Definition testCoinFlip (bias : real) (reps : Z) (d : nat) : Z * Z * nat :=
  testCoinFlip_loop (Z.to_nat reps) bias 0 0 d.

(** [iron / (olivePop + (poachingCoef * orangePop))] *)
Definition oliveFactor (g : Globals) : real :=
  let olivePop := get (theCensus g) "olive" in
  let orangePop := get (theCensus g) "orange" in
  quotient (iron g) (demand olivePop orangePop (poachingCoef g)).

(** [calcium / (orangePop + (poachingCoef * olivePop))] *)
Definition orangeFactor (g : Globals) : real :=
  let olivePop := get (theCensus g) "olive" in
  let orangePop := get (theCensus g) "orange" in
  quotient (calcium g) (demand orangePop olivePop (poachingCoef g)).

(** [(arrivingTree.species === "olive") ? oliveFactor : orangeFactor] *)
Definition bias (oliveFactor orangeFactor : real) (sp : value) : real :=
  if decide (sp = Str "olive") then oliveFactor else orangeFactor.

(** The [do ... while (!flipBiasedCoin(bias))] loop of [replaceTree],
    run for at most [fuel] turns from the moment [d] random values have
    been used.  Each turn draws a candidate and flips a coin.  Returns
    the index of [arrivingTree] and the number of random values used. *)
Fixpoint arrival (fuel : nat) (forest : list Tree)
    (oliveFactor orangeFactor : real) (d : nat) : outcome (Z * nat) :=
  match fuel with
  | O => Spins
  | S fuel' =>
      let i := randomIndex (Z.of_nat (length forest)) (random d) in
      match arr_get forest i with
      | None => Throws
      | Some arrivingTree =>
          if flipBiasedCoin (bias oliveFactor orangeFactor (species arrivingTree))
               (random (S d))
          then Returns (i, S (S d))
          else arrival fuel' forest oliveFactor orangeFactor (S (S d))
      end
  end.

Definition replaceTree (fuel : nat) (g : Globals) : outcome Globals :=
  let forest := theForest g in
  let departing := randomIndex (Z.of_nat (length forest)) (random (draws g)) in
  match arrival fuel forest (oliveFactor g) (orangeFactor g) (S (draws g)) with
  | Spins => Spins
  | Throws => Throws
  | Returns (arriving, d) =>
      match arr_get forest departing, arr_get forest arriving with
      | Some departingTree, Some arrivingTree =>
          let census1 := decr (theCensus g) (to_key (species departingTree)) in
          let census2 := incr census1 (to_key (species arrivingTree)) in
          let '(tl, seen) :=
            if rem_is_zero (stepCount g) (Num timelineInterval)
            then let '(tl, present) := timelineSample census2 (timeline g) in
                 (tl, timelineNumberOfSpecies g ++ [present])
            else (timeline g, timelineNumberOfSpecies g) in
          Returns
            {| state := state g;
               stepCount := stepCount g + 1;
               timer := timer g;
               theForest :=
                 <[Z.to_nat departing := set_species departingTree (species arrivingTree)]> forest;
               theCensus := census2;
               iron := iron g; calcium := calcium g;
               poachingCoef := poachingCoef g;
               timeline := tl;
               timelineNumberOfSpecies := seen;
               draws := d;
               startStopButton := startStopButton g;
               buttonDisabled := buttonDisabled g;
               stepCountDisplay := stepCountDisplay g |}
      | _, _ => Throws
      end
  end.

(** [for (let i = 0; i < n; i++) { replaceTree(); }], every rejection
    loop being given [fuel] turns. *)
Fixpoint replaceTrees (fuel : nat) (n : nat) (g : Globals) : outcome Globals :=
  match n with
  | O => Returns g
  | S n' =>
      match replaceTree fuel g with
      | Returns g' => replaceTrees fuel n' g'
      | Throws => Throws
      | Spins => Spins
      end
  end.

Definition finished (g : Globals) : bool :=
  (Z.rem (stepCount g) 500000 =? 0)
  || is_zero (get (theCensus g) "olive")
  || is_zero (get (theCensus g) "orange").

Definition set_control (g : Globals) (st : State) (tm : bool)
    (label : string) (disabled : bool) : Globals :=
  {| state := st; stepCount := stepCount g; timer := tm;
     theForest := theForest g; theCensus := theCensus g;
     iron := iron g; calcium := calcium g; poachingCoef := poachingCoef g;
     timeline := timeline g;
     timelineNumberOfSpecies := timelineNumberOfSpecies g;
     draws := draws g;
     startStopButton := label; buttonDisabled := disabled;
     stepCountDisplay := stepCountDisplay g |}.

Definition doStartStop (g : Globals) : Globals :=
  match state g with
  | idle => set_control g running true "Pause" (buttonDisabled g)
  | running => set_control g paused false "Resume" (buttonDisabled g)
  | paused => set_control g running true "Pause" (buttonDisabled g)
  | done => set_control g done false "Done" true
  end.

Definition show_stepCount (g : Globals) : Globals :=
  {| state := state g; stepCount := stepCount g; timer := timer g;
     theForest := theForest g; theCensus := theCensus g;
     iron := iron g; calcium := calcium g; poachingCoef := poachingCoef g;
     timeline := timeline g;
     timelineNumberOfSpecies := timelineNumberOfSpecies g;
     draws := draws g;
     startStopButton := startStopButton g;
     buttonDisabled := buttonDisabled g;
     stepCountDisplay := stepCount g |}.

(** The end of [runBatch], after the loop and the redraw:
    [if (finished()) { state = ... ; doStartStop(); }] *)
Definition batchEnd (g : Globals) : Globals :=
  if finished g then
    doStartStop
      (set_control g
         (if Z.rem (stepCount g) 500000 =? 0 then running else done)
         (timer g) (startStopButton g) (buttonDisabled g))
  else g.

Definition runBatch (fuel : nat) (g : Globals) : outcome Globals :=
  match replaceTrees fuel batchSize g with
  | Returns g1 => Returns (batchEnd (show_stepCount g1))
  | Throws => Throws
  | Spins => Spins
  end.

(** The body of [init()] for a forest of [treesPerRow] trees per row. *)
Definition build (treesPerRow : Z) (g : Globals) : Globals :=
  let '(forest, census, d) :=
    createForest random treeNames treesPerRow (stepCount g) (draws g) in
  {| state := idle; stepCount := stepCount g; timer := timer g;
     theForest := forest; theCensus := census;
     iron := 50; calcium := 50; poachingCoef := poachingCoef g;
     timeline := initTimeline;
     timelineNumberOfSpecies := [];
     draws := d;
     startStopButton := startStopButton g;
     buttonDisabled := buttonDisabled g;
     stepCountDisplay := stepCountDisplay g |}.

(** [init()] *)
Definition init (g : Globals) : Globals := build 25 g.

Definition doReset (g : Globals) : Globals :=
  init {| state := idle; stepCount := 0;
          timer := if state g is running then false else timer g;
          theForest := theForest g; theCensus := theCensus g;
          iron := iron g; calcium := calcium g;
          poachingCoef := poachingCoef g;
          timeline := timeline g;
          timelineNumberOfSpecies := timelineNumberOfSpecies g;
          draws := draws g;
          startStopButton := "Start"; buttonDisabled := false;
          stepCountDisplay := 0 |}.

(** [adjustResources]: [allocation] is the number read from the slider. *)
Definition adjustResources (allocation : Q) (g : Globals) : Globals :=
  {| state := state g; stepCount := stepCount g; timer := timer g;
     theForest := theForest g; theCensus := theCensus g;
     iron := allocation; calcium := (100 - allocation)%Q;
     poachingCoef := poachingCoef g;
     timeline := timeline g;
     timelineNumberOfSpecies := timelineNumberOfSpecies g;
     draws := draws g;
     startStopButton := startStopButton g;
     buttonDisabled := buttonDisabled g;
     stepCountDisplay := stepCountDisplay g |}.

(** The globals as declared, before [init()] runs: the forest, the census
    and the two resources are not yet assigned. *)
Definition declared : Globals :=
  {| state := idle; stepCount := 0; timer := false;
     theForest := []; theCensus := ∅;
     iron := 0; calcium := 0; poachingCoef := 0.25;
     timeline := initTimeline;
     timelineNumberOfSpecies := [];
     draws := 0;
     startStopButton := "Start"; buttonDisabled := false;
     stepCountDisplay := 0 |}.

(** The program as loaded: the script ends with a call of [init()]. *)
Definition loaded : Globals := init declared.

End WithRandom.

End Coexist.

(** ** [socialdx.js]: the social-distancing model *)

Module Socialdx.

Inductive State : Type := idle | running | paused.

Definition maxSteps : Z := 500000.

Definition batchSize : nat := 40.

Definition treeColorMap12 : list (string * string) :=
  [ ("aspen", "#FA8072"); ("elm", "#2c9f2c"); ("maple", "#b24242");
    ("hickory", "#FFA500"); ("hemlock", "#FFD700"); ("birch", "#51de61");
    ("beech", "#808000"); ("oak", "#84ac39"); ("pine", "#b16e6e");
    ("chestnut", "#b9a76c"); ("poplar", "#b351de"); ("spruce", "#35659d") ].

Definition treeColorMap10 : list (string * string) :=
  [ ("aspen", "#FA8072"); ("elm", "#2c9f2c"); ("maple", "#b24242");
    ("hickory", "#FFA500"); ("hemlock", "#FFD700"); ("birch", "#51de61");
    ("beech", "#808000"); ("oak", "#84ac39"); ("pine", "#b16e6e");
    ("chestnut", "#b9a76c") ].

Definition treeColorMap9 : list (string * string) :=
  [ ("aspen", "#FA8072"); ("elm", "#2c9f2c"); ("maple", "#b24242");
    ("hickory", "#FFA500"); ("hemlock", "#FFD700"); ("birch", "#51de61");
    ("beech", "#808000"); ("oak", "#84ac39"); ("pine", "#b16e6e") ].

Definition treeColorMap8 : list (string * string) :=
  [ ("aspen", "#FA8072"); ("elm", "#2c9f2c"); ("maple", "#b24242");
    ("hickory", "#FFA500"); ("hemlock", "#FFD700"); ("birch", "#51de61");
    ("beech", "#808000"); ("oak", "#84ac39") ].

Definition treeColorMap4 : list (string * string) :=
  [ ("aspen", "#FA8072"); ("hemlock", "#FFD700"); ("beech", "#808000");
    ("oak", "#84ac39") ].

(** [modAdd(a, b, m)] *)
Definition modAdd (a b m : Z) : Z :=
  let s := a + b in
  if s <? 0 then s + m
  else if s >=? m then s - m
  else s.

Definition colRowToIndex (c r s : Z) : Z := c + (r * s).

(** A tree.  [neighborTrees] holds references to trees of the forest,
    kept as their indices; [neighborSpecies] is an object whose own keys
    are all set to [true], kept as the set of its own keys. *)
Record Tree : Type := mkTree {
  idx : Z;
  col : Z;
  row : Z;
  x : Q;
  y : Q;
  r : Q;
  species : value;
  neighborTrees : list Z;
  neighborSpecies : gset string;
  birthdate : Z
}.

Definition set_species (t : Tree) (sp : value) : Tree :=
  {| idx := idx t; col := col t; row := row t; x := x t; y := y t; r := r t;
     species := sp; neighborTrees := neighborTrees t;
     neighborSpecies := neighborSpecies t; birthdate := birthdate t |}.

Definition set_neighborTrees (t : Tree) (l : list Z) : Tree :=
  {| idx := idx t; col := col t; row := row t; x := x t; y := y t; r := r t;
     species := species t; neighborTrees := l;
     neighborSpecies := neighborSpecies t; birthdate := birthdate t |}.

Definition set_neighborSpecies (t : Tree) (ns : gset string) : Tree :=
  {| idx := idx t; col := col t; row := row t; x := x t; y := y t; r := r t;
     species := species t; neighborTrees := neighborTrees t;
     neighborSpecies := ns; birthdate := birthdate t |}.

(** What [tree.draw(colorMap)] assigns to [ctx.fillStyle]:
    [colorMap[this.species] || "#ffffff"] *)
Definition fillStyle (colorMap : list (string * string)) (t : Tree) : option string :=
  lookup_or colorMap (species t) "#ffffff".

(** [neighborSpecies[sp]] as a condition: an own key, or a property
    inherited from [Object.prototype]. *)
Definition listed (ns : gset string) (sp : value) : bool :=
  bool_decide (to_key sp ∈ ns) || bool_decide (to_key sp ∈ Object_prototype_keys).

(** The [Forest] object. *)
Record Forest : Type := mkForest {
  colorMap : list (string * string);
  canvasSize : Q;
  s : Z;
  N : Z;
  trees : list Tree;
  treeNames : list string;
  census : gmap string number
}.

Definition set_trees_census (f : Forest) (ts : list Tree)
    (c : gmap string number) : Forest :=
  {| colorMap := colorMap f; canvasSize := canvasSize f; s := s f; N := N f;
     trees := ts; treeNames := treeNames f; census := c |}.

(** The indices [listNeighbors] pushes the trees of, in the order of its
    two nested loops ([h] outside, [v] inside). *)
Definition neighborIndices (col row s : Z) : list Z :=
  h ← [-1; 0; 1];
  v ← [-1; 0; 1];
  [colRowToIndex (modAdd col h s) (modAdd row v s) s].

(** [tree.listNeighbors(forest)] *)
Definition listNeighbors (t : Tree) (s : Z) : Tree :=
  set_neighborTrees t (neighborTrees t ++ neighborIndices (col t) (row t) s).

(** The loop of [listNeighborSpecies] over the remaining [neighborTrees]:
    a reference outside the array is [undefined], and reading its species
    throws. *)
Fixpoint collectSpecies (ts : list Tree) (nbrs : list Z) (acc : gset string)
    : option (gset string) :=
  match nbrs with
  | [] => Some acc
  | j :: rest =>
      t ← arr_get ts j;
      collectSpecies ts rest
        (if truthy (species t) then {[ to_key (species t) ]} ∪ acc else acc)
  end.

(** [tree.listNeighborSpecies(forest)]: the new value of the field *)
Definition listNeighborSpecies (ts : list Tree) (t : Tree) : option (gset string) :=
  collectSpecies ts (neighborTrees t) ∅.

(** The array [ring] that [countConflicts] builds for a tree: the species
    of its [neighborTrees], the one at position 4 left out.  [idx] is the
    position of the head of [nbrs]. *)
Fixpoint ringSpecies (ts : list Tree) (nbrs : list Z) (idx : nat)
    : option (list value) :=
  match nbrs with
  | [] => Some []
  | j :: rest =>
      if decide (idx = 4%nat) then ringSpecies ts rest (S idx)
      else
        val ← arr_get ts j;
        ring ← ringSpecies ts rest (S idx);
        Some (species val :: ring)
  end.

(** The number of [sp] of [ring] with [ctr === sp] *)
Definition conflictsIn (ctr : value) (ring : list value) : Z :=
  Z.of_nat (length (filter (ctr =.) ring)).

(** The loop of [countConflicts] over the remaining trees. *)
Fixpoint countConflicts_loop (ts : list Tree) (rest : list Tree) (conflicts : Z)
    : option Z :=
  match rest with
  | [] => Some conflicts
  | t :: rest' =>
      ring ← ringSpecies ts (neighborTrees t) 0;
      countConflicts_loop ts rest' (conflicts + conflictsIn (species t) ring)
  end.

(** [forest.countConflicts()] *)
Definition countConflicts (f : Forest) : option Q :=
  conflicts ← countConflicts_loop (trees f) (trees f) 0;
  Some (inject_Z conflicts / 2)%Q.

(** The variables of the tree-making loop of the constructor. *)
Record planting : Type := mkPlanting {
  p_row : Z;
  p_col : Z;
  p_x : Q;
  p_y : Q;
  p_trees : list Tree;
  p_census : gmap string number;
  p_draws : nat
}.

(** The global variables, the number of random values drawn so far, and
    what the page shows.  The timeline is not kept: [timelineOn] is
    [false] in this program. *)
Record Globals : Type := mkGlobals {
  state : State;
  stepCount : Z;
  timer : bool;
  theForest : Forest;
  draws : nat;
  startStopButton : string;
  stepCountDisplay : Z
}.

Section WithRandom.

Variable random : nat -> sample.

Definition zeroCounts (names : list string) : gmap string number :=
  foldl (fun counts sp => <[sp := Num 0]> counts) ∅ names.

(** One turn of the tree-making loop, at index [i]. *)
Definition plant (names : list string) (s : Z) (R r : Q) (stepCount : Z)
    (i : Z) (p : planting) : planting :=
  let t := mkTree i (p_col p) (p_row p) (p_x p) (p_y p) r
             (of_option (randomElement names (random (p_draws p))))
             [] ∅ stepCount in
  let col1 := p_col p + 1 in
  let col2 := if col1 >=? s then 0 else col1 in
  let row2 := if col1 >=? s then p_row p + 1 else p_row p in
  {| p_row := row2;
     p_col := col2;
     p_x := (2 * R * inject_Z col2 + R)%Q;
     p_y := (2 * R * inject_Z row2 + R)%Q;
     p_trees := p_trees p ++ [t];
     p_census := incr (p_census p) (to_key (species t));
     p_draws := S (p_draws p) |}.

(** [n] turns of the loop from index [i] on *)
Fixpoint plant_loop (n : nat) (names : list string) (s : Z) (R r : Q)
    (stepCount : Z) (i : Z) (p : planting) : planting :=
  match n with
  | O => p
  | S n' => plant_loop n' names s R r stepCount (i + 1)
              (plant names s R r stepCount i p)
  end.

(** [new Forest(gridSize, colorMap, canvasSize)] when [draws] random
    values have been used: the forest and the number of random values
    used afterwards. *)
Definition newForest (gridSize : Z) (colorMap : list (string * string))
    (canvasSize : Q) (stepCount : Z) (draws : nat) : Forest * nat :=
  let N := square gridSize in
  let names := colorMap.*1 in
  let R := (canvasSize / (inject_Z gridSize * 2))%Q in
  let r := (R - 1)%Q in
  let p := plant_loop (Z.to_nat N) names gridSize R r stepCount 0
             {| p_row := 0; p_col := 0; p_x := R; p_y := R;
                p_trees := []; p_census := zeroCounts names;
                p_draws := draws |} in
  ({| colorMap := colorMap; canvasSize := canvasSize;
      s := gridSize; N := N;
      trees := (fun t => listNeighbors t gridSize) <$> p_trees p;
      treeNames := names;
      census := p_census p |},
   p_draws p).

(** The [for] loop of [replaceTree] over the candidates, from turn [i],
    with [n] turns left: [Some sp] is the final [replacementSpecies]. *)
Fixpoint scan (ts : list Tree) (ns : gset string) (idx N : Z)
    (i : Z) (n : nat) : option value :=
  match n with
  | O => Some Null
  | S n' =>
      candidate ← arr_get ts (modAdd idx i N);
      if truthy (species candidate) && negb (listed ns (species candidate))
      then Some (species candidate)
      else scan ts ns idx N (i + 1) n'
  end.

(** [theForest.replaceTree()] *)
Definition replaceTree (g : Globals) : option Globals :=
  let f := theForest g in
  let departing := randomIndex (Z.of_nat (length (trees f))) (random (draws g)) in
  departingTree ← arr_get (trees f) departing;
  ns ← listNeighborSpecies (trees f) departingTree;
  let idx := randomIndex (N f) (random (S (draws g))) in
  replacementSpecies ← scan (trees f) ns idx (N f) 0 (Z.to_nat (N f));
  let census1 := decr (census f) (to_key (species departingTree)) in
  let departingTree' :=
    set_species (set_neighborSpecies departingTree ns) replacementSpecies in
  let census2 :=
    if truthy replacementSpecies
    then incr census1 (to_key replacementSpecies)
    else census1 in
  Some {| state := state g;
          stepCount := stepCount g + 1;
          timer := timer g;
          theForest :=
            set_trees_census f
              (<[Z.to_nat departing := departingTree']> (trees f)) census2;
          draws := S (S (draws g));
          startStopButton := startStopButton g;
          stepCountDisplay := stepCountDisplay g |}.

(** [for (let i = 0; i < n; i++) { theForest.replaceTree(); }] *)
Fixpoint replaceTrees (n : nat) (g : Globals) : option Globals :=
  match n with
  | O => Some g
  | S n' => g' ← replaceTree g; replaceTrees n' g'
  end.

Definition finished (g : Globals) : bool :=
  Z.rem (stepCount g) maxSteps =? 0.

Definition set_control (g : Globals) (st : State) (tm : bool)
    (label : string) : Globals :=
  {| state := st; stepCount := stepCount g; timer := tm;
     theForest := theForest g; draws := draws g;
     startStopButton := label; stepCountDisplay := stepCountDisplay g |}.

Definition doStartStop (g : Globals) : Globals :=
  match state g with
  | idle => set_control g running true "Pause"
  | running => set_control g paused false "Resume"
  | paused => set_control g running true "Pause"
  end.

Definition runBatch (g : Globals) : option Globals :=
  g1 ← replaceTrees batchSize g;
  let g2 := {| state := state g1; stepCount := stepCount g1;
               timer := timer g1; theForest := theForest g1;
               draws := draws g1;
               startStopButton := startStopButton g1;
               stepCountDisplay := stepCount g1 |} in
  Some (if finished g2 then doStartStop g2 else g2).

(** The globals once a forest has been built from [colorMap] with
    [gridSize] trees per row.  [init()] is [build 25 treeColorMap10 500]. *)
Definition build (gridSize : Z) (colorMap : list (string * string))
    (canvasSize : Q) (g : Globals) : Globals :=
  let '(f, d) := newForest gridSize colorMap canvasSize (stepCount g) (draws g) in
  {| state := idle; stepCount := stepCount g; timer := timer g;
     theForest := f; draws := d;
     startStopButton := startStopButton g;
     stepCountDisplay := stepCountDisplay g |}.

Definition init (g : Globals) : Globals := build 25 treeColorMap10 500 g.

Definition doReset (g : Globals) : Globals :=
  init {| state := idle; stepCount := 0;
          timer := if state g is running then false else timer g;
          theForest := theForest g; draws := draws g;
          startStopButton := "Start"; stepCountDisplay := 0 |}.

(** The globals as declared, before [init()] runs: [theForest] is not
    yet assigned, which the empty forest stands for. *)
Definition declared : Globals :=
  {| state := idle; stepCount := 0; timer := false;
     theForest := {| colorMap := []; canvasSize := 0; s := 0; N := 0;
                     trees := []; treeNames := []; census := ∅ |};
     draws := 0; startStopButton := "Start"; stepCountDisplay := 0 |}.

Definition loaded : Globals := init declared.

End WithRandom.

End Socialdx.

(** ** Plain drift

    The plain-drift model is the immigration model without immigrants.  Its
    program (ecodrift) is not one of the three embedded above: its
    replacement rule and its driver are written from their description.
    The plot and its construction are those of [Plot]. *)

Module Ecodrift.

Export Plot.

Record Globals : Type := mkGlobals {
  stepCount : Z;
  theForest : list Tree;
  theCensus : gmap string number;
  draws : nat
}.

Section WithRandom.

Variable random : nat -> sample.
Variable treeNames : list string.

(** Modelled from the spec: the replacement rule of plain drift, whose
    program is missing.  "Pick a departing cell uniformly at random from
    all N cells.  Pick an arriving species by sampling a second cell
    uniformly at random and taking its current species.  Decrement
    Census[departing.species], increment Census[arriving.species], set
    departing.species = arriving.species, advance clock by 1." *)
Definition replaceTree (g : Globals) : option Globals :=
  let forest := theForest g in
  let departing := randomIndex (Z.of_nat (length forest)) (random (draws g)) in
  arrivingTree ← randomElement forest (random (S (draws g)));
  departingTree ← arr_get forest departing;
  let census1 := decr (theCensus g) (to_key (species departingTree)) in
  let census2 := incr census1 (to_key (species arrivingTree)) in
  Some {| stepCount := stepCount g + 1;
          theForest :=
            <[Z.to_nat departing := set_species departingTree (species arrivingTree)]> forest;
          theCensus := census2;
          draws := S (S (draws g)) |}.

(** Modelled from the spec: the driver of plain drift, whose program is
    missing.  "Repeats the selected variant's replacement rule a fixed
    number of times (batch size, default 40) per invocation." *)
Fixpoint runBatch (batchSize : nat) (g : Globals) : option Globals :=
  match batchSize with
  | O => Some g
  | S n => g' ← replaceTree g; runBatch n g'
  end.

(** Modelled from the spec: the initialisation of plain drift, whose
    program is missing.  "Grid and Census are created together at
    initialization"; the clock starts at zero. *)
Definition build (treesPerRow : Z) (draws : nat) : Globals :=
  let '(forest, census, d) := createForest random treeNames treesPerRow 0 draws in
  {| stepCount := 0; theForest := forest; theCensus := census; draws := d |}.

End WithRandom.

End Ecodrift.

(* ===================================================================== *)
(** * Part II.  The vocabulary of the properties                            *)
(* ===================================================================== *)

(** ** Counting the cells that hold a species

    The species of the cells of a plot form a list of values; the
    population of [sp] is the number of its occurrences. *)

Definition population (sp : value) (cells : list value) : Z :=
  Z.of_nat (length (filter (sp =.) cells)).

(** The number of vacant cells: those whose species is [null]. *)
Definition vacancies (cells : list value) : Z := population Null cells.

(** [1] when [v] is [sp], else [0] *)
Definition one_if (sp v : value) : Z := if decide (sp = v) then 1 else 0.

(** ** Censuses

    A census is accurate for a list of names when it maps each of them to
    the number of cells that hold it. *)

Definition accurate (names : list string) (census : gmap string number)
    (cells : list value) : Prop :=
  forall k, k ∈ names -> census !! k = Some (Num (population (Str k) cells)).

(** The sum of the census counts of the names; [NaN] if one of them is not
    a number. *)
Definition census_sum (names : list string) (census : gmap string number) : number :=
  foldr (fun k acc =>
           match get census k, acc with
           | Num a, Num b => Num (a + b)
           | _, _ => NaN
           end) (Num 0) names.

(** Every cell holds one of the names. *)
Definition populated (names : list string) (cells : list value) : Prop :=
  Forall (fun v => exists k, v = Str k /\ k ∈ names) cells.

(** Every cell holds one of the names or is vacant. *)
Definition settled (names : list string) (cells : list value) : Prop :=
  Forall (fun v => v = Null \/ exists k, v = Str k /\ k ∈ names) cells.

(** A value whose property key is not mistaken for a species name: if its
    key is one of the names, the value is that name. *)
Definition key_safe (names : list string) (v : value) : Prop :=
  to_key v ∈ names -> v = Str (to_key v).

(** The census of a plot of [N] cells balances: the counts of the names and
    the vacancies add up to [N]. *)
Definition balanced (names : list string) (census : gmap string number)
    (cells : list value) (N : Z) : Prop :=
  Z.of_nat (length cells) = N
  /\ exists total,
       census_sum names census = Num total /\ total + vacancies cells = N.

(** What holds of the loop variables of [createForest] after every turn:
    the cells planted so far hold names, and the counters count them. *)
Record planted (names : list string) (p : Plot.planting) : Prop := {
  planted_species : populated names (Plot.species <$> Plot.treeVector p);
  planted_counts :
    accurate names (Plot.speciesCounts p) (Plot.species <$> Plot.treeVector p)
}.

(** ** Well-formed species sets

    The names of a species set are the keys of an object literal: they are
    distinct.  A name is ordinary when a cell that holds it is not taken
    for a vacant one (the name is not the empty string), when the property
    key of [null] is not mistaken for it, and when it is not the name of a
    property that objects inherit.  For ordinary names an object used as a
    dictionary behaves as a finite map over its keys. *)

Definition ordinary (k : string) : Prop :=
  k <> "" /\ k <> "null" /\ k ∉ Object_prototype_keys.

Definition species_set (names : list string) : Prop :=
  names <> [] /\ NoDup names /\ Forall ordinary names.

#[global] Instance ordinary_dec k : Decision (ordinary k).
Proof. unfold ordinary. apply _. Defined.

#[global] Instance species_set_dec names : Decision (species_set names).
Proof. unfold species_set. apply _. Defined.

(** ** The states a run goes through *)

(** [immigration.js]: the states reached from a forest of [s] trees per
    row by replacements, batches, the buttons and the slider. *)
Inductive imm_reachable (random : nat -> sample) (s : Z)
    : Immigration.Globals -> Prop :=
| imm_built g0 :
    imm_reachable random s (Immigration.build random s g0)
| imm_replaced g g' :
    imm_reachable random s g ->
    Immigration.replaceTree random g = Some g' ->
    imm_reachable random s g'
| imm_batch g g' :
    imm_reachable random s g ->
    Immigration.runBatch random g = Some g' ->
    imm_reachable random s g'
| imm_toggled g :
    imm_reachable random s g ->
    imm_reachable random s (Immigration.doStartStop g)
| imm_adjusted g readout :
    imm_reachable random s g ->
    imm_reachable random s (Immigration.adjustImmigrationRate readout g).

(** The competition program: likewise, every rejection loop taking as many
    turns as it needs.  [poachingCoef] is declared as [0.25] and never
    assigned. *)
Inductive coex_reachable (random : nat -> sample) (s : Z)
    : Coexist.Globals -> Prop :=
| coex_built g0 :
    Coexist.poachingCoef g0 = 0.25%Q ->
    coex_reachable random s (Coexist.build random s g0)
| coex_replaced fuel g g' :
    coex_reachable random s g ->
    Coexist.replaceTree random fuel g = Coexist.Returns g' ->
    coex_reachable random s g'
| coex_batch fuel g g' :
    coex_reachable random s g ->
    Coexist.runBatch random fuel g = Coexist.Returns g' ->
    coex_reachable random s g'
| coex_toggled g :
    coex_reachable random s g ->
    coex_reachable random s (Coexist.doStartStop g)
| coex_adjusted g allocation :
    coex_reachable random s g ->
    coex_reachable random s (Coexist.adjustResources allocation g).

(** [socialdx.js]: the states reached from [new Forest(s, colorMap, ...)]. *)
Inductive sdx_reachable (random : nat -> sample) (s : Z)
    (colorMap : list (string * string)) : Socialdx.Globals -> Prop :=
| sdx_built canvasSize g0 :
    sdx_reachable random s colorMap (Socialdx.build random s colorMap canvasSize g0)
| sdx_replaced g g' :
    sdx_reachable random s colorMap g ->
    Socialdx.replaceTree random g = Some g' ->
    sdx_reachable random s colorMap g'
| sdx_batch g g' :
    sdx_reachable random s colorMap g ->
    Socialdx.runBatch random g = Some g' ->
    sdx_reachable random s colorMap g'
| sdx_toggled g :
    sdx_reachable random s colorMap g ->
    sdx_reachable random s colorMap (Socialdx.doStartStop g).

(** Plain drift: the states reached from a fresh plot over [names]. *)
Inductive drift_reachable (random : nat -> sample) (names : list string) (s : Z)
    : Ecodrift.Globals -> Prop :=
| drift_built d :
    drift_reachable random names s (Ecodrift.build random names s d)
| drift_replaced g g' :
    drift_reachable random names s g ->
    Ecodrift.replaceTree random g = Some g' ->
    drift_reachable random names s g'.

(** The species of the cells of each program's plot, in index order. *)
Definition imm_cells (g : Immigration.Globals) : list value :=
  Plot.species <$> Immigration.theForest g.

Definition coex_cells (g : Coexist.Globals) : list value :=
  Plot.species <$> Coexist.theForest g.

Definition sdx_cells (g : Socialdx.Globals) : list value :=
  Socialdx.species <$> Socialdx.trees (Socialdx.theForest g).

Definition drift_cells (g : Ecodrift.Globals) : list value :=
  Plot.species <$> Ecodrift.theForest g.

(** [immigration.js]: the index of the departing tree and the random value
    that chooses the arriving species, in a replacement that starts from
    [g]. *)
Definition imm_departing (random : nat -> sample) (g : Immigration.Globals) : Z :=
  randomIndex (Z.of_nat (length (Immigration.theForest g)))
    (random (Immigration.draws g)).

Definition imm_second (random : nat -> sample) (g : Immigration.Globals) : sample :=
  random (S (Immigration.draws g)).

(** [immigration.js]: the invariant of a run over a plot of side [s]. *)
Definition imm_inv (s : Z) (g : Immigration.Globals) : Prop :=
  Z.of_nat (length (Immigration.theForest g)) = s * s
  /\ populated Immigration.treeNames (imm_cells g)
  /\ accurate Immigration.treeNames (Immigration.theCensus g) (imm_cells g).

(** The competition program: the invariant of a run over a plot of side
    [s]. *)
Definition coex_inv (s : Z) (g : Coexist.Globals) : Prop :=
  Z.of_nat (length (Coexist.theForest g)) = s * s
  /\ populated Coexist.treeNames (coex_cells g)
  /\ accurate Coexist.treeNames (Coexist.theCensus g) (coex_cells g)
  /\ Coexist.poachingCoef g = 0.25%Q.

(** The competition program: the index of the departing tree in a
    replacement that starts from [g]. *)
Definition coex_departing (random : nat -> sample) (g : Coexist.Globals) : Z :=
  randomIndex (Z.of_nat (length (Coexist.theForest g)))
    (random (Coexist.draws g)).

(** Turn [m] (from 0) of a rejection loop that starts when [d] random values
    have been used: the index of the candidate and the value of the coin. *)
Definition candidate (random : nat -> sample) (forest : list Plot.Tree)
    (d m : nat) : Z :=
  randomIndex (Z.of_nat (length forest)) (random (d + 2 * m)%nat).

Definition coin (random : nat -> sample) (d m : nat) : sample :=
  random (S (d + 2 * m)).

(** What turn [m] does: it accepts its candidate ([Some true]), rejects it
    ([Some false]), or throws for want of a candidate. *)
Definition turn (random : nat -> sample) (forest : list Plot.Tree)
    (oliveFactor orangeFactor : Coexist.real) (d m : nat) : option bool :=
  t ← arr_get forest (candidate random forest d m);
  Some (Coexist.flipBiasedCoin
          (Coexist.bias oliveFactor orangeFactor (Plot.species t))
          (coin random d m)).

(** Plain drift: the invariant of a run over a plot of side [s]. *)
Definition drift_inv (names : list string) (s : Z) (g : Ecodrift.Globals) : Prop :=
  Z.of_nat (length (Ecodrift.theForest g)) = s * s
  /\ populated names (drift_cells g)
  /\ accurate names (Ecodrift.theCensus g) (drift_cells g).

(** ** The toroidal neighbourhood

    The 3 x 3 block centred on the cell of linear index [i] of a grid of
    side [s], coordinates being taken modulo [s] on both axes: the indices
    of its nine cells, and those of the eight other than the centre. *)

Definition torus_cell (s i h v : Z) : Z :=
  ((i mod s + h) mod s) + ((i / s + v) mod s) * s.

Definition torus_block (s i : Z) : list Z :=
  h ← [-1; 0; 1]; v ← [-1; 0; 1]; [torus_cell s i h v].

Definition torus_ring (s i : Z) : list Z :=
  '(h, v) ← [(-1,-1); (-1,0); (-1,1); (0,-1); (0,1); (1,-1); (1,0); (1,1)];
  [torus_cell s i h v].

(** The species present in the neighbourhood of cell [i]. *)
Definition hood (s : Z) (cells : list value) (i : Z) : list value :=
  omap (arr_get cells) (torus_block s i).

(** A cell can give its species to the site [d]: it is not vacant and its
    species is not present in the neighbourhood of [d]. *)
Definition eligible (s : Z) (cells : list value) (d : Z) (v : value) : Prop :=
  v <> Null /\ v ∉ hood s cells d.

(** ** The social-distancing model *)

(** The index of the departing tree and the index the scan of candidates
    starts from, in a replacement that starts from [g]. *)
Definition sdx_departing (random : nat -> sample) (g : Socialdx.Globals) : Z :=
  randomIndex (Z.of_nat (length (Socialdx.trees (Socialdx.theForest g))))
    (random (Socialdx.draws g)).

Definition sdx_start (random : nat -> sample) (g : Socialdx.Globals) : Z :=
  randomIndex (Socialdx.N (Socialdx.theForest g)) (random (S (Socialdx.draws g))).

(** The trees of a grid of side [s]: the tree at index [i] sits in column
    [i mod s] of row [i / s] and lists the trees of its 3 x 3 block. *)
Definition gridded (s : Z) (ts : list Socialdx.Tree) : Prop :=
  Z.of_nat (length ts) = s * s
  /\ forall (i : nat) t, ts !! i = Some t ->
       Socialdx.idx t = Z.of_nat i
       /\ Socialdx.col t = Z.of_nat i mod s
       /\ Socialdx.row t = Z.of_nat i / s
       /\ Socialdx.neighborTrees t
          = Socialdx.neighborIndices (Socialdx.col t) (Socialdx.row t) s.

(** The invariant of a run of the social-distancing model. *)
Definition sdx_inv (s : Z) (colorMap : list (string * string))
    (g : Socialdx.Globals) : Prop :=
  let f := Socialdx.theForest g in
  Socialdx.s f = s
  /\ Socialdx.N f = s * s
  /\ Socialdx.treeNames f = colorMap.*1
  /\ gridded s (Socialdx.trees f)
  /\ settled (colorMap.*1) (sdx_cells g)
  /\ accurate (colorMap.*1) (Socialdx.census f) (sdx_cells g).

(** What holds of the loop variables of the constructor of [Forest] when
    the turn of index [i] starts. *)
Definition sdx_planted (s : Z) (names : list string) (i : Z)
    (p : Socialdx.planting) : Prop :=
  i = Z.of_nat (length (Socialdx.p_trees p))
  /\ 0 <= Socialdx.p_col p < s
  /\ i = Socialdx.p_row p * s + Socialdx.p_col p
  /\ (forall (j : nat) t, Socialdx.p_trees p !! j = Some t ->
        Socialdx.idx t = Z.of_nat j
        /\ Socialdx.col t = Z.of_nat j mod s
        /\ Socialdx.row t = Z.of_nat j / s
        /\ Socialdx.neighborTrees t = [])
  /\ populated names (Socialdx.species <$> Socialdx.p_trees p)
  /\ accurate names (Socialdx.p_census p) (Socialdx.species <$> Socialdx.p_trees p).

(** The test of the scan on a candidate, given the departing tree's
    [neighborSpecies]. *)
Definition fit (ns : gset string) (sp : value) : bool :=
  truthy sp && negb (Socialdx.listed ns sp).

(** No cell among those the circular scan visits from index [start] before
    its turn [j] can give its species to the site [d]. *)
Definition none_before (s : Z) (cells : list value) (d start j : Z) : Prop :=
  forall j', 0 <= j' < j ->
    exists w, arr_get cells ((start + j') mod (s * s)) = Some w
      /\ ~ eligible s cells d w.

(** The outcome of the scan for the site [d], started at index [start]:
    the species of the first cell in circular order that can give its
    species to [d], or [null] when the [s * s] cells have been visited in
    vain. *)
Definition first_eligible (s : Z) (cells : list value) (d start : Z)
    (v : value) : Prop :=
  (v = Null /\ none_before s cells d start (s * s))
  \/ (exists j, 0 <= j < s * s
        /\ arr_get cells ((start + j) mod (s * s)) = Some v
        /\ eligible s cells d v
        /\ none_before s cells d start j).

(** ** Pressure factors *)

(** A species' resource capacity divided by its own live count plus the
    poaching coefficient times the other species' live count. *)
Definition pressure (capacity : Q) (own other : Z) (poachingCoef : Q) : Q :=
  (capacity / (inject_Z own + poachingCoef * inject_Z other))%Q.

(** The count the census of [g] holds for a name. *)
Definition census_count (g : Coexist.Globals) (k : string) : Z :=
  match get (Coexist.theCensus g) k with Num z => z | NaN => 0 end.

(** The pressure factor of each of the two species, from the census of
    [g]: olive trees live on iron, orange trees on calcium. *)
Definition factor (g : Coexist.Globals) (sp : value) : option Q :=
  if decide (sp = Str "olive") then
    Some (pressure (Coexist.iron g) (census_count g "olive")
            (census_count g "orange") (Coexist.poachingCoef g))
  else if decide (sp = Str "orange") then
    Some (pressure (Coexist.calcium g) (census_count g "orange")
            (census_count g "olive") (Coexist.poachingCoef g))
  else None.

(** In a replacement that starts from [g], turn [m] of the rejection loop
    draws a candidate and a fresh random real, and the real is below the
    factor of the candidate's species; or it is not. *)
Definition accepted (random : nat -> sample) (g : Coexist.Globals) (m : nat) : Prop :=
  exists t q,
    arr_get (Coexist.theForest g)
      (candidate random (Coexist.theForest g) (S (Coexist.draws g)) m) = Some t
    /\ factor g (Plot.species t) = Some q
    /\ (sample_Q (coin random (S (Coexist.draws g)) m) < q)%Q.

Definition rejected (random : nat -> sample) (g : Coexist.Globals) (m : nat) : Prop :=
  exists t q,
    arr_get (Coexist.theForest g)
      (candidate random (Coexist.theForest g) (S (Coexist.draws g)) m) = Some t
    /\ factor g (Plot.species t) = Some q
    /\ ~ (sample_Q (coin random (S (Coexist.draws g)) m) < q)%Q.

(** ** Sample runs *)

(** A stream of random values: the multiples of 1/101 in the order
    11, 48, 85, 21, ... (steps of 37 modulo 101). *)
Definition shuffled (n : nat) : sample :=
  {| s_num := (n * 37 + 11) mod 101; s_gap := 100 - (n * 37 + 11) mod 101 |}.

(** A stream of random values for the competition program: every
    replacement draws 0 (the departing tree is the first one), then 1/2
    (the candidate is the tree in the middle of the array), then 0 (the coin
    accepts under any positive factor). *)
Definition steady (n : nat) : sample :=
  match (n mod 3)%nat with
  | 1%nat => {| s_num := 1; s_gap := 0 |}
  | _ => {| s_num := 0; s_gap := 0 |}
  end.

(** The competition program running at step [clock], when a single olive
    tree is left, at index 0 of the 625 trees: the plot of the loaded
    program, relabelled. *)
Definition last_olive (clock : Z) : Coexist.Globals :=
  let g := Coexist.loaded shuffled in
  {| Coexist.state := Coexist.running;
     Coexist.stepCount := clock;
     Coexist.timer := true;
     Coexist.theForest :=
       imap (fun i t => Plot.set_species t
                          (Str (if decide (i = 0%nat) then "olive" else "orange")))
            (Coexist.theForest g);
     Coexist.theCensus := {[ "olive" := Num 1; "orange" := Num 624 ]};
     Coexist.iron := 50; Coexist.calcium := 50;
     Coexist.poachingCoef := 0.25;
     Coexist.timeline := Coexist.initTimeline;
     Coexist.timelineNumberOfSpecies := [];
     Coexist.draws := 0;
     Coexist.startStopButton := "Pause";
     Coexist.buttonDisabled := false;
     Coexist.stepCountDisplay := clock |}.

(** What matters of the outcome of a batch: the count of olive trees, the
    step count and the state. *)
Definition batch_summary (r : Coexist.outcome Coexist.Globals)
    : option (number * Z * Coexist.State) :=
  match r with
  | Coexist.Returns g =>
      Some (get (Coexist.theCensus g) "olive", Coexist.stepCount g, Coexist.state g)
  | _ => None
  end.

(* ===================================================================== *)
(** * Part II, continued.  Vocabulary of the further properties            *)
(* ===================================================================== *)

(** ** The layout of a plot *)

(** The tree planted at index [j] of a plot of side [s], drawn with disks
    of half-spacing [R], at step [stepCount]: it sits in column [j mod s] of
    row [j / s], its disk is centred on the middle of its square, with the
    radius [R - 1], and it is born at [stepCount]. *)
Definition plot_site (s : Z) (R : Q) (stepCount : Z) (j : nat) (t : Plot.Tree)
    : Prop :=
  Plot.col t = Z.of_nat j mod s
  /\ Plot.row t = Z.of_nat j / s
  /\ (Plot.x t == 2 * R * inject_Z (Plot.col t) + R)%Q
  /\ (Plot.y t == 2 * R * inject_Z (Plot.row t) + R)%Q
  /\ Plot.r t = (R - 1)%Q
  /\ Plot.birthdate t = stepCount.

(** What holds of the loop variables of [createForest] when a turn starts:
    the next position, and the sites of the trees planted so far. *)
Definition plot_laid (s : Z) (R r : Q) (stepCount : Z) (p : Plot.planting) : Prop :=
  0 <= Plot.p_col p < s
  /\ Z.of_nat (length (Plot.treeVector p)) = Plot.p_row p * s + Plot.p_col p
  /\ (Plot.p_x p == 2 * R * inject_Z (Plot.p_col p) + R)%Q
  /\ (Plot.p_y p == 2 * R * inject_Z (Plot.p_row p) + R)%Q
  /\ r = (R - 1)%Q
  /\ forall (j : nat) t, Plot.treeVector p !! j = Some t -> plot_site s R stepCount j t.

(** The species of the trees planted so far come from the random values
    [d], [d + 1], ... in order, one for each tree. *)
Definition plot_drawn (random : nat -> sample) (names : list string) (d : nat)
    (p : Plot.planting) : Prop :=
  Plot.p_draws p = (d + length (Plot.treeVector p))%nat
  /\ forall (j : nat) t, Plot.treeVector p !! j = Some t ->
       Plot.species t = of_option (randomElement names (random (d + j)%nat)).

(** The same for a tree of the social-distancing model. *)
Definition sdx_site (s : Z) (R : Q) (stepCount : Z) (j : nat) (t : Socialdx.Tree)
    : Prop :=
  Socialdx.idx t = Z.of_nat j
  /\ Socialdx.col t = Z.of_nat j mod s
  /\ Socialdx.row t = Z.of_nat j / s
  /\ (Socialdx.x t == 2 * R * inject_Z (Socialdx.col t) + R)%Q
  /\ (Socialdx.y t == 2 * R * inject_Z (Socialdx.row t) + R)%Q
  /\ Socialdx.r t = (R - 1)%Q
  /\ Socialdx.birthdate t = stepCount.

Definition sdx_laid (s : Z) (R r : Q) (stepCount : Z) (i : Z)
    (p : Socialdx.planting) : Prop :=
  i = Z.of_nat (length (Socialdx.p_trees p))
  /\ 0 <= Socialdx.p_col p < s
  /\ i = Socialdx.p_row p * s + Socialdx.p_col p
  /\ (Socialdx.p_x p == 2 * R * inject_Z (Socialdx.p_col p) + R)%Q
  /\ (Socialdx.p_y p == 2 * R * inject_Z (Socialdx.p_row p) + R)%Q
  /\ r = (R - 1)%Q
  /\ forall (j : nat) t, Socialdx.p_trees p !! j = Some t -> sdx_site s R stepCount j t.

Definition sdx_drawn (random : nat -> sample) (names : list string) (d : nat)
    (p : Socialdx.planting) : Prop :=
  Socialdx.p_draws p = (d + length (Socialdx.p_trees p))%nat
  /\ forall (j : nat) t, Socialdx.p_trees p !! j = Some t ->
       Socialdx.species t = of_option (randomElement names (random (d + j)%nat))
       /\ Socialdx.neighborTrees t = []
       /\ Socialdx.neighborSpecies t = ∅.

(** The trees of a plot keep their sites: the forest has [s * s] trees, and
    the tree of index [j] is at the site of index [j]. *)
Definition plot_frame (s : Z) (R : Q) (born : Z) (forest : list Plot.Tree) : Prop :=
  length forest = Z.to_nat (s * s)
  /\ forall (j : nat) t, forest !! j = Some t -> plot_site s R born j t.

(** The same for the forest of the social-distancing model, whose trees
    also keep the list of their nine neighbours. *)
Definition sdx_frame (s : Z) (R : Q) (born : Z) (f : Socialdx.Forest) : Prop :=
  Socialdx.s f = s
  /\ Socialdx.N f = s * s
  /\ length (Socialdx.trees f) = Z.to_nat (s * s)
  /\ forall (j : nat) t, Socialdx.trees f !! j = Some t ->
       sdx_site s R born j t
       /\ Socialdx.neighborTrees t = torus_block s (Z.of_nat j).

(** ** Sessions

    What the page goes through once the script is loaded: clicks on the
    start/stop button (or on the canvas), clicks on the reset button, calls
    of [runBatch] by the interval timer while one is installed, and moves
    of the slider. *)

Inductive imm_session (random : nat -> sample) : Immigration.Globals -> Prop :=
| imm_loaded :
    imm_session random (Immigration.loaded random)
| imm_click g :
    imm_session random g ->
    imm_session random (Immigration.doStartStop g)
| imm_reset g :
    imm_session random g ->
    imm_session random (Immigration.doReset random g)
| imm_tick g g' :
    imm_session random g ->
    Immigration.timer g = true ->
    Immigration.runBatch random g = Some g' ->
    imm_session random g'
| imm_slide g readout :
    imm_session random g ->
    imm_session random (Immigration.adjustImmigrationRate readout g).

Inductive coex_session (random : nat -> sample) : Coexist.Globals -> Prop :=
| coex_loaded :
    coex_session random (Coexist.loaded random)
| coex_click g :
    coex_session random g ->
    coex_session random (Coexist.doStartStop g)
| coex_reset g :
    coex_session random g ->
    coex_session random (Coexist.doReset random g)
| coex_tick fuel g g' :
    coex_session random g ->
    Coexist.timer g = true ->
    Coexist.runBatch random fuel g = Coexist.Returns g' ->
    coex_session random g'
| coex_slide g allocation :
    coex_session random g ->
    coex_session random (Coexist.adjustResources allocation g).

Inductive sdx_session (random : nat -> sample) : Socialdx.Globals -> Prop :=
| sdx_loaded :
    sdx_session random (Socialdx.loaded random)
| sdx_click g :
    sdx_session random g ->
    sdx_session random (Socialdx.doStartStop g)
| sdx_reset g :
    sdx_session random g ->
    sdx_session random (Socialdx.doReset random g)
| sdx_tick g g' :
    sdx_session random g ->
    Socialdx.timer g = true ->
    Socialdx.runBatch random g = Some g' ->
    sdx_session random g'.

(** What holds of the controls of [immigration.js] between two events: a
    timer is installed exactly while the state is [running]; the button
    reads "Pause" while running and "Resume" while paused; the step count
    is a multiple of the batch size, and it is the number the page shows
    as soon as a batch has run; the state is [idle] only before the first
    step. *)
Definition imm_control (g : Immigration.Globals) : Prop :=
  (Immigration.timer g = true <-> Immigration.state g = Immigration.running)
  /\ (Immigration.state g = Immigration.running ->
      Immigration.startStopButton g = "Pause")
  /\ (Immigration.state g = Immigration.paused ->
      Immigration.startStopButton g = "Resume")
  /\ 0 <= Immigration.stepCount g
  /\ (Z.of_nat Immigration.batchSize | Immigration.stepCount g)
  /\ (Immigration.stepCount g = 0
      \/ Immigration.stepCountDisplay g = Immigration.stepCount g)
  /\ (Immigration.state g = Immigration.idle -> Immigration.stepCount g = 0).

(** [n] calls of [runBatch] in a row *)
Fixpoint imm_batches (random : nat -> sample) (n : nat) (g : Immigration.Globals)
    : option Immigration.Globals :=
  match n with
  | O => Some g
  | S n' => g' ← Immigration.runBatch random g; imm_batches random n' g'
  end.

(** What holds of the controls of the competition program between two
    events. *)
Definition coex_control (g : Coexist.Globals) : Prop :=
  (Coexist.timer g = true <-> Coexist.state g = Coexist.running)
  /\ (Coexist.state g = Coexist.running -> Coexist.startStopButton g = "Pause")
  /\ (Coexist.state g = Coexist.paused -> Coexist.startStopButton g = "Resume")
  /\ (Coexist.state g = Coexist.done ->
      Coexist.startStopButton g = "Done"
      /\ Coexist.buttonDisabled g = true
      /\ (is_zero (get (Coexist.theCensus g) "olive") = true
          \/ is_zero (get (Coexist.theCensus g) "orange") = true))
  /\ 0 <= Coexist.stepCount g
  /\ (Z.of_nat Coexist.batchSize | Coexist.stepCount g)
  /\ (Coexist.stepCount g = 0
      \/ Coexist.stepCountDisplay g = Coexist.stepCount g)
  /\ (Coexist.state g = Coexist.idle -> Coexist.stepCount g = 0).

(** The timeline of the competition program: one sample for every
    [timelineInterval] steps begun since the last reset; a sample holds the
    two counts of the census, which add up to the 625 trees, and the number
    of species present. *)
Definition coex_sampled (g : Coexist.Globals) : Prop :=
  exists olives oranges : list number,
    Coexist.timeline g !! "olive" = Some olives
    /\ Coexist.timeline g !! "orange" = Some oranges
    /\ Z.of_nat (length olives)
       = (Coexist.stepCount g + (Coexist.timelineInterval - 1))
         / Coexist.timelineInterval
    /\ length oranges = length olives
    /\ length (Coexist.timelineNumberOfSpecies g) = length olives
    /\ forall (i : nat) present,
         Coexist.timelineNumberOfSpecies g !! i = Some present ->
         exists a b,
           olives !! i = Some (Num a) /\ oranges !! i = Some (Num b)
           /\ 0 <= a /\ 0 <= b /\ a + b = 625
           /\ present = (if 0 <? a then 1 else 0) + (if 0 <? b then 1 else 0).

(** What follows a state of the competition program as long as the reset
    button is not used. *)
Inductive coex_later (random : nat -> sample) (g : Coexist.Globals)
    : Coexist.Globals -> Prop :=
| coex_now : coex_later random g g
| coex_then_replaced fuel g1 g2 :
    coex_later random g g1 ->
    Coexist.replaceTree random fuel g1 = Coexist.Returns g2 ->
    coex_later random g g2
| coex_then_batch fuel g1 g2 :
    coex_later random g g1 ->
    Coexist.runBatch random fuel g1 = Coexist.Returns g2 ->
    coex_later random g g2
| coex_then_toggled g1 :
    coex_later random g g1 ->
    coex_later random g (Coexist.doStartStop g1)
| coex_then_adjusted g1 allocation :
    coex_later random g g1 ->
    coex_later random g (Coexist.adjustResources allocation g1).

(** The same for the social-distancing model. *)
Inductive sdx_later (random : nat -> sample) (g : Socialdx.Globals)
    : Socialdx.Globals -> Prop :=
| sdx_now : sdx_later random g g
| sdx_then_replaced g1 g2 :
    sdx_later random g g1 ->
    Socialdx.replaceTree random g1 = Some g2 ->
    sdx_later random g g2
| sdx_then_batch g1 g2 :
    sdx_later random g g1 ->
    Socialdx.runBatch random g1 = Some g2 ->
    sdx_later random g g2
| sdx_then_toggled g1 :
    sdx_later random g g1 ->
    sdx_later random g (Socialdx.doStartStop g1).

(** The number of heads among the [n] flips of a coin of the given bias
    that use the random values of index [d], [d + 1], ... *)
Definition heads (random : nat -> sample) (bias : Coexist.real) (d n : nat) : Z :=
  Z.of_nat (length (filter (fun i => Coexist.flipBiasedCoin bias (random i) = true)
                      (seq d n))).

(** What holds of the controls of [socialdx.js] between two events. *)
Definition sdx_control (g : Socialdx.Globals) : Prop :=
  (Socialdx.timer g = true <-> Socialdx.state g = Socialdx.running)
  /\ (Socialdx.state g = Socialdx.running -> Socialdx.startStopButton g = "Pause")
  /\ (Socialdx.state g = Socialdx.paused -> Socialdx.startStopButton g = "Resume")
  /\ 0 <= Socialdx.stepCount g
  /\ (Z.of_nat Socialdx.batchSize | Socialdx.stepCount g)
  /\ (Socialdx.stepCount g = 0
      \/ Socialdx.stepCountDisplay g = Socialdx.stepCount g)
  /\ (Socialdx.state g = Socialdx.idle -> Socialdx.stepCount g = 0).

(** A stream of random values that plants the nine species of
    [treeColorMap9], one in each cell of a grid of side 3: the multiples of
    1/9, in order, again and again. *)
Definition ninths (n : nat) : sample :=
  {| s_num := n mod 9; s_gap := 8 - n mod 9 |}.

(** ** Conflicts

    Two neighbouring cells clash when they hold the same value.  The
    number of clashes of a grid counts every cell against each of its eight
    toroidal neighbours, so that a pair of neighbours is counted from both
    sides. *)

Definition ring_offsets : list (Z * Z) :=
  [(-1,-1); (-1,0); (-1,1); (0,-1); (0,1); (1,-1); (1,0); (1,1)].

Definition sumZ (l : list Z) : Z := foldr Z.add 0 l.

(** [1] when the cell at the offset [o] from the cell [i] holds what the
    cell [i] holds, else [0] *)
Definition clash (s : Z) (cells : list value) (i : Z) (o : Z * Z) : Z :=
  if decide (arr_get cells (torus_cell s i o.1 o.2) = arr_get cells i) then 1 else 0.

Definition clashes_at (s : Z) (cells : list value) (i : Z) : Z :=
  sumZ (clash s cells i <$> ring_offsets).

Definition clashes (s : Z) (cells : list value) : Z :=
  sumZ (clashes_at s cells <$> seqZ 0 (Z.of_nat (length cells))).

(** The clashes in the direction [o], over the whole grid *)
Definition clashes_along (s : Z) (cells : list value) (o : Z * Z) : Z :=
  sumZ ((fun i => clash s cells i o) <$> seqZ 0 (Z.of_nat (length cells))).

(** ** Indices drawn at random

    [Math.floor(u * len)] by its arithmetic: [i] is the integer part of
    the product of [u] and [len]. *)

Definition floor_of (u : sample) (len i : Z) : Prop :=
  (inject_Z i <= sample_Q u * inject_Z len)%Q
  /\ (sample_Q u * inject_Z len < inject_Z i + 1)%Q.

(** The value of [Math.random()] that is the fraction [i / len], for
    [0 <= i < len] *)
Definition fraction (i len : Z) : sample :=
  {| s_num := Z.to_nat i; s_gap := Z.to_nat (len - i - 1) |}.

#[global] Instance Qlt_decision (x y : Q) : Decision (x < y)%Q.
Proof. unfold Qlt. apply _. Defined.

(** The number of the random values of index [d], [d + 1], ...,
    [d + n - 1] that are below [b] *)
Definition below_count (random : nat -> sample) (b : Q) (d n : nat) : Z :=
  Z.of_nat (length (filter (fun i => (sample_Q (random i) < b)%Q) (seq d n))).

(** ** The keys of an object literal

    [Object.keys] lists the keys of a literal in the order the literal has
    them when no key is written twice and none is the decimal numeral of an
    array index (those come first, in increasing order); the key
    [__proto__] of a literal makes no property.  No numeral starts with
    anything but a digit. *)

Definition starts_with_digit (k : string) : bool :=
  match k with
  | String c _ =>
      (48 <=? Ascii.nat_of_ascii c)%nat && (Ascii.nat_of_ascii c <=? 57)%nat
  | EmptyString => false
  end.

Definition keys_as_written (keys : list string) : Prop :=
  NoDup keys
  /\ Forall (fun k => starts_with_digit k = false /\ k <> "__proto__") keys.

#[global] Instance keys_as_written_dec keys : Decision (keys_as_written keys).
Proof. unfold keys_as_written. apply _. Defined.

(** ** The globals, the timer handle apart

    [timer] holds the handle [setInterval] returns, a new one at every
    call; the embedding keeps only whether a timer is installed.  Two
    states agree apart from the timer when every other global, and what
    the page shows, is the same in both. *)



(* ===================================================================== *)
(** * Part III.  Properties                                                 *)
(* ===================================================================== *)

(** ** Random indices *)

Lemma randomIndex_unfold (len : Z) (u : sample) :
  randomIndex len u
  = (Z.of_nat (s_num u) * len) / Z.pos (Pos.of_succ_nat (s_num u + s_gap u)).
Proof.
  unfold randomIndex, sample_Q, Qfloor, Qmult, inject_Z. simpl.
  by rewrite Pos.mul_1_r.
Qed.

Lemma randomIndex_range (len : Z) (u : sample) :
  0 < len -> 0 <= randomIndex len u < len.
Proof.
  intros Hlen. rewrite randomIndex_unfold.
  set (a := Z.of_nat (s_num u)).
  set (b := Z.pos (Pos.of_succ_nat (s_num u + s_gap u))).
  assert (Ha : 0 <= a) by (unfold a; lia).
  assert (Hb : a < b) by (unfold a, b; lia).
  split.
  - apply Z.div_pos; nia.
  - apply Z.div_lt_upper_bound; nia.
Qed.

Lemma randomIndex_zero (u : sample) : randomIndex 0 u = 0.
Proof. rewrite randomIndex_unfold, Z.mul_0_r. apply Z.div_0_l. lia. Qed.

Lemma arr_get_Some {A : Type} (arr : list A) (i : Z) (a : A) :
  arr_get arr i = Some a <-> 0 <= i /\ arr !! Z.to_nat i = Some a.
Proof.
  unfold arr_get. destruct (Z.ltb_spec i 0).
  - split; [done | lia].
  - split; [by intros; split; [lia|] | by intros [_ ?]].
Qed.

Lemma arr_get_in_range {A : Type} (arr : list A) (i : Z) :
  0 <= i < Z.of_nat (length arr) -> is_Some (arr_get arr i).
Proof.
  intros Hi. unfold arr_get. destruct (Z.ltb_spec i 0); [lia|].
  apply lookup_lt_is_Some. lia.
Qed.

Lemma arr_get_nat {A : Type} (arr : list A) (i : nat) :
  arr_get arr (Z.of_nat i) = arr !! i.
Proof.
  unfold arr_get. destruct (Z.ltb_spec (Z.of_nat i) 0); [lia|].
  by rewrite Nat2Z.id.
Qed.

Lemma arr_get_fmap {A B : Type} (f : A -> B) (arr : list A) (i : Z) :
  arr_get (f <$> arr) i = f <$> arr_get arr i.
Proof. unfold arr_get. destruct (i <? 0); [done|]. apply list_lookup_fmap. Qed.

Lemma randomElement_is_Some {A : Type} (arr : list A) (u : sample) :
  arr <> [] -> is_Some (randomElement arr u).
Proof.
  intros Hne. apply arr_get_in_range, randomIndex_range.
  destruct arr; [done | simpl; lia].
Qed.

Lemma randomElement_elem_of {A : Type} (arr : list A) (u : sample) (a : A) :
  randomElement arr u = Some a -> a ∈ arr.
Proof.
  unfold randomElement. rewrite arr_get_Some. intros [_ H].
  by eapply list_elem_of_lookup_2.
Qed.

(** ** Populations *)

Lemma population_nil sp : population sp [] = 0.
Proof. done. Qed.

Lemma population_cons sp v cells :
  population sp (v :: cells) = one_if sp v + population sp cells.
Proof.
  unfold population, one_if. rewrite filter_cons.
  destruct (decide (sp = v)); simpl; lia.
Qed.

Lemma population_app sp l1 l2 :
  population sp (l1 ++ l2) = population sp l1 + population sp l2.
Proof.
  unfold population. rewrite filter_app, length_app. lia.
Qed.

Lemma population_nonneg sp cells : 0 <= population sp cells.
Proof. unfold population. lia. Qed.

Lemma population_insert sp cells (i : nat) old v :
  cells !! i = Some old ->
  population sp (<[i := v]> cells)
  = population sp cells - one_if sp old + one_if sp v.
Proof.
  intros Hi.
  assert (Hlt : (i < length cells)%nat) by (by eapply lookup_lt_Some).
  pose proof (take_drop_middle cells i old Hi) as E.
  assert (population sp cells
          = population sp (take i cells)
            + (one_if sp old + population sp (drop (S i) cells))) as ->.
  { rewrite <- E at 1. by rewrite population_app, population_cons. }
  rewrite insert_take_drop, population_app, population_cons by done. lia.
Qed.

Lemma populated_settled names cells : populated names cells -> settled names cells.
Proof.
  intros H. eapply Forall_impl; [exact H|].
  intros v (k & -> & Hk). right. eauto.
Qed.

Lemma populated_no_vacancy names cells : populated names cells -> vacancies cells = 0.
Proof.
  unfold vacancies. induction 1 as [|v cells [k [-> _]] _ IH]; [done|].
  rewrite population_cons, IH. unfold one_if. by case_decide.
Qed.

(** ** Census updates *)

Lemma lookup_decr census k k' :
  decr census k !! k' = if decide (k = k') then Some (sub1 (get census k)) else census !! k'.
Proof. unfold decr. apply lookup_insert. Qed.

Lemma lookup_incr census k k' :
  incr census k !! k' = if decide (k = k') then Some (add1 (get census k)) else census !! k'.
Proof. unfold incr. apply lookup_insert. Qed.

Lemma accurate_get names census cells k :
  accurate names census cells -> k ∈ names ->
  get census k = Num (population (Str k) cells).
Proof. intros Hacc Hk. unfold get. by rewrite (Hacc k Hk). Qed.

Lemma key_safe_Str names k : key_safe names (Str k).
Proof. by intros _. Qed.

Lemma accurate_decr names census cells old k :
  key_safe names old -> k ∈ names -> accurate names census cells ->
  decr census (to_key old) !! k
  = Some (Num (population (Str k) cells - one_if (Str k) old)).
Proof.
  intros Hsafe Hk Hacc. rewrite lookup_decr. unfold one_if.
  destruct (decide (to_key old = k)) as [<-|Hne].
  - rewrite (accurate_get _ _ _ _ Hacc Hk). simpl.
    rewrite decide_True by (by rewrite <- Hsafe). done.
  - rewrite (Hacc k Hk). rewrite decide_False; [by rewrite Z.sub_0_r|].
    intros <-. by apply Hne.
Qed.

Lemma lookup_incr_Num census arr k z :
  census !! k = Some (Num z) ->
  incr census arr !! k = Some (Num (z + one_if (Str k) (Str arr))).
Proof.
  intros Hk. rewrite lookup_incr. unfold one_if.
  destruct (decide (arr = k)) as [->|Hne].
  - unfold get. rewrite Hk. simpl. by rewrite decide_True.
  - rewrite Hk, decide_False; [by rewrite Z.add_0_r | congruence].
Qed.

(** The census update of a replacement keeps the census accurate. *)
Lemma accurate_replace names census cells (i : nat) old arr :
  cells !! i = Some old -> key_safe names old ->
  accurate names census cells ->
  accurate names (incr (decr census (to_key old)) arr) (<[i := Str arr]> cells).
Proof.
  intros Hi Hsafe Hacc k Hk.
  rewrite (lookup_incr_Num _ _ _ _ (accurate_decr _ _ _ _ _ Hsafe Hk Hacc)).
  by rewrite (population_insert _ _ _ _ _ Hi).
Qed.

(** So does the census update of a cell that is left vacant. *)
Lemma accurate_vacate names census cells (i : nat) old :
  cells !! i = Some old -> key_safe names old ->
  accurate names census cells ->
  accurate names (decr census (to_key old)) (<[i := Null]> cells).
Proof.
  intros Hi Hsafe Hacc k Hk.
  rewrite (accurate_decr _ _ _ _ _ Hsafe Hk Hacc).
  rewrite (population_insert _ _ _ _ _ Hi).
  assert (one_if (Str k) Null = 0) as -> by (unfold one_if; by rewrite decide_False).
  by rewrite Z.add_0_r.
Qed.

(** *** The sum of an accurate census *)

Lemma census_sum_accurate names census cells :
  accurate names census cells ->
  census_sum names census
  = Num (foldr (fun k acc => population (Str k) cells + acc) 0 names).
Proof.
  induction names as [|k names IH]; intros Hacc; [done|].
  simpl. rewrite (accurate_get _ _ _ _ Hacc) by left.
  rewrite IH; [done|]. intros k' Hk'. apply Hacc. by right.
Qed.

Lemma sum_populations_nil names :
  foldr (fun k acc => population (Str k) [] + acc) 0 names = 0.
Proof. induction names as [|k names IH]; simpl; [done|]. by rewrite IH. Qed.

Lemma sum_populations_cons names v cells :
  foldr (fun k acc => population (Str k) (v :: cells) + acc) 0 names
  = foldr (fun k acc => one_if (Str k) v + acc) 0 names
    + foldr (fun k acc => population (Str k) cells + acc) 0 names.
Proof.
  induction names as [|k names IH]; simpl; [done|].
  rewrite IH, population_cons. lia.
Qed.

Lemma sum_one_if_absent names v :
  (forall k, k ∈ names -> v <> Str k) ->
  foldr (fun k acc => one_if (Str k) v + acc) 0 names = 0.
Proof.
  induction names as [|k names IH]; intros Hv; simpl; [done|].
  rewrite IH by (intros k' Hk'; apply Hv; by right).
  unfold one_if. rewrite decide_False; [done|].
  intros E. by apply (Hv k); [left|].
Qed.

Lemma sum_one_if_present names k0 :
  NoDup names -> k0 ∈ names ->
  foldr (fun k acc => one_if (Str k) (Str k0) + acc) 0 names = 1.
Proof.
  induction 1 as [|k names Hk Hnd IH]; intros Hin; simpl.
  - by apply elem_of_nil in Hin.
  - unfold one_if at 1. destruct (decide (Str k = Str k0)) as [E|Hne].
    + injection E as ->. rewrite sum_one_if_absent; [done|].
      intros k' Hk' [= ->]. done.
    + apply elem_of_cons in Hin as [->|Hin]; [done|]. by rewrite IH.
Qed.

(** The populations of the names and the vacancies add up to the number of
    cells. *)
Lemma sum_populations names cells :
  NoDup names -> settled names cells ->
  foldr (fun k acc => population (Str k) cells + acc) 0 names + vacancies cells
  = Z.of_nat (length cells).
Proof.
  intros Hnd. unfold vacancies.
  induction 1 as [|v cells Hv _ IH].
  - by rewrite sum_populations_nil.
  - rewrite sum_populations_cons, population_cons.
    cbn [length]. rewrite Nat2Z.inj_succ, <- IH.
    destruct Hv as [->|(k & -> & Hk)].
    + rewrite sum_one_if_absent by done. unfold one_if.
      rewrite decide_True by done. lia.
    + rewrite sum_one_if_present by done. unfold one_if.
      rewrite decide_False by done. lia.
Qed.

Lemma accurate_balanced names census cells N :
  NoDup names -> settled names cells -> accurate names census cells ->
  Z.of_nat (length cells) = N ->
  balanced names census cells N.
Proof.
  intros Hnd Hset Hacc <-. split; [done|]. eexists. split.
  - by apply census_sum_accurate.
  - by apply sum_populations.
Qed.

(** *** Zeroed counters *)

Lemma zero_fold_lookup names (m : gmap string number) k :
  foldl (fun counts sp => <[sp := Num 0]> counts) m names !! k
  = if decide (k ∈ names) then Some (Num 0) else m !! k.
Proof.
  revert m. induction names as [|k' names IH]; intros m.
  - destruct (decide (k ∈ [])) as [H|_]; [by apply elem_of_nil in H | done].
  - cbn [foldl]. rewrite IH, lookup_insert.
    destruct (decide (k ∈ names)) as [Hin|Hnin].
    + destruct (decide (k ∈ k' :: names)) as [_|Hn]; [done|].
      exfalso. apply Hn. by right.
    + destruct (decide (k' = k)) as [->|Hne].
      * destruct (decide (k ∈ k :: names)) as [_|Hn]; [done|].
        exfalso. apply Hn. by left.
      * destruct (decide (k ∈ k' :: names)) as [Hin|_]; [|done].
        apply elem_of_cons in Hin as [->|?]; done.
Qed.

(** ** Species sets *)

Lemma species_set_nonempty names : species_set names -> names <> [].
Proof. by intros [? _]. Qed.

Lemma species_set_NoDup names : species_set names -> NoDup names.
Proof. by intros (_ & ? & _). Qed.

Lemma species_set_ordinary names k : species_set names -> k ∈ names -> ordinary k.
Proof. intros (_ & _ & H) Hk. by eapply Forall_forall in H. Qed.

Lemma species_set_truthy names k :
  species_set names -> k ∈ names -> truthy (Str k) = true.
Proof.
  intros Hs Hk. destruct (species_set_ordinary _ _ Hs Hk) as (Hne & _).
  simpl. destruct (String.eqb_spec k ""); done.
Qed.

(** In a settled plot over ordinary names, no cell's key is mistaken for a
    name. *)
Lemma settled_key_safe names cells (i : nat) v :
  species_set names -> settled names cells -> cells !! i = Some v ->
  key_safe names v.
Proof.
  intros Hs Hset Hi Hkey.
  eapply Forall_lookup_1 in Hset; [|exact Hi].
  destruct Hset as [->|(k & -> & _)]; [|done].
  destruct (species_set_ordinary _ _ Hs Hkey) as (_ & Hnull & _). done.
Qed.

Lemma randomElement_name names u :
  names <> [] ->
  exists k, of_option (randomElement names u) = Str k /\ k ∈ names.
Proof.
  intros Hne. destruct (randomElement_is_Some names u Hne) as [k Hk].
  exists k. rewrite Hk. split; [done|]. by eapply randomElement_elem_of.
Qed.

(** ** Construction of the plot of the drift programs *)

Section PlotProperties.

Variable random : nat -> sample.
Variable names : list string.
Hypothesis names_nonempty : names <> [].

Lemma plant_planted treesPerRow R r stepCount p :
  planted names p -> planted names (Plot.plant random names treesPerRow R r stepCount p).
Proof.
  intros [Hpop Hacc].
  destruct (randomElement_name names (random (Plot.p_draws p)) names_nonempty)
    as (k & Hk & Hin).
  split; unfold Plot.plant; cbn [Plot.treeVector Plot.speciesCounts Plot.species];
    rewrite fmap_app; cbn [fmap list_fmap Plot.species]; rewrite Hk.
  - apply Forall_app. split; [done|]. apply Forall_singleton. eauto.
  - intros k' Hk'. cbn [to_key].
    rewrite (lookup_incr_Num _ _ _ _ (Hacc k' Hk')).
    rewrite population_app, population_cons, population_nil. do 2 f_equal. lia.
Qed.

Lemma plant_loop_planted n treesPerRow R r stepCount p :
  planted names p ->
  planted names (Plot.plant_loop random names n treesPerRow R r stepCount p).
Proof.
  revert p. induction n as [|n IH]; intros p Hp; [done|].
  cbn [Plot.plant_loop]. by apply IH, plant_planted.
Qed.

Lemma plant_loop_length n treesPerRow R r stepCount p :
  length (Plot.treeVector (Plot.plant_loop random names n treesPerRow R r stepCount p))
  = (length (Plot.treeVector p) + n)%nat.
Proof.
  revert p. induction n as [|n IH]; intros p; cbn [Plot.plant_loop]; [lia|].
  rewrite IH. unfold Plot.plant. cbn [Plot.treeVector]. rewrite length_app. simpl. lia.
Qed.

Lemma plant_loop_draws n treesPerRow R r stepCount p :
  Plot.p_draws (Plot.plant_loop random names n treesPerRow R r stepCount p)
  = (Plot.p_draws p + n)%nat.
Proof.
  revert p. induction n as [|n IH]; intros p; cbn [Plot.plant_loop]; [lia|].
  rewrite IH. unfold Plot.plant. cbn [Plot.p_draws]. lia.
Qed.

Lemma zeroCounts_accurate : accurate names (Plot.zeroCounts names) [].
Proof.
  intros k Hk. unfold Plot.zeroCounts. rewrite zero_fold_lookup.
  by rewrite decide_True.
Qed.

Lemma createForest_spec treesPerRow stepCount d forest census d' :
  Plot.createForest random names treesPerRow stepCount d = (forest, census, d') ->
  Z.of_nat (length forest) = treesPerRow * treesPerRow
  /\ populated names (Plot.species <$> forest)
  /\ accurate names census (Plot.species <$> forest).
Proof.
  unfold Plot.createForest. intros [= <- <- <-].
  split; [|split].
  - rewrite plant_loop_length. cbn [Plot.treeVector length]. unfold square. nia.
  - apply plant_loop_planted. split; [constructor | apply zeroCounts_accurate].
  - apply plant_loop_planted. split; [constructor | apply zeroCounts_accurate].
Qed.

End PlotProperties.

(** ** [immigration.js] *)

Section ImmigrationProperties.

Variable random : nat -> sample.

Local Abbreviation replaceTree := (Immigration.replaceTree random).
Local Abbreviation replaceTrees := (Immigration.replaceTrees random).
Local Abbreviation imm_departing := (imm_departing random).
Local Abbreviation imm_second := (imm_second random).

Lemma imm_treeNames_nonempty : Immigration.treeNames <> [].
Proof. done. Qed.

Lemma imm_treeNames_NoDup : NoDup Immigration.treeNames.
Proof. apply (bool_decide_unpack _). by vm_compute. Qed.

(** What a replacement does, when it returns. *)
Lemma imm_replaceTree_Some g g' :
  replaceTree g = Some g' ->
  exists departingTree arriving,
    arr_get (Immigration.theForest g) (imm_departing g) = Some departingTree
    /\ Immigration.arrivingSpecies g (imm_second g) = Some arriving
    /\ Immigration.theForest g'
       = <[Z.to_nat (imm_departing g) := Plot.set_species departingTree arriving]>
           (Immigration.theForest g)
    /\ Immigration.theCensus g'
       = incr (decr (Immigration.theCensus g) (to_key (Plot.species departingTree)))
           (to_key arriving)
    /\ Immigration.stepCount g' = Immigration.stepCount g + 1
    /\ Immigration.draws g' = S (S (Immigration.draws g))
    /\ Immigration.immigrationInterval g' = Immigration.immigrationInterval g
    /\ Immigration.state g' = Immigration.state g
    /\ Immigration.timer g' = Immigration.timer g.
Proof.
  unfold Immigration.replaceTree. fold (imm_departing g); fold (imm_second g).
  destruct (Immigration.arrivingSpecies g (imm_second g)) as [arriving|]; [|done].
  cbn [mbind option_bind].
  destruct (arr_get (Immigration.theForest g) (imm_departing g)) as [t|]; [|done].
  cbn [mbind option_bind]. intros [= <-]. exists t, arriving. by repeat split.
Qed.

(** A replacement returns whenever the forest has a tree. *)
Lemma imm_replaceTree_total g :
  Immigration.theForest g <> [] -> is_Some (replaceTree g).
Proof.
  intros Hne.
  assert (Hlen : 0 < Z.of_nat (length (Immigration.theForest g))).
  { destruct (Immigration.theForest g); [done | simpl; lia]. }
  unfold Immigration.replaceTree. fold (imm_departing g); fold (imm_second g).
  assert (is_Some (Immigration.arrivingSpecies g (imm_second g))) as [arr ->].
  { unfold Immigration.arrivingSpecies. case_match; [done|].
    destruct (randomElement_is_Some (Immigration.theForest g) (imm_second g) Hne)
      as [t ->]. done. }
  cbn [mbind option_bind].
  destruct (arr_get_in_range (Immigration.theForest g) (imm_departing g)) as [t ->].
  { by apply randomIndex_range. }
  done.
Qed.

Lemma imm_arriving_name g arr :
  populated Immigration.treeNames (imm_cells g) ->
  Immigration.arrivingSpecies g (imm_second g) = Some arr ->
  exists k, arr = Str k /\ k ∈ Immigration.treeNames.
Proof.
  intros Hpop. unfold Immigration.arrivingSpecies. case_match.
  - intros [= <-].
    destruct (randomElement_name Immigration.treeNames (imm_second g) imm_treeNames_nonempty)
      as (k & -> & Hk). eauto.
  - destruct (randomElement (Immigration.theForest g) (imm_second g)) as [t|] eqn:Ht;
      [|done]. intros [= <-].
    apply randomElement_elem_of in Ht.
    eapply Forall_forall in Hpop; [exact Hpop|].
    unfold imm_cells. by apply list_elem_of_fmap_2.
Qed.

Lemma imm_replaceTree_inv s g g' :
  imm_inv s g -> replaceTree g = Some g' -> imm_inv s g'.
Proof.
  intros (Hlen & Hpop & Hacc) Hstep.
  destruct (imm_replaceTree_Some g g' Hstep)
    as (t & arr & Ht & Harr & Hforest & Hcensus & _).
  destruct (imm_arriving_name g arr Hpop Harr) as (k & -> & Hk).
  apply arr_get_Some in Ht as [Hd Ht].
  assert (Hcell : imm_cells g !! Z.to_nat (imm_departing g) = Some (Plot.species t)).
  { unfold imm_cells. by rewrite list_lookup_fmap, Ht. }
  assert (Hcells : imm_cells g' = <[Z.to_nat (imm_departing g) := Str k]> (imm_cells g)).
  { unfold imm_cells. by rewrite Hforest, list_fmap_insert. }
  split; [|split].
  - by rewrite Hforest, length_insert.
  - rewrite Hcells. apply Forall_insert; [done|]. eauto.
  - rewrite Hcells, Hcensus. cbn [to_key].
    eapply accurate_replace; [exact Hcell | |done].
    eapply Forall_lookup_1 in Hpop as (kd & -> & _); [|exact Hcell].
    apply key_safe_Str.
Qed.

Lemma imm_build_inv s g0 : imm_inv s (Immigration.build random s g0).
Proof.
  unfold Immigration.build.
  destruct (Plot.createForest random Immigration.treeNames s
              (Immigration.stepCount g0) (Immigration.draws g0))
    as [[forest census] d] eqn:E.
  apply (createForest_spec _ _ imm_treeNames_nonempty) in E. exact E.
Qed.

Lemma imm_replaceTrees_inv s n g g' :
  imm_inv s g -> replaceTrees n g = Some g' -> imm_inv s g'.
Proof.
  revert g. induction n as [|n IH]; intros g Hinv; cbn [Immigration.replaceTrees].
  - by intros [= <-].
  - destruct (replaceTree g) as [g1|] eqn:E; [|done]. cbn [mbind option_bind].
    apply IH. by eapply imm_replaceTree_inv.
Qed.

Lemma imm_doStartStop_inv s g : imm_inv s g -> imm_inv s (Immigration.doStartStop g).
Proof. unfold Immigration.doStartStop. by destruct (Immigration.state g). Qed.

Lemma imm_runBatch_Some g g' :
  Immigration.runBatch random g = Some g' ->
  exists g1,
    replaceTrees Immigration.batchSize g = Some g1
    /\ Immigration.theForest g' = Immigration.theForest g1
    /\ Immigration.theCensus g' = Immigration.theCensus g1
    /\ Immigration.stepCount g' = Immigration.stepCount g1
    /\ Immigration.stepCountDisplay g' = Immigration.stepCount g1.
Proof.
  unfold Immigration.runBatch.
  destruct (replaceTrees Immigration.batchSize g) as [g1|]; [|done].
  cbn [mbind option_bind]. intros [= <-]. exists g1. split; [done|].
  case_match; [|done]. unfold Immigration.doStartStop.
  by destruct (Immigration.state (Immigration.show_stepCount g1)).
Qed.

Lemma imm_reachable_inv s g : imm_reachable random s g -> imm_inv s g.
Proof.
  induction 1 as [g0|g g' _ IH Hstep|g g' _ IH Hbatch|g _ IH|g readout _ IH].
  - apply imm_build_inv.
  - by eapply imm_replaceTree_inv.
  - destruct (imm_runBatch_Some g g' Hbatch) as (g1 & Hg1 & Hf & Hc & _).
    pose proof (imm_replaceTrees_inv s _ g g1 IH Hg1) as H1.
    unfold imm_inv, imm_cells in *. by rewrite Hf, Hc.
  - by apply imm_doStartStop_inv.
  - exact IH.
Qed.

(** A batch of [n] replacements returns, and advances the clock by [n]. *)
Lemma imm_replaceTrees_total n g :
  Immigration.theForest g <> [] ->
  exists g', replaceTrees n g = Some g'
    /\ Immigration.stepCount g' = Immigration.stepCount g + Z.of_nat n
    /\ Immigration.theForest g' <> [].
Proof.
  revert g. induction n as [|n IH]; intros g Hne; cbn [Immigration.replaceTrees].
  - exists g. split; [done|]. split; [lia | done].
  - destruct (imm_replaceTree_total g Hne) as [g1 Hg1]. rewrite Hg1.
    cbn [mbind option_bind].
    destruct (imm_replaceTree_Some g g1 Hg1)
      as (t & arr & _ & _ & Hforest & _ & Hclock & _).
    destruct (IH g1) as (g' & Hg' & Hclock' & Hne').
    { rewrite Hforest. intros E. apply Hne.
      apply (f_equal length) in E. rewrite length_insert in E.
      by apply nil_length_inv. }
    exists g'. split; [done|]. split; [lia | done].
Qed.

(** The species the departing cell holds once the replacement is done. *)
Lemma imm_replaceTree_arrival g g' :
  replaceTree g = Some g' ->
  exists arriving,
    Immigration.arrivingSpecies g (imm_second g) = Some arriving
    /\ imm_cells g' !! Z.to_nat (imm_departing g) = Some arriving
    /\ forall j, j <> Z.to_nat (imm_departing g) -> imm_cells g' !! j = imm_cells g !! j.
Proof.
  intros Hstep.
  destruct (imm_replaceTree_Some g g' Hstep) as (t & arr & Ht & Harr & Hforest & _).
  apply arr_get_Some in Ht as [_ Ht].
  exists arr. split; [done|]. unfold imm_cells. rewrite Hforest, list_fmap_insert.
  split.
  - rewrite list_lookup_insert_eq; [done|].
    rewrite length_fmap. by eapply lookup_lt_Some.
  - intros j Hj. by rewrite list_lookup_insert_ne.
Qed.

Lemma rem_is_zero_divide a k :
  k <> 0 -> rem_is_zero a (Num k) = true <-> (k | a).
Proof.
  intros Hk. unfold rem_is_zero. rewrite (proj2 (Z.eqb_neq k 0) Hk).
  rewrite Z.eqb_eq. by apply Z.rem_divide.
Qed.

End ImmigrationProperties.

(** ** The two-species competition program *)

Section CoexistProperties.

Variable random : nat -> sample.

Local Abbreviation replaceTree := (Coexist.replaceTree random).
Local Abbreviation replaceTrees := (Coexist.replaceTrees random).
Local Abbreviation arrival := (Coexist.arrival random).

Lemma coex_treeNames_nonempty : Coexist.treeNames <> [].
Proof. done. Qed.

Lemma coex_treeNames_NoDup : NoDup Coexist.treeNames.
Proof. apply (bool_decide_unpack _). by vm_compute. Qed.

Lemma turn_shift forest oF gF d m :
  turn random forest oF gF (S (S d)) m = turn random forest oF gF d (S m).
Proof.
  unfold turn, candidate, coin.
  by replace (S (S d) + 2 * m)%nat with (d + 2 * S m)%nat by lia.
Qed.

(** The rejection loop returns the first candidate that is accepted, after
    two random values per turn. *)
Lemma arrival_Returns fuel forest oF gF d i d' :
  arrival fuel forest oF gF d = Coexist.Returns (i, d')
  <-> exists n, (n < fuel)%nat
        /\ (forall m, (m < n)%nat -> turn random forest oF gF d m = Some false)
        /\ turn random forest oF gF d n = Some true
        /\ i = candidate random forest d n
        /\ d' = (d + 2 * n + 2)%nat.
Proof.
  revert d. induction fuel as [|fuel IH]; intros d.
  - split; [done|]. intros (n & Hn & _). lia.
  - cbn [Coexist.arrival].
    assert (H0 : turn random forest oF gF d 0
                 = (t ← arr_get forest (randomIndex (Z.of_nat (length forest)) (random d));
                    Some (Coexist.flipBiasedCoin (Coexist.bias oF gF (Plot.species t))
                            (random (S d))))).
    { unfold turn, candidate, coin. by rewrite Nat.mul_0_r, Nat.add_0_r. }
    destruct (arr_get forest (randomIndex (Z.of_nat (length forest)) (random d)))
      as [t|] eqn:Ht; cbn [mbind option_bind] in H0.
    + destruct (Coexist.flipBiasedCoin (Coexist.bias oF gF (Plot.species t))
                  (random (S d))) eqn:Hflip.
      * split.
        -- intros [= <- <-]. exists 0%nat. split; [lia|]. split; [intros; lia|].
           split; [done|]. split; [|lia].
           unfold candidate. by rewrite Nat.mul_0_r, Nat.add_0_r.
        -- intros (n & _ & Hrej & Hacc & -> & ->).
           destruct n as [|n].
           ++ unfold candidate. rewrite Nat.mul_0_r, Nat.add_0_r.
              do 2 f_equal. lia.
           ++ specialize (Hrej 0%nat ltac:(lia)). congruence.
      * rewrite IH. split.
        -- intros (n & Hn & Hrej & Hacc & -> & ->). exists (S n).
           split; [lia|]. split; [|split; [|split]].
           ++ intros [|m] Hm; [done|]. rewrite <- turn_shift. apply Hrej. lia.
           ++ by rewrite <- turn_shift.
           ++ unfold candidate. f_equal. f_equal. lia.
           ++ lia.
        -- intros (n & Hn & Hrej & Hacc & -> & ->).
           destruct n as [|n]; [congruence|]. exists n.
           split; [lia|]. split; [|split; [|split]].
           ++ intros m Hm. rewrite turn_shift. apply Hrej. lia.
           ++ by rewrite turn_shift.
           ++ unfold candidate. f_equal. f_equal. lia.
           ++ lia.
    + split; [done|]. intros (n & _ & Hrej & Hacc & _).
      destruct n as [|n]; [congruence|].
      specialize (Hrej 0%nat ltac:(lia)). congruence.
Qed.

(** What a replacement does, when it returns. *)
Lemma coex_replaceTree_Returns fuel g g' :
  replaceTree fuel g = Coexist.Returns g' ->
  exists i departingTree arrivingTree,
    arrival fuel (Coexist.theForest g) (Coexist.oliveFactor g) (Coexist.orangeFactor g)
      (S (Coexist.draws g)) = Coexist.Returns (i, Coexist.draws g')
    /\ arr_get (Coexist.theForest g) (coex_departing random g) = Some departingTree
    /\ arr_get (Coexist.theForest g) i = Some arrivingTree
    /\ Coexist.theForest g'
       = <[Z.to_nat (coex_departing random g)
            := Plot.set_species departingTree (Plot.species arrivingTree)]>
           (Coexist.theForest g)
    /\ Coexist.theCensus g'
       = incr (decr (Coexist.theCensus g) (to_key (Plot.species departingTree)))
           (to_key (Plot.species arrivingTree))
    /\ Coexist.stepCount g' = Coexist.stepCount g + 1
    /\ Coexist.poachingCoef g' = Coexist.poachingCoef g
    /\ Coexist.iron g' = Coexist.iron g
    /\ Coexist.calcium g' = Coexist.calcium g
    /\ Coexist.state g' = Coexist.state g
    /\ Coexist.timer g' = Coexist.timer g.
Proof.
  unfold Coexist.replaceTree. fold (coex_departing random g).
  destruct (arrival fuel _ _ _ _) as [[i d']| |] eqn:Harr; [|done|done].
  destruct (arr_get (Coexist.theForest g) (coex_departing random g)) as [dt|] eqn:Hdt;
    [|done].
  destruct (arr_get (Coexist.theForest g) i) as [at_|] eqn:Hat; [|done].
  destruct (rem_is_zero _ _).
  - destruct (Coexist.timelineSample _ _) as [tl present]. cbv beta iota zeta.
    intros [= <-]. exists i, dt, at_. by repeat split.
  - cbv beta iota zeta. intros [= <-]. exists i, dt, at_. by repeat split.
Qed.

(** A replacement returns as soon as its rejection loop does. *)
Lemma coex_replaceTree_total fuel g i d' :
  arrival fuel (Coexist.theForest g) (Coexist.oliveFactor g) (Coexist.orangeFactor g)
    (S (Coexist.draws g)) = Coexist.Returns (i, d') ->
  exists g', replaceTree fuel g = Coexist.Returns g'.
Proof.
  intros Harr. unfold Coexist.replaceTree. rewrite Harr.
  apply arrival_Returns in Harr as (n & _ & _ & Hn & -> & _).
  unfold turn in Hn.
  destruct (arr_get (Coexist.theForest g) (candidate random _ _ n)) as [at_|] eqn:Hat;
    [|done].
  assert (Hne : 0 < Z.of_nat (length (Coexist.theForest g))).
  { apply arr_get_Some in Hat as [_ Hat%lookup_lt_Some]. lia. }
  destruct (arr_get_in_range (Coexist.theForest g)
              (randomIndex (Z.of_nat (length (Coexist.theForest g)))
                 (random (Coexist.draws g)))) as [dt ->].
  { by apply randomIndex_range. }
  destruct (rem_is_zero _ _); [destruct (Coexist.timelineSample _ _)|];
    cbv beta iota zeta; eauto.
Qed.

Lemma coex_replaceTree_inv s fuel g g' :
  coex_inv s g -> replaceTree fuel g = Coexist.Returns g' -> coex_inv s g'.
Proof.
  intros (Hlen & Hpop & Hacc & Hp) Hstep.
  destruct (coex_replaceTree_Returns fuel g g' Hstep)
    as (i & dt & at_ & _ & Hdt & Hat & Hforest & Hcensus & _ & Hp' & _).
  apply arr_get_Some in Hdt as [_ Hdt]. apply arr_get_Some in Hat as [_ Hat].
  assert (Hcell : coex_cells g !! Z.to_nat (coex_departing random g)
                  = Some (Plot.species dt)).
  { unfold coex_cells. by rewrite list_lookup_fmap, Hdt. }
  assert (Hk : exists k, Plot.species at_ = Str k /\ k ∈ Coexist.treeNames).
  { eapply Forall_lookup_1 in Hpop; [exact Hpop|].
    unfold coex_cells. by rewrite list_lookup_fmap, Hat. }
  destruct Hk as (k & Hk & Hin).
  assert (Hcells : coex_cells g'
                   = <[Z.to_nat (coex_departing random g) := Str k]> (coex_cells g)).
  { unfold coex_cells. by rewrite Hforest, list_fmap_insert, <- Hk. }
  split; [|split; [|split]].
  - by rewrite Hforest, length_insert.
  - rewrite Hcells. apply Forall_insert; [done|]. eauto.
  - rewrite Hcells, Hcensus, Hk. cbn [to_key].
    eapply accurate_replace; [exact Hcell | |done].
    eapply Forall_lookup_1 in Hpop as (kd & -> & _); [|exact Hcell].
    apply key_safe_Str.
  - congruence.
Qed.

Lemma coex_build_inv s g0 :
  Coexist.poachingCoef g0 = 0.25%Q -> coex_inv s (Coexist.build random s g0).
Proof.
  intros Hp. unfold Coexist.build.
  destruct (Plot.createForest random Coexist.treeNames s
              (Coexist.stepCount g0) (Coexist.draws g0))
    as [[forest census] d] eqn:E.
  apply (createForest_spec _ _ coex_treeNames_nonempty) in E.
  destruct E as (? & ? & ?). by repeat split.
Qed.

Lemma coex_replaceTrees_inv s fuel n g g' :
  coex_inv s g -> replaceTrees fuel n g = Coexist.Returns g' -> coex_inv s g'.
Proof.
  revert g. induction n as [|n IH]; intros g Hinv; cbn [Coexist.replaceTrees].
  - by intros [= <-].
  - destruct (replaceTree fuel g) as [g1| |] eqn:E; [|done|done].
    apply IH. by eapply coex_replaceTree_inv.
Qed.

Lemma coex_doStartStop_inv s g : coex_inv s g -> coex_inv s (Coexist.doStartStop g).
Proof. unfold Coexist.doStartStop. by destruct (Coexist.state g). Qed.

Lemma coex_batchEnd_inv s g : coex_inv s g -> coex_inv s (Coexist.batchEnd g).
Proof.
  intros H. unfold Coexist.batchEnd. case_match; [|done].
  apply coex_doStartStop_inv. exact H.
Qed.

Lemma coex_reachable_inv s g : coex_reachable random s g -> coex_inv s g.
Proof.
  induction 1 as [g0 Hp|fuel g g' _ IH Hstep|fuel g g' _ IH Hbatch|g _ IH|g a _ IH].
  - by apply coex_build_inv.
  - by eapply coex_replaceTree_inv.
  - unfold Coexist.runBatch in Hbatch.
    destruct (replaceTrees fuel Coexist.batchSize g) as [g1| |] eqn:E; [|done|done].
    injection Hbatch as <-. apply coex_batchEnd_inv.
    change (coex_inv s g1). eapply coex_replaceTrees_inv; [exact IH | exact E].
  - by apply coex_doStartStop_inv.
  - exact IH.
Qed.

(** *** Pressure factors *)

Lemma demand_nonzero (a b : Z) :
  0 <= a -> 0 <= b -> 0 < a + b ->
  Qeq_bool (inject_Z a + 0.25 * inject_Z b) 0 = false.
Proof.
  intros Ha Hb Hab. unfold Qeq_bool, Qplus, Qmult, inject_Z. cbn.
  apply Z.eqb_neq. lia.
Qed.

Lemma coex_census s g :
  coex_inv s g ->
  get (Coexist.theCensus g) "olive" = Num (population (Str "olive") (coex_cells g))
  /\ get (Coexist.theCensus g) "orange" = Num (population (Str "orange") (coex_cells g))
  /\ population (Str "olive") (coex_cells g) + population (Str "orange") (coex_cells g)
     = s * s.
Proof.
  intros (Hlen & Hpop & Hacc & _).
  split; [|split].
  - apply (accurate_get _ _ _ _ Hacc). by left.
  - apply (accurate_get _ _ _ _ Hacc). right. by left.
  - pose proof (sum_populations _ _ coex_treeNames_NoDup (populated_settled _ _ Hpop)) as H.
    rewrite (populated_no_vacancy _ _ Hpop) in H. cbn [foldr Coexist.treeNames] in H.
    unfold coex_cells in H. rewrite length_fmap in H. unfold coex_cells. lia.
Qed.

Lemma coex_factors s g :
  coex_inv s g -> s <> 0 ->
  Coexist.oliveFactor g
  = Coexist.Fin (pressure (Coexist.iron g) (census_count g "olive")
                   (census_count g "orange") (Coexist.poachingCoef g))
  /\ Coexist.orangeFactor g
     = Coexist.Fin (pressure (Coexist.calcium g) (census_count g "orange")
                      (census_count g "olive") (Coexist.poachingCoef g)).
Proof.
  intros Hinv Hs. destruct (coex_census s g Hinv) as (Ho & Hg & Hsum).
  destruct Hinv as (_ & _ & _ & Hp).
  pose proof (population_nonneg (Str "olive") (coex_cells g)).
  pose proof (population_nonneg (Str "orange") (coex_cells g)).
  unfold Coexist.oliveFactor, Coexist.orangeFactor, census_count, pressure.
  rewrite Ho, Hg, Hp. cbn [Coexist.demand Coexist.quotient].
  rewrite !demand_nonzero by nia. done.
Qed.

Lemma flip_Fin_true q u :
  Coexist.flipBiasedCoin (Coexist.Fin q) u = true <-> (sample_Q u < q)%Q.
Proof.
  cbn [Coexist.flipBiasedCoin]. destruct (Qlt_le_dec (sample_Q u) q) as [H|H].
  - done.
  - split; [done|]. intros H'. by apply Qle_not_lt in H.
Qed.

Lemma flip_Fin_false q u :
  Coexist.flipBiasedCoin (Coexist.Fin q) u = false <-> ~ (sample_Q u < q)%Q.
Proof.
  rewrite <- flip_Fin_true. by destruct (Coexist.flipBiasedCoin _ u).
Qed.

(** The bias of a candidate of the plot is the factor of its species. *)
Lemma coex_bias_factor s g (i : Z) t :
  coex_inv s g -> s <> 0 ->
  arr_get (Coexist.theForest g) i = Some t ->
  exists q, factor g (Plot.species t) = Some q
    /\ Coexist.bias (Coexist.oliveFactor g) (Coexist.orangeFactor g) (Plot.species t)
       = Coexist.Fin q.
Proof.
  intros Hinv Hs Ht. destruct (coex_factors s g Hinv Hs) as [Ho Hg].
  destruct Hinv as (_ & Hpop & _).
  apply arr_get_Some in Ht as [_ Ht].
  assert (Hk : exists k, Plot.species t = Str k /\ k ∈ Coexist.treeNames).
  { eapply Forall_lookup_1 in Hpop; [exact Hpop|].
    unfold coex_cells. by rewrite list_lookup_fmap, Ht. }
  destruct Hk as (k & -> & Hk). unfold factor, Coexist.bias.
  destruct (decide (Str k = Str "olive")); [eauto|].
  rewrite decide_True; [eauto|].
  apply elem_of_cons in Hk as [->|Hk]; [done|].
  by apply list_elem_of_singleton in Hk as ->.
Qed.

Lemma turn_accepted s g m :
  coex_inv s g -> s <> 0 ->
  turn random (Coexist.theForest g) (Coexist.oliveFactor g) (Coexist.orangeFactor g)
    (S (Coexist.draws g)) m = Some true
  <-> accepted random g m.
Proof.
  intros Hinv Hs. unfold turn, accepted. split.
  - destruct (arr_get _ _) as [t|] eqn:Ht; [|done]. cbn [mbind option_bind].
    destruct (coex_bias_factor s g _ t Hinv Hs Ht) as (q & Hq & ->).
    intros [= H%flip_Fin_true]. eauto.
  - intros (t & q & Ht & Hq & Hlt). rewrite Ht. cbn [mbind option_bind].
    destruct (coex_bias_factor s g _ t Hinv Hs Ht) as (q' & Hq' & ->).
    f_equal. apply flip_Fin_true. congruence.
Qed.

Lemma turn_rejected s g m :
  coex_inv s g -> s <> 0 ->
  turn random (Coexist.theForest g) (Coexist.oliveFactor g) (Coexist.orangeFactor g)
    (S (Coexist.draws g)) m = Some false
  <-> rejected random g m.
Proof.
  intros Hinv Hs. unfold turn, rejected. split.
  - destruct (arr_get _ _) as [t|] eqn:Ht; [|done]. cbn [mbind option_bind].
    destruct (coex_bias_factor s g _ t Hinv Hs Ht) as (q & Hq & ->).
    intros [= H%flip_Fin_false]. eauto.
  - intros (t & q & Ht & Hq & Hlt). rewrite Ht. cbn [mbind option_bind].
    destruct (coex_bias_factor s g _ t Hinv Hs Ht) as (q' & Hq' & ->).
    f_equal. apply flip_Fin_false. congruence.
Qed.

(** While every candidate is rejected the loop keeps turning. *)
Lemma arrival_Spins fuel forest oF gF d :
  (forall m, (m < fuel)%nat -> turn random forest oF gF d m = Some false) ->
  arrival fuel forest oF gF d = Coexist.Spins.
Proof.
  revert d. induction fuel as [|fuel IH]; intros d Hrej; [done|].
  cbn [Coexist.arrival].
  pose proof (Hrej 0%nat ltac:(lia)) as H0.
  unfold turn, candidate, coin in H0. rewrite Nat.mul_0_r, Nat.add_0_r in H0.
  destruct (arr_get forest _) as [t|]; [|done]. cbn [mbind option_bind] in H0.
  injection H0 as ->. apply IH. intros m Hm. rewrite turn_shift. apply Hrej. lia.
Qed.

Lemma coex_replaceTree_Spins fuel g :
  arrival fuel (Coexist.theForest g) (Coexist.oliveFactor g) (Coexist.orangeFactor g)
    (S (Coexist.draws g)) = Coexist.Spins ->
  replaceTree fuel g = Coexist.Spins.
Proof. intros H. unfold Coexist.replaceTree. by rewrite H. Qed.

(** *** The end of a batch *)

Lemma coex_replaceTrees_control fuel n g g' :
  replaceTrees fuel n g = Coexist.Returns g' ->
  Coexist.state g' = Coexist.state g /\ Coexist.timer g' = Coexist.timer g.
Proof.
  revert g. induction n as [|n IH]; intros g; cbn [Coexist.replaceTrees].
  - by intros [= <-].
  - destruct (replaceTree fuel g) as [g1| |] eqn:E; [|done|done].
    intros Hrest. destruct (IH _ Hrest) as [-> ->].
    by destruct (coex_replaceTree_Returns fuel g g1 E)
      as (_ & _ & _ & _ & _ & _ & _ & _ & _ & _ & _ & _ & ? & ?).
Qed.

Lemma coex_runBatch_Returns fuel g g' :
  Coexist.runBatch random fuel g = Coexist.Returns g' ->
  exists g1, replaceTrees fuel Coexist.batchSize g = Coexist.Returns g1
    /\ g' = Coexist.batchEnd (Coexist.show_stepCount g1).
Proof.
  unfold Coexist.runBatch.
  destruct (replaceTrees fuel Coexist.batchSize g) as [g1| |]; [|done|done].
  intros [= <-]. eauto.
Qed.

Lemma coex_batchEnd_fields g :
  Coexist.stepCount (Coexist.batchEnd g) = Coexist.stepCount g
  /\ Coexist.theCensus (Coexist.batchEnd g) = Coexist.theCensus g.
Proof.
  unfold Coexist.batchEnd. case_match; [|done].
  unfold Coexist.doStartStop. cbn [Coexist.state Coexist.set_control].
  by case_match.
Qed.

End CoexistProperties.

(** ** [socialdx.js] *)

(** *** Toroidal coordinates *)

Lemma modAdd_mod (a b m : Z) :
  0 <= a < m -> -1 <= b <= 1 -> Socialdx.modAdd a b m = (a + b) mod m.
Proof.
  intros Ha Hb. unfold Socialdx.modAdd.
  destruct (Z.ltb_spec (a + b) 0).
  - apply Z.mod_unique with (q := -1); lia.
  - destruct (Z.geb_spec (a + b) m).
    + apply Z.mod_unique with (q := 1); lia.
    + symmetry. apply Z.mod_small. lia.
Qed.

(** The circular scan: [modAdd] wraps at the array boundary. *)
Lemma modAdd_scan (idx i N : Z) :
  0 <= idx < N -> 0 <= i < N -> Socialdx.modAdd idx i N = (idx + i) mod N.
Proof.
  intros Hidx Hi. unfold Socialdx.modAdd.
  destruct (Z.ltb_spec (idx + i) 0); [lia|].
  destruct (Z.geb_spec (idx + i) N).
  - apply Z.mod_unique with (q := 1); lia.
  - symmetry. apply Z.mod_small. lia.
Qed.

Lemma neighborIndices_torus (s : Z) (i : Z) :
  0 < s -> 0 <= i < s * s ->
  Socialdx.neighborIndices (i mod s) (i / s) s = torus_block s i.
Proof.
  intros Hs Hi.
  assert (Hc : 0 <= i mod s < s) by (apply Z.mod_pos_bound; lia).
  assert (Hr : 0 <= i / s < s).
  { split; [apply Z.div_pos; lia | apply Z.div_lt_upper_bound; lia]. }
  unfold Socialdx.neighborIndices, torus_block, torus_cell, Socialdx.colRowToIndex.
  cbn [mbind list_bind mret app]. 
  rewrite !modAdd_mod by lia. done.
Qed.

Lemma torus_cell_range (s i h v : Z) :
  0 < s -> 0 <= torus_cell s i h v < s * s.
Proof.
  intros Hs. unfold torus_cell.
  pose proof (Z.mod_pos_bound (i mod s + h) s Hs).
  pose proof (Z.mod_pos_bound (i / s + v) s Hs). nia.
Qed.

Lemma torus_block_range (s i j : Z) :
  0 < s -> j ∈ torus_block s i -> 0 <= j < s * s.
Proof.
  intros Hs. unfold torus_block. cbn [mbind list_bind mret app].
  intros Hj. repeat (apply elem_of_cons in Hj as [->|Hj]; [by apply torus_cell_range|]).
  by apply elem_of_nil in Hj.
Qed.

Lemma torus_ring_block (s i j : Z) : j ∈ torus_ring s i -> j ∈ torus_block s i.
Proof.
  unfold torus_ring, torus_block. cbn [mbind list_bind mret app].
  intros Hj.
  repeat (apply elem_of_cons in Hj as [->|Hj];
          [repeat first [by left | right]|]).
  by apply elem_of_nil in Hj.
Qed.

(** *** The constructor of [Forest] *)

Section SocialdxConstruction.

Variable random : nat -> sample.
Variable names : list string.
Variable s : Z.
Hypothesis names_nonempty : names <> [].
Hypothesis side_positive : 0 < s.

Lemma sdx_plant_planted R r stepCount i p :
  sdx_planted s names i p ->
  sdx_planted s names (i + 1) (Socialdx.plant random names s R r stepCount i p).
Proof.
  intros (Hi & Hcol & Hrow & Htrees & Hpop & Hacc).
  destruct (randomElement_name names (random (Socialdx.p_draws p)) names_nonempty)
    as (k & Hk & Hin).
  unfold sdx_planted, Socialdx.plant.
  cbn [Socialdx.p_trees Socialdx.p_col Socialdx.p_row Socialdx.p_census Socialdx.species].
  rewrite fmap_app, length_app. cbn [fmap list_fmap length Socialdx.species].
  rewrite Hk.
  split; [lia|]. split; [|split; [|split; [|split]]].
  - destruct (Z.geb_spec (Socialdx.p_col p + 1) s); lia.
  - destruct (Z.geb_spec (Socialdx.p_col p + 1) s); lia.
  - intros j t Hj. apply lookup_app_Some in Hj as [Hj|[Hge Hj]].
    + by apply Htrees.
    + apply list_lookup_singleton_Some in Hj as [Hj0 <-].
      cbn [Socialdx.idx Socialdx.col Socialdx.row Socialdx.neighborTrees].
      assert (Z.of_nat j = i) as -> by lia.
      split; [done|]. split; [|split; [|done]].
      * apply Z.mod_unique with (q := Socialdx.p_row p); lia.
      * apply Z.div_unique with (r := Socialdx.p_col p); lia.
  - apply Forall_app. split; [done|]. apply Forall_singleton. eauto.
  - intros k' Hk'. cbn [to_key].
    rewrite (lookup_incr_Num _ _ _ _ (Hacc k' Hk')).
    rewrite population_app, population_cons, population_nil. do 2 f_equal. lia.
Qed.

Lemma sdx_plant_loop_planted n R r stepCount i p :
  sdx_planted s names i p ->
  sdx_planted s names (i + Z.of_nat n)
    (Socialdx.plant_loop random n names s R r stepCount i p).
Proof.
  revert i p. induction n as [|n IH]; intros i p Hp; cbn [Socialdx.plant_loop].
  - by rewrite Z.add_0_r.
  - replace (i + Z.of_nat (S n)) with (i + 1 + Z.of_nat n) by lia.
    by apply IH, sdx_plant_planted.
Qed.

Lemma sdx_zero_planted R d :
  sdx_planted s names 0
    {| Socialdx.p_row := 0; Socialdx.p_col := 0; Socialdx.p_x := R;
       Socialdx.p_y := R; Socialdx.p_trees := [];
       Socialdx.p_census := Socialdx.zeroCounts names; Socialdx.p_draws := d |}.
Proof.
  unfold sdx_planted. cbn. split; [done|]. split; [lia|]. split; [done|].
  split; [intros j t Hj; by rewrite lookup_nil in Hj|]. split; [constructor|].
  intros k Hk. unfold Socialdx.zeroCounts. rewrite zero_fold_lookup.
  by rewrite decide_True.
Qed.

Lemma sdx_cells_listNeighbors (ts : list Socialdx.Tree) :
  Socialdx.species <$> ((fun t => Socialdx.listNeighbors t s) <$> ts)
  = Socialdx.species <$> ts.
Proof. rewrite <- list_fmap_compose. by apply list_fmap_ext. Qed.

End SocialdxConstruction.

Lemma sdx_build_inv random s colorMap canvasSize g0 :
  colorMap.*1 <> [] -> 0 < s ->
  sdx_inv s colorMap (Socialdx.build random s colorMap canvasSize g0).
Proof.
  intros Hne Hs. unfold Socialdx.build, Socialdx.newForest.
  cbv zeta.
  set (R := (canvasSize / (inject_Z s * 2))%Q).
  pose proof (sdx_plant_loop_planted random (colorMap.*1) s Hne Hs
                (Z.to_nat (square s)) R (R - 1)%Q (Socialdx.stepCount g0) 0 _
                (sdx_zero_planted (colorMap.*1) s Hs R (Socialdx.draws g0))) as Hp.
  set (p := Socialdx.plant_loop _ _ _ _ _ _ _ _ _) in *.
  destruct Hp as (Hi & _ & _ & Htrees & Hpop & Hacc).
  unfold sdx_inv, sdx_cells.
  cbn [Socialdx.theForest Socialdx.s Socialdx.N Socialdx.treeNames Socialdx.trees
       Socialdx.census].
  rewrite sdx_cells_listNeighbors.
  split; [done|]. split; [done|]. split; [done|].
  split; [|split; [by apply populated_settled | done]].
  split.
  - rewrite length_fmap. unfold square in Hi. nia.
  - intros i t Hi'. rewrite list_lookup_fmap in Hi'.
    destruct (Socialdx.p_trees p !! i) as [t0|] eqn:Ht0; [|done].
    injection Hi' as <-. destruct (Htrees i t0 Ht0) as (H1 & H2 & H3 & H4).
    unfold Socialdx.listNeighbors.
    cbn [Socialdx.idx Socialdx.col Socialdx.row Socialdx.neighborTrees
         Socialdx.set_neighborTrees].
    by rewrite H4.
Qed.

(** *** The species of the neighbourhood *)

Lemma collectSpecies_Some ts nbrs acc ns :
  Socialdx.collectSpecies ts nbrs acc = Some ns ->
  forall k, k ∈ ns <->
    k ∈ acc
    \/ exists j t, j ∈ nbrs /\ arr_get ts j = Some t
         /\ truthy (Socialdx.species t) = true
         /\ to_key (Socialdx.species t) = k.
Proof.
  revert acc. induction nbrs as [|j nbrs IH]; intros acc; cbn [Socialdx.collectSpecies].
  - intros [= <-] k. split; [by left|].
    intros [?|(j & t & Hj & _)]; [done|]. by apply elem_of_nil in Hj.
  - destruct (arr_get ts j) as [t|] eqn:Ht; [|done]. cbn [mbind option_bind].
    intros Hns k. rewrite (IH _ Hns k). split.
    + intros [Hk|(j' & t' & Hj' & Ht' & Htruthy & Hkey)].
      * destruct (truthy (Socialdx.species t)) eqn:Htruthy; [|by left].
        apply elem_of_union in Hk as [Hk|Hk]; [|by left].
        apply elem_of_singleton in Hk as ->. right. exists j, t.
        split; [by left|]. done.
      * right. exists j', t'. split; [by right|]. done.
    + intros [Hk|(j' & t' & Hj' & Ht' & Htruthy & Hkey)].
      * left. destruct (truthy (Socialdx.species t)); [|done].
        apply elem_of_union. by right.
      * apply elem_of_cons in Hj' as [->|Hj'].
        -- left. rewrite Ht in Ht'. injection Ht' as <-. rewrite Htruthy.
           apply elem_of_union. left. by apply elem_of_singleton.
        -- right. exists j', t'. done.
Qed.

Lemma collectSpecies_total ts nbrs acc :
  (forall j, j ∈ nbrs -> 0 <= j < Z.of_nat (length ts)) ->
  is_Some (Socialdx.collectSpecies ts nbrs acc).
Proof.
  revert acc. induction nbrs as [|j nbrs IH]; intros acc Hin;
    cbn [Socialdx.collectSpecies]; [done|].
  destruct (arr_get_in_range ts j) as [t ->]; [apply Hin; by left|].
  cbn [mbind option_bind]. apply IH. intros j' Hj'. apply Hin. by right.
Qed.

(** *** The scan of the candidates *)

(** The scan returns the species of the first candidate that passes the
    test, or [null] when none of its [n] candidates does. *)
Lemma scan_Some ts ns idx N i n v :
  Socialdx.scan ts ns idx N i n = Some v ->
  (v = Null
   /\ forall j, (j < n)%nat ->
        exists c, arr_get ts (Socialdx.modAdd idx (i + Z.of_nat j) N) = Some c
          /\ fit ns (Socialdx.species c) = false)
  \/ (exists j c, (j < n)%nat
        /\ arr_get ts (Socialdx.modAdd idx (i + Z.of_nat j) N) = Some c
        /\ fit ns (Socialdx.species c) = true
        /\ v = Socialdx.species c
        /\ forall j', (j' < j)%nat ->
             exists c', arr_get ts (Socialdx.modAdd idx (i + Z.of_nat j') N) = Some c'
               /\ fit ns (Socialdx.species c') = false).
Proof.
  revert i. induction n as [|n IH]; intros i; cbn [Socialdx.scan].
  - intros [= <-]. left. split; [done|]. intros j Hj. lia.
  - destruct (arr_get ts (Socialdx.modAdd idx i N)) as [c|] eqn:Hc; [|done].
    cbn [mbind option_bind]. fold (fit ns (Socialdx.species c)).
    destruct (fit ns (Socialdx.species c)) eqn:Hfit.
    + intros [= <-]. right. exists 0%nat, c. rewrite Z.add_0_r.
      split; [lia|]. split; [done|]. split; [done|]. split; [done|].
      intros j' Hj'. lia.
    + intros Hscan. destruct (IH _ Hscan) as [[-> Hall]|(j & c' & Hj & Hc' & Hfit' & -> & Hbefore)].
      * left. split; [done|]. intros [|j] Hj.
        -- exists c. by rewrite Z.add_0_r.
        -- destruct (Hall j ltac:(lia)) as (c' & Hc' & Hfit').
           exists c'. split; [|done].
           by replace (i + Z.of_nat (S j)) with (i + 1 + Z.of_nat j) by lia.
      * right. exists (S j), c'. split; [lia|]. split.
        { by replace (i + Z.of_nat (S j)) with (i + 1 + Z.of_nat j) by lia. }
        split; [done|]. split; [done|]. intros [|j'] Hj'.
        -- exists c. by rewrite Z.add_0_r.
        -- destruct (Hbefore j' ltac:(lia)) as (c'' & Hc'' & Hfit'').
           exists c''. split; [|done].
           by replace (i + Z.of_nat (S j')) with (i + 1 + Z.of_nat j') by lia.
Qed.

Lemma scan_total ts ns idx N i n :
  (forall j, (j < n)%nat ->
     0 <= Socialdx.modAdd idx (i + Z.of_nat j) N < Z.of_nat (length ts)) ->
  is_Some (Socialdx.scan ts ns idx N i n).
Proof.
  revert i. induction n as [|n IH]; intros i Hin; cbn [Socialdx.scan]; [done|].
  destruct (arr_get_in_range ts (Socialdx.modAdd idx i N)) as [c ->].
  { specialize (Hin 0%nat ltac:(lia)). by rewrite Z.add_0_r in Hin. }
  cbn [mbind option_bind]. case_match; [done|].
  apply IH. intros j Hj. specialize (Hin (S j) ltac:(lia)).
  by replace (i + 1 + Z.of_nat j) with (i + Z.of_nat (S j)) by lia.
Qed.

(** *** One replacement *)

Section SocialdxStep.

Variable random : nat -> sample.

Local Abbreviation replaceTree := (Socialdx.replaceTree random).

(** What a replacement does, when it returns. *)
Lemma sdx_replaceTree_Some g g' :
  replaceTree g = Some g' ->
  let f := Socialdx.theForest g in
  exists departingTree ns replacement,
    arr_get (Socialdx.trees f) (sdx_departing random g) = Some departingTree
    /\ Socialdx.listNeighborSpecies (Socialdx.trees f) departingTree = Some ns
    /\ Socialdx.scan (Socialdx.trees f) ns (sdx_start random g) (Socialdx.N f) 0
         (Z.to_nat (Socialdx.N f)) = Some replacement
    /\ Socialdx.trees (Socialdx.theForest g')
       = <[Z.to_nat (sdx_departing random g)
            := Socialdx.set_species
                 (Socialdx.set_neighborSpecies departingTree ns) replacement]>
           (Socialdx.trees f)
    /\ Socialdx.census (Socialdx.theForest g')
       = (if truthy replacement
          then incr (decr (Socialdx.census f) (to_key (Socialdx.species departingTree)))
                 (to_key replacement)
          else decr (Socialdx.census f) (to_key (Socialdx.species departingTree)))
    /\ Socialdx.s (Socialdx.theForest g') = Socialdx.s f
    /\ Socialdx.N (Socialdx.theForest g') = Socialdx.N f
    /\ Socialdx.treeNames (Socialdx.theForest g') = Socialdx.treeNames f
    /\ Socialdx.stepCount g' = Socialdx.stepCount g + 1
    /\ Socialdx.draws g' = S (S (Socialdx.draws g)).
Proof.
  cbv zeta. unfold Socialdx.replaceTree.
  fold (sdx_departing random g). fold (sdx_start random g).
  destruct (arr_get _ (sdx_departing random g)) as [dt|] eqn:Hdt; [|done].
  cbn [mbind option_bind].
  destruct (Socialdx.listNeighborSpecies _ dt) as [ns|] eqn:Hns; [|done].
  cbn [mbind option_bind].
  destruct (Socialdx.scan _ ns _ _ 0 _) as [rep|] eqn:Hscan; [|done].
  cbn [mbind option_bind]. intros [= <-]. exists dt, ns, rep.
  cbn. by destruct (truthy rep).
Qed.

Lemma fit_truthy ns v : fit ns v = true -> truthy v = true.
Proof. unfold fit. by intros [? _]%andb_prop. Qed.

Lemma settled_arr_get names (ts : list Socialdx.Tree) i t :
  settled names (Socialdx.species <$> ts) -> arr_get ts i = Some t ->
  Socialdx.species t = Null
  \/ exists k, Socialdx.species t = Str k /\ k ∈ names.
Proof.
  intros Hset [_ Ht]%arr_get_Some.
  eapply Forall_lookup_1 in Hset; [exact Hset|].
  by rewrite list_lookup_fmap, Ht.
Qed.

(** The scan ends with [null] or with one of the names. *)
Lemma scan_result names ts ns idx N i n v :
  settled names (Socialdx.species <$> ts) ->
  Socialdx.scan ts ns idx N i n = Some v ->
  v = Null \/ exists k, v = Str k /\ k ∈ names /\ truthy v = true.
Proof.
  intros Hset Hscan.
  destruct (scan_Some _ _ _ _ _ _ _ Hscan) as [[-> _]|(j & c & _ & Hc & Hfit & -> & _)];
    [by left|].
  apply fit_truthy in Hfit.
  destruct (settled_arr_get _ _ _ _ Hset Hc) as [E|(k & E & Hk)].
  - rewrite E in Hfit. done.
  - right. exists k. by rewrite <- E.
Qed.

Lemma sdx_replaceTree_cells g g' :
  replaceTree g = Some g' ->
  exists departingTree ns replacement,
    arr_get (Socialdx.trees (Socialdx.theForest g)) (sdx_departing random g)
    = Some departingTree
    /\ Socialdx.listNeighborSpecies (Socialdx.trees (Socialdx.theForest g)) departingTree
       = Some ns
    /\ Socialdx.scan (Socialdx.trees (Socialdx.theForest g)) ns (sdx_start random g)
         (Socialdx.N (Socialdx.theForest g)) 0
         (Z.to_nat (Socialdx.N (Socialdx.theForest g))) = Some replacement
    /\ sdx_cells g !! Z.to_nat (sdx_departing random g)
       = Some (Socialdx.species departingTree)
    /\ sdx_cells g' = <[Z.to_nat (sdx_departing random g) := replacement]> (sdx_cells g).
Proof.
  intros Hstep.
  destruct (sdx_replaceTree_Some g g' Hstep)
    as (dt & ns & rep & Hdt & Hns & Hscan & Htrees & _).
  exists dt, ns, rep. split; [done|]. split; [done|]. split; [done|].
  apply arr_get_Some in Hdt as [_ Hdt]. unfold sdx_cells. split.
  - by rewrite list_lookup_fmap, Hdt.
  - by rewrite Htrees, list_fmap_insert.
Qed.

Lemma sdx_replaceTree_inv s colorMap g g' :
  species_set (colorMap.*1) ->
  sdx_inv s colorMap g -> replaceTree g = Some g' -> sdx_inv s colorMap g'.
Proof.
  intros Hnames (Hs & HN & Hnm & [Hlen Hgrid] & Hset & Hacc) Hstep.
  destruct (sdx_replaceTree_cells g g' Hstep)
    as (dt & ns & rep & Hdt & Hns & Hscan & Hcell & Hcells).
  destruct (sdx_replaceTree_Some g g' Hstep)
    as (dt' & ns' & rep' & Hdt' & Hns' & Hscan' & Htrees & Hcensus & Hs' & HN' & Hnm' & _).
  assert (dt' = dt) as -> by congruence.
  assert (ns' = ns) as -> by congruence.
  assert (rep' = rep) as -> by congruence.
  clear Hdt' Hns' Hscan'.
  pose proof (scan_result _ _ _ _ _ _ _ _ Hset Hscan) as Hrep.
  pose proof (settled_key_safe _ _ _ _ Hnames Hset Hcell) as Hsafe.
  apply arr_get_Some in Hdt as [_ Hdt].
  unfold sdx_inv. cbv zeta. rewrite Hs', HN', Hnm', Htrees, Hcells, Hcensus.
  split; [done|]. split; [done|]. split; [done|]. split; [|split].
  - split; [by rewrite length_insert|].
    intros i t Hi.
    destruct (decide (i = Z.to_nat (sdx_departing random g))) as [->|Hne].
    + rewrite list_lookup_insert_eq in Hi by (by eapply lookup_lt_Some).
      injection Hi as <-. by apply (Hgrid _ _ Hdt).
    + rewrite list_lookup_insert_ne in Hi by done. by apply Hgrid.
  - apply Forall_insert; [done|].
    destruct Hrep as [->|(k & -> & Hk & _)]; [by left | right; eauto].
  - destruct Hrep as [->|(k & -> & Hk & ->)].
    + cbn [truthy]. by eapply accurate_vacate.
    + cbn [to_key]. by eapply accurate_replace.
Qed.

(** A replacement returns on every grid of positive side. *)
Lemma sdx_replaceTree_total s colorMap g :
  0 < s -> sdx_inv s colorMap g -> is_Some (replaceTree g).
Proof.
  intros Hpos (Hs & HN & Hnm & [Hlen Hgrid] & Hset & Hacc).
  assert (HNpos : 0 < s * s) by nia.
  unfold Socialdx.replaceTree.
  fold (sdx_departing random g). fold (sdx_start random g).
  assert (Hd : 0 <= sdx_departing random g < s * s).
  { unfold sdx_departing. rewrite Hlen. by apply randomIndex_range. }
  destruct (arr_get_in_range (Socialdx.trees (Socialdx.theForest g))
              (sdx_departing random g)) as [dt Hdt]; [lia|].
  rewrite Hdt. cbn [mbind option_bind].
  pose proof Hdt as [_ Hdt']%arr_get_Some.
  destruct (Hgrid _ _ Hdt') as (_ & Hcol & Hrow & Hnbrs).
  destruct (collectSpecies_total (Socialdx.trees (Socialdx.theForest g))
              (Socialdx.neighborTrees dt) ∅) as [ns Hns].
  { intros j Hj. rewrite Hnbrs, Hcol, Hrow, Z2Nat.id in Hj by lia.
    rewrite neighborIndices_torus in Hj by lia.
    rewrite Hlen. by eapply torus_block_range. }
  unfold Socialdx.listNeighborSpecies. rewrite Hns. cbn [mbind option_bind].
  assert (Hstart : 0 <= sdx_start random g < s * s).
  { unfold sdx_start. rewrite HN. by apply randomIndex_range. }
  destruct (scan_total (Socialdx.trees (Socialdx.theForest g)) ns
              (sdx_start random g) (Socialdx.N (Socialdx.theForest g)) 0
              (Z.to_nat (Socialdx.N (Socialdx.theForest g)))) as [rep Hrep].
  { intros j Hj. rewrite HN in *. rewrite modAdd_scan by lia.
    rewrite Hlen. apply Z.mod_pos_bound. lia. }
  rewrite Hrep. done.
Qed.

Lemma sdx_replaceTrees_inv s colorMap n g g' :
  species_set (colorMap.*1) ->
  sdx_inv s colorMap g -> Socialdx.replaceTrees random n g = Some g' ->
  sdx_inv s colorMap g'.
Proof.
  intros Hnames. revert g. induction n as [|n IH]; intros g Hinv;
    cbn [Socialdx.replaceTrees].
  - by intros [= <-].
  - destruct (replaceTree g) as [g1|] eqn:E; [|done]. cbn [mbind option_bind].
    apply IH. by eapply sdx_replaceTree_inv.
Qed.

Lemma sdx_doStartStop_inv s colorMap g :
  sdx_inv s colorMap g -> sdx_inv s colorMap (Socialdx.doStartStop g).
Proof. unfold Socialdx.doStartStop. by destruct (Socialdx.state g). Qed.

Lemma sdx_reachable_inv s colorMap g :
  species_set (colorMap.*1) -> 0 < s ->
  sdx_reachable random s colorMap g -> sdx_inv s colorMap g.
Proof.
  intros Hnames Hs.
  induction 1 as [canvasSize g0|g g' _ IH Hstep|g g' _ IH Hbatch|g _ IH].
  - apply sdx_build_inv; [by apply species_set_nonempty | done].
  - by eapply sdx_replaceTree_inv.
  - unfold Socialdx.runBatch in Hbatch.
    destruct (Socialdx.replaceTrees random Socialdx.batchSize g) as [g1|] eqn:E; [|done].
    cbn [mbind option_bind] in Hbatch. injection Hbatch as <-.
    pose proof (sdx_replaceTrees_inv s colorMap _ g g1 Hnames IH E) as H1.
    case_match; [apply sdx_doStartStop_inv|]; exact H1.
  - by apply sdx_doStartStop_inv.
Qed.

(** *** The test of the scan and the neighbourhood *)

(** On a grid, the test of the scan is passed by the species that are not
    vacant and not present in the 3 x 3 block around the departing tree. *)
Lemma fit_eligible s colorMap g d dt ns v :
  species_set (colorMap.*1) -> 0 < s -> sdx_inv s colorMap g ->
  arr_get (Socialdx.trees (Socialdx.theForest g)) d = Some dt ->
  Socialdx.listNeighborSpecies (Socialdx.trees (Socialdx.theForest g)) dt = Some ns ->
  (v = Null \/ exists k, v = Str k /\ k ∈ colorMap.*1) ->
  fit ns v = true <-> eligible s (sdx_cells g) d v.
Proof.
  intros Hnames Hs (_ & _ & _ & [Hlen Hgrid] & Hset & _) Hdt Hns Hv.
  apply arr_get_Some in Hdt as [Hd0 Hdt].
  assert (Hd : 0 <= d < s * s).
  { apply lookup_lt_Some in Hdt. lia. }
  destruct (Hgrid _ _ Hdt) as (_ & Hcol & Hrow & Hnbrs).
  rewrite Hcol, Hrow, Z2Nat.id, neighborIndices_torus in Hnbrs by lia.
  unfold Socialdx.listNeighborSpecies in Hns. rewrite Hnbrs in Hns.
  pose proof (collectSpecies_Some _ _ _ _ Hns) as Hin.
  unfold eligible, fit.
  destruct Hv as [->|(k & -> & Hk)]; [split; [done | by intros [? _]]|].
  rewrite (species_set_truthy _ _ Hnames Hk). cbn [andb].
  destruct (species_set_ordinary _ _ Hnames Hk) as (_ & _ & Hproto).
  unfold Socialdx.listed. cbn [to_key].
  rewrite (bool_decide_eq_false_2 _ Hproto), orb_false_r, negb_true_iff,
    bool_decide_eq_false.
  assert (Hhood : k ∈ ns <-> Str k ∈ hood s (sdx_cells g) d).
  { rewrite Hin. unfold hood, sdx_cells. rewrite list_elem_of_omap. split.
    - intros [Hempty|(j & t & Hj & Ht & Htruthy & Hkey)]; [by apply elem_of_empty in Hempty|].
      exists j. split; [done|]. rewrite arr_get_fmap, Ht. cbn. f_equal.
      destruct (settled_arr_get _ _ _ _ Hset Ht) as [E|(k' & E & _)];
        rewrite E in *; [done|]. cbn in Hkey. by subst.
    - intros (j & Hj & Hc). right. rewrite arr_get_fmap in Hc.
      destruct (arr_get _ j) as [t|] eqn:Ht; [|done]. injection Hc as Hc.
      exists j, t. rewrite Hc. split; [done|]. split; [done|].
      split; [by eapply species_set_truthy | done]. }
  rewrite Hhood. split; [by split | by intros [_ ?]].
Qed.

(** What a replacement does on a grid of side [s], in terms of the cells. *)
Lemma sdx_step s colorMap g g' :
  species_set (colorMap.*1) -> 0 < s -> sdx_inv s colorMap g ->
  replaceTree g = Some g' ->
  0 <= sdx_departing random g < s * s
  /\ 0 <= sdx_start random g < s * s
  /\ exists old v,
       sdx_cells g !! Z.to_nat (sdx_departing random g) = Some old
       /\ sdx_cells g' = <[Z.to_nat (sdx_departing random g) := v]> (sdx_cells g)
       /\ first_eligible s (sdx_cells g) (sdx_departing random g) (sdx_start random g) v
       /\ Socialdx.census (Socialdx.theForest g')
          = (if decide (v = Null)
             then decr (Socialdx.census (Socialdx.theForest g)) (to_key old)
             else incr (decr (Socialdx.census (Socialdx.theForest g)) (to_key old))
                    (to_key v))
       /\ Socialdx.stepCount g' = Socialdx.stepCount g + 1.
Proof.
  intros Hnames Hs Hinv Hstep.
  pose proof Hinv as (_ & HN & _ & [Hlen Hgrid] & Hset & _).
  assert (HNpos : 0 < s * s) by nia.
  assert (Hd : 0 <= sdx_departing random g < s * s).
  { unfold sdx_departing. rewrite Hlen. by apply randomIndex_range. }
  assert (Hstart : 0 <= sdx_start random g < s * s).
  { unfold sdx_start. rewrite HN. by apply randomIndex_range. }
  split; [done|]. split; [done|].
  destruct (sdx_replaceTree_cells g g' Hstep)
    as (dt & ns & rep & Hdt & Hns & Hscan & Hcell & Hcells).
  destruct (sdx_replaceTree_Some g g' Hstep)
    as (dt' & ns' & rep' & Hdt' & Hns' & Hscan' & _ & Hcensus & _ & _ & _ & Hclock & _).
  assert (dt' = dt) as -> by congruence.
  assert (rep' = rep) as -> by congruence.
  clear Hdt' Hns' Hscan' ns'.
  exists (Socialdx.species dt), rep.
  split; [done|]. split; [done|].
  pose proof (scan_result _ _ _ _ _ _ _ _ Hset Hscan) as Hrep.
  assert (Hcand : forall j c, (j < Z.to_nat (s * s))%nat ->
            arr_get (Socialdx.trees (Socialdx.theForest g))
              (Socialdx.modAdd (sdx_start random g) (0 + Z.of_nat j) (s * s)) = Some c ->
            arr_get (sdx_cells g) ((sdx_start random g + Z.of_nat j) mod (s * s))
            = Some (Socialdx.species c)
            /\ (fit ns (Socialdx.species c) = true
                <-> eligible s (sdx_cells g) (sdx_departing random g)
                      (Socialdx.species c))).
  { intros j c Hj Hc. rewrite Z.add_0_l, modAdd_scan in Hc by lia. split.
    - unfold sdx_cells. by rewrite arr_get_fmap, Hc.
    - eapply fit_eligible; [done|done|exact Hinv|exact Hdt|exact Hns|].
      by eapply settled_arr_get. }
  rewrite HN in Hscan.
  split; [|split; [|done]].
  - destruct (scan_Some _ _ _ _ _ _ _ Hscan)
      as [[-> Hall]|(j & c & Hj & Hc & Hfit & -> & Hbefore)].
    + left. split; [done|]. intros j Hj.
      destruct (Hall (Z.to_nat j) ltac:(lia)) as (c & Hc & Hfit).
      destruct (Hcand (Z.to_nat j) c ltac:(lia) Hc) as [Hcell' Hiff].
      rewrite Z2Nat.id in Hcell' by lia.
      exists (Socialdx.species c). split; [done|].
      rewrite <- Hiff. by rewrite Hfit.
    + right. exists (Z.of_nat j).
      destruct (Hcand _ _ Hj Hc) as [Hcell' Hiff].
      split; [lia|]. split; [done|]. split; [by apply Hiff|].
      intros j' Hj'.
      destruct (Hbefore (Z.to_nat j') ltac:(lia)) as (c' & Hc' & Hfit').
      destruct (Hcand (Z.to_nat j') c' ltac:(lia) Hc') as [Hcell'' Hiff'].
      rewrite Z2Nat.id in Hcell'' by lia.
      exists (Socialdx.species c'). split; [done|].
      rewrite <- Hiff'. by rewrite Hfit'.
  - rewrite Hcensus. destruct Hrep as [->|(k & -> & _ & Htruthy)].
    + by rewrite decide_True.
    + by rewrite Htruthy, decide_False.
Qed.

End SocialdxStep.

(** *** The constructor on any side length, and the 3 x 3 grid *)

(** Whatever the side length, the constructor plants names and counts
    them. *)
Lemma sdx_plant_loop_counts random names n s R r stepCount i p :
  names <> [] ->
  populated names (Socialdx.species <$> Socialdx.p_trees p)
  /\ accurate names (Socialdx.p_census p) (Socialdx.species <$> Socialdx.p_trees p) ->
  let p' := Socialdx.plant_loop random n names s R r stepCount i p in
  populated names (Socialdx.species <$> Socialdx.p_trees p')
  /\ accurate names (Socialdx.p_census p') (Socialdx.species <$> Socialdx.p_trees p')
  /\ length (Socialdx.p_trees p') = (length (Socialdx.p_trees p) + n)%nat.
Proof.
  intros Hne. cbv zeta. revert i p.
  induction n as [|n IH]; intros i p [Hpop Hacc]; cbn [Socialdx.plant_loop].
  - split; [done|]. split; [done|lia].
  - destruct (randomElement_name names (random (Socialdx.p_draws p)) Hne)
      as (k & Hk & Hin).
    destruct (IH (i + 1) (Socialdx.plant random names s R r stepCount i p))
      as (Hpop' & Hacc' & Hlen').
    { unfold Socialdx.plant. cbn [Socialdx.p_trees Socialdx.p_census Socialdx.species].
      rewrite fmap_app. cbn [fmap list_fmap Socialdx.species]. rewrite Hk. split.
      - apply Forall_app. split; [done|]. apply Forall_singleton. eauto.
      - intros k' Hk'. cbn [to_key].
        rewrite (lookup_incr_Num _ _ _ _ (Hacc k' Hk')).
        rewrite population_app, population_cons, population_nil. do 2 f_equal. lia. }
    split; [done|]. split; [done|]. rewrite Hlen'.
    unfold Socialdx.plant. cbn [Socialdx.p_trees]. rewrite length_app. simpl. lia.
Qed.

Lemma sdx_newForest_counts random s colorMap canvasSize stepCount draws :
  colorMap.*1 <> [] ->
  let f := (Socialdx.newForest random s colorMap canvasSize stepCount draws).1 in
  Z.of_nat (length (Socialdx.trees f)) = s * s
  /\ Socialdx.N f = s * s
  /\ Socialdx.treeNames f = colorMap.*1
  /\ populated (colorMap.*1) (Socialdx.species <$> Socialdx.trees f)
  /\ accurate (colorMap.*1) (Socialdx.census f) (Socialdx.species <$> Socialdx.trees f).
Proof.
  intros Hne. cbv zeta. unfold Socialdx.newForest. cbv zeta.
  cbn [fst Socialdx.trees Socialdx.N Socialdx.treeNames Socialdx.census].
  set (R := (canvasSize / (inject_Z s * 2))%Q).
  edestruct (sdx_plant_loop_counts random (colorMap.*1) (Z.to_nat (square s)) s R
               (R - 1)%Q stepCount 0
               {| Socialdx.p_row := 0; Socialdx.p_col := 0; Socialdx.p_x := R;
                  Socialdx.p_y := R; Socialdx.p_trees := [];
                  Socialdx.p_census := Socialdx.zeroCounts (colorMap.*1);
                  Socialdx.p_draws := draws |})
    as (Hpop & Hacc & Hlen); [exact Hne| |].
  { cbn [Socialdx.p_trees Socialdx.p_census]. split; [constructor|].
    intros k Hk. unfold Socialdx.zeroCounts. rewrite zero_fold_lookup.
    by rewrite decide_True. }
  rewrite sdx_cells_listNeighbors, length_fmap.
  split; [|split; [done|split; [done|split; [exact Hpop|exact Hacc]]]].
  rewrite Hlen. cbn [Socialdx.p_trees length]. unfold square. nia.
Qed.

(** On the grid of side 3 every 3 x 3 block is the whole grid. *)
Lemma torus_block_3 (d i : Z) :
  0 <= d < 9 -> 0 <= i < 9 -> i ∈ torus_block 3 d.
Proof.
  intros Hd Hi.
  assert (Hall : forallb (fun d => forallb (fun i => bool_decide (i ∈ torus_block 3 d))
                                     (seqZ 0 9)) (seqZ 0 9) = true)
    by (by vm_compute).
  rewrite forallb_forall in Hall.
  specialize (Hall d). rewrite forallb_forall in Hall.
  eapply bool_decide_unpack, Is_true_true_2, Hall.
  - apply list_elem_of_In, elem_of_seqZ. lia.
  - apply list_elem_of_In, elem_of_seqZ. lia.
Qed.

Lemma sdx_replaceTrees_reachable random s colorMap n g g' :
  sdx_reachable random s colorMap g ->
  Socialdx.replaceTrees random n g = Some g' ->
  sdx_reachable random s colorMap g'.
Proof.
  revert g. induction n as [|n IH]; intros g Hg; cbn [Socialdx.replaceTrees].
  - by intros [= <-].
  - destruct (Socialdx.replaceTree random g) as [g1|] eqn:E; [|done].
    cbn [mbind option_bind]. apply IH. by eapply sdx_replaced.
Qed.

(** ** Plain drift *)

Section EcodriftProperties.

Variable random : nat -> sample.
Variable names : list string.

Local Abbreviation replaceTree := (Ecodrift.replaceTree random).

Lemma drift_replaceTree_Some g g' :
  replaceTree g = Some g' ->
  exists (i j : nat) departingTree arrivingTree,
    Ecodrift.theForest g !! i = Some departingTree
    /\ Ecodrift.theForest g !! j = Some arrivingTree
    /\ Ecodrift.theForest g'
       = <[i := Plot.set_species departingTree (Plot.species arrivingTree)]>
           (Ecodrift.theForest g)
    /\ Ecodrift.theCensus g'
       = incr (decr (Ecodrift.theCensus g) (to_key (Plot.species departingTree)))
           (to_key (Plot.species arrivingTree))
    /\ Ecodrift.stepCount g' = Ecodrift.stepCount g + 1.
Proof.
  unfold Ecodrift.replaceTree.
  destruct (randomElement (Ecodrift.theForest g) _) as [at_|] eqn:Hat; [|done].
  cbn [mbind option_bind].
  destruct (arr_get (Ecodrift.theForest g) _) as [dt|] eqn:Hdt; [|done].
  cbn [mbind option_bind]. intros [= <-].
  apply arr_get_Some in Hat as [_ Hat]. apply arr_get_Some in Hdt as [_ Hdt].
  eexists _, _, dt, at_. by repeat split.
Qed.

Lemma drift_replaceTree_total g :
  Ecodrift.theForest g <> [] -> is_Some (replaceTree g).
Proof.
  intros Hne. unfold Ecodrift.replaceTree.
  destruct (randomElement_is_Some (Ecodrift.theForest g)
              (random (S (Ecodrift.draws g))) Hne) as [at_ ->].
  cbn [mbind option_bind].
  destruct (arr_get_in_range (Ecodrift.theForest g)
              (randomIndex (Z.of_nat (length (Ecodrift.theForest g)))
                 (random (Ecodrift.draws g)))) as [dt ->]; [|done].
  apply randomIndex_range. destruct (Ecodrift.theForest g); [done | simpl; lia].
Qed.

Lemma drift_replaceTree_inv s g g' :
  drift_inv names s g -> replaceTree g = Some g' -> drift_inv names s g'.
Proof.
  intros (Hlen & Hpop & Hacc) Hstep.
  destruct (drift_replaceTree_Some g g' Hstep)
    as (i & j & dt & at_ & Hdt & Hat & Hforest & Hcensus & _).
  assert (Hcell : drift_cells g !! i = Some (Plot.species dt)).
  { unfold drift_cells. by rewrite list_lookup_fmap, Hdt. }
  assert (Hk : exists k, Plot.species at_ = Str k /\ k ∈ names).
  { eapply Forall_lookup_1 in Hpop; [exact Hpop|].
    unfold drift_cells. by rewrite list_lookup_fmap, Hat. }
  destruct Hk as (k & Hk & Hin).
  assert (Hcells : drift_cells g' = <[i := Str k]> (drift_cells g)).
  { unfold drift_cells. by rewrite Hforest, list_fmap_insert, <- Hk. }
  split; [|split].
  - by rewrite Hforest, length_insert.
  - rewrite Hcells. apply Forall_insert; [done|]. eauto.
  - rewrite Hcells, Hcensus, Hk. cbn [to_key].
    eapply accurate_replace; [exact Hcell | |done].
    eapply Forall_lookup_1 in Hpop as (kd & -> & _); [|exact Hcell].
    apply key_safe_Str.
Qed.

Lemma drift_reachable_inv s g :
  names <> [] -> drift_reachable random names s g -> drift_inv names s g.
Proof.
  intros Hne. induction 1 as [d|g g' _ IH Hstep].
  - unfold Ecodrift.build.
    destruct (Plot.createForest random names s 0 d) as [[forest census] d'] eqn:E.
    apply (createForest_spec _ _ Hne) in E. exact E.
  - by eapply drift_replaceTree_inv.
Qed.

(** A batch of [B] replacements returns, and advances the clock by [B]. *)
Lemma drift_runBatch_total B g :
  Ecodrift.theForest g <> [] ->
  exists g', Ecodrift.runBatch random B g = Some g'
    /\ Ecodrift.stepCount g' = Ecodrift.stepCount g + Z.of_nat B
    /\ Ecodrift.theForest g' <> [].
Proof.
  revert g. induction B as [|B IH]; intros g Hne; cbn [Ecodrift.runBatch].
  - exists g. split; [done|]. split; [lia | done].
  - destruct (drift_replaceTree_total g Hne) as [g1 Hg1]. rewrite Hg1.
    cbn [mbind option_bind].
    destruct (drift_replaceTree_Some g g1 Hg1)
      as (i & j & dt & at_ & _ & _ & Hforest & _ & Hclock).
    destruct (IH g1) as (g' & Hg' & Hclock' & Hne').
    { rewrite Hforest. intros E. apply Hne.
      apply (f_equal length) in E. rewrite length_insert in E.
      by apply nil_length_inv. }
    exists g'. split; [done|]. split; [lia | done].
Qed.

End EcodriftProperties.

(** ** The layout of the plots *)

Section PlotLayout.

Variable random : nat -> sample.
Variable names : list string.
Variable s : Z.
Hypothesis side_positive : 0 < s.

Lemma plant_laid R r stepCount p :
  plot_laid s R r stepCount p ->
  plot_laid s R r stepCount (Plot.plant random names s R r stepCount p).
Proof.
  intros (Hcol & Hlen & Hx & Hy & Hr & Htrees).
  unfold plot_laid, Plot.plant.
  cbn [Plot.treeVector Plot.p_col Plot.p_row Plot.p_x Plot.p_y].
  rewrite length_app. cbn [length].
  split; [|split; [|split; [|split; [|split]]]].
  - destruct (Z.geb_spec (Plot.p_col p + 1) s); lia.
  - destruct (Z.geb_spec (Plot.p_col p + 1) s); lia.
  - reflexivity.
  - reflexivity.
  - done.
  - intros j t Hj. apply lookup_app_Some in Hj as [Hj|[Hge Hj]].
    + by apply Htrees.
    + apply list_lookup_singleton_Some in Hj as [Hj0 <-].
      assert (Z.of_nat j = Plot.p_row p * s + Plot.p_col p) as Hjz by lia.
      unfold plot_site.
      cbn [Plot.col Plot.row Plot.x Plot.y Plot.r Plot.birthdate].
      split; [|split; [|split; [done|split; [done|split; [exact Hr|done]]]]].
      * rewrite Hjz. apply Z.mod_unique with (q := Plot.p_row p); lia.
      * rewrite Hjz. apply Z.div_unique with (r := Plot.p_col p); lia.
Qed.

Lemma plant_loop_laid n R r stepCount p :
  plot_laid s R r stepCount p ->
  plot_laid s R r stepCount (Plot.plant_loop random names n s R r stepCount p).
Proof.
  revert p. induction n as [|n IH]; intros p Hp; [done|].
  cbn [Plot.plant_loop]. by apply IH, plant_laid.
Qed.

(** [createForest] lays the trees out row by row. *)
Lemma createForest_laid stepCount d :
  let R := (Plot.canvasSize / (inject_Z s * 2))%Q in
  forall (j : nat) t,
    (Plot.createForest random names s stepCount d).1.1 !! j = Some t ->
    plot_site s R stepCount j t.
Proof.
  intros R j t. unfold Plot.createForest. cbv zeta. cbn [fst].
  fold R. intros Hj.
  eapply (plant_loop_laid (Z.to_nat (square s)) R (R - 1)%Q stepCount); [|exact Hj].
  unfold plot_laid.
  cbn [Plot.treeVector Plot.p_col Plot.p_row Plot.p_x Plot.p_y length].
  split; [lia|]. split; [done|]. split; [|split; [|split; [done|]]].
  - cbn. ring.
  - cbn. ring.
  - intros j' t' Hj'. by rewrite lookup_nil in Hj'.
Qed.

Lemma plant_drawn d R r stepCount p :
  plot_drawn random names d p ->
  plot_drawn random names d (Plot.plant random names s R r stepCount p).
Proof.
  intros [Hd Hsp]. unfold plot_drawn, Plot.plant.
  cbn [Plot.treeVector Plot.p_draws]. rewrite length_app. cbn [length].
  split; [lia|].
  intros j t Hj. apply lookup_app_Some in Hj as [Hj|[Hge Hj]].
  - by apply Hsp.
  - apply list_lookup_singleton_Some in Hj as [Hj0 <-].
    cbn [Plot.species]. rewrite Hd. do 3 f_equal. lia.
Qed.

Lemma plant_loop_drawn n d R r stepCount p :
  plot_drawn random names d p ->
  plot_drawn random names d (Plot.plant_loop random names n s R r stepCount p).
Proof.
  revert p. induction n as [|n IH]; intros p Hp; [done|].
  cbn [Plot.plant_loop]. by apply IH, plant_drawn.
Qed.

(** The species of the tree of index [j] comes from the random value of
    index [d + j]. *)
Lemma createForest_drawn stepCount d (j : nat) t :
  (Plot.createForest random names s stepCount d).1.1 !! j = Some t ->
  Plot.species t = of_option (randomElement names (random (d + j)%nat)).
Proof.
  unfold Plot.createForest. cbv zeta. cbn [fst]. intros Hj.
  eapply plant_loop_drawn; [|exact Hj].
  split; [cbn; lia|]. intros j' t' Hj'. cbn [Plot.treeVector] in Hj'.
  by rewrite lookup_nil in Hj'.
Qed.

Lemma createForest_draws stepCount d :
  (Plot.createForest random names s stepCount d).2 = (d + Z.to_nat (s * s))%nat.
Proof.
  unfold Plot.createForest. cbv zeta. cbn [snd].
  by rewrite plant_loop_draws.
Qed.

End PlotLayout.

(** *** Disks and canvas *)

Lemma half_spacing (C : Q) (s : Z) :
  0 < s -> (0 < C)%Q ->
  let R := (C / (inject_Z s * 2))%Q in
  (0 < R)%Q /\ (2 * R * inject_Z s == C)%Q.
Proof.
  intros Hs HC R.
  assert (HS : (inject_Z 0 < inject_Z s)%Q) by (rewrite <- Zlt_Qlt; exact Hs).
  change (inject_Z 0) with 0%Q in HS.
  split.
  - unfold R. apply Qlt_shift_div_l; lra.
  - unfold R. field. lra.
Qed.

(** The centre of the disk of a tree of column [col] is at least [R] away
    from both edges of the canvas. *)
Lemma centre_inside (C : Q) (s col : Z) :
  0 < s -> (0 < C)%Q -> 0 <= col < s ->
  let R := (C / (inject_Z s * 2))%Q in
  (R <= 2 * R * inject_Z col + R <= C - R)%Q.
Proof.
  intros Hs HC Hcol R.
  destruct (half_spacing C s Hs HC) as [HR HRs]. fold R in HR, HRs.
  assert (Hc0 : (inject_Z 0 <= inject_Z col)%Q) by (rewrite <- Zle_Qle; lia).
  change (inject_Z 0) with 0%Q in Hc0.
  assert (Hc1 : (inject_Z col <= inject_Z s - 1)%Q).
  { assert (Hle : (inject_Z col <= inject_Z (s - 1))%Q)
      by (rewrite <- Zle_Qle; lia).
    assert (Heq : (inject_Z (s - 1) == inject_Z s - 1)%Q)
      by (unfold Z.sub; rewrite inject_Z_plus; reflexivity).
    lra. }
  assert (H1 : (0 <= R * inject_Z col)%Q) by (apply Qmult_le_0_compat; lra).
  assert (H2 : (0 <= R * (inject_Z s - 1 - inject_Z col))%Q)
    by (apply Qmult_le_0_compat; lra).
  split; lra.
Qed.

(** *** The constructor of [Forest] *)

Section ForestLayout.

Variable random : nat -> sample.
Variable names : list string.
Variable s : Z.
Hypothesis side_positive : 0 < s.

Lemma sdx_plant_laid R r stepCount i p :
  sdx_laid s R r stepCount i p ->
  sdx_laid s R r stepCount (i + 1) (Socialdx.plant random names s R r stepCount i p).
Proof.
  intros (Hi & Hcol & Hlen & Hx & Hy & Hr & Htrees).
  unfold sdx_laid, Socialdx.plant.
  cbn [Socialdx.p_trees Socialdx.p_col Socialdx.p_row Socialdx.p_x Socialdx.p_y].
  rewrite length_app. cbn [length].
  split; [lia|]. split; [|split; [|split; [|split; [|split]]]].
  - destruct (Z.geb_spec (Socialdx.p_col p + 1) s); lia.
  - destruct (Z.geb_spec (Socialdx.p_col p + 1) s); lia.
  - reflexivity.
  - reflexivity.
  - done.
  - intros j t Hj. apply lookup_app_Some in Hj as [Hj|[Hge Hj]].
    + by apply Htrees.
    + apply list_lookup_singleton_Some in Hj as [Hj0 <-].
      assert (Z.of_nat j = Socialdx.p_row p * s + Socialdx.p_col p) as Hjz by lia.
      unfold sdx_site.
      cbn [Socialdx.idx Socialdx.col Socialdx.row Socialdx.x Socialdx.y Socialdx.r
           Socialdx.birthdate].
      split; [lia|].
      split; [|split; [|split; [done|split; [done|split; [exact Hr|done]]]]].
      * rewrite Hjz. apply Z.mod_unique with (q := Socialdx.p_row p); lia.
      * rewrite Hjz. apply Z.div_unique with (r := Socialdx.p_col p); lia.
Qed.

Lemma sdx_plant_loop_laid n R r stepCount i p :
  sdx_laid s R r stepCount i p ->
  sdx_laid s R r stepCount (i + Z.of_nat n)
    (Socialdx.plant_loop random n names s R r stepCount i p).
Proof.
  revert i p. induction n as [|n IH]; intros i p Hp.
  - cbn [Socialdx.plant_loop]. by replace (i + Z.of_nat 0) with i by lia.
  - cbn [Socialdx.plant_loop].
    replace (i + Z.of_nat (S n)) with (i + 1 + Z.of_nat n) by lia.
    by apply IH, sdx_plant_laid.
Qed.

Lemma sdx_plant_drawn d R r stepCount i p :
  sdx_drawn random names d p ->
  sdx_drawn random names d (Socialdx.plant random names s R r stepCount i p).
Proof.
  intros [Hd Hsp]. unfold sdx_drawn, Socialdx.plant.
  cbn [Socialdx.p_trees Socialdx.p_draws]. rewrite length_app. cbn [length].
  split; [lia|].
  intros j t Hj. apply lookup_app_Some in Hj as [Hj|[Hge Hj]].
  - by apply Hsp.
  - apply list_lookup_singleton_Some in Hj as [Hj0 <-].
    cbn [Socialdx.species Socialdx.neighborTrees Socialdx.neighborSpecies].
    split; [|done]. rewrite Hd. do 3 f_equal. lia.
Qed.

Lemma sdx_plant_loop_drawn n d R r stepCount i p :
  sdx_drawn random names d p ->
  sdx_drawn random names d (Socialdx.plant_loop random n names s R r stepCount i p).
Proof.
  revert i p. induction n as [|n IH]; intros i p Hp; [done|].
  cbn [Socialdx.plant_loop]. by apply IH, sdx_plant_drawn.
Qed.

End ForestLayout.

(** The trees the constructor of [Forest] makes, before and after their
    neighbours are listed. *)
Lemma newForest_trees random s colorMap canvasSize stepCount d (j : nat) t :
  0 < s ->
  Socialdx.trees (Socialdx.newForest random s colorMap canvasSize stepCount d).1 !! j
  = Some t ->
  let R := (canvasSize / (inject_Z s * 2))%Q in
  sdx_site s R stepCount j t
  /\ Socialdx.species t
     = of_option (randomElement (colorMap.*1) (random (d + j)%nat))
  /\ Socialdx.neighborTrees t
     = Socialdx.neighborIndices (Socialdx.col t) (Socialdx.row t) s
  /\ Socialdx.neighborSpecies t = ∅.
Proof.
  intros Hs Hj R. unfold Socialdx.newForest in Hj. cbv zeta in Hj.
  cbn [fst Socialdx.trees] in Hj. fold R in Hj.
  rewrite list_lookup_fmap in Hj.
  destruct (_ !! j) as [t0|] eqn:Ht0; [|done]. injection Hj as <-.
  set (p0 := {| Socialdx.p_row := 0; Socialdx.p_col := 0; Socialdx.p_x := R;
                Socialdx.p_y := R; Socialdx.p_trees := [];
                Socialdx.p_census := Socialdx.zeroCounts (colorMap.*1);
                Socialdx.p_draws := d |}) in *.
  assert (Hlaid : sdx_laid s R (R - 1)%Q stepCount 0 p0).
  { unfold sdx_laid, p0.
    cbn [Socialdx.p_trees Socialdx.p_col Socialdx.p_row Socialdx.p_x Socialdx.p_y length].
    split; [done|]. split; [lia|]. split; [lia|].
    split; [cbn; ring|]. split; [cbn; ring|]. split; [done|].
    intros j' t' Hj'. by rewrite lookup_nil in Hj'. }
  assert (Hdrawn : sdx_drawn random (colorMap.*1) d p0).
  { split; [cbn; lia|]. intros j' t' Hj'. cbn [Socialdx.p_trees p0] in Hj'.
    by rewrite lookup_nil in Hj'. }
  apply (sdx_plant_loop_laid random (colorMap.*1) s Hs (Z.to_nat (square s)) R (R - 1)%Q
           stepCount 0 p0) in Hlaid.
  apply (sdx_plant_loop_drawn random (colorMap.*1) s (Z.to_nat (square s)) d R (R - 1)%Q
           stepCount 0 p0) in Hdrawn.
  destruct Hlaid as (_ & _ & _ & _ & _ & _ & Hsite).
  destruct Hdrawn as [_ Hsp].
  specialize (Hsite j t0 Ht0). destruct (Hsp j t0 Ht0) as (Hspec & Hnb & Hns).
  split; [exact Hsite|]. split; [exact Hspec|].
  split; [|exact Hns].
  unfold Socialdx.listNeighbors. cbn [Socialdx.neighborTrees Socialdx.set_neighborTrees
    Socialdx.col Socialdx.row]. by rewrite Hnb.
Qed.

Lemma sdx_plant_loop_length random n names s R r stepCount i p :
  length (Socialdx.p_trees (Socialdx.plant_loop random n names s R r stepCount i p))
  = (length (Socialdx.p_trees p) + n)%nat.
Proof.
  revert i p. induction n as [|n IH]; intros i p; cbn [Socialdx.plant_loop]; [lia|].
  rewrite IH. unfold Socialdx.plant. cbn [Socialdx.p_trees].
  rewrite length_app. cbn [length]. lia.
Qed.

Lemma sdx_plant_loop_draws random n names s R r stepCount i p :
  Socialdx.p_draws (Socialdx.plant_loop random n names s R r stepCount i p)
  = (Socialdx.p_draws p + n)%nat.
Proof.
  revert i p. induction n as [|n IH]; intros i p; cbn [Socialdx.plant_loop]; [lia|].
  rewrite IH. unfold Socialdx.plant. cbn [Socialdx.p_draws]. lia.
Qed.

Lemma newForest_length random s colorMap canvasSize stepCount d :
  length (Socialdx.trees (Socialdx.newForest random s colorMap canvasSize stepCount d).1)
  = Z.to_nat (s * s).
Proof.
  unfold Socialdx.newForest. cbv zeta. cbn [fst Socialdx.trees].
  rewrite length_fmap, sdx_plant_loop_length. cbn [Socialdx.p_trees length].
  unfold square. lia.
Qed.

Lemma newForest_draws random s colorMap canvasSize stepCount d :
  (Socialdx.newForest random s colorMap canvasSize stepCount d).2
  = (d + Z.to_nat (s * s))%nat.
Proof.
  unfold Socialdx.newForest. cbv zeta. cbn [snd].
  rewrite sdx_plant_loop_draws. cbn [Socialdx.p_draws]. unfold square. lia.
Qed.

Lemma createForest_length random names s stepCount d :
  length (Plot.createForest random names s stepCount d).1.1 = Z.to_nat (s * s).
Proof.
  unfold Plot.createForest. cbv zeta. cbn [fst].
  rewrite plant_loop_length. cbn [Plot.treeVector length]. unfold square. lia.
Qed.

(** A cell of column [c] and row [r] has the index [c + r * s], from which
    the column and the row are recovered. *)
Lemma colRowToIndex_inverse (c r s : Z) :
  0 <= c < s ->
  Socialdx.colRowToIndex c r s mod s = c /\ Socialdx.colRowToIndex c r s / s = r.
Proof.
  intros Hc. unfold Socialdx.colRowToIndex. split.
  - symmetry. apply Z.mod_unique with (q := r); lia.
  - symmetry. apply Z.div_unique with (r := c); lia.
Qed.

Lemma colRowToIndex_of_index (j s : Z) :
  0 < s -> Socialdx.colRowToIndex (j mod s) (j / s) s = j.
Proof.
  intros Hs. unfold Socialdx.colRowToIndex.
  pose proof (Z.div_mod j s). lia.
Qed.

(** The fifth of the nine references of a tree is the tree itself. *)
Lemma neighborIndices_centre (c r s : Z) :
  0 <= c < s -> 0 <= r < s ->
  length (Socialdx.neighborIndices c r s) = 9%nat
  /\ Socialdx.neighborIndices c r s !! 4%nat = Some (Socialdx.colRowToIndex c r s).
Proof.
  intros Hc Hr. split; [done|].
  cbn. unfold Socialdx.modAdd.
  replace (c + 0) with c by lia. replace (r + 0) with r by lia.
  destruct (Z.ltb_spec c 0); [lia|]. destruct (Z.geb_spec c s); [lia|].
  destruct (Z.ltb_spec r 0); [lia|]. destruct (Z.geb_spec r s); [lia|].
  done.
Qed.

(** *** The neighbourhoods of the torus *)

Lemma torus_block_elem (s i j : Z) :
  j ∈ torus_block s i
  <-> exists h v, -1 <= h <= 1 /\ -1 <= v <= 1 /\ j = torus_cell s i h v.
Proof.
  unfold torus_block. cbn [mbind list_bind mret app]. split.
  - intros Hj.
    repeat (apply elem_of_cons in Hj as [->|Hj];
            [eexists _, _; split; [|split; [|reflexivity]]; lia|]).
    by apply elem_of_nil in Hj.
  - intros (h & v & Hh & Hv & ->).
    assert (h = -1 \/ h = 0 \/ h = 1) as [->|[->| ->]] by lia;
      (assert (v = -1 \/ v = 0 \/ v = 1) as [->|[->| ->]] by lia);
      repeat first [by left | right].
Qed.

Lemma torus_ring_elem (s i j : Z) :
  j ∈ torus_ring s i
  <-> exists h v, -1 <= h <= 1 /\ -1 <= v <= 1 /\ (h, v) <> (0, 0)
        /\ j = torus_cell s i h v.
Proof.
  unfold torus_ring. cbn [mbind list_bind mret app]. split.
  - intros Hj.
    repeat (apply elem_of_cons in Hj as [->|Hj];
            [eexists _, _; split; [|split; [|split; [|reflexivity]]];
             [lia|lia|intros [= ? ?]; lia]|]).
    by apply elem_of_nil in Hj.
  - intros (h & v & Hh & Hv & Hne & ->).
    assert (h = -1 \/ h = 0 \/ h = 1) as [->|[->| ->]] by lia;
      (assert (v = -1 \/ v = 0 \/ v = 1) as [->|[->| ->]] by lia);
      try done; repeat first [by left | right].
Qed.

(** The column and the row of the cell at the offset [(h, v)] *)
Lemma torus_cell_coords (s i h v : Z) :
  0 < s ->
  torus_cell s i h v mod s = (i mod s + h) mod s
  /\ torus_cell s i h v / s = (i / s + v) mod s.
Proof.
  intros Hs. unfold torus_cell.
  apply (colRowToIndex_inverse ((i mod s + h) mod s) ((i / s + v) mod s) s).
  apply Z.mod_pos_bound. lia.
Qed.

(** Going to the offset [(h, v)] and then to [(- h, - v)] leads back. *)
Lemma torus_cell_back (s i h v : Z) :
  0 < s -> 0 <= i < s * s ->
  torus_cell s (torus_cell s i h v) (- h) (- v) = i.
Proof.
  intros Hs Hi.
  destruct (torus_cell_coords s i h v Hs) as [Hc Hr].
  unfold torus_cell at 1. rewrite Hc, Hr.
  rewrite Zplus_mod_idemp_l, Zplus_mod_idemp_l.
  replace (i mod s + h + - h) with (i mod s) by lia.
  replace (i / s + v + - v) with (i / s) by lia.
  rewrite Z.mod_mod by lia.
  rewrite (Z.mod_small (i / s)).
  - pose proof (Z.div_mod i s). lia.
  - split; [apply Z.div_pos; lia | apply Z.div_lt_upper_bound; lia].
Qed.

(** Being a neighbour is symmetric. *)
Lemma torus_block_sym (s i j : Z) :
  0 < s -> 0 <= i < s * s -> j ∈ torus_block s i -> i ∈ torus_block s j.
Proof.
  intros Hs Hi Hj. apply torus_block_elem in Hj as (h & v & Hh & Hv & ->).
  apply torus_block_elem. exists (- h), (- v).
  split; [lia|]. split; [lia|]. symmetry. by apply torus_cell_back.
Qed.

Lemma torus_block_self (s i : Z) :
  0 < s -> 0 <= i < s * s -> i ∈ torus_block s i.
Proof.
  intros Hs Hi. apply torus_block_elem. exists 0, 0.
  split; [lia|]. split; [lia|]. unfold torus_cell.
  rewrite !Z.add_0_r, Z.mod_mod by lia.
  rewrite (Z.mod_small (i / s)).
  - pose proof (Z.div_mod i s). lia.
  - split; [apply Z.div_pos; lia | apply Z.div_lt_upper_bound; lia].
Qed.

(** *** Populations *)

Lemma population_le_length sp cells : population sp cells <= Z.of_nat (length cells).
Proof.
  unfold population. pose proof (length_filter (sp =.) cells). lia.
Qed.

Lemma population_elem sp cells : sp ∈ cells -> 1 <= population sp cells.
Proof.
  induction 1 as [v cells|v w cells Hin IH]; rewrite population_cons.
  - unfold one_if. rewrite decide_True by done.
    pose proof (population_nonneg v cells). lia.
  - unfold one_if. destruct (decide (v = w)); lia.
Qed.

Lemma population_zero sp cells : population sp cells = 0 <-> sp ∉ cells.
Proof.
  split.
  - intros H0 Hin. apply population_elem in Hin. lia.
  - intros Hnot. induction cells as [|v cells IH]; [done|].
    rewrite population_cons. apply not_elem_of_cons in Hnot as [Hne Hnot].
    unfold one_if. rewrite decide_False by done. rewrite IH by done. done.
Qed.

Lemma accurate_bounded names census cells k :
  accurate names census cells -> k ∈ names ->
  exists z, census !! k = Some (Num z)
    /\ z = population (Str k) cells
    /\ 0 <= z <= Z.of_nat (length cells).
Proof.
  intros Hacc Hk. exists (population (Str k) cells).
  split; [by apply Hacc|]. split; [done|].
  split; [apply population_nonneg | apply population_le_length].
Qed.

(** ** [immigration.js]: the page and its controls *)

Lemma plot_frame_insert s R born forest (i : nat) t sp :
  forest !! i = Some t ->
  plot_frame s R born forest ->
  plot_frame s R born (<[i := Plot.set_species t sp]> forest).
Proof.
  intros Hi [Hlen Hsite]. split; [by rewrite length_insert|].
  intros j t' Hj. destruct (decide (j = i)) as [->|Hne].
  - rewrite list_lookup_insert_eq in Hj by (by eapply lookup_lt_Some).
    injection Hj as <-. exact (Hsite i t Hi).
  - rewrite list_lookup_insert_ne in Hj by done. by apply Hsite.
Qed.

Lemma plot_frame_nonempty s R born forest :
  0 < s -> plot_frame s R born forest -> forest <> [].
Proof.
  intros Hs [Hlen _] ->. cbn in Hlen. nia.
Qed.

Lemma createForest_frame random names s stepCount d :
  0 < s ->
  plot_frame s (Plot.canvasSize / (inject_Z s * 2))%Q stepCount
    (Plot.createForest random names s stepCount d).1.1.
Proof.
  intros Hs. split; [apply createForest_length|].
  intros j t. by apply createForest_laid.
Qed.

Section ImmigrationPage.

Variable random : nat -> sample.

Lemma imm_replaceTree_page g g' :
  Immigration.replaceTree random g = Some g' ->
  Immigration.state g' = Immigration.state g
  /\ Immigration.timer g' = Immigration.timer g
  /\ Immigration.startStopButton g' = Immigration.startStopButton g
  /\ Immigration.stepCountDisplay g' = Immigration.stepCountDisplay g
  /\ Immigration.immigrationInterval g' = Immigration.immigrationInterval g
  /\ Immigration.stepCount g' = Immigration.stepCount g + 1
  /\ Immigration.draws g' = S (S (Immigration.draws g)).
Proof.
  unfold Immigration.replaceTree.
  destruct (Immigration.arrivingSpecies g _) as [arriving|]; [|done].
  cbn [mbind option_bind].
  destruct (arr_get (Immigration.theForest g) _) as [t|]; [|done].
  cbn [mbind option_bind]. intros [= <-]. by repeat split.
Qed.

Lemma imm_replaceTree_frame s R born g g' :
  Immigration.replaceTree random g = Some g' ->
  plot_frame s R born (Immigration.theForest g) ->
  plot_frame s R born (Immigration.theForest g').
Proof.
  intros Hstep Hframe.
  destruct (imm_replaceTree_Some random g g' Hstep)
    as (t & arr & Ht & _ & -> & _).
  apply arr_get_Some in Ht as [_ Ht]. by apply plot_frame_insert.
Qed.

Lemma imm_replaceTrees_page n g g' :
  Immigration.replaceTrees random n g = Some g' ->
  Immigration.state g' = Immigration.state g
  /\ Immigration.timer g' = Immigration.timer g
  /\ Immigration.startStopButton g' = Immigration.startStopButton g
  /\ Immigration.stepCountDisplay g' = Immigration.stepCountDisplay g
  /\ Immigration.immigrationInterval g' = Immigration.immigrationInterval g
  /\ Immigration.stepCount g' = Immigration.stepCount g + Z.of_nat n
  /\ Immigration.draws g' = (Immigration.draws g + 2 * n)%nat.
Proof.
  revert g. induction n as [|n IH]; intros g; cbn [Immigration.replaceTrees].
  - intros [= <-]. repeat split; lia.
  - destruct (Immigration.replaceTree random g) as [g1|] eqn:Hg1; [|done].
    cbn [mbind option_bind]. intros Hg'.
    destruct (imm_replaceTree_page g g1 Hg1) as (A1 & A2 & A3 & A4 & A5 & A6 & A7).
    destruct (IH g1 Hg') as (B1 & B2 & B3 & B4 & B5 & B6 & B7).
    repeat split; first [congruence | lia].
Qed.

Lemma imm_replaceTrees_frame s R born n g g' :
  Immigration.replaceTrees random n g = Some g' ->
  plot_frame s R born (Immigration.theForest g) ->
  plot_frame s R born (Immigration.theForest g').
Proof.
  revert g. induction n as [|n IH]; intros g; cbn [Immigration.replaceTrees].
  - by intros [= <-].
  - destruct (Immigration.replaceTree random g) as [g1|] eqn:Hg1; [|done].
    cbn [mbind option_bind]. intros Hg' Hframe.
    eapply IH; [exact Hg'|]. by eapply imm_replaceTree_frame.
Qed.

(** What a call of [runBatch] does: [batchSize] replacements, the display
    of the step count, and the automatic pause when the step count reaches
    a multiple of [maxSteps]. *)
Lemma imm_runBatch_spec g :
  Immigration.theForest g <> [] ->
  exists g1,
    Immigration.replaceTrees random Immigration.batchSize g = Some g1
    /\ Immigration.runBatch random g
       = Some (if Z.rem (Immigration.stepCount g1) Immigration.maxSteps =? 0
               then Immigration.doStartStop (Immigration.show_stepCount g1)
               else Immigration.show_stepCount g1).
Proof.
  intros Hne.
  destruct (imm_replaceTrees_total random Immigration.batchSize g Hne)
    as (g1 & Hg1 & _).
  exists g1. split; [done|].
  unfold Immigration.runBatch. rewrite Hg1. done.
Qed.

Lemma imm_session_reachable g : imm_session random g -> imm_reachable random 25 g.
Proof.
  induction 1.
  - apply imm_built.
  - by apply imm_toggled.
  - apply imm_built.
  - by eapply imm_batch.
  - by apply imm_adjusted.
Qed.

(** The trees are created only by [init()], at step 0, and keep their
    sites. *)
Lemma imm_session_frame g :
  imm_session random g ->
  plot_frame 25 (Plot.canvasSize / (inject_Z 25 * 2))%Q 0 (Immigration.theForest g).
Proof.
  induction 1 as [|g Hg IH|g Hg IH|g g' Hg IH Htimer Hbatch|g readout Hg IH].
  - unfold Immigration.loaded, Immigration.init, Immigration.build.
    pose proof (createForest_frame random Immigration.treeNames 25 0 0) as Hf.
    cbn [Immigration.stepCount Immigration.draws Immigration.declared].
    destruct (Plot.createForest _ _ _ _ _) as [[forest census] d].
    cbn [Immigration.theForest]. apply Hf. lia.
  - unfold Immigration.doStartStop. by destruct (Immigration.state g).
  - unfold Immigration.doReset, Immigration.init, Immigration.build.
    cbn [Immigration.stepCount Immigration.draws].
    pose proof (createForest_frame random Immigration.treeNames 25 0
                  (Immigration.draws g)) as Hf.
    destruct (Plot.createForest _ _ _ _ _) as [[forest census] d].
    cbn [Immigration.theForest]. apply Hf. lia.
  - destruct (imm_runBatch_spec g) as (g1 & Hg1 & Hrun).
    { eapply plot_frame_nonempty; [|exact IH]. lia. }
    rewrite Hrun in Hbatch. injection Hbatch as <-.
    pose proof (imm_replaceTrees_frame _ _ _ _ _ _ Hg1 IH) as Hf.
    destruct (_ =? 0); [|done].
    unfold Immigration.doStartStop.
    by destruct (Immigration.state (Immigration.show_stepCount g1)).
  - done.
Qed.

Lemma imm_session_control g : imm_session random g -> imm_control g.
Proof.
  induction 1 as [|g Hg IH|g Hg IH|g g' Hg IH Htimer Hbatch|g readout Hg IH].
  - unfold imm_control, Immigration.loaded, Immigration.init, Immigration.build.
    cbn [Immigration.stepCount Immigration.draws Immigration.declared].
    destruct (Plot.createForest _ _ _ _ _) as [[forest census] d].
    cbn. split; [done|]. split; [done|]. split; [done|]. split; [done|].
    split; [apply Z.divide_0_r|]. split; [by left|done].
  - destruct IH as (Ht & Hb1 & Hb2 & H0 & Hdiv & Hshow & Hidle).
    unfold imm_control, Immigration.doStartStop.
    destruct (Immigration.state g) eqn:Hst; cbn;
      (split; [done|]); (split; [done|]); (split; [done|]);
      (split; [done|]); (split; [done|]); (split; [done|]); done.
  - unfold imm_control, Immigration.doReset, Immigration.init, Immigration.build.
    cbn [Immigration.stepCount Immigration.draws].
    destruct (Plot.createForest _ _ _ _ _) as [[forest census] d].
    destruct IH as (Ht & _). cbn.
    split.
    { destruct (Immigration.state g) eqn:Hst; [| done |].
      - split; [|done]. intros Htm. apply Ht in Htm. congruence.
      - split; [|done]. intros Htm. apply Ht in Htm. congruence. }
    split; [done|]. split; [done|]. split; [done|].
    split; [apply Z.divide_0_r|]. split; [by left|done].
  - destruct IH as (Ht & Hb1 & Hb2 & H0 & Hdiv & Hshow & Hidle).
    pose proof (imm_session_frame g Hg) as Hframe.
    destruct (imm_runBatch_spec g) as (g1 & Hg1 & Hrun).
    { eapply plot_frame_nonempty; [|exact Hframe]. lia. }
    rewrite Hrun in Hbatch. injection Hbatch as <-.
    destruct (imm_replaceTrees_page _ _ _ Hg1)
      as (Hst & Htm & Hbt & Hdp & Hiv & Hsc & Hdr).
    assert (Hrunning : Immigration.state g = Immigration.running) by by apply Ht.
    assert (Hdiv' : (Z.of_nat Immigration.batchSize | Immigration.stepCount g1)).
    { rewrite Hsc. apply Z.divide_add_r; [done|apply Z.divide_refl]. }
    assert (Hpos : 0 < Immigration.stepCount g1).
    { rewrite Hsc. unfold Immigration.batchSize. lia. }
    unfold imm_control.
    destruct (Z.rem (Immigration.stepCount g1) Immigration.maxSteps =? 0).
    + unfold Immigration.doStartStop. cbn [Immigration.state Immigration.show_stepCount].
      rewrite Hst, Hrunning. cbn.
      split; [done|]. split; [done|]. split; [done|]. split; [lia|].
      split; [done|]. split; [by right|done].
    + cbn. rewrite Hst, Htm, Hbt, Hrunning.
      split; [done|]. split; [by auto|]. split; [done|]. split; [lia|].
      split; [done|]. split; [by right|done].
  - exact IH.
Qed.

End ImmigrationPage.

Section ImmigrationCeiling.

Variable random : nat -> sample.

(** A running program whose step count [c] is a multiple of the batch
    size, with the next multiple [M] of [maxSteps] ahead: the batches go on
    until the step count is [M], and the batch that reaches [M] pauses the
    run. *)
Lemma imm_batches_until (M : Z) (n : nat) g :
  (Immigration.maxSteps | M) ->
  Immigration.theForest g <> [] ->
  Immigration.state g = Immigration.running ->
  Immigration.timer g = true ->
  (Z.of_nat Immigration.batchSize | Immigration.stepCount g) ->
  0 <= Immigration.stepCount g ->
  M - Immigration.maxSteps <= Immigration.stepCount g < M ->
  Immigration.stepCount g + Z.of_nat Immigration.batchSize * Z.of_nat n <= M ->
  exists g',
    imm_batches random n g = Some g'
    /\ Immigration.stepCount g'
       = Immigration.stepCount g + Z.of_nat Immigration.batchSize * Z.of_nat n
    /\ Immigration.state g'
       = (if decide (Immigration.stepCount g' = M) then Immigration.paused
          else Immigration.running)
    /\ Immigration.timer g'
       = (if decide (Immigration.stepCount g' = M) then false else true).
Proof.
  intros HM. revert g. induction n as [|n IH]; intros g Hne Hst Htm Hdiv H0 Hlow Hup.
  - exists g. cbn [imm_batches]. split; [done|]. split; [lia|].
    destruct (decide (Immigration.stepCount g = M)) as [HeqM|]; [lia|done].
  - cbn [imm_batches].
    destruct (imm_runBatch_spec random g Hne) as (g1 & Hg1 & Hrun).
    rewrite Hrun. cbn [mbind option_bind].
    destruct (imm_replaceTrees_page random _ _ _ Hg1)
      as (Hst1 & Htm1 & _ & _ & _ & Hsc1 & _).
    assert (Hne1 : Immigration.theForest g1 <> []).
    { destruct (imm_replaceTrees_total random Immigration.batchSize g Hne)
        as (g1' & Hg1' & _ & Hne1). congruence. }
    unfold Immigration.batchSize in *.
    destruct (Z.eqb_spec (Z.rem (Immigration.stepCount g1) Immigration.maxSteps) 0)
      as [Hrem|Hrem].
    + (* the ceiling is reached: this is the last batch *)
      assert (HgM : Immigration.stepCount g1 = M).
      { apply Z.rem_divide in Hrem; [|done].
        destruct Hrem as [q Hq]. destruct HM as [q' Hq'].
        unfold Immigration.maxSteps in *. nia. }
      assert (n = 0%nat) as -> by lia.
      cbn [imm_batches].
      eexists. split; [reflexivity|].
      unfold Immigration.doStartStop.
      cbn [Immigration.state Immigration.show_stepCount]. rewrite Hst1, Hst.
      cbn. split; [lia|]. rewrite !decide_True by lia. done.
    + assert (HgM : Immigration.stepCount g1 <> M).
      { intros HeqM. apply Hrem. rewrite HeqM. apply Z.rem_divide; done. }
      destruct (IH (Immigration.show_stepCount g1)) as (g' & Hg' & Hsc' & Hst' & Htm').
      * done.
      * cbn. congruence.
      * cbn. congruence.
      * cbn. rewrite Hsc1. apply Z.divide_add_r; [done|apply Z.divide_refl].
      * cbn. lia.
      * cbn. lia.
      * cbn. lia.
      * exists g'. cbn [Immigration.stepCount Immigration.show_stepCount] in Hsc'.
        split; [done|]. split; [lia|]. done.
Qed.

End ImmigrationCeiling.

(** The table of intervals: the readouts 0 to 27 give 10, 20, ..., 90, 100,
    200, ..., 900, 1000, ..., 9000, 10000. *)
Lemma immigrationIntervalList_entry (readout : Z) :
  0 <= readout <= 27 ->
  arr_get Immigration.immigrationIntervalList readout
  = Some ((readout mod 9 + 1) * 10 ^ (readout / 9 + 1)).
Proof.
  intros Hr.
  assert (exists n : nat, readout = Z.of_nat n /\ (n < 28)%nat) as (n & -> & Hn).
  { exists (Z.to_nat readout). lia. }
  do 28 (destruct n as [|n]; [reflexivity|]). lia.
Qed.

Lemma immigrationIntervalList_outside (readout : Z) :
  ~ 0 <= readout <= 27 ->
  arr_get Immigration.immigrationIntervalList readout = None.
Proof.
  intros Hr. unfold arr_get. destruct (Z.ltb_spec readout 0); [done|].
  apply lookup_ge_None. cbn. lia.
Qed.

Lemma immigrationIntervalList_bounds (readout k : Z) :
  arr_get Immigration.immigrationIntervalList readout = Some k -> 10 <= k <= 10000.
Proof.
  intros Hk. apply arr_get_Some in Hk as [_ Hk]. apply list_elem_of_lookup_2 in Hk.
  unfold Immigration.immigrationIntervalList in Hk.
  repeat (apply elem_of_cons in Hk as [->|Hk]; [lia|]).
  by apply elem_of_nil in Hk.
Qed.

Lemma imm_session_interval random g :
  imm_session random g ->
  Immigration.immigrationInterval g = NaN
  \/ exists k, Immigration.immigrationInterval g = Num k /\ 10 <= k <= 10000.
Proof.
  induction 1 as [|g Hg IH|g Hg IH|g g' Hg IH Htimer Hbatch|g readout Hg IH].
  - right. exists 100. split; [|lia].
    unfold Immigration.loaded, Immigration.init, Immigration.build.
    by destruct (Plot.createForest _ _ _ _ _) as [[forest census] d].
  - unfold Immigration.doStartStop. by destruct (Immigration.state g).
  - unfold Immigration.doReset, Immigration.init, Immigration.build.
    by destruct (Plot.createForest _ _ _ _ _) as [[forest census] d].
  - destruct (imm_runBatch_Some random g g' Hbatch) as (g1 & Hg1 & _).
    destruct (imm_replaceTrees_page random _ _ _ Hg1) as (_ & _ & _ & _ & Hiv & _).
    unfold Immigration.runBatch in Hbatch. rewrite Hg1 in Hbatch.
    cbn [mbind option_bind] in Hbatch. injection Hbatch as <-.
    assert (Immigration.immigrationInterval
              (if Immigration.finished (Immigration.show_stepCount g1)
               then Immigration.doStartStop (Immigration.show_stepCount g1)
               else Immigration.show_stepCount g1)
            = Immigration.immigrationInterval g) as ->; [|done].
    rewrite <- Hiv. destruct (Immigration.finished _); [|done].
    unfold Immigration.doStartStop.
    by destruct (Immigration.state (Immigration.show_stepCount g1)).
  - cbn [Immigration.adjustImmigrationRate Immigration.immigrationInterval].
    destruct (arr_get Immigration.immigrationIntervalList readout) as [k|] eqn:Hk.
    + right. exists k. split; [done|]. by eapply immigrationIntervalList_bounds.
    + by left.
Qed.

Lemma imm_cells_replaceTree random g g' :
  Immigration.replaceTree random g = Some g' ->
  exists old arriving,
    imm_cells g !! Z.to_nat (imm_departing random g) = Some old
    /\ Immigration.arrivingSpecies g (imm_second random g) = Some arriving
    /\ imm_cells g' = <[Z.to_nat (imm_departing random g) := arriving]> (imm_cells g).
Proof.
  intros Hstep.
  destruct (imm_replaceTree_Some random g g' Hstep)
    as (dt & arr & Hdt & Harr & Hforest & _).
  apply arr_get_Some in Hdt as [_ Hdt].
  exists (Plot.species dt), arr. unfold imm_cells.
  split; [by rewrite list_lookup_fmap, Hdt|]. split; [done|].
  rewrite Hforest, list_fmap_insert. done.
Qed.

Lemma imm_build_fields random s g0 :
  let g := Immigration.build random s g0 in
  Immigration.state g = Immigration.idle
  /\ Immigration.stepCount g = Immigration.stepCount g0
  /\ Immigration.timer g = Immigration.timer g0
  /\ (Immigration.theForest g, Immigration.theCensus g, Immigration.draws g)
     = Plot.createForest random Immigration.treeNames s (Immigration.stepCount g0)
         (Immigration.draws g0)
  /\ Immigration.immigrationInterval g = Immigration.immigrationInterval g0
  /\ Immigration.startStopButton g = Immigration.startStopButton g0
  /\ Immigration.stepCountDisplay g = Immigration.stepCountDisplay g0.
Proof.
  cbv zeta. unfold Immigration.build.
  by destruct (Plot.createForest _ _ _ _ _) as [[forest census] d].
Qed.

(** ** [socialdx.js]: the trees keep their sites *)

Section SocialdxFrame.

Variable random : nat -> sample.

Lemma newForest_frame s colorMap canvasSize stepCount d :
  0 < s ->
  sdx_frame s (canvasSize / (inject_Z s * 2))%Q stepCount
    (Socialdx.newForest random s colorMap canvasSize stepCount d).1.
Proof.
  intros Hs. split; [done|]. split; [done|]. split; [apply newForest_length|].
  intros j t Hj.
  pose proof (lookup_lt_Some _ _ _ Hj) as Hlt. rewrite newForest_length in Hlt.
  destruct (newForest_trees random s colorMap canvasSize stepCount d j t Hs Hj)
    as (Hsite & _ & Hnb & _).
  split; [exact Hsite|].
  destruct Hsite as (_ & Hcol & Hrow & _).
  rewrite Hnb, Hcol, Hrow. apply neighborIndices_torus; lia.
Qed.

Lemma sdx_replaceTree_frame s R born g g' :
  Socialdx.replaceTree random g = Some g' ->
  sdx_frame s R born (Socialdx.theForest g) ->
  sdx_frame s R born (Socialdx.theForest g').
Proof.
  intros Hstep (Hs & HN & Hlen & Hsite).
  destruct (sdx_replaceTree_Some random g g' Hstep)
    as (dt & ns & rep & Hdt & _ & _ & Htrees & _ & Hs' & HN' & _).
  cbv zeta in Htrees, Hs', HN'.
  apply arr_get_Some in Hdt as [_ Hdt].
  split; [congruence|]. split; [congruence|].
  rewrite Htrees. split; [by rewrite length_insert|].
  intros j t Hj.
  destruct (decide (j = Z.to_nat (sdx_departing random g))) as [->|Hne].
  - rewrite list_lookup_insert_eq in Hj by (by eapply lookup_lt_Some).
    injection Hj as <-. exact (Hsite _ _ Hdt).
  - rewrite list_lookup_insert_ne in Hj by done. by apply Hsite.
Qed.

Lemma sdx_replaceTrees_frame s R born n g g' :
  Socialdx.replaceTrees random n g = Some g' ->
  sdx_frame s R born (Socialdx.theForest g) ->
  sdx_frame s R born (Socialdx.theForest g').
Proof.
  revert g. induction n as [|n IH]; intros g; cbn [Socialdx.replaceTrees].
  - by intros [= <-].
  - destruct (Socialdx.replaceTree random g) as [g1|] eqn:Hg1; [|done].
    cbn [mbind option_bind]. intros Hg' Hframe.
    eapply IH; [exact Hg'|]. by eapply sdx_replaceTree_frame.
Qed.

Lemma sdx_runBatch_Some g g' :
  Socialdx.runBatch random g = Some g' ->
  exists g1,
    Socialdx.replaceTrees random Socialdx.batchSize g = Some g1
    /\ Socialdx.theForest g' = Socialdx.theForest g1
    /\ Socialdx.stepCount g' = Socialdx.stepCount g1
    /\ Socialdx.stepCountDisplay g' = Socialdx.stepCount g1
    /\ Socialdx.draws g' = Socialdx.draws g1.
Proof.
  unfold Socialdx.runBatch.
  destruct (Socialdx.replaceTrees random Socialdx.batchSize g) as [g1|]; [|done].
  cbn [mbind option_bind]. intros [= <-]. exists g1. split; [done|].
  unfold Socialdx.finished, Socialdx.doStartStop.
  cbn [Socialdx.stepCount Socialdx.state].
  destruct (_ =? 0); [destruct (Socialdx.state g1)|]; done.
Qed.

Lemma sdx_runBatch_frame s R born g g' :
  Socialdx.runBatch random g = Some g' ->
  sdx_frame s R born (Socialdx.theForest g) ->
  sdx_frame s R born (Socialdx.theForest g').
Proof.
  intros Hbatch Hframe.
  destruct (sdx_runBatch_Some g g' Hbatch) as (g1 & Hg1 & -> & _).
  by eapply sdx_replaceTrees_frame.
Qed.

Lemma sdx_doStartStop_forest g :
  Socialdx.theForest (Socialdx.doStartStop g) = Socialdx.theForest g.
Proof. unfold Socialdx.doStartStop. by destruct (Socialdx.state g). Qed.

Lemma sdx_reachable_frame s colorMap g :
  0 < s -> sdx_reachable random s colorMap g ->
  exists R born, sdx_frame s R born (Socialdx.theForest g).
Proof.
  intros Hs.
  induction 1 as [canvasSize g0|g g' _ IH Hstep|g g' _ IH Hbatch|g _ IH].
  - exists (canvasSize / (inject_Z s * 2))%Q, (Socialdx.stepCount g0).
    unfold Socialdx.build.
    pose proof (newForest_frame s colorMap canvasSize (Socialdx.stepCount g0)
                  (Socialdx.draws g0) Hs) as Hf.
    destruct (Socialdx.newForest _ _ _ _ _ _) as [f d]. exact Hf.
  - destruct IH as (R & born & IH). exists R, born.
    by eapply sdx_replaceTree_frame.
  - destruct IH as (R & born & IH). exists R, born.
    by eapply sdx_runBatch_frame.
  - destruct IH as (R & born & IH). exists R, born.
    by rewrite sdx_doStartStop_forest.
Qed.

End SocialdxFrame.

(** ** [socialdx.js]: the page and its controls *)

Section SocialdxPage.

Variable random : nat -> sample.

Lemma sdx_replaceTree_page g g' :
  Socialdx.replaceTree random g = Some g' ->
  Socialdx.state g' = Socialdx.state g
  /\ Socialdx.timer g' = Socialdx.timer g
  /\ Socialdx.startStopButton g' = Socialdx.startStopButton g
  /\ Socialdx.stepCountDisplay g' = Socialdx.stepCountDisplay g
  /\ Socialdx.stepCount g' = Socialdx.stepCount g + 1
  /\ Socialdx.draws g' = S (S (Socialdx.draws g)).
Proof.
  unfold Socialdx.replaceTree.
  destruct (arr_get _ _) as [dt|]; [|done]. cbn [mbind option_bind].
  destruct (Socialdx.listNeighborSpecies _ _) as [ns|]; [|done].
  cbn [mbind option_bind].
  destruct (Socialdx.scan _ _ _ _ _ _) as [rep|]; [|done].
  cbn [mbind option_bind]. intros [= <-]. by repeat split.
Qed.

Lemma sdx_replaceTrees_page n g g' :
  Socialdx.replaceTrees random n g = Some g' ->
  Socialdx.state g' = Socialdx.state g
  /\ Socialdx.timer g' = Socialdx.timer g
  /\ Socialdx.startStopButton g' = Socialdx.startStopButton g
  /\ Socialdx.stepCountDisplay g' = Socialdx.stepCountDisplay g
  /\ Socialdx.stepCount g' = Socialdx.stepCount g + Z.of_nat n
  /\ Socialdx.draws g' = (Socialdx.draws g + 2 * n)%nat.
Proof.
  revert g. induction n as [|n IH]; intros g; cbn [Socialdx.replaceTrees].
  - intros [= <-]. repeat split; lia.
  - destruct (Socialdx.replaceTree random g) as [g1|] eqn:Hg1; [|done].
    cbn [mbind option_bind]. intros Hg'.
    destruct (sdx_replaceTree_page g g1 Hg1) as (A1 & A2 & A3 & A4 & A5 & A6).
    destruct (IH g1 Hg') as (B1 & B2 & B3 & B4 & B5 & B6).
    repeat split; first [congruence | lia].
Qed.

Lemma sdx_replaceTrees_total s colorMap n g :
  species_set (colorMap.*1) -> 0 < s -> sdx_inv s colorMap g ->
  is_Some (Socialdx.replaceTrees random n g).
Proof.
  intros Hnames Hs. revert g. induction n as [|n IH]; intros g Hinv;
    cbn [Socialdx.replaceTrees]; [done|].
  destruct (sdx_replaceTree_total random s colorMap g Hs Hinv) as [g1 Hg1].
  rewrite Hg1. cbn [mbind option_bind]. apply IH.
  by eapply sdx_replaceTree_inv.
Qed.

Lemma sdx_colorMap10_species_set : species_set (Socialdx.treeColorMap10.*1).
Proof. apply (bool_decide_unpack _). by vm_compute. Qed.

Lemma sdx_session_reachable g :
  sdx_session random g -> sdx_reachable random 25 Socialdx.treeColorMap10 g.
Proof.
  induction 1.
  - apply sdx_built.
  - by apply sdx_toggled.
  - apply sdx_built.
  - by eapply sdx_batch.
Qed.

Lemma sdx_session_inv g :
  sdx_session random g -> sdx_inv 25 Socialdx.treeColorMap10 g.
Proof.
  intros Hg. apply (sdx_reachable_inv random).
  - apply sdx_colorMap10_species_set.
  - lia.
  - by apply sdx_session_reachable.
Qed.

Lemma sdx_runBatch_total g :
  sdx_session random g -> is_Some (Socialdx.runBatch random g).
Proof.
  intros Hg.
  destruct (sdx_replaceTrees_total 25 Socialdx.treeColorMap10 Socialdx.batchSize g)
    as [g1 Hg1].
  - apply sdx_colorMap10_species_set.
  - lia.
  - by apply sdx_session_inv.
  - unfold Socialdx.runBatch. rewrite Hg1. done.
Qed.

Lemma sdx_build_fields s colorMap canvasSize g0 :
  let g := Socialdx.build random s colorMap canvasSize g0 in
  Socialdx.state g = Socialdx.idle
  /\ Socialdx.stepCount g = Socialdx.stepCount g0
  /\ Socialdx.timer g = Socialdx.timer g0
  /\ Socialdx.theForest g
     = (Socialdx.newForest random s colorMap canvasSize (Socialdx.stepCount g0)
          (Socialdx.draws g0)).1
  /\ Socialdx.draws g
     = (Socialdx.newForest random s colorMap canvasSize (Socialdx.stepCount g0)
          (Socialdx.draws g0)).2
  /\ Socialdx.startStopButton g = Socialdx.startStopButton g0
  /\ Socialdx.stepCountDisplay g = Socialdx.stepCountDisplay g0.
Proof.
  cbv zeta. unfold Socialdx.build.
  by destruct (Socialdx.newForest _ _ _ _ _ _) as [f d].
Qed.

Lemma sdx_session_frame g :
  sdx_session random g ->
  sdx_frame 25 (500 / (inject_Z 25 * 2))%Q 0 (Socialdx.theForest g).
Proof.
  induction 1 as [|g Hg IH|g Hg IH|g g' Hg IH Htimer Hbatch].
  - unfold Socialdx.loaded, Socialdx.init.
    destruct (sdx_build_fields 25 Socialdx.treeColorMap10 500 Socialdx.declared)
      as (_ & _ & _ & -> & _).
    by apply newForest_frame.
  - by rewrite sdx_doStartStop_forest.
  - unfold Socialdx.doReset, Socialdx.init.
    match goal with |- context [Socialdx.build random 25 _ _ ?g0] =>
      destruct (sdx_build_fields 25 Socialdx.treeColorMap10 500 g0)
        as (_ & _ & _ & -> & _) end.
    by apply newForest_frame.
  - by eapply sdx_runBatch_frame.
Qed.

Lemma sdx_session_control g : sdx_session random g -> sdx_control g.
Proof.
  induction 1 as [|g Hg IH|g Hg IH|g g' Hg IH Htimer Hbatch].
  - unfold Socialdx.loaded, Socialdx.init.
    destruct (sdx_build_fields 25 Socialdx.treeColorMap10 500 Socialdx.declared)
      as (Hst & Hsc & Htm & _ & _ & Hbt & Hdp).
    unfold sdx_control. rewrite Hst, Hsc, Htm, Hdp. cbn.
    split; [done|]. split; [done|]. split; [done|]. split; [done|].
    split; [apply Z.divide_0_r|]. split; [by left|done].
  - destruct IH as (Ht & Hb1 & Hb2 & H0 & Hdiv & Hshow & Hidle).
    unfold sdx_control, Socialdx.doStartStop.
    destruct (Socialdx.state g) eqn:Hst; cbn;
      (split; [done|]); (split; [done|]); (split; [done|]);
      (split; [done|]); (split; [done|]); (split; [done|]); done.
  - unfold Socialdx.doReset, Socialdx.init.
    match goal with |- context [Socialdx.build random 25 _ _ ?g0] =>
      destruct (sdx_build_fields 25 Socialdx.treeColorMap10 500 g0)
        as (Hst & Hsc & Htm & _ & _ & Hbt & Hdp) end.
    destruct IH as (Ht & _).
    unfold sdx_control. rewrite Hst, Hsc, Htm, Hdp.
    cbn [Socialdx.stepCount Socialdx.timer Socialdx.stepCountDisplay].
    split.
    { destruct (Socialdx.state g) eqn:Hst'; try done;
        (split; [|done]); intros Htm'; apply Ht in Htm'; congruence. }
    split; [done|]. split; [done|]. split; [done|].
    split; [apply Z.divide_0_r|]. split; [by left|done].
  - destruct IH as (Ht & Hb1 & Hb2 & H0 & Hdiv & Hshow & Hidle).
    unfold Socialdx.runBatch in Hbatch.
    destruct (Socialdx.replaceTrees random Socialdx.batchSize g) as [g1|] eqn:Hg1;
      [|done].
    cbn [mbind option_bind] in Hbatch. injection Hbatch as <-.
    destruct (sdx_replaceTrees_page _ _ _ Hg1) as (Hst & Htm & Hbt & Hdp & Hsc & _).
    assert (Hrunning : Socialdx.state g = Socialdx.running) by by apply Ht.
    assert (Hdiv' : (Z.of_nat Socialdx.batchSize | Socialdx.stepCount g1)).
    { rewrite Hsc. apply Z.divide_add_r; [done|apply Z.divide_refl]. }
    assert (Hpos : 0 < Socialdx.stepCount g1).
    { rewrite Hsc. unfold Socialdx.batchSize. lia. }
    unfold sdx_control, Socialdx.finished. cbn [Socialdx.stepCount].
    destruct (Z.rem (Socialdx.stepCount g1) Socialdx.maxSteps =? 0).
    + unfold Socialdx.doStartStop. cbn [Socialdx.state].
      rewrite Hst, Hrunning. cbn.
      split; [done|]. split; [done|]. split; [done|]. split; [lia|].
      split; [done|]. split; [by right|done].
    + cbn. rewrite Hst, Htm, Hbt, Hrunning.
      split; [done|]. split; [by auto|]. split; [done|]. split; [lia|].
      split; [done|]. split; [by right|done].
Qed.

End SocialdxPage.

(** ** [socialdx.js]: finding a replacement *)

Lemma length_omap_le {A B : Type} (f : A -> option B) (l : list A) :
  (length (omap f l) <= length l)%nat.
Proof.
  induction l as [|a l IH]; [done|]. cbn [omap list_omap].
  destruct (f a); cbn [length]; lia.
Qed.

Lemma hood_length s cells d : (length (hood s cells d) <= 9)%nat.
Proof. unfold hood. etrans; [apply length_omap_le|]. done. Qed.

(** Among ten distinct species, one is absent from a neighbourhood. *)
Lemma hood_pigeonhole s cells d (alive : list string) :
  NoDup alive -> (10 <= length alive)%nat ->
  exists k, k ∈ alive /\ Str k ∉ hood s cells d.
Proof.
  intros Hnd Hlen.
  destruct (decide (Forall (fun k => Str k ∈ hood s cells d) alive)) as [Hall|Hnot].
  - exfalso.
    assert (Hsub : Str <$> alive ⊆+ hood s cells d).
    { apply NoDup_submseteq.
      - apply NoDup_fmap_2; [|done]. by intros x y [= ->].
      - intros v Hv. apply list_elem_of_fmap in Hv as (k & -> & Hk).
        by eapply Forall_forall in Hall. }
    apply submseteq_length in Hsub. rewrite length_fmap in Hsub.
    pose proof (hood_length s cells d). lia.
  - apply not_Forall_Exists in Hnot; [|apply _].
    apply Exists_exists in Hnot as (k & Hk & Hnotin). by exists k.
Qed.

Section SocialdxScan.

Variable random : nat -> sample.

(** A replacement finds a species as soon as some cell of the forest can
    give its species to the departing site. *)
Lemma sdx_found s colorMap g g' w :
  species_set (colorMap.*1) -> 0 < s -> sdx_inv s colorMap g ->
  Socialdx.replaceTree random g = Some g' ->
  w ∈ sdx_cells g -> eligible s (sdx_cells g) (sdx_departing random g) w ->
  exists v, v <> Null
    /\ eligible s (sdx_cells g) (sdx_departing random g) v
    /\ v ∈ sdx_cells g
    /\ sdx_cells g' = <[Z.to_nat (sdx_departing random g) := v]> (sdx_cells g).
Proof.
  intros Hnames Hs Hinv Hstep Hw Helig.
  destruct (sdx_step random s colorMap g g' Hnames Hs Hinv Hstep)
    as (Hd & Hstart & old & v & Hold & Hcells & Hfirst & _).
  pose proof Hinv as (_ & _ & _ & [Hlen _] & _).
  assert (Hlen' : Z.of_nat (length (sdx_cells g)) = s * s).
  { unfold sdx_cells. by rewrite length_fmap. }
  exists v.
  destruct Hfirst as [[-> Hnone]|(j & Hj & Hv & Hev & _)].
  - exfalso. apply list_elem_of_lookup_1 in Hw as [i Hi].
    pose proof (lookup_lt_Some _ _ _ Hi) as Hilt.
    set (j := (Z.of_nat i - sdx_start random g) mod (s * s)).
    assert (Hjr : 0 <= j < s * s) by (apply Z.mod_pos_bound; lia).
    destruct (Hnone j Hjr) as (w' & Hw' & Hne).
    assert (Hidx : (sdx_start random g + j) mod (s * s) = Z.of_nat i).
    { unfold j. rewrite Zplus_mod_idemp_r.
      replace (sdx_start random g + (Z.of_nat i - sdx_start random g))
        with (Z.of_nat i) by lia.
      apply Z.mod_small. lia. }
    rewrite Hidx, arr_get_nat, Hi in Hw'. injection Hw' as <-. done.
  - split; [by destruct Hev|]. split; [done|]. split; [|done].
    apply arr_get_Some in Hv as [_ Hv]. by eapply list_elem_of_lookup_2.
Qed.

(** A species that no tree holds is not brought back by a replacement. *)
Lemma sdx_replaceTree_extinct g g' sp :
  Socialdx.replaceTree random g = Some g' -> sp <> Null ->
  population sp (sdx_cells g) = 0 -> population sp (sdx_cells g') = 0.
Proof.
  intros Hstep Hsp Hzero.
  destruct (sdx_replaceTree_cells random g g' Hstep)
    as (dt & ns & rep & Hdt & _ & Hscan & Hold & ->).
  apply population_zero in Hzero.
  rewrite (population_insert _ _ _ (Socialdx.species dt)) by done.
  unfold one_if.
  destruct (decide (sp = Socialdx.species dt)) as [->|].
  { exfalso. apply Hzero. by eapply list_elem_of_lookup_2. }
  destruct (decide (sp = rep)) as [->|].
  { exfalso. apply scan_Some in Hscan as [[-> _]|(j & c & _ & Hc & _ & -> & _)];
      [done|].
    apply Hzero. unfold sdx_cells. apply list_elem_of_fmap_2.
    apply arr_get_Some in Hc as [_ Hc]. by eapply list_elem_of_lookup_2. }
  apply population_zero in Hzero. lia.
Qed.

Lemma sdx_replaceTrees_extinct n g g' sp :
  Socialdx.replaceTrees random n g = Some g' -> sp <> Null ->
  population sp (sdx_cells g) = 0 -> population sp (sdx_cells g') = 0.
Proof.
  revert g. induction n as [|n IH]; intros g; cbn [Socialdx.replaceTrees].
  - by intros [= <-].
  - destruct (Socialdx.replaceTree random g) as [g1|] eqn:Hg1; [|done].
    cbn [mbind option_bind]. intros Hg' Hsp Hzero.
    eapply IH; [exact Hg'|done|]. by eapply sdx_replaceTree_extinct.
Qed.

Lemma sdx_later_extinct g g' sp :
  sdx_later random g g' -> sp <> Null ->
  population sp (sdx_cells g) = 0 -> population sp (sdx_cells g') = 0.
Proof.
  induction 1 as [|g1 g2 _ IH Hstep|g1 g2 _ IH Hbatch|g1 _ IH]; intros Hsp Hzero.
  - done.
  - eapply sdx_replaceTree_extinct; [exact Hstep|done|by apply IH].
  - destruct (sdx_runBatch_Some random g1 g2 Hbatch) as (g3 & Hg3 & Hf & _).
    unfold sdx_cells. rewrite Hf.
    eapply sdx_replaceTrees_extinct; [exact Hg3|done|by apply IH].
  - unfold sdx_cells. rewrite sdx_doStartStop_forest. by apply IH.
Qed.

Lemma sdx_later_reachable s colorMap g g' :
  sdx_reachable random s colorMap g -> sdx_later random g g' ->
  sdx_reachable random s colorMap g'.
Proof.
  intros Hg. induction 1.
  - done.
  - by eapply sdx_replaced.
  - by eapply sdx_batch.
  - by apply sdx_toggled.
Qed.

End SocialdxScan.

(** ** The competition program: the page, the timeline and the resources *)

Section CoexistPage.

Variable random : nat -> sample.

Lemma coex_replaceTree_page fuel g g' :
  Coexist.replaceTree random fuel g = Coexist.Returns g' ->
  Coexist.state g' = Coexist.state g
  /\ Coexist.timer g' = Coexist.timer g
  /\ Coexist.startStopButton g' = Coexist.startStopButton g
  /\ Coexist.buttonDisabled g' = Coexist.buttonDisabled g
  /\ Coexist.stepCountDisplay g' = Coexist.stepCountDisplay g
  /\ Coexist.iron g' = Coexist.iron g
  /\ Coexist.calcium g' = Coexist.calcium g
  /\ Coexist.stepCount g' = Coexist.stepCount g + 1.
Proof.
  unfold Coexist.replaceTree.
  destruct (Coexist.arrival random fuel _ _ _ _) as [[i d']| |]; [|done|done].
  destruct (arr_get (Coexist.theForest g) _) as [dt|]; [|done].
  destruct (arr_get (Coexist.theForest g) i) as [at_|]; [|done].
  destruct (rem_is_zero _ _).
  - destruct (Coexist.timelineSample _ _) as [tl present]. cbv beta iota zeta.
    intros [= <-]. by repeat split.
  - cbv beta iota zeta. intros [= <-]. by repeat split.
Qed.

(** The timeline after a replacement: a sample of the new census is added
    when the step count, before its increment, is a multiple of
    [timelineInterval]. *)
Lemma coex_replaceTree_timeline fuel g g' :
  Coexist.replaceTree random fuel g = Coexist.Returns g' ->
  if rem_is_zero (Coexist.stepCount g) (Num Coexist.timelineInterval)
  then Coexist.timeline g'
       = (Coexist.timelineSample (Coexist.theCensus g') (Coexist.timeline g)).1
       /\ Coexist.timelineNumberOfSpecies g'
          = Coexist.timelineNumberOfSpecies g
            ++ [(Coexist.timelineSample (Coexist.theCensus g') (Coexist.timeline g)).2]
  else Coexist.timeline g' = Coexist.timeline g
       /\ Coexist.timelineNumberOfSpecies g' = Coexist.timelineNumberOfSpecies g.
Proof.
  unfold Coexist.replaceTree.
  destruct (Coexist.arrival random fuel _ _ _ _) as [[i d']| |]; [|done|done].
  destruct (arr_get (Coexist.theForest g) _) as [dt|]; [|done].
  destruct (arr_get (Coexist.theForest g) i) as [at_|]; [|done].
  destruct (rem_is_zero _ _).
  - destruct (Coexist.timelineSample _ _) as [tl present] eqn:E. cbv beta iota zeta.
    intros [= <-]. cbn [Coexist.timeline Coexist.timelineNumberOfSpecies Coexist.theCensus].
    by rewrite E.
  - cbv beta iota zeta. by intros [= <-].
Qed.

Lemma coex_replaceTree_frame s R born fuel g g' :
  Coexist.replaceTree random fuel g = Coexist.Returns g' ->
  plot_frame s R born (Coexist.theForest g) ->
  plot_frame s R born (Coexist.theForest g').
Proof.
  intros Hstep Hframe.
  destruct (coex_replaceTree_Returns random fuel g g' Hstep)
    as (i & dt & at_ & _ & Hdt & _ & -> & _).
  apply arr_get_Some in Hdt as [_ Hdt]. by apply plot_frame_insert.
Qed.

(** The cells after a replacement: the departing cell takes the species of
    a cell of the plot. *)
Lemma coex_cells_replaceTree fuel g g' :
  Coexist.replaceTree random fuel g = Coexist.Returns g' ->
  exists old arriving,
    coex_cells g !! Z.to_nat (coex_departing random g) = Some old
    /\ arriving ∈ coex_cells g
    /\ coex_cells g' = <[Z.to_nat (coex_departing random g) := arriving]> (coex_cells g).
Proof.
  intros Hstep.
  destruct (coex_replaceTree_Returns random fuel g g' Hstep)
    as (i & dt & at_ & _ & Hdt & Hat & Hforest & _).
  apply arr_get_Some in Hdt as [_ Hdt]. apply arr_get_Some in Hat as [_ Hat].
  exists (Plot.species dt), (Plot.species at_). unfold coex_cells.
  split; [by rewrite list_lookup_fmap, Hdt|].
  split; [apply list_elem_of_fmap_2; by eapply list_elem_of_lookup_2|].
  rewrite Hforest, list_fmap_insert. done.
Qed.

(** A species that no tree holds is not brought back by a replacement. *)
Lemma coex_replaceTree_extinct fuel g g' sp :
  Coexist.replaceTree random fuel g = Coexist.Returns g' ->
  population sp (coex_cells g) = 0 -> population sp (coex_cells g') = 0.
Proof.
  intros Hstep Hzero.
  destruct (coex_cells_replaceTree fuel g g' Hstep) as (old & arr & Hold & Harr & ->).
  apply population_zero in Hzero.
  rewrite (population_insert _ _ _ old) by done.
  unfold one_if.
  destruct (decide (sp = old)) as [->|].
  { exfalso. apply Hzero. by eapply list_elem_of_lookup_2. }
  destruct (decide (sp = arr)) as [->|]; [done|].
  apply population_zero in Hzero. lia.
Qed.

Lemma coex_replaceTrees_extinct fuel n g g' sp :
  Coexist.replaceTrees random fuel n g = Coexist.Returns g' ->
  population sp (coex_cells g) = 0 -> population sp (coex_cells g') = 0.
Proof.
  revert g. induction n as [|n IH]; intros g; cbn [Coexist.replaceTrees].
  - by intros [= <-].
  - destruct (Coexist.replaceTree random fuel g) as [g1| |] eqn:Hg1; [|done|done].
    intros Hg' Hzero. eapply IH; [exact Hg'|]. by eapply coex_replaceTree_extinct.
Qed.

Lemma coex_batchEnd_cells g : coex_cells (Coexist.batchEnd g) = coex_cells g.
Proof.
  unfold Coexist.batchEnd. destruct (Coexist.finished g); [|done].
  unfold Coexist.doStartStop. cbn [Coexist.state Coexist.set_control].
  by destruct (if Z.rem _ _ =? 0 then _ else _).
Qed.

Lemma coex_doStartStop_cells g : coex_cells (Coexist.doStartStop g) = coex_cells g.
Proof. unfold Coexist.doStartStop. by destruct (Coexist.state g). Qed.

Lemma coex_later_reachable s g g' :
  coex_reachable random s g -> coex_later random g g' -> coex_reachable random s g'.
Proof.
  intros Hg. induction 1.
  - done.
  - by eapply coex_replaced.
  - by eapply coex_batch.
  - by apply coex_toggled.
  - by apply coex_adjusted.
Qed.

Lemma coex_later_extinct g g' sp :
  coex_later random g g' ->
  population sp (coex_cells g) = 0 -> population sp (coex_cells g') = 0.
Proof.
  induction 1 as [|fuel g1 g2 _ IH Hstep|fuel g1 g2 _ IH Hbatch|g1 _ IH|g1 a _ IH];
    intros Hzero.
  - done.
  - eapply coex_replaceTree_extinct; [exact Hstep|by apply IH].
  - destruct (coex_runBatch_Returns random fuel g1 g2 Hbatch) as (g3 & Hg3 & ->).
    rewrite coex_batchEnd_cells.
    change (population sp (coex_cells g3) = 0).
    eapply coex_replaceTrees_extinct; [exact Hg3|by apply IH].
  - rewrite coex_doStartStop_cells. by apply IH.
  - by apply IH.
Qed.

End CoexistPage.

Section CoexistSession.

Variable random : nat -> sample.

Lemma coex_replaceTrees_page fuel n g g' :
  Coexist.replaceTrees random fuel n g = Coexist.Returns g' ->
  Coexist.state g' = Coexist.state g
  /\ Coexist.timer g' = Coexist.timer g
  /\ Coexist.startStopButton g' = Coexist.startStopButton g
  /\ Coexist.buttonDisabled g' = Coexist.buttonDisabled g
  /\ Coexist.stepCountDisplay g' = Coexist.stepCountDisplay g
  /\ Coexist.iron g' = Coexist.iron g
  /\ Coexist.calcium g' = Coexist.calcium g
  /\ Coexist.stepCount g' = Coexist.stepCount g + Z.of_nat n.
Proof.
  revert g. induction n as [|n IH]; intros g; cbn [Coexist.replaceTrees].
  - intros [= <-]. repeat split; lia.
  - destruct (Coexist.replaceTree random fuel g) as [g1| |] eqn:Hg1; [|done|done].
    intros Hg'.
    destruct (coex_replaceTree_page random fuel g g1 Hg1)
      as (A1 & A2 & A3 & A4 & A5 & A6 & A7 & A8).
    destruct (IH g1 Hg') as (B1 & B2 & B3 & B4 & B5 & B6 & B7 & B8).
    repeat split; first [congruence | lia].
Qed.

Lemma coex_replaceTrees_frame s R born fuel n g g' :
  Coexist.replaceTrees random fuel n g = Coexist.Returns g' ->
  plot_frame s R born (Coexist.theForest g) ->
  plot_frame s R born (Coexist.theForest g').
Proof.
  revert g. induction n as [|n IH]; intros g; cbn [Coexist.replaceTrees].
  - by intros [= <-].
  - destruct (Coexist.replaceTree random fuel g) as [g1| |] eqn:Hg1; [|done|done].
    intros Hg' Hframe.
    eapply IH; [exact Hg'|]. by eapply coex_replaceTree_frame.
Qed.

(** A sample of a census that counts the 625 trees *)
Lemma timelineSample_counts census tl ol og a b :
  tl !! "olive" = Some ol -> tl !! "orange" = Some og ->
  get census "olive" = Num a -> get census "orange" = Num b ->
  (Coexist.timelineSample census tl).1 !! "olive" = Some (ol ++ [Num a])
  /\ (Coexist.timelineSample census tl).1 !! "orange" = Some (og ++ [Num b])
  /\ (Coexist.timelineSample census tl).2
     = (if 0 <? a then 1 else 0) + (if 0 <? b then 1 else 0).
Proof.
  intros Hol Hog Ha Hb.
  unfold Coexist.timelineSample, Coexist.treeNames. cbn [foldl].
  rewrite Ha, Hb. cbn [fst snd]. unfold Coexist.push.
  rewrite Hol. cbn [default].
  rewrite (lookup_insert_ne tl "olive" "orange") by done. rewrite Hog. cbn [default].
  split; [|split].
  - rewrite lookup_insert_ne by done. by rewrite lookup_insert_eq.
  - by rewrite lookup_insert_eq.
  - destruct (0 <? a), (0 <? b); lia.
Qed.

Lemma coex_replaceTree_sampled fuel g g' :
  coex_inv 25 g -> 0 <= Coexist.stepCount g -> coex_sampled g ->
  Coexist.replaceTree random fuel g = Coexist.Returns g' ->
  coex_sampled g'.
Proof.
  intros Hinv H0 (ol & og & Hol & Hog & Hlen & Hlen2 & Hlen3 & Hent) Hstep.
  pose proof (coex_replaceTree_inv random 25 fuel g g' Hinv Hstep) as Hinv'.
  destruct (coex_census 25 g' Hinv') as (Ha & Hb & Hsum).
  pose proof (population_nonneg (Str "olive") (coex_cells g')) as Ha0.
  pose proof (population_nonneg (Str "orange") (coex_cells g')) as Hb0.
  destruct (coex_replaceTree_page random fuel g g' Hstep)
    as (_ & _ & _ & _ & _ & _ & _ & Hsc).
  pose proof (coex_replaceTree_timeline random fuel g g' Hstep) as Htl.
  unfold coex_sampled. rewrite Hsc. unfold Coexist.timelineInterval in *.
  destruct (rem_is_zero (Coexist.stepCount g) (Num 1000)) eqn:Hrem.
  - destruct Htl as [Htl Hseen].
    destruct (timelineSample_counts (Coexist.theCensus g') (Coexist.timeline g)
                ol og _ _ Hol Hog Ha Hb) as (Hol' & Hog' & Hpresent).
    cbn [rem_is_zero] in Hrem. apply Z.eqb_eq in Hrem.
    rewrite Z.rem_mod_nonneg in Hrem by lia.
    exists (ol ++ [Num (population (Str "olive") (coex_cells g'))]),
           (og ++ [Num (population (Str "orange") (coex_cells g'))]).
    rewrite Htl, Hseen. split; [done|]. split; [done|].
    rewrite !length_app. cbn [length].
    split; [|split; [lia|split; [lia|]]].
    { rewrite Nat2Z.inj_add, Hlen.
      pose proof (Z.div_mod (Coexist.stepCount g) 1000).
      rewrite Hrem in *.
      rewrite <- (Z.div_unique (Coexist.stepCount g + (1000 - 1)) 1000
                    (Coexist.stepCount g / 1000) 999) by lia.
      rewrite <- (Z.div_unique (Coexist.stepCount g + 1 + (1000 - 1)) 1000
                    (Coexist.stepCount g / 1000 + 1) 0) by lia.
      lia. }
    intros i present Hi. apply lookup_app_Some in Hi as [Hi|[Hge Hi]].
    + destruct (Hent i present Hi) as (a & b & Hia & Hib & Hrest).
      exists a, b. split; [by rewrite lookup_app_l by (by eapply lookup_lt_Some)|].
      split; [by rewrite lookup_app_l by (by eapply lookup_lt_Some)|]. done.
    + apply list_lookup_singleton_Some in Hi as [Hi0 <-].
      assert (i = length ol) as -> by lia.
      eexists _, _. split; [by rewrite list_lookup_middle|].
      split; [by rewrite list_lookup_middle|].
      split; [exact Ha0|]. split; [exact Hb0|]. split; [lia|exact Hpresent].
  - destruct Htl as [-> ->].
    exists ol, og. split; [done|]. split; [done|].
    split; [|by repeat split].
    rewrite Hlen. cbn [rem_is_zero] in Hrem. apply Z.eqb_neq in Hrem.
    rewrite Z.rem_mod_nonneg in Hrem by lia.
    pose proof (Z.div_mod (Coexist.stepCount g) 1000).
    pose proof (Z.mod_pos_bound (Coexist.stepCount g) 1000).
    rewrite <- (Z.div_unique (Coexist.stepCount g + (1000 - 1)) 1000
               (Coexist.stepCount g / 1000 + 1)
               (Coexist.stepCount g mod 1000 - 1)) by lia.
    rewrite <- (Z.div_unique (Coexist.stepCount g + 1 + (1000 - 1)) 1000
               (Coexist.stepCount g / 1000 + 1)
               (Coexist.stepCount g mod 1000)) by lia.
    done.
Qed.

Lemma coex_replaceTrees_sampled fuel n g g' :
  coex_inv 25 g -> 0 <= Coexist.stepCount g -> coex_sampled g ->
  Coexist.replaceTrees random fuel n g = Coexist.Returns g' ->
  coex_sampled g'.
Proof.
  revert g. induction n as [|n IH]; intros g Hinv H0 Hs; cbn [Coexist.replaceTrees].
  - by intros [= <-].
  - destruct (Coexist.replaceTree random fuel g) as [g1| |] eqn:Hg1; [|done|done].
    intros Hg'. eapply (IH g1); [| | |exact Hg'].
    + by eapply coex_replaceTree_inv.
    + destruct (coex_replaceTree_page random fuel g g1 Hg1)
        as (_ & _ & _ & _ & _ & _ & _ & Hsc). lia.
    + by eapply coex_replaceTree_sampled.
Qed.

End CoexistSession.

Section CoexistSessionInvariants.

Variable random : nat -> sample.

Lemma coex_batchEnd_rest g :
  Coexist.theForest (Coexist.batchEnd g) = Coexist.theForest g
  /\ Coexist.theCensus (Coexist.batchEnd g) = Coexist.theCensus g
  /\ Coexist.iron (Coexist.batchEnd g) = Coexist.iron g
  /\ Coexist.calcium (Coexist.batchEnd g) = Coexist.calcium g
  /\ Coexist.timeline (Coexist.batchEnd g) = Coexist.timeline g
  /\ Coexist.timelineNumberOfSpecies (Coexist.batchEnd g)
     = Coexist.timelineNumberOfSpecies g
  /\ Coexist.stepCount (Coexist.batchEnd g) = Coexist.stepCount g
  /\ Coexist.stepCountDisplay (Coexist.batchEnd g) = Coexist.stepCountDisplay g.
Proof.
  unfold Coexist.batchEnd. destruct (Coexist.finished g); [|done].
  unfold Coexist.doStartStop. cbn [Coexist.state Coexist.set_control].
  by destruct (if Z.rem _ _ =? 0 then _ else _).
Qed.

(** The end of a batch: nothing happens unless the run is finished; a run
    finished at a multiple of 500000 steps is paused; a run finished
    elsewhere is done. *)
Lemma coex_batchEnd_control g :
  Coexist.state g = Coexist.running ->
  if Coexist.finished g
  then Coexist.timer (Coexist.batchEnd g) = false
       /\ if Z.rem (Coexist.stepCount g) 500000 =? 0
          then Coexist.state (Coexist.batchEnd g) = Coexist.paused
               /\ Coexist.startStopButton (Coexist.batchEnd g) = "Resume"
               /\ Coexist.buttonDisabled (Coexist.batchEnd g) = Coexist.buttonDisabled g
          else Coexist.state (Coexist.batchEnd g) = Coexist.done
               /\ Coexist.startStopButton (Coexist.batchEnd g) = "Done"
               /\ Coexist.buttonDisabled (Coexist.batchEnd g) = true
  else Coexist.batchEnd g = g.
Proof.
  intros Hst. unfold Coexist.batchEnd. destruct (Coexist.finished g); [|done].
  unfold Coexist.doStartStop. cbn [Coexist.state Coexist.set_control].
  by destruct (Z.rem _ _ =? 0).
Qed.

Lemma coex_session_reachable g : coex_session random g -> coex_reachable random 25 g.
Proof.
  induction 1 as [|g Hg IH|g Hg IH|fuel g g' Hg IH Htimer Hbatch|g a Hg IH].
  - by apply coex_built.
  - by apply coex_toggled.
  - unfold Coexist.doReset, Coexist.init. apply coex_built.
    cbn [Coexist.poachingCoef].
    by destruct (coex_reachable_inv random 25 g IH) as (_ & _ & _ & Hp).
  - by eapply coex_batch.
  - by apply coex_adjusted.
Qed.

Lemma coex_build_fields s g0 :
  let g := Coexist.build random s g0 in
  Coexist.state g = Coexist.idle
  /\ Coexist.stepCount g = Coexist.stepCount g0
  /\ Coexist.timer g = Coexist.timer g0
  /\ Coexist.theForest g
     = (Plot.createForest random Coexist.treeNames s (Coexist.stepCount g0)
          (Coexist.draws g0)).1.1
  /\ Coexist.iron g = 50%Q /\ Coexist.calcium g = 50%Q
  /\ Coexist.timeline g = Coexist.initTimeline
  /\ Coexist.timelineNumberOfSpecies g = []
  /\ Coexist.startStopButton g = Coexist.startStopButton g0
  /\ Coexist.buttonDisabled g = Coexist.buttonDisabled g0
  /\ Coexist.stepCountDisplay g = Coexist.stepCountDisplay g0.
Proof.
  cbv zeta. unfold Coexist.build.
  by destruct (Plot.createForest _ _ _ _ _) as [[forest census] d].
Qed.

Lemma coex_session_frame g :
  coex_session random g ->
  plot_frame 25 (Plot.canvasSize / (inject_Z 25 * 2))%Q 0 (Coexist.theForest g).
Proof.
  induction 1 as [|g Hg IH|g Hg IH|fuel g g' Hg IH Htimer Hbatch|g a Hg IH].
  - unfold Coexist.loaded, Coexist.init.
    destruct (coex_build_fields 25 Coexist.declared) as (_ & _ & _ & -> & _).
    by apply createForest_frame.
  - unfold Coexist.doStartStop. by destruct (Coexist.state g).
  - unfold Coexist.doReset, Coexist.init.
    match goal with |- context [Coexist.build random 25 ?g0] =>
      destruct (coex_build_fields 25 g0) as (_ & _ & _ & -> & _) end.
    by apply createForest_frame.
  - destruct (coex_runBatch_Returns random fuel g g' Hbatch) as (g1 & Hg1 & ->).
    destruct (coex_batchEnd_rest (Coexist.show_stepCount g1)) as (-> & _).
    change (plot_frame 25 (Plot.canvasSize / (inject_Z 25 * 2))%Q 0 (Coexist.theForest g1)).
    by eapply coex_replaceTrees_frame.
  - done.
Qed.

Lemma coex_session_control g : coex_session random g -> coex_control g.
Proof.
  induction 1 as [|g Hg IH|g Hg IH|fuel g g' Hg IH Htimer Hbatch|g a Hg IH].
  - unfold Coexist.loaded, Coexist.init.
    destruct (coex_build_fields 25 Coexist.declared)
      as (Hst & Hsc & Htm & _ & _ & _ & _ & _ & Hbt & Hdis & Hdp).
    unfold coex_control. rewrite Hst, Hsc, Htm, Hdp. cbn.
    split; [done|]. split; [done|]. split; [done|]. split; [done|]. split; [done|].
    split; [apply Z.divide_0_r|]. split; [by left|done].
  - destruct IH as (Ht & Hb1 & Hb2 & Hb3 & H0 & Hdiv & Hshow & Hidle).
    unfold coex_control, Coexist.doStartStop.
    destruct (Coexist.state g) eqn:Hst; cbn;
      (split; [done|]); (split; [done|]); (split; [done|]); (split; [|done]).
    + done.
    + done.
    + done.
    + intros _. destruct Hb3 as (_ & _ & Hz); done.
  - unfold Coexist.doReset, Coexist.init.
    match goal with |- context [Coexist.build random 25 ?g0] =>
      destruct (coex_build_fields 25 g0)
        as (Hst & Hsc & Htm & _ & _ & _ & _ & _ & Hbt & Hdis & Hdp) end.
    destruct IH as (Ht & _).
    unfold coex_control. rewrite Hst, Hsc, Htm, Hdp.
    cbn [Coexist.stepCount Coexist.timer Coexist.stepCountDisplay].
    split.
    { destruct (Coexist.state g) eqn:Hst'; try done;
        (split; [|done]); intros Htm'; apply Ht in Htm'; congruence. }
    split; [done|]. split; [done|]. split; [done|]. split; [done|].
    split; [apply Z.divide_0_r|]. split; [by left|done].
  - destruct IH as (Ht & Hb1 & Hb2 & Hb3 & H0 & Hdiv & Hshow & Hidle).
    destruct (coex_runBatch_Returns random fuel g g' Hbatch) as (g1 & Hg1 & ->).
    destruct (coex_replaceTrees_page random fuel _ g g1 Hg1)
      as (Hst & Htm & Hbt & Hdis & Hdp & _ & _ & Hsc).
    assert (Hrunning : Coexist.state g = Coexist.running) by by apply Ht.
    set (g2 := Coexist.show_stepCount g1).
    assert (Hst2 : Coexist.state g2 = Coexist.running) by (cbn; congruence).
    destruct (coex_batchEnd_rest g2) as (_ & Hcen & _ & _ & _ & _ & Hsc2 & Hdp2).
    pose proof (coex_batchEnd_control g2 Hst2) as Hend.
    assert (Hsc' : Coexist.stepCount g2 = Coexist.stepCount g + Z.of_nat Coexist.batchSize)
      by (cbn; lia).
    unfold coex_control. rewrite Hsc2, Hdp2, Hcen.
    assert (Hcommon : 0 <= Coexist.stepCount g2
                      /\ (Z.of_nat Coexist.batchSize | Coexist.stepCount g2)
                      /\ (Coexist.stepCount g2 = 0
                          \/ Coexist.stepCountDisplay g2 = Coexist.stepCount g2)).
    { split; [rewrite Hsc'; lia|]. split; [|by right].
      rewrite Hsc'. apply Z.divide_add_r; [done|apply Z.divide_refl]. }
    assert (Hpos : Coexist.stepCount g2 <> 0).
    { rewrite Hsc'. unfold Coexist.batchSize. lia. }
    destruct (Coexist.finished g2) eqn:Hfin.
    + destruct Hend as [Htm' Hend].
      destruct (Z.rem (Coexist.stepCount g2) 500000 =? 0) eqn:Hceil.
      * destruct Hend as (Hs' & Hl' & Hd').
        rewrite Htm', Hs', Hl'.
        split; [done|]. split; [done|]. split; [done|]. split; [done|].
        destruct Hcommon as (? & ? & ?). by repeat split.
      * destruct Hend as (Hs' & Hl' & Hd').
        rewrite Htm', Hs', Hl', Hd'.
        split; [done|]. split; [done|]. split; [done|].
        split.
        { intros _. split; [done|]. split; [done|].
          unfold Coexist.finished in Hfin. rewrite Hceil in Hfin.
          cbn [orb] in Hfin. by apply orb_true_iff in Hfin. }
        destruct Hcommon as (? & ? & ?). by repeat split.
    + rewrite Hend. rewrite Hst2.
      cbn [Coexist.timer Coexist.startStopButton Coexist.show_stepCount g2].
      rewrite Htm, Hbt.
      split; [by rewrite Htimer|]. split; [by auto|]. split; [done|]. split; [done|].
      destruct Hcommon as (? & ? & ?). by repeat split.
  - exact IH.
Qed.

Lemma coex_session_resources g :
  coex_session random g -> (Coexist.iron g + Coexist.calcium g == 100)%Q.
Proof.
  induction 1 as [|g Hg IH|g Hg IH|fuel g g' Hg IH Htimer Hbatch|g a Hg IH].
  - unfold Coexist.loaded, Coexist.init.
    by destruct (coex_build_fields 25 Coexist.declared)
      as (_ & _ & _ & _ & -> & -> & _).
  - unfold Coexist.doStartStop. by destruct (Coexist.state g).
  - unfold Coexist.doReset, Coexist.init.
    match goal with |- context [Coexist.build random 25 ?g0] =>
      by destruct (coex_build_fields 25 g0) as (_ & _ & _ & _ & -> & -> & _) end.
  - destruct (coex_runBatch_Returns random fuel g g' Hbatch) as (g1 & Hg1 & ->).
    destruct (coex_batchEnd_rest (Coexist.show_stepCount g1))
      as (_ & _ & -> & -> & _).
    destruct (coex_replaceTrees_page random fuel _ g g1 Hg1)
      as (_ & _ & _ & _ & _ & Hi & Hc & _).
    cbn [Coexist.iron Coexist.calcium Coexist.show_stepCount]. by rewrite Hi, Hc.
  - cbn [Coexist.adjustResources Coexist.iron Coexist.calcium]. ring.
Qed.

Lemma coex_sampled_ext g g' :
  Coexist.timeline g' = Coexist.timeline g ->
  Coexist.timelineNumberOfSpecies g' = Coexist.timelineNumberOfSpecies g ->
  Coexist.stepCount g' = Coexist.stepCount g ->
  coex_sampled g -> coex_sampled g'.
Proof. unfold coex_sampled. by intros -> -> ->. Qed.

Lemma coex_fresh_sampled s g0 :
  Coexist.stepCount g0 = 0 -> coex_sampled (Coexist.build random s g0).
Proof.
  intros Hsc0.
  destruct (coex_build_fields s g0) as (_ & Hsc & _ & _ & _ & _ & Htl & Hseen & _).
  cbv zeta in Hsc, Htl, Hseen.
  exists [], []. rewrite Htl, Hseen, Hsc, Hsc0.
  split; [done|]. split; [done|]. split; [done|]. split; [done|]. split; [done|].
  intros i present Hi. by rewrite lookup_nil in Hi.
Qed.

Lemma coex_session_sampled g : coex_session random g -> coex_sampled g.
Proof.
  induction 1 as [|g Hg IH|g Hg IH|fuel g g' Hg IH Htimer Hbatch|g a Hg IH].
  - by apply coex_fresh_sampled.
  - eapply coex_sampled_ext; [| | |exact IH];
      unfold Coexist.doStartStop; by destruct (Coexist.state g).
  - by apply coex_fresh_sampled.
  - destruct (coex_runBatch_Returns random fuel g g' Hbatch) as (g1 & Hg1 & ->).
    destruct (coex_batchEnd_rest (Coexist.show_stepCount g1))
      as (_ & _ & _ & _ & Htl & Hseen & Hsc & _).
    eapply (coex_sampled_ext g1); [by rewrite Htl|by rewrite Hseen|by rewrite Hsc|].
    eapply coex_replaceTrees_sampled; [| |exact IH|exact Hg1].
    + by apply coex_reachable_inv with (random := random), coex_session_reachable.
    + by destruct (coex_session_control g Hg) as (_ & _ & _ & _ & H0 & _).
  - eapply coex_sampled_ext; [| | |exact IH]; done.
Qed.

End CoexistSessionInvariants.

(** *** Coins *)

Lemma sample_Q_range (u : sample) : (0 <= sample_Q u)%Q /\ (sample_Q u < 1)%Q.
Proof.
  unfold sample_Q, Qle, Qlt. cbn [Qnum Qden]. lia.
Qed.

Lemma flip_sure (b : Q) (u : sample) :
  (1 <= b)%Q -> Coexist.flipBiasedCoin (Coexist.Fin b) u = true.
Proof.
  intros Hb. apply flip_Fin_true. destruct (sample_Q_range u). lra.
Qed.

Lemma flip_never (b : Q) (u : sample) :
  (b <= 0)%Q -> Coexist.flipBiasedCoin (Coexist.Fin b) u = false.
Proof.
  intros Hb. apply flip_Fin_false. destruct (sample_Q_range u). lra.
Qed.

Lemma heads_S random bias d n :
  heads random bias d (S n)
  = (if Coexist.flipBiasedCoin bias (random d) then 1 else 0)
    + heads random bias (S d) n.
Proof.
  unfold heads. cbn [seq]. rewrite filter_cons.
  destruct (Coexist.flipBiasedCoin bias (random d)) eqn:E.
  - rewrite decide_True by done. cbn [length]. lia.
  - rewrite decide_False by done. lia.
Qed.

Lemma heads_range random bias d n : 0 <= heads random bias d n <= Z.of_nat n.
Proof.
  revert d. induction n as [|n IH]; intros d; [done|].
  rewrite heads_S. specialize (IH (S d)).
  destruct (Coexist.flipBiasedCoin bias (random d)); lia.
Qed.

Lemma testCoinFlip_loop_heads random n bias yeas nays d :
  Coexist.testCoinFlip_loop random n bias yeas nays d
  = (yeas + heads random bias d n,
     nays + (Z.of_nat n - heads random bias d n),
     (d + n)%nat).
Proof.
  revert yeas nays d. induction n as [|n IH]; intros yeas nays d.
  - cbn [Coexist.testCoinFlip_loop]. unfold heads. cbn.
    by rewrite !Z.add_0_r, Nat.add_0_r.
  - cbn [Coexist.testCoinFlip_loop]. rewrite heads_S.
    destruct (Coexist.flipBiasedCoin bias (random d)); rewrite IH;
      f_equal; [f_equal| |f_equal|]; lia.
Qed.

Lemma heads_monotone random (b b' : Q) d n :
  (b <= b')%Q ->
  heads random (Coexist.Fin b) d n <= heads random (Coexist.Fin b') d n.
Proof.
  intros Hb. revert d. induction n as [|n IH]; intros d; [done|].
  rewrite !heads_S. specialize (IH (S d)).
  destruct (Coexist.flipBiasedCoin (Coexist.Fin b) (random d)) eqn:E.
  - apply flip_Fin_true in E.
    assert (Coexist.flipBiasedCoin (Coexist.Fin b') (random d) = true) as ->; [|lia].
    apply flip_Fin_true. lra.
  - destruct (Coexist.flipBiasedCoin (Coexist.Fin b') (random d)); lia.
Qed.

Lemma heads_all random (b : Q) d n :
  (1 <= b)%Q -> heads random (Coexist.Fin b) d n = Z.of_nat n.
Proof.
  intros Hb. revert d. induction n as [|n IH]; intros d; [done|].
  rewrite heads_S, IH, flip_sure by done. lia.
Qed.

Lemma heads_none random (b : Q) d n :
  (b <= 0)%Q -> heads random (Coexist.Fin b) d n = 0.
Proof.
  intros Hb. revert d. induction n as [|n IH]; intros d; [done|].
  rewrite heads_S, IH, flip_never by done. lia.
Qed.

(** *** The range of the pressure factors *)

Lemma demand_positive (a b : Z) :
  0 <= a -> 0 <= b -> 0 < a + b ->
  (inject_Z (a + b) * (1 # 4) <= inject_Z a + 0.25 * inject_Z b)%Q
  /\ (0 < inject_Z a + 0.25 * inject_Z b)%Q.
Proof.
  intros Ha Hb Hab.
  assert (HA : (inject_Z 0 <= inject_Z a)%Q) by (by rewrite <- Zle_Qle).
  assert (HB : (inject_Z 0 <= inject_Z b)%Q) by (by rewrite <- Zle_Qle).
  assert (HAB : (inject_Z 0 < inject_Z (a + b))%Q) by (by rewrite <- Zlt_Qlt).
  rewrite inject_Z_plus in *. change (inject_Z 0) with 0%Q in *.
  split; lra.
Qed.

Lemma pressure_nonpositive (cap : Q) (a b : Z) :
  0 <= a -> 0 <= b -> 0 < a + b -> (cap <= 0)%Q ->
  (pressure cap a b 0.25 <= 0)%Q.
Proof.
  intros Ha Hb Hab Hcap. destruct (demand_positive a b Ha Hb Hab) as [_ HD].
  unfold pressure. apply Qle_shift_div_r; [done|]. lra.
Qed.

Lemma pressure_bounds (cap : Q) (a b : Z) :
  0 <= a -> 0 <= b -> a + b = 625 -> (0 <= cap <= 100)%Q ->
  (0 <= pressure cap a b 0.25 <= 16 # 25)%Q.
Proof.
  intros Ha Hb Hab Hcap.
  destruct (demand_positive a b Ha Hb) as [Hlow HD]; [lia|].
  rewrite Hab in Hlow. change (inject_Z 625) with 625%Q in Hlow.
  unfold pressure. split.
  - apply Qle_shift_div_l; [done|]. lra.
  - apply Qle_shift_div_r; [done|]. lra.
Qed.

Section CoexistStarved.

Variable random : nat -> sample.

(** When only one species is left and its resource is not positive, every
    candidate is rejected. *)
Lemma coex_starved_turns s g k other m :
  coex_inv s g -> s <> 0 ->
  (k = "olive" /\ other = "orange" /\ (Coexist.iron g <= 0)%Q
   \/ k = "orange" /\ other = "olive" /\ (Coexist.calcium g <= 0)%Q) ->
  population (Str other) (coex_cells g) = 0 ->
  turn random (Coexist.theForest g) (Coexist.oliveFactor g) (Coexist.orangeFactor g)
    (S (Coexist.draws g)) m = Some false.
Proof.
  intros Hinv Hs Hcase Hzero.
  destruct (coex_factors s g Hinv Hs) as [HoF HgF].
  destruct (coex_census s g Hinv) as (Ho & Hg & Hsum).
  pose proof Hinv as (Hlen & Hpop & _ & Hp).
  pose proof (population_nonneg (Str "olive") (coex_cells g)) as Ho0.
  pose proof (population_nonneg (Str "orange") (coex_cells g)) as Hg0.
  assert (Hss : 0 < s * s) by nia.
  unfold turn.
  destruct (arr_get_in_range (Coexist.theForest g)
              (candidate random (Coexist.theForest g) (S (Coexist.draws g)) m))
    as [t Ht].
  { unfold candidate. apply randomIndex_range. lia. }
  rewrite Ht. cbn [mbind option_bind]. f_equal.
  apply arr_get_Some in Ht as [_ Ht].
  assert (Hin : Plot.species t ∈ coex_cells g).
  { unfold coex_cells. apply list_elem_of_fmap_2. by eapply list_elem_of_lookup_2. }
  assert (Hsp : Plot.species t = Str k).
  { eapply Forall_forall in Hpop; [|exact Hin].
    destruct Hpop as (k' & Hk' & Hin').
    assert (k' <> other).
    { intros ->. apply population_zero in Hzero. apply Hzero. by rewrite <- Hk'. }
    unfold Coexist.treeNames in Hin'.
    apply elem_of_cons in Hin' as [->|Hin'].
    - destruct Hcase as [(-> & -> & _)|(-> & -> & _)]; done.
    - apply list_elem_of_singleton in Hin' as ->.
      destruct Hcase as [(-> & -> & _)|(-> & -> & _)]; done. }
  rewrite Hsp. unfold Coexist.bias, census_count in *.
  rewrite Ho, Hg, Hp in *.
  destruct Hcase as [(-> & -> & Hcap)|(-> & -> & Hcap)].
  - rewrite decide_True by done. rewrite HoF. apply flip_never.
    apply pressure_nonpositive; [done|done|lia|done].
  - rewrite decide_False by done. rewrite HgF. apply flip_never.
    apply pressure_nonpositive; [done|done|lia|done].
Qed.

End CoexistStarved.

Lemma coex_build_plot random s g0 :
  let g := Coexist.build random s g0 in
  (Coexist.theForest g, Coexist.theCensus g, Coexist.draws g)
  = Plot.createForest random Coexist.treeNames s (Coexist.stepCount g0)
      (Coexist.draws g0).
Proof.
  cbv zeta. unfold Coexist.build.
  by destruct (Plot.createForest _ _ _ _ _) as [[forest census] d].
Qed.

(** ** [socialdx.js]: counting conflicts *)

(** *** Sums *)

Lemma sumZ_app l1 l2 : sumZ (l1 ++ l2) = sumZ l1 + sumZ l2.
Proof.
  induction l1 as [|x l1 IH]; [done|]. cbn [app sumZ foldr] in *.
  fold (sumZ (l1 ++ l2)). fold (sumZ l1). lia.
Qed.

Lemma sumZ_cons x l : sumZ (x :: l) = x + sumZ l.
Proof. done. Qed.

Lemma sumZ_Permutation l1 l2 : l1 ≡ₚ l2 -> sumZ l1 = sumZ l2.
Proof.
  induction 1 as [|x l1 l2 _ IH|x y l|l1 l2 l3 _ IH1 _ IH2];
    rewrite ?sumZ_cons; lia.
Qed.

Lemma sumZ_fmap_add {A : Type} (f g : A -> Z) (l : list A) :
  sumZ ((fun x => f x + g x) <$> l) = sumZ (f <$> l) + sumZ (g <$> l).
Proof.
  induction l as [|x l IH]; [done|]. cbn [fmap list_fmap] in *.
  rewrite !sumZ_cons, IH. lia.
Qed.

Lemma sumZ_fmap_zero {A : Type} (l : list A) : sumZ ((fun _ => 0) <$> l) = 0.
Proof. induction l as [|x l IH]; [done|]. cbn [fmap list_fmap]. by rewrite sumZ_cons, IH. Qed.

Lemma sumZ_fmap_ext {A : Type} (f g : A -> Z) (l : list A) :
  (forall x, x ∈ l -> f x = g x) -> sumZ (f <$> l) = sumZ (g <$> l).
Proof.
  intros H. induction l as [|x l IH]; [done|]. cbn [fmap list_fmap].
  rewrite !sumZ_cons, IH, (H x); [done|by left|].
  intros y Hy. apply H. by right.
Qed.

Lemma sumZ_fmap_le {A : Type} (f g : A -> Z) (l : list A) :
  (forall x, x ∈ l -> f x <= g x) -> sumZ (f <$> l) <= sumZ (g <$> l).
Proof.
  intros H. induction l as [|x l IH]; [done|]. cbn [fmap list_fmap].
  rewrite !sumZ_cons.
  assert (f x <= g x) by (apply H; by left).
  assert (sumZ (f <$> l) <= sumZ (g <$> l)) by (apply IH; intros y Hy; apply H; by right).
  lia.
Qed.

Lemma sumZ_fmap_bounds {A : Type} (f : A -> Z) (l : list A) (b : Z) :
  (forall x, x ∈ l -> 0 <= f x <= b) ->
  0 <= sumZ (f <$> l) <= b * Z.of_nat (length l).
Proof.
  intros H. induction l as [|x l IH]; [cbn; lia|]. cbn [fmap list_fmap length].
  rewrite sumZ_cons.
  assert (0 <= f x <= b) by (apply H; by left).
  assert (0 <= sumZ (f <$> l) <= b * Z.of_nat (length l))
    by (apply IH; intros y Hy; apply H; by right).
  lia.
Qed.

(** Summing by rows or by columns *)
Lemma sumZ_swap {A B : Type} (F : A -> B -> Z) (l : list A) (os : list B) :
  sumZ ((fun i => sumZ (F i <$> os)) <$> l)
  = sumZ ((fun o => sumZ ((fun i => F i o) <$> l)) <$> os).
Proof.
  induction os as [|o os IH].
  - cbn [fmap list_fmap sumZ foldr]. apply sumZ_fmap_zero.
  - cbn [fmap list_fmap]. rewrite sumZ_cons, <- IH, <- sumZ_fmap_add.
    apply sumZ_fmap_ext. intros i _. by rewrite sumZ_cons.
Qed.

(** *** Clashes *)

Lemma clash_range s cells i o : 0 <= clash s cells i o <= 1.
Proof. unfold clash. destruct (decide _); lia. Qed.

Lemma clashes_by_direction s cells :
  clashes s cells = sumZ (clashes_along s cells <$> ring_offsets).
Proof. unfold clashes, clashes_at, clashes_along. apply sumZ_swap. Qed.

Lemma clashes_range s cells :
  0 <= clashes s cells <= 8 * Z.of_nat (length cells).
Proof.
  unfold clashes.
  pose proof (sumZ_fmap_bounds (clashes_at s cells)
                (seqZ 0 (Z.of_nat (length cells))) 8) as H.
  rewrite length_seqZ in H. rewrite Nat2Z.id in H. apply H.
  intros i _. unfold clashes_at.
  pose proof (sumZ_fmap_bounds (clash s cells i) ring_offsets 1) as H'.
  cbn [length ring_offsets] in H'. 
  assert (0 <= sumZ (clash s cells i <$> ring_offsets) <= 1 * Z.of_nat 8); [|lia].
  apply H'. intros o _. apply clash_range.
Qed.

(** The shift of the grid by an offset permutes its cells. *)
Lemma torus_shift_Permutation (s h v : Z) :
  0 < s ->
  (fun i => torus_cell s i h v) <$> seqZ 0 (s * s) ≡ₚ seqZ 0 (s * s).
Proof.
  intros Hs. apply NoDup_Permutation.
  - apply NoDup_fmap_2_strong; [|apply NoDup_seqZ].
    intros x y Hx Hy Heq. apply elem_of_seqZ in Hx, Hy.
    rewrite <- (torus_cell_back s x h v), <- (torus_cell_back s y h v) by lia.
    by rewrite Heq.
  - apply NoDup_seqZ.
  - intros x. rewrite list_elem_of_fmap, elem_of_seqZ. split.
    + intros (y & -> & _). pose proof (torus_cell_range s y h v Hs). lia.
    + intros Hx. exists (torus_cell s x (- h) (- v)). split.
      * pose proof (torus_cell_back s x (- h) (- v) Hs) as Hb.
        rewrite !Z.opp_involutive in Hb. symmetry. apply Hb. lia.
      * apply elem_of_seqZ. pose proof (torus_cell_range s x (- h) (- v) Hs). lia.
Qed.

(** Opposite directions see the same clashes. *)
Lemma clashes_along_opposite s cells (h v : Z) :
  0 < s -> Z.of_nat (length cells) = s * s ->
  clashes_along s cells (- h, - v) = clashes_along s cells (h, v).
Proof.
  intros Hs Hlen. unfold clashes_along. rewrite Hlen.
  rewrite <- (sumZ_Permutation _ _
                (fmap_Permutation (fun i => clash s cells i (h, v)) _ _
                   (torus_shift_Permutation s (- h) (- v) Hs))).
  rewrite <- list_fmap_compose. apply sumZ_fmap_ext.
  intros i Hi. apply elem_of_seqZ in Hi. unfold compose, clash. cbn [fst snd].
  pose proof (torus_cell_back s i (- h) (- v) Hs) as Hb.
  rewrite !Z.opp_involutive in Hb. rewrite Hb by lia.
  destruct (decide (arr_get cells (torus_cell s i (- h) (- v)) = arr_get cells i));
    destruct (decide (arr_get cells i = arr_get cells (torus_cell s i (- h) (- v))));
    congruence.
Qed.

(** Every clash is counted twice. *)
Lemma clashes_even s cells :
  0 < s -> Z.of_nat (length cells) = s * s ->
  clashes s cells
  = 2 * (clashes_along s cells (-1, -1) + clashes_along s cells (-1, 0)
         + clashes_along s cells (-1, 1) + clashes_along s cells (0, -1)).
Proof.
  intros Hs Hlen. rewrite clashes_by_direction.
  unfold ring_offsets. cbn [fmap list_fmap]. rewrite !sumZ_cons.
  change (sumZ []) with 0.
  assert (H1 : clashes_along s cells (1, 1) = clashes_along s cells (-1, -1))
    by exact (clashes_along_opposite s cells (-1) (-1) Hs Hlen).
  assert (H2 : clashes_along s cells (1, 0) = clashes_along s cells (-1, 0))
    by exact (clashes_along_opposite s cells (-1) 0 Hs Hlen).
  assert (H3 : clashes_along s cells (1, -1) = clashes_along s cells (-1, 1))
    by exact (clashes_along_opposite s cells (-1) 1 Hs Hlen).
  assert (H4 : clashes_along s cells (0, 1) = clashes_along s cells (0, -1))
    by exact (clashes_along_opposite s cells 0 (-1) Hs Hlen).
  lia.
Qed.

(** *** [countConflicts] *)

Section CountConflicts.

Variable s : Z.
Variable ts : list Socialdx.Tree.
Hypothesis side_positive : 0 < s.
Hypothesis ts_length : Z.of_nat (length ts) = s * s.

Local Abbreviation cells := (Socialdx.species <$> ts).

Lemma torus_cell_tree i h v : is_Some (arr_get ts (torus_cell s i h v)).
Proof.
  apply arr_get_in_range. rewrite ts_length. by apply torus_cell_range.
Qed.

(** The array [ring]: the species of the eight neighbours, in the order of
    [neighborTrees], the tree itself left out. *)
Lemma ringSpecies_block i :
  Socialdx.ringSpecies ts (torus_block s i) 0
  = Some (omap (fun o : Z * Z =>
                  Socialdx.species <$> arr_get ts (torus_cell s i o.1 o.2))
            ring_offsets).
Proof.
  unfold torus_block, ring_offsets. cbn [mbind list_bind mret app].
  cbn [Socialdx.ringSpecies omap list_omap fst snd].
  destruct (torus_cell_tree i (-1) (-1)) as [t1 ->].
  destruct (torus_cell_tree i (-1) 0) as [t2 ->].
  destruct (torus_cell_tree i (-1) 1) as [t3 ->].
  destruct (torus_cell_tree i 0 (-1)) as [t4 ->].
  destruct (torus_cell_tree i 0 1) as [t6 ->].
  destruct (torus_cell_tree i 1 (-1)) as [t7 ->].
  destruct (torus_cell_tree i 1 0) as [t8 ->].
  destruct (torus_cell_tree i 1 1) as [t9 ->].
  done.
Qed.

Lemma population_ring ctr i (os : list (Z * Z)) :
  arr_get cells i = Some ctr ->
  population ctr
    (omap (fun o : Z * Z => Socialdx.species <$> arr_get ts (torus_cell s i o.1 o.2)) os)
  = sumZ (clash s cells i <$> os).
Proof.
  intros Hctr. induction os as [|o os IH]; [done|].
  cbn [omap list_omap fmap list_fmap]. rewrite sumZ_cons, <- IH.
  destruct (torus_cell_tree i o.1 o.2) as [t Ht]. rewrite Ht.
  cbn [fmap option_fmap option_map]. rewrite population_cons. f_equal.
  unfold clash. rewrite arr_get_fmap, Ht, Hctr. cbn [fmap option_fmap option_map].
  unfold one_if.
  destruct (decide (ctr = Socialdx.species t));
    destruct (decide (Some (Socialdx.species t) = Some ctr)); congruence.
Qed.

Hypothesis ts_neighbors :
  forall (j : nat) t, ts !! j = Some t ->
    Socialdx.neighborTrees t = torus_block s (Z.of_nat j).

Lemma countConflicts_loop_sum rest (i : nat) acc :
  drop i ts = rest ->
  Socialdx.countConflicts_loop ts rest acc
  = Some (acc + sumZ (clashes_at s cells
                        <$> seqZ (Z.of_nat i) (Z.of_nat (length rest)))).
Proof.
  revert i acc. induction rest as [|t rest IH]; intros i acc Hdrop.
  - cbn. by rewrite Z.add_0_r.
  - assert (Ht : ts !! i = Some t).
    { pose proof (lookup_drop ts i 0) as H. rewrite Hdrop, Nat.add_0_r in H.
      by rewrite <- H. }
    assert (Hrest : drop (S i) ts = rest).
    { replace (S i) with (i + 1)%nat by lia.
      rewrite <- drop_drop, Hdrop. done. }
    cbn [Socialdx.countConflicts_loop length].
    rewrite (ts_neighbors i t Ht), ringSpecies_block. cbn [mbind option_bind].
    rewrite (IH (S i) _ Hrest).
    rewrite (seqZ_cons (Z.of_nat i)) by lia. cbn [fmap list_fmap].
    rewrite sumZ_cons.
    replace (Z.succ (Z.of_nat i)) with (Z.of_nat (S i)) by lia.
    replace (Z.pred (Z.of_nat (S (length rest)))) with (Z.of_nat (length rest)) by lia.
    unfold Socialdx.conflictsIn. fold (population (Socialdx.species t)
      (omap (fun o : Z * Z =>
               Socialdx.species <$> arr_get ts (torus_cell s (Z.of_nat i) o.1 o.2))
         ring_offsets)).
    rewrite population_ring.
    + unfold clashes_at. f_equal. lia.
    + by rewrite arr_get_nat, list_lookup_fmap, Ht.
Qed.

Lemma countConflicts_loop_clashes :
  Socialdx.countConflicts_loop ts ts 0 = Some (clashes s cells).
Proof.
  rewrite (countConflicts_loop_sum ts 0 0) by done.
  unfold clashes. by rewrite length_fmap.
Qed.

End CountConflicts.

Lemma countConflicts_clashes s R born f :
  0 < s -> sdx_frame s R born f ->
  Socialdx.countConflicts f
  = Some (inject_Z (clashes s (Socialdx.species <$> Socialdx.trees f)) / 2)%Q.
Proof.
  intros Hs (_ & _ & Hlen & Hsite).
  unfold Socialdx.countConflicts.
  rewrite (countConflicts_loop_clashes s (Socialdx.trees f) Hs).
  - done.
  - nia.
  - intros j t Hj. by destruct (Hsite j t Hj).
Qed.

(** *** An arrival and the clashes *)

Lemma arr_get_insert {A : Type} (l : list A) (d x : Z) (a : A) :
  0 <= d < Z.of_nat (length l) ->
  arr_get (<[Z.to_nat d := a]> l) x
  = if decide (x = d) then Some a else arr_get l x.
Proof.
  intros Hd. unfold arr_get. destruct (Z.ltb_spec x 0) as [Hx|Hx].
  - by rewrite decide_False by lia.
  - destruct (decide (x = d)) as [->|Hne].
    + apply list_lookup_insert_eq. lia.
    + apply list_lookup_insert_ne. lia.
Qed.

Lemma ring_offsets_range (o : Z * Z) :
  o ∈ ring_offsets -> -1 <= o.1 <= 1 /\ -1 <= o.2 <= 1.
Proof.
  unfold ring_offsets. intros Ho.
  repeat (apply elem_of_cons in Ho as [->|Ho]; [cbn; lia|]).
  by apply elem_of_nil in Ho.
Qed.

Lemma hood_elem s cells d w :
  w ∈ hood s cells d <-> exists n, n ∈ torus_block s d /\ arr_get cells n = Some w.
Proof. unfold hood. apply list_elem_of_omap. Qed.

(** Giving a cell a value that its neighbourhood does not hold adds no
    clash anywhere. *)
Lemma clash_insert_le s cells d v i o :
  0 < s -> Z.of_nat (length cells) = s * s -> 0 <= d < s * s ->
  v ∉ hood s cells d ->
  0 <= i < s * s -> o ∈ ring_offsets ->
  clash s (<[Z.to_nat d := v]> cells) i o <= clash s cells i o.
Proof.
  intros Hs Hlen Hd Hv Hi Ho.
  apply ring_offsets_range in Ho as [Hh Hvv].
  unfold clash. rewrite !arr_get_insert by lia.
  set (n := torus_cell s i o.1 o.2).
  assert (Hn : n ∈ torus_block s i).
  { apply torus_block_elem. by exists o.1, o.2. }
  destruct (decide (n = d)) as [Hnd|Hnd]; destruct (decide (i = d)) as [Hid|Hid].
  - subst i. rewrite Hnd. rewrite !decide_True by done. lia.
  - (* the cell [d] is a neighbour of [i]: [i] is in the neighbourhood of [d] *)
    rewrite Hnd in Hn. apply torus_block_sym in Hn; [|done|done].
    destruct (decide (Some v = arr_get cells i)) as [Heq|]; [|destruct (decide _); lia].
    exfalso. apply Hv. apply hood_elem. by exists i.
  - subst i.
    destruct (decide (arr_get cells n = Some v)) as [Heq|]; [|destruct (decide _); lia].
    exfalso. apply Hv. apply hood_elem. by exists n.
  - lia.
Qed.

Lemma clashes_insert_le s cells d v :
  0 < s -> Z.of_nat (length cells) = s * s -> 0 <= d < s * s ->
  v ∉ hood s cells d ->
  clashes s (<[Z.to_nat d := v]> cells) <= clashes s cells.
Proof.
  intros Hs Hlen Hd Hv. unfold clashes. rewrite length_insert.
  apply sumZ_fmap_le. intros i Hi. apply elem_of_seqZ in Hi.
  unfold clashes_at. apply sumZ_fmap_le. intros o Ho.
  apply clash_insert_le; try done. lia.
Qed.


(** ** [socialdx.js]: the species of a neighbourhood *)

Lemma listNeighborSpecies_hood s colorMap g (d : nat) t :
  species_set (colorMap.*1) -> 0 < s -> sdx_inv s colorMap g ->
  Socialdx.trees (Socialdx.theForest g) !! d = Some t ->
  exists ns,
    Socialdx.listNeighborSpecies (Socialdx.trees (Socialdx.theForest g)) t = Some ns
    /\ forall k, k ∈ ns <-> Str k ∈ hood s (sdx_cells g) (Z.of_nat d).
Proof.
  intros Hnames Hs (_ & _ & _ & [Hlen Hgrid] & Hset & _) Hdt.
  assert (Hd : 0 <= Z.of_nat d < s * s).
  { apply lookup_lt_Some in Hdt. lia. }
  destruct (Hgrid _ _ Hdt) as (_ & Hcol & Hrow & Hnbrs).
  rewrite Hcol, Hrow, neighborIndices_torus in Hnbrs by lia.
  destruct (collectSpecies_total (Socialdx.trees (Socialdx.theForest g))
              (Socialdx.neighborTrees t) ∅) as [ns Hns].
  { intros j Hj. rewrite Hnbrs in Hj. rewrite Hlen. by eapply torus_block_range. }
  exists ns. split; [exact Hns|].
  rewrite Hnbrs in Hns.
  pose proof (collectSpecies_Some _ _ _ _ Hns) as Hin.
  intros k. rewrite Hin. unfold hood, sdx_cells. rewrite list_elem_of_omap. split.
  - intros [Hempty|(j & t' & Hj & Ht & Htruthy & Hkey)];
      [by apply elem_of_empty in Hempty|].
    exists j. split; [done|]. rewrite arr_get_fmap, Ht. cbn. f_equal.
    destruct (settled_arr_get _ _ _ _ Hset Ht) as [E|(k' & E & _)];
      rewrite E in *; [done|]. cbn in Hkey. by subst.
  - intros (j & Hj & Hc). right. rewrite arr_get_fmap in Hc.
    destruct (arr_get _ j) as [t'|] eqn:Ht; [|done]. injection Hc as Hc.
    exists j, t'. rewrite Hc. split; [done|]. split; [done|].
    split; [|done].
    destruct (settled_arr_get _ _ _ _ Hset Ht) as [E|(k' & E & Hk')]; [congruence|].
    assert (k' = k) as -> by congruence.
    by eapply species_set_truthy.
Qed.


(** ** The colours of the trees *)

Lemma lookup_or_own (obj : list (string * string)) (k c dflt : string) :
  NoDup (obj.*1) -> (k, c) ∈ obj ->
  lookup_or obj (Str k) dflt = Some (if String.eqb c "" then dflt else c).
Proof.
  intros Hnd Hin. unfold lookup_or. cbn [to_key].
  assert (Hl : (list_to_map (reverse obj) : gmap string string) !! k = Some c).
  { apply elem_of_list_to_map.
    - by rewrite fmap_reverse, reverse_Permutation.
    - by apply elem_of_reverse. }
  by rewrite Hl.
Qed.

Lemma lookup_or_missing (obj : list (string * string)) (v : value) (dflt : string) :
  to_key v ∉ obj.*1 -> to_key v ∉ Object_prototype_keys ->
  lookup_or obj v dflt = Some dflt.
Proof.
  intros Hk Hp. unfold lookup_or.
  assert (Hl : (list_to_map (reverse obj) : gmap string string) !! to_key v = None).
  { apply not_elem_of_list_to_map. rewrite fmap_reverse.
    by rewrite elem_of_reverse. }
  rewrite Hl. by rewrite bool_decide_eq_false_2.
Qed.

Lemma imm_treeNames_keys : Immigration.treeNames = Immigration.treeColorMap.*1.
Proof. reflexivity. Qed.

Lemma coex_treeNames_keys : Coexist.treeNames = Coexist.treeColorMap.*1.
Proof. reflexivity. Qed.

(** A cell that holds a name of the map is painted in the colour of that
    name. *)
Lemma populated_colour (obj : list (string * string)) (cells : list value) (v : value) :
  NoDup (obj.*1) -> populated (obj.*1) cells -> v ∈ cells ->
  exists k c, v = Str k /\ (k, c) ∈ obj
    /\ lookup_or obj v "#ffffff" = Some (if String.eqb c "" then "#ffffff" else c).
Proof.
  intros Hnd Hpop Hv. eapply Forall_forall in Hpop; [|exact Hv].
  destruct Hpop as (k & -> & Hk).
  apply list_elem_of_fmap in Hk as ([k' c] & Hk' & Hin). cbn in Hk'. subst k'.
  exists k, c. split; [done|]. split; [done|]. by apply lookup_or_own.
Qed.


(** ** The competition program: what a replacement brings *)

Section CoexistArrival.

Variable random : nat -> sample.

(** The candidate that a replacement accepts has passed the coin. *)
Lemma coex_accepted_flip fuel g g' :
  Coexist.replaceTree random fuel g = Coexist.Returns g' ->
  exists (n : nat) old arrivingTree,
    coex_cells g !! Z.to_nat (coex_departing random g) = Some old
    /\ Plot.species arrivingTree ∈ coex_cells g
    /\ Coexist.flipBiasedCoin
         (Coexist.bias (Coexist.oliveFactor g) (Coexist.orangeFactor g)
            (Plot.species arrivingTree))
         (coin random (S (Coexist.draws g)) n) = true
    /\ coex_cells g'
       = <[Z.to_nat (coex_departing random g) := Plot.species arrivingTree]>
           (coex_cells g).
Proof.
  intros Hstep.
  destruct (coex_replaceTree_Returns random fuel g g' Hstep)
    as (i & dt & at_ & Harr & Hdt & Hat & Hforest & _).
  apply arrival_Returns in Harr as (n & _ & _ & Hturn & Hi & _).
  unfold turn in Hturn. rewrite <- Hi, Hat in Hturn.
  cbn [mbind option_bind] in Hturn. injection Hturn as Hflip.
  apply arr_get_Some in Hdt as [_ Hdt]. apply arr_get_Some in Hat as [_ Hat].
  exists n, (Plot.species dt), at_. unfold coex_cells.
  split; [by rewrite list_lookup_fmap, Hdt|].
  split; [apply list_elem_of_fmap_2; by eapply list_elem_of_lookup_2|].
  split; [exact Hflip|].
  rewrite Hforest, list_fmap_insert. done.
Qed.

End CoexistArrival.

(** In a plot of olive and orange trees, a species has no tree exactly
    when every tree is of the other species. *)
Lemma coex_takeover cells (k other : string) :
  populated Coexist.treeNames cells ->
  (k = "olive" /\ other = "orange") \/ (k = "orange" /\ other = "olive") ->
  population (Str k) cells = 0 <-> Forall (fun v => v = Str other) cells.
Proof.
  intros Hpop Hcase. rewrite population_zero. split.
  - intros Hnot. apply Forall_forall. intros v Hv.
    eapply Forall_forall in Hpop; [|exact Hv].
    destruct Hpop as (k' & -> & Hk').
    unfold Coexist.treeNames in Hk'.
    apply elem_of_cons in Hk' as [->|Hk'].
    + destruct Hcase as [[-> ->]|[-> ->]]; [done|done].
    + apply list_elem_of_singleton in Hk' as ->.
      destruct Hcase as [[-> ->]|[-> ->]]; [done|done].
  - intros Hall Hin. eapply Forall_forall in Hall; [|exact Hin].
    destruct Hcase as [[-> ->]|[-> ->]]; done.
Qed.

(** ** A forest of a single species *)

(** Giving a tree the species it has changes nothing. *)
Lemma insert_same_species (forest : list Plot.Tree) (i : nat) dt sp :
  forest !! i = Some dt -> Plot.species dt = sp ->
  <[i := Plot.set_species dt sp]> forest = forest.
Proof.
  intros Hi <-. apply list_insert_id. rewrite Hi. f_equal. by destruct dt.
Qed.

(** Taking a tree of a species off the census and putting one back changes
    nothing. *)
Lemma incr_decr_same names census cells k :
  accurate names census cells -> k ∈ names ->
  incr (decr census k) k = census.
Proof.
  intros Hacc Hk. specialize (Hacc k Hk).
  unfold incr, decr, get. rewrite lookup_insert_eq. cbn [default].
  rewrite insert_insert_eq, Hacc. cbn [default sub1 add1].
  apply insert_id. rewrite Hacc. cbn [add1 sub1 id]. do 2 f_equal. lia.
Qed.


(** ** Random indices by their arithmetic *)

Lemma randomIndex_floor_of (len : Z) (u : sample) :
  floor_of u len (randomIndex len u).
Proof.
  unfold floor_of, randomIndex. split; [apply Qfloor_le|].
  rewrite <- (inject_Z_plus _ 1). apply Qlt_floor.
Qed.

Lemma floor_of_unique (len : Z) (u : sample) (i : Z) :
  floor_of u len i -> i = randomIndex len u.
Proof.
  intros [Hle Hlt]. unfold randomIndex.
  set (x := (sample_Q u * inject_Z len)%Q) in *.
  apply Qfloor_resp_le in Hle. rewrite Qfloor_Z in Hle.
  assert (Hup : (inject_Z (Qfloor x) < inject_Z (i + 1))%Q).
  { rewrite inject_Z_plus. eapply Qle_lt_trans; [apply Qfloor_le | exact Hlt]. }
  rewrite <- Zlt_Qlt in Hup. lia.
Qed.

Lemma randomIndex_fraction (len i : Z) :
  0 <= i < len -> randomIndex len (fraction i len) = i.
Proof.
  intros Hi. rewrite randomIndex_unfold. unfold fraction. cbn [s_num s_gap].
  replace (Z.pos (Pos.of_succ_nat (Z.to_nat i + Z.to_nat (len - i - 1)))) with len by lia.
  rewrite Z2Nat.id by lia. apply Z.div_mul. lia.
Qed.

Lemma floor_of_fraction (len i : Z) :
  0 <= i < len -> floor_of (fraction i len) len i.
Proof.
  intros Hi. rewrite <- (randomIndex_fraction len i Hi) at 2.
  apply randomIndex_floor_of.
Qed.

Lemma randomElement_floor_of {A : Type} (arr : list A) (u : sample) (a : A) :
  randomElement arr u = Some a ->
  exists i : nat,
    floor_of u (Z.of_nat (length arr)) (Z.of_nat i) /\ arr !! i = Some a.
Proof.
  unfold randomElement. rewrite arr_get_Some. intros [H0 Ha].
  exists (Z.to_nat (randomIndex (Z.of_nat (length arr)) u)).
  split; [|done]. rewrite Z2Nat.id by done. apply randomIndex_floor_of.
Qed.

Lemma randomElement_fraction {A : Type} (arr : list A) (i : nat) (a : A) :
  arr !! i = Some a ->
  randomElement arr (fraction (Z.of_nat i) (Z.of_nat (length arr))) = Some a.
Proof.
  intros Hi. pose proof (lookup_lt_Some _ _ _ Hi) as Hlt.
  unfold randomElement. rewrite randomIndex_fraction by lia. by rewrite arr_get_nat.
Qed.

(** ** The rejection loop, turn by turn *)

Lemma turn_is_Some random (forest : list Plot.Tree) oF gF (d m : nat) :
  forest <> [] -> is_Some (turn random forest oF gF d m).
Proof.
  intros Hne. unfold turn, candidate.
  destruct (randomElement_is_Some forest (random (d + 2 * m)%nat) Hne) as [t Ht].
  unfold randomElement in Ht. rewrite Ht. by eexists.
Qed.

Lemma first_acceptance random (forest : list Plot.Tree) oF gF (d fuel : nat) :
  forest <> [] ->
  (exists n, (n < fuel)%nat
     /\ (forall m, (m < n)%nat -> turn random forest oF gF d m = Some false)
     /\ turn random forest oF gF d n = Some true)
  \/ (forall m, (m < fuel)%nat -> turn random forest oF gF d m = Some false).
Proof.
  intros Hne. induction fuel as [|fuel IH]; [right; lia|].
  destruct IH as [(n & Hn & Hrej & Hacc)|Hall].
  - left. exists n. split; [lia|done].
  - destruct (turn_is_Some random forest oF gF d fuel Hne) as [[|] Hb].
    + left. exists fuel. split; [lia|done].
    + right. intros m Hm. destruct (decide (m = fuel)) as [->|]; [done|].
      apply Hall. lia.
Qed.

(** A replacement of the competition program, on a plot that has trees,
    either returns, with the clock advanced by one, after as many rejected
    candidates as there are turns before the first that accepts; or is
    still turning when every turn so far has rejected its candidate. *)
Lemma coex_replaceTree_outcome random (fuel : nat) (g : Coexist.Globals) :
  Coexist.theForest g <> [] ->
  (exists g' n,
     Coexist.replaceTree random fuel g = Coexist.Returns g'
     /\ Coexist.stepCount g' = Coexist.stepCount g + 1
     /\ (n < fuel)%nat
     /\ (forall m, (m < n)%nat ->
           turn random (Coexist.theForest g) (Coexist.oliveFactor g)
             (Coexist.orangeFactor g) (S (Coexist.draws g)) m = Some false)
     /\ turn random (Coexist.theForest g) (Coexist.oliveFactor g)
          (Coexist.orangeFactor g) (S (Coexist.draws g)) n = Some true
     /\ Coexist.draws g' = (Coexist.draws g + 3 + 2 * n)%nat)
  \/ (Coexist.replaceTree random fuel g = Coexist.Spins
      /\ forall m, (m < fuel)%nat ->
           turn random (Coexist.theForest g) (Coexist.oliveFactor g)
             (Coexist.orangeFactor g) (S (Coexist.draws g)) m = Some false).
Proof.
  intros Hne.
  destruct (first_acceptance random (Coexist.theForest g) (Coexist.oliveFactor g)
              (Coexist.orangeFactor g) (S (Coexist.draws g)) fuel Hne)
    as [(n & Hn & Hrej & Hacc)|Hall].
  - left.
    assert (Harr : Coexist.arrival random fuel (Coexist.theForest g)
                     (Coexist.oliveFactor g) (Coexist.orangeFactor g)
                     (S (Coexist.draws g))
                   = Coexist.Returns
                       (candidate random (Coexist.theForest g) (S (Coexist.draws g)) n,
                        (S (Coexist.draws g) + 2 * n + 2)%nat)).
    { apply arrival_Returns. exists n. done. }
    destruct (coex_replaceTree_total random fuel g _ _ Harr) as [g' Hg'].
    destruct (coex_replaceTree_Returns random fuel g g' Hg')
      as (i & dt & at_ & Harr' & _ & _ & _ & _ & Hclock & _).
    rewrite Harr in Harr'. injection Harr' as _ Hd.
    exists g', n. split; [done|]. split; [done|]. split; [done|].
    split; [done|]. split; [done|]. lia.
  - right. split; [|done]. apply coex_replaceTree_Spins. by apply arrival_Spins.
Qed.

(** ** Whole-number layouts *)

(** When the side divides half the canvas, the half-spacing of the disks
    is a whole number. *)
Lemma half_spacing_whole (s q : Z) :
  0 < s -> 250 = q * s ->
  (Plot.canvasSize / (inject_Z s * 2) == inject_Z q)%Q.
Proof.
  intros Hs Hq.
  assert (Hs0 : ~ (inject_Z s * 2 == 0)%Q).
  { intros H0. assert (Hlt : (inject_Z 0 < inject_Z s)%Q) by (by rewrite <- Zlt_Qlt).
    change (inject_Z 0) with 0%Q in Hlt. lra. }
  assert (H500 : (Plot.canvasSize == inject_Z q * (inject_Z s * 2))%Q).
  { change Plot.canvasSize with (inject_Z 250 * 2)%Q.
    rewrite Hq, inject_Z_mult. ring. }
  rewrite H500. by apply Qdiv_mult_l.
Qed.

(** ** Counting the values below a bias *)

Lemma flip_below (b : Q) (u : sample) :
  Coexist.flipBiasedCoin (Coexist.Fin b) u = true <-> (sample_Q u < b)%Q.
Proof.
  unfold Coexist.flipBiasedCoin.
  destruct (Qlt_le_dec (sample_Q u) b) as [Hlt|Hle]; [done|].
  split; [done|]. intros Hlt. exfalso. by apply (Qle_not_lt _ _ Hle).
Qed.

Lemma heads_below random (b : Q) (d n : nat) :
  heads random (Coexist.Fin b) d n = below_count random b d n.
Proof.
  unfold heads, below_count. f_equal. f_equal.
  apply list_filter_iff. intros i. apply flip_below.
Qed.

Lemma heads_PosInf random (d n : nat) : heads random Coexist.PosInf d n = Z.of_nat n.
Proof.
  revert d. induction n as [|n IH]; intros d; [done|].
  rewrite heads_S, IH. cbn [Coexist.flipBiasedCoin]. lia.
Qed.

Lemma heads_not_finite random bias (d n : nat) :
  bias = Coexist.NegInf \/ bias = Coexist.NotANumber -> heads random bias d n = 0.
Proof.
  intros Hb. revert d. induction n as [|n IH]; intros d; [done|].
  rewrite heads_S, IH. by destruct Hb as [->| ->].
Qed.

(** ** The programs on small inputs *)

Example modAdd_wraps_left : Socialdx.modAdd 0 (-1) 5 = 4.
Proof. reflexivity. Qed.

Example modAdd_wraps_right : Socialdx.modAdd 4 1 5 = 0.
Proof. reflexivity. Qed.

Example modAdd_scan_wraps : Socialdx.modAdd 23 4 25 = 2.
Proof. reflexivity. Qed.

(** The neighbours of the corner cell of a grid of side 5, in the order of
    [listNeighbors]. *)
Example neighborIndices_corner :
  Socialdx.neighborIndices 0 0 5 = [24; 4; 9; 20; 0; 5; 21; 1; 6].
Proof. reflexivity. Qed.

Example randomIndex_middle : randomIndex 625 {| s_num := 1; s_gap := 0 |} = 312.
Proof. reflexivity. Qed.

Example randomElement_empty : randomElement ([] : list string) (shuffled 0) = None.
Proof. reflexivity. Qed.

(** [undefined - 1] is [NaN]: decrementing the census at the key of [null]
    creates a property that no species reads. *)
Example decr_null :
  decr {[ "oak" := Num 3 ]} (to_key Null) = {[ "oak" := Num 3; "null" := NaN ]}.
Proof. by vm_compute. Qed.

(** The five colour maps of [socialdx.js] have species sets for keys. *)
Lemma colour_maps_species_sets :
  Forall (fun colorMap : list (string * string) => species_set (colorMap.*1))
    [ Socialdx.treeColorMap12; Socialdx.treeColorMap10; Socialdx.treeColorMap9;
      Socialdx.treeColorMap8; Socialdx.treeColorMap4 ].
Proof.
  repeat (constructor; [apply (bool_decide_unpack _); by vm_compute|]).
  constructor.
Qed.

(** A species named after the key of [null], or after an inherited
    property, is not ordinary: such names are outside the species sets. *)
Example null_not_ordinary : ~ species_set ["oak"; "null"].
Proof. apply (bool_decide_unpack _). by vm_compute. Qed.

(** The first replacement of the social-distancing model on a grid of side
    5 over ten species, under the stream [shuffled]: the tree of index 6 (a
    hickory) departs; the scan starts at index 15 and passes over a beech, a
    chestnut, a hickory and an oak, all present around index 6, before it
    finds the aspen of index 19. *)
Example socialdx_first_replacement :
  let g := Socialdx.build shuffled 5 Socialdx.treeColorMap10 500 Socialdx.declared in
  sdx_departing shuffled g = 6
  /\ sdx_start shuffled g = 15
  /\ hood 5 (sdx_cells g) 6
     = [Str "elm"; Str "chestnut"; Str "oak"; Str "hemlock"; Str "hickory";
        Str "elm"; Str "pine"; Str "beech"; Str "birch"]
  /\ (fun i => sdx_cells g !! i) <$> [15; 16; 17; 18; 19]%nat
     = [Some (Str "beech"); Some (Str "chestnut"); Some (Str "hickory");
        Some (Str "oak"); Some (Str "aspen")]
  /\ (fun g' => sdx_cells g' !! 6%nat) <$> Socialdx.replaceTree shuffled g
     = Some (Some (Str "aspen")).
Proof. by vm_compute. Qed.

(** One step of plain drift as described, on 25 cells over the species A
    and B: the cell of index 0 holds B, the cell of index 12 holds A, and
    the census goes from 13 A and 12 B to 14 A and 11 B. *)
Example plain_drift_step :
  let forest :=
    imap (fun i (_ : unit) =>
            Plot.mkTree (Z.of_nat (i mod 5)) (Z.of_nat (i / 5)) 0 0 0
              (Str (if decide (Nat.odd i \/ i = 12%nat) then "A" else "B")) 0)
         (replicate 25 ()) in
  let g := {| Ecodrift.stepCount := 0; Ecodrift.theForest := forest;
              Ecodrift.theCensus := {[ "A" := Num 13; "B" := Num 12 ]};
              Ecodrift.draws := 0 |} in
  let random := fun n : nat =>
    match n with
    | O => {| s_num := 0; s_gap := 0 |}
    | _ => {| s_num := 12; s_gap := 12 |}
    end in
  population (Str "A") (drift_cells g) = 13
  /\ population (Str "B") (drift_cells g) = 12
  /\ (fun g' => (Ecodrift.theCensus g', Ecodrift.stepCount g',
                 population (Str "A") (drift_cells g')))
     <$> Ecodrift.replaceTree random g
     = Some ({[ "A" := Num 14; "B" := Num 11 ]}, 1, 14).
Proof. by vm_compute. Qed.

(* ===================================================================== *)
(** * Part IV.  The claims                                                  *)
(* ===================================================================== *)

(** C1.  In every variant the census balances after any number of
    replacements from a freshly constructed grid of [s * s] cells: the sum
    of the census counts of the species plus the number of vacant cells is
    [s * s].  The states are those reached from the construction by
    replacements (and batches, and the controls), so every replacement
    preserves the sum.  In the drift, immigration and competition variants
    no cell is ever vacant.  (For plain drift the rule is the one written
    from its description.) *)
Theorem census_balance (random : nat -> sample) (s : Z)
    (colorMap : list (string * string)) :
  (forall g, imm_reachable random s g ->
     balanced Immigration.treeNames (Immigration.theCensus g) (imm_cells g) (s * s)
     /\ vacancies (imm_cells g) = 0)
  /\ (forall g, coex_reachable random s g ->
        balanced Coexist.treeNames (Coexist.theCensus g) (coex_cells g) (s * s)
        /\ vacancies (coex_cells g) = 0)
  /\ (species_set (colorMap.*1) -> 0 < s ->
      forall g, sdx_reachable random s colorMap g ->
        balanced (colorMap.*1) (Socialdx.census (Socialdx.theForest g))
          (sdx_cells g) (s * s))
  /\ (species_set (colorMap.*1) ->
      forall g, drift_reachable random (colorMap.*1) s g ->
        balanced (colorMap.*1) (Ecodrift.theCensus g) (drift_cells g) (s * s)
        /\ vacancies (drift_cells g) = 0).
Proof.
  split; [|split; [|split]].
  - intros g Hg. destruct (imm_reachable_inv random s g Hg) as (Hlen & Hpop & Hacc).
    split; [|by eapply populated_no_vacancy].
    apply accurate_balanced; [apply imm_treeNames_NoDup| |done|].
    + by apply populated_settled.
    + unfold imm_cells. by rewrite length_fmap.
  - intros g Hg. destruct (coex_reachable_inv random s g Hg) as (Hlen & Hpop & Hacc & _).
    split; [|by eapply populated_no_vacancy].
    apply accurate_balanced; [apply coex_treeNames_NoDup| |done|].
    + by apply populated_settled.
    + unfold coex_cells. by rewrite length_fmap.
  - intros Hnames Hs g Hg.
    destruct (sdx_reachable_inv random s colorMap g Hnames Hs Hg)
      as (_ & _ & _ & [Hlen _] & Hset & Hacc).
    apply accurate_balanced; [by apply species_set_NoDup|done|done|].
    unfold sdx_cells. by rewrite length_fmap.
  - intros Hnames g Hg.
    destruct (drift_reachable_inv random (colorMap.*1) s g
                (species_set_nonempty _ Hnames) Hg) as (Hlen & Hpop & Hacc).
    split; [|by eapply populated_no_vacancy].
    apply accurate_balanced; [by apply species_set_NoDup| |done|].
    + by apply populated_settled.
    + unfold drift_cells. by rewrite length_fmap.
Qed.

(** A forest of side 3 over four species, after one replacement: the
    departing cell is vacant, and the census still balances. *)
Lemma census_balance_witness :
  species_set (Socialdx.treeColorMap4.*1) /\ 0 < 3
  /\ match Socialdx.replaceTree shuffled
             (Socialdx.build shuffled 3 Socialdx.treeColorMap4 500 Socialdx.declared) with
     | Some g =>
         balanced (Socialdx.treeColorMap4.*1) (Socialdx.census (Socialdx.theForest g))
           (sdx_cells g) (3 * 3)
         /\ vacancies (sdx_cells g) = 1
     | None => False
     end.
Proof.
  assert (H : species_set (Socialdx.treeColorMap4.*1)).
  { apply (bool_decide_unpack _). vm_compute. exact I. }
  split; [exact H|]. split; [lia|].
  destruct (Socialdx.replaceTree shuffled _) as [g|] eqn:E.
  - split.
    + apply (proj1 (proj2 (proj2 (census_balance shuffled 3 Socialdx.treeColorMap4)))
               H ltac:(lia)).
      eapply sdx_replaced; [apply sdx_built | exact E].
    + vm_compute in E. injection E as <-. vm_compute. reflexivity.
  - vm_compute in E. discriminate E.
Defined.

(** C2.  Neighbour exclusion.  In every replacement of the social-distancing
    model, on a grid of side [s]: the departing cell [d] and the index
    [start] the scan begins at are indices of the linear array of cells,
    each the integer part of the product of a random value (the first and
    the second the replacement reads) and the number of cells, and every
    index of the array is where the scan starts for some random value; the
    species [v] the cell [d] receives is the species of the first cell, in
    the circular order [start], [start + 1], ... that wraps at the array
    boundary, whose species is not vacant and not among the species of the
    nine cells of the neighbourhood of [d] as they are before the departure,
    or it is [null] when there is no such cell.  Consequently, when a
    species arrives, none of the eight toroidal neighbours of [d] holds it at
    the moment of the replacement. *)
Theorem neighbour_exclusion (random : nat -> sample) (s : Z)
    (colorMap : list (string * string)) (g g' : Socialdx.Globals) :
  species_set (colorMap.*1) -> 0 < s ->
  sdx_reachable random s colorMap g ->
  Socialdx.replaceTree random g = Some g' ->
  let cells := sdx_cells g in
  let d := sdx_departing random g in
  let start := sdx_start random g in
  0 <= d < s * s
  /\ 0 <= start < s * s
  /\ floor_of (random (Socialdx.draws g)) (s * s) d
  /\ floor_of (random (S (Socialdx.draws g))) (s * s) start
  /\ (forall i, 0 <= i < s * s ->
        exists u, floor_of u (s * s) i
          /\ forall random', random' (S (Socialdx.draws g)) = u ->
               sdx_start random' g = i)
  /\ exists v,
       sdx_cells g' = <[Z.to_nat d := v]> cells
       /\ first_eligible s cells d start v
       /\ (v <> Null ->
           (v ∉ hood s cells d)
           /\ forall n, n ∈ torus_ring s d -> arr_get cells n <> Some v).
Proof.
  intros Hnames Hs Hreach Hstep. cbv zeta.
  pose proof (sdx_reachable_inv random s colorMap g Hnames Hs Hreach) as Hinv.
  destruct (sdx_step random s colorMap g g' Hnames Hs Hinv Hstep)
    as (Hd & Hstart & old & v & _ & Hcells & Hfirst & _).
  destruct Hinv as (_ & HN & _ & [Hlen _] & _).
  split; [done|]. split; [done|].
  split; [rewrite <- Hlen; apply randomIndex_floor_of|].
  split; [rewrite <- HN; apply randomIndex_floor_of|].
  split.
  { intros i Hi. exists (fraction i (s * s)).
    split; [by apply floor_of_fraction|].
    intros random' Hu. unfold sdx_start. rewrite Hu, HN.
    by apply randomIndex_fraction. }
  exists v. split; [done|]. split; [done|].
  intros Hv.
  assert (Hhood : v ∉ hood s (sdx_cells g) (sdx_departing random g)).
  { destruct Hfirst as [[-> _]|(j & _ & _ & [_ Hout] & _)]; done. }
  split; [done|]. intros n Hn Hcell. apply Hhood.
  unfold hood. apply list_elem_of_omap. exists n.
  split; [by apply torus_ring_block | done].
Qed.

(** The first replacement in a forest of side 5 over ten species: a species
    arrives in the cell of index 6; the scan starts at index 15, the
    integer part of 25 times 64/101. *)
Lemma neighbour_exclusion_witness :
  let g := Socialdx.build shuffled 5 Socialdx.treeColorMap10 500 Socialdx.declared in
  species_set (Socialdx.treeColorMap10.*1) /\ 0 < 5
  /\ match Socialdx.replaceTree shuffled g with
     | Some g' =>
         floor_of (shuffled (S (Socialdx.draws g))) (5 * 5) (sdx_start shuffled g)
         /\ sdx_start shuffled g = 15
         /\ exists v,
           sdx_cells g' = <[Z.to_nat (sdx_departing shuffled g) := v]> (sdx_cells g)
           /\ first_eligible 5 (sdx_cells g) (sdx_departing shuffled g)
                (sdx_start shuffled g) v
           /\ (v <> Null ->
               (v ∉ hood 5 (sdx_cells g) (sdx_departing shuffled g))
               /\ forall n, n ∈ torus_ring 5 (sdx_departing shuffled g) ->
                    arr_get (sdx_cells g) n <> Some v)
     | None => False
     end.
Proof.
  intros g.
  assert (H : species_set (Socialdx.treeColorMap10.*1)).
  { apply (bool_decide_unpack _). vm_compute. exact I. }
  split; [exact H|]. split; [lia|].
  destruct (Socialdx.replaceTree shuffled g) as [g'|] eqn:E.
  - destruct (neighbour_exclusion shuffled 5 Socialdx.treeColorMap10 g g' H
                ltac:(lia) (sdx_built _ _ _ _ _) E)
      as (_ & _ & _ & Hfloor & _ & Hv).
    split; [exact Hfloor|]. split; [vm_compute; reflexivity|]. exact Hv.
  - vm_compute in E. discriminate E.
Defined.

(** C3.  An exhausted scan is not an error.  On a grid of positive side,
    whenever the scan of the [s * s] cells finds no cell that can give its
    species to the departing site, the replacement returns: the departing
    cell becomes vacant, the other cells are untouched, the census changes
    by the single update [census[old] -= 1] for the species [old] the cell
    held (so the count of that species goes down by one and no count goes
    up), and the clock advances.  On the grid of side 3, whose every
    neighbourhood is the whole grid, this is what every replacement does,
    whatever the number of species. *)
Theorem exhausted_scan_vacates (random : nat -> sample) (s : Z)
    (colorMap : list (string * string)) (g : Socialdx.Globals) :
  species_set (colorMap.*1) -> 0 < s ->
  sdx_reachable random s colorMap g ->
  none_before s (sdx_cells g) (sdx_departing random g) (sdx_start random g) (s * s)
  \/ s = 3 ->
  exists g' old,
    Socialdx.replaceTree random g = Some g'
    /\ sdx_cells g !! Z.to_nat (sdx_departing random g) = Some old
    /\ sdx_cells g' = <[Z.to_nat (sdx_departing random g) := Null]> (sdx_cells g)
    /\ Socialdx.census (Socialdx.theForest g')
       = decr (Socialdx.census (Socialdx.theForest g)) (to_key old)
    /\ (forall k, k ∈ colorMap.*1 ->
          Socialdx.census (Socialdx.theForest g') !! k
          = Some (Num (population (Str k) (sdx_cells g) - one_if (Str k) old)))
    /\ Socialdx.stepCount g' = Socialdx.stepCount g + 1.
Proof.
  intros Hnames Hs Hreach Hnone.
  pose proof (sdx_reachable_inv random s colorMap g Hnames Hs Hreach) as Hinv.
  destruct (sdx_replaceTree_total random s colorMap g Hs Hinv) as [g' Hstep].
  destruct (sdx_step random s colorMap g g' Hnames Hs Hinv Hstep)
    as (Hd & Hstart & old & v & Hold & Hcells & Hfirst & Hcensus & Hclock).
  pose proof Hinv as (_ & _ & _ & [Hlen _] & Hset & Hacc).
  assert (Hnone' : none_before s (sdx_cells g) (sdx_departing random g)
                     (sdx_start random g) (s * s)).
  { destruct Hnone as [Hnone| ->]; [done|].
    intros j Hj.
    assert (Hi : 0 <= (sdx_start random g + j) mod (3 * 3) < 3 * 3)
      by (apply Z.mod_pos_bound; lia).
    destruct (arr_get_in_range (sdx_cells g) ((sdx_start random g + j) mod (3 * 3)))
      as [w Hw].
    { unfold sdx_cells. rewrite length_fmap. lia. }
    exists w. split; [done|]. intros [_ Hout]. apply Hout.
    unfold hood. apply list_elem_of_omap.
    exists ((sdx_start random g + j) mod (3 * 3)). split; [|done].
    apply torus_block_3; lia. }
  assert (v = Null) as ->.
  { destruct Hfirst as [[-> _]|(j & Hj & Hcell & Helig & _)]; [done|].
    destruct (Hnone' j Hj) as (w & Hw & Hnot). congruence. }
  exists g', old. rewrite decide_True in Hcensus by done.
  split; [done|]. split; [done|]. split; [done|]. split; [done|]. split; [|done].
  intros k Hk. rewrite Hcensus.
  eapply accurate_decr; [|exact Hk|exact Hacc].
  by eapply settled_key_safe.
Qed.

(** Every replacement in a forest of side 3 over exactly two species
    leaves its cell vacant. *)
Lemma exhausted_scan_vacates_witness :
  let colorMap := [("olive", "#808000"); ("orange", "#FFA500")] in
  let g := Socialdx.build shuffled 3 colorMap 500 Socialdx.declared in
  species_set (colorMap.*1) /\ 0 < 3
  /\ exists g' old,
       Socialdx.replaceTree shuffled g = Some g'
       /\ sdx_cells g !! Z.to_nat (sdx_departing shuffled g) = Some old
       /\ sdx_cells g' = <[Z.to_nat (sdx_departing shuffled g) := Null]> (sdx_cells g)
       /\ Socialdx.census (Socialdx.theForest g')
          = decr (Socialdx.census (Socialdx.theForest g)) (to_key old)
       /\ (forall k, k ∈ colorMap.*1 ->
             Socialdx.census (Socialdx.theForest g') !! k
             = Some (Num (population (Str k) (sdx_cells g) - one_if (Str k) old)))
       /\ Socialdx.stepCount g' = Socialdx.stepCount g + 1.
Proof.
  intros colorMap g.
  assert (H : species_set (colorMap.*1)).
  { apply (bool_decide_unpack _). vm_compute. exact I. }
  split; [exact H|]. split; [lia|].
  apply (exhausted_scan_vacates shuffled 3 colorMap g H ltac:(lia)).
  - apply sdx_built.
  - right. reflexivity.
Defined.

(** C4, as the program has it.  At the end of a batch of the competition
    program at which one of the two species has a census count of zero:
    when the step count is not a multiple of 500000, the state becomes
    [done], the timer is cleared, the button is disabled and shows "Done",
    the start/stop handler leaves everything as it is, and a reset leads
    back to [idle] with the button enabled; when the step count is a
    multiple of 500000, the step ceiling has precedence: the state becomes
    [paused], the timer is cleared, and the start/stop handler resumes the
    run. *)
Theorem extinction_ends_run (random : nat -> sample) (fuel : nat)
    (g g' : Coexist.Globals) :
  Coexist.runBatch random fuel g = Coexist.Returns g' ->
  is_zero (get (Coexist.theCensus g') "olive") = true
  \/ is_zero (get (Coexist.theCensus g') "orange") = true ->
  (Z.rem (Coexist.stepCount g') 500000 <> 0 ->
   Coexist.state g' = Coexist.done
   /\ Coexist.timer g' = false
   /\ Coexist.buttonDisabled g' = true
   /\ Coexist.startStopButton g' = "Done"
   /\ Coexist.doStartStop g' = g'
   /\ Coexist.state (Coexist.doReset random g') = Coexist.idle
   /\ Coexist.buttonDisabled (Coexist.doReset random g') = false)
  /\ (Z.rem (Coexist.stepCount g') 500000 = 0 ->
      Coexist.state g' = Coexist.paused
      /\ Coexist.timer g' = false
      /\ Coexist.state (Coexist.doStartStop g') = Coexist.running).
Proof.
  intros Hbatch Hextinct.
  destruct (coex_runBatch_Returns random fuel g g' Hbatch) as (g1 & Hg1 & ->).
  destruct (coex_batchEnd_fields (Coexist.show_stepCount g1)) as [Hclock Hcensus].
  rewrite Hclock. rewrite Hcensus in Hextinct.
  set (g2 := Coexist.show_stepCount g1) in *.
  assert (Hfin : Coexist.finished g2 = true).
  { unfold Coexist.finished. destruct Hextinct as [-> | ->];
      [by rewrite orb_true_r | by rewrite !orb_true_r]. }
  unfold Coexist.batchEnd. rewrite Hfin. split.
  - intros Hrem. rewrite (proj2 (Z.eqb_neq _ _) Hrem).
    split; [done|]. split; [done|]. split; [done|]. split; [done|]. split; [done|].
    unfold Coexist.doReset, Coexist.init, Coexist.build.
    by destruct (Plot.createForest _ _ _ _ _) as [[? ?] ?].
  - intros Hrem. rewrite (proj2 (Z.eqb_eq _ _) Hrem).
    split; [done|]. split; done.
Qed.

(** A batch that starts at step 0 with a single olive tree left, and loses
    it: the run is over. *)
Lemma extinction_ends_run_witness :
  match Coexist.runBatch steady 1 (last_olive 0) with
  | Coexist.Returns g' =>
      is_zero (get (Coexist.theCensus g') "olive") = true
      /\ Z.rem (Coexist.stepCount g') 500000 <> 0
      /\ Coexist.state g' = Coexist.done
      /\ Coexist.doStartStop g' = g'
  | _ => False
  end.
Proof.
  assert (E : batch_summary (Coexist.runBatch steady 1 (last_olive 0))
              = Some (Num 0, 40, Coexist.done)) by (vm_compute; reflexivity).
  destruct (Coexist.runBatch steady 1 (last_olive 0)) as [g'| |] eqn:Hbatch;
    [|discriminate E|discriminate E].
  injection E as Holive Hclock _.
  assert (Hzero : is_zero (get (Coexist.theCensus g') "olive") = true)
    by (by rewrite Holive).
  assert (Hrem : Z.rem (Coexist.stepCount g') 500000 <> 0)
    by (by rewrite Hclock).
  destruct (extinction_ends_run steady 1 (last_olive 0) g' Hbatch (or_introl Hzero))
    as [Hdone _].
  destruct (Hdone Hrem) as (Hstate & _ & _ & _ & Hstay & _).
  split; [exact Hzero|]. split; [exact Hrem|]. split; [exact Hstate | exact Hstay].
Defined.

(** C4 as stated fails at the step ceiling.  A batch of the running
    competition program that starts at step 499960 with a single olive tree
    left, and loses it, ends at step 500000 with no olive tree in the
    census: the state is then [paused], not [done]. *)
Lemma extinction_at_ceiling_pauses :
  Coexist.state (last_olive 499960) = Coexist.running
  /\ exists g',
       Coexist.runBatch steady 1 (last_olive 499960) = Coexist.Returns g'
       /\ get (Coexist.theCensus g') "olive" = Num 0
       /\ Coexist.stepCount g' = 500000
       /\ Coexist.state g' = Coexist.paused
       /\ Coexist.state g' <> Coexist.done.
Proof.
  split; [reflexivity|].
  assert (E : batch_summary (Coexist.runBatch steady 1 (last_olive 499960))
              = Some (Num 0, 500000, Coexist.paused)) by (vm_compute; reflexivity).
  destruct (Coexist.runBatch steady 1 (last_olive 499960)) as [g'| |];
    [|discriminate E|discriminate E].
  injection E as Holive Hclock Hstate.
  exists g'. split; [reflexivity|]. split; [exact Holive|]. split; [exact Hclock|].
  split; [exact Hstate|]. rewrite Hstate. discriminate.
Qed.

(** C5.  The immigration rule.  In every replacement of the immigration
    program, with a non-zero interval [k]: when the clock value read before
    its increment is divisible by [k], the arriving species is the element
    of the full list of species whose index is the integer part of the
    product of the random value and the number of species, and every
    species of the list arrives for some random value; otherwise it is the
    current species of the tree of the forest whose index is the integer
    part of the product of the random value and the number of trees, and
    the species of every tree arrives for some random value.  With
    [k = 1] every replacement is an immigration.  (The replacement returns
    whenever the forest has a tree.) *)
Theorem immigration_rule (random : nat -> sample) (g : Immigration.Globals) (k : Z) :
  Immigration.immigrationInterval g = Num k -> k <> 0 ->
  Immigration.theForest g <> [] ->
  exists g' arriving,
    Immigration.replaceTree random g = Some g'
    /\ Immigration.arrivingSpecies g (imm_second random g) = Some arriving
    /\ imm_cells g' !! Z.to_nat (imm_departing random g) = Some arriving
    /\ ((k | Immigration.stepCount g) ->
        exists (i : nat) name,
          floor_of (imm_second random g)
            (Z.of_nat (length Immigration.treeNames)) (Z.of_nat i)
          /\ Immigration.treeNames !! i = Some name
          /\ name ∈ Immigration.treeNames
          /\ randomElement Immigration.treeNames (imm_second random g) = Some name
          /\ arriving = Str name)
    /\ (~ (k | Immigration.stepCount g) ->
        exists (i : nat) t,
          floor_of (imm_second random g)
            (Z.of_nat (length (Immigration.theForest g))) (Z.of_nat i)
          /\ Immigration.theForest g !! i = Some t
          /\ randomElement (Immigration.theForest g) (imm_second random g) = Some t
          /\ arriving = Plot.species t)
    /\ (k = 1 ->
        exists name, name ∈ Immigration.treeNames
          /\ randomElement Immigration.treeNames (imm_second random g) = Some name
          /\ arriving = Str name)
    /\ ((k | Immigration.stepCount g) ->
        forall name, name ∈ Immigration.treeNames ->
          exists u, Immigration.arrivingSpecies g u = Some (Str name))
    /\ (~ (k | Immigration.stepCount g) ->
        forall t, t ∈ Immigration.theForest g ->
          exists u, Immigration.arrivingSpecies g u = Some (Plot.species t)).
Proof.
  intros Hk Hpos Hne.
  destruct (imm_replaceTree_total random g Hne) as [g' Hg'].
  destruct (imm_replaceTree_arrival random g g' Hg') as (arr & Harr & Hcell & _).
  exists g', arr. split; [done|]. split; [done|]. split; [done|].
  assert (Himm : (k | Immigration.stepCount g) ->
            exists (i : nat) name,
              floor_of (imm_second random g)
                (Z.of_nat (length Immigration.treeNames)) (Z.of_nat i)
              /\ Immigration.treeNames !! i = Some name
              /\ name ∈ Immigration.treeNames
              /\ randomElement Immigration.treeNames (imm_second random g) = Some name
              /\ arr = Str name).
  { intros Hdiv. unfold Immigration.arrivingSpecies in Harr.
    rewrite Hk, (proj2 (rem_is_zero_divide _ k Hpos) Hdiv) in Harr.
    destruct (randomElement_is_Some Immigration.treeNames (imm_second random g)
                imm_treeNames_nonempty) as [name Hname].
    destruct (randomElement_floor_of _ _ _ Hname) as (i & Hfloor & Hi).
    exists i, name. split; [done|]. split; [done|].
    split; [by eapply randomElement_elem_of|]. split; [done|].
    rewrite Hname in Harr. by injection Harr as <-. }
  split; [done|]. split; [|split; [|split]].
  - intros Hndiv. unfold Immigration.arrivingSpecies in Harr. rewrite Hk in Harr.
    destruct (rem_is_zero (Immigration.stepCount g) (Num k)) eqn:E.
    + by apply rem_is_zero_divide in E.
    + destruct (randomElement (Immigration.theForest g) (imm_second random g))
        as [t|] eqn:Ht; [|done].
      injection Harr as <-.
      destruct (randomElement_floor_of _ _ _ Ht) as (i & Hfloor & Hi).
      by exists i, t.
  - intros ->. destruct (Himm (Z.divide_1_l _)) as (i & name & _ & _ & Hin & Hname & ->).
    by exists name.
  - intros Hdiv name Hin. apply list_elem_of_lookup_1 in Hin as [i Hi].
    exists (fraction (Z.of_nat i) (Z.of_nat (length Immigration.treeNames))).
    unfold Immigration.arrivingSpecies.
    rewrite Hk, (proj2 (rem_is_zero_divide _ k Hpos) Hdiv).
    by rewrite (randomElement_fraction _ _ _ Hi).
  - intros Hndiv t Hin. apply list_elem_of_lookup_1 in Hin as [i Hi].
    exists (fraction (Z.of_nat i) (Z.of_nat (length (Immigration.theForest g)))).
    unfold Immigration.arrivingSpecies. rewrite Hk.
    destruct (rem_is_zero (Immigration.stepCount g) (Num k)) eqn:E.
    + by apply rem_is_zero_divide in E.
    + by rewrite (randomElement_fraction _ _ _ Hi).
Qed.

(** The first two replacements after loading, with the default interval
    100, on a plot of nine trees: the first, at step 0, is an immigration;
    the second, at step 1, takes the species of a tree of the forest. *)
Lemma immigration_rule_witness :
  let g := Immigration.build shuffled 3 Immigration.declared in
  match Immigration.replaceTree shuffled g with
  | Some g1 =>
      (Immigration.immigrationInterval g = Num 100 /\ 100 <> 0
       /\ Immigration.theForest g <> []
       /\ (100 | Immigration.stepCount g)
       /\ exists (i : nat) name,
            floor_of (imm_second shuffled g)
              (Z.of_nat (length Immigration.treeNames)) (Z.of_nat i)
            /\ Immigration.treeNames !! i = Some name
            /\ imm_cells g1 !! Z.to_nat (imm_departing shuffled g) = Some (Str name))
      /\ (Immigration.immigrationInterval g1 = Num 100
          /\ Immigration.theForest g1 <> []
          /\ ~ (100 | Immigration.stepCount g1)
          /\ exists g2 (i : nat) t,
               Immigration.replaceTree shuffled g1 = Some g2
               /\ floor_of (imm_second shuffled g1)
                    (Z.of_nat (length (Immigration.theForest g1))) (Z.of_nat i)
               /\ Immigration.theForest g1 !! i = Some t
               /\ imm_cells g2 !! Z.to_nat (imm_departing shuffled g1)
                  = Some (Plot.species t))
  | None => False
  end.
Proof.
  intros g.
  assert (H : Immigration.theForest g <> []) by (vm_compute; discriminate).
  assert (Hdiv : (100 | Immigration.stepCount g)) by (exists 0; reflexivity).
  assert (E1 : (fun g1 => (Immigration.immigrationInterval g1,
                           Immigration.stepCount g1,
                           length (Immigration.theForest g1)))
                 <$> Immigration.replaceTree shuffled g
               = Some (Num 100, 1, 9%nat)) by (vm_compute; reflexivity).
  destruct (immigration_rule shuffled g 100 eq_refl ltac:(lia) H)
    as (g1 & arr & Hg1 & _ & Hcell & Himm & _).
  rewrite Hg1 in E1 |- *. injection E1 as Hk1 Hstep1 Hlen1.
  destruct (Himm Hdiv) as (i & name & Hfloor & Hi & _ & _ & ->).
  split.
  - split; [reflexivity|]. split; [lia|]. split; [exact H|]. split; [exact Hdiv|].
    exists i, name. split; [exact Hfloor|]. split; [exact Hi | exact Hcell].
  - assert (H1 : Immigration.theForest g1 <> [])
      by (intros Hnil; rewrite Hnil in Hlen1; discriminate Hlen1).
    assert (Hndiv : ~ (100 | Immigration.stepCount g1))
      by (rewrite Hstep1; intros [x Hx]; lia).
    split; [exact Hk1|]. split; [exact H1|]. split; [exact Hndiv|].
    destruct (immigration_rule shuffled g1 100 Hk1 ltac:(lia) H1)
      as (g2 & arr2 & Hg2 & _ & Hcell2 & _ & Hloc & _).
    destruct (Hloc Hndiv) as (j & t & Hfloor2 & Hj & _ & ->).
    exists g2, j, t. split; [exact Hg2|]. split; [exact Hfloor2|].
    split; [exact Hj | exact Hcell2].
Defined.

(** C6.  Pressure factors and the rejection loop.  In every replacement of
    the competition program on a plot that has trees: the factor of each
    species is its resource capacity divided by the sum of its own count
    and of the poaching coefficient times the other species' count, the
    counts being those of the census as it stands when the replacement
    starts (which are the numbers of olive and of orange trees).  Each turn
    of the loop draws a candidate and a fresh random real, and accepts the
    candidate exactly when the real is below the factor of the candidate's
    species: the replacement returns with the species of the first
    candidate accepted, after rejecting all the candidates before it; it
    returns whenever some turn accepts; and as long as every turn rejects,
    the loop goes on. *)
Theorem pressure_and_rejection (random : nat -> sample) (s : Z)
    (g : Coexist.Globals) :
  coex_reachable random s g -> s <> 0 ->
  Coexist.oliveFactor g
  = Coexist.Fin (pressure (Coexist.iron g) (census_count g "olive")
                   (census_count g "orange") (Coexist.poachingCoef g))
  /\ Coexist.orangeFactor g
     = Coexist.Fin (pressure (Coexist.calcium g) (census_count g "orange")
                      (census_count g "olive") (Coexist.poachingCoef g))
  /\ census_count g "olive" = population (Str "olive") (coex_cells g)
  /\ census_count g "orange" = population (Str "orange") (coex_cells g)
  /\ (forall m, accepted random g m -> ~ rejected random g m)
  /\ (forall fuel g', Coexist.replaceTree random fuel g = Coexist.Returns g' ->
        exists n t, (n < fuel)%nat
          /\ (forall m, (m < n)%nat -> rejected random g m)
          /\ accepted random g n
          /\ arr_get (Coexist.theForest g)
               (candidate random (Coexist.theForest g) (S (Coexist.draws g)) n) = Some t
          /\ coex_cells g'
             = <[Z.to_nat (coex_departing random g) := Plot.species t]> (coex_cells g)
          /\ Coexist.draws g' = (Coexist.draws g + 3 + 2 * n)%nat)
  /\ (forall fuel n, (n < fuel)%nat ->
        (forall m, (m < n)%nat -> rejected random g m) ->
        accepted random g n ->
        exists g', Coexist.replaceTree random fuel g = Coexist.Returns g')
  /\ (forall fuel, (forall m, (m < fuel)%nat -> rejected random g m) ->
        Coexist.replaceTree random fuel g = Coexist.Spins).
Proof.
  intros Hreach Hs.
  pose proof (coex_reachable_inv random s g Hreach) as Hinv.
  destruct (coex_factors s g Hinv Hs) as [Ho Hg].
  destruct (coex_census s g Hinv) as (Hco & Hcg & _).
  split; [done|]. split; [done|].
  split; [unfold census_count; by rewrite Hco|].
  split; [unfold census_count; by rewrite Hcg|].
  split; [|split; [|split]].
  - intros m (t & q & Ht & Hq & Hlt) (t' & q' & Ht' & Hq' & Hnlt).
    apply Hnlt. congruence.
  - intros fuel g' Hstep.
    destruct (coex_replaceTree_Returns random fuel g g' Hstep)
      as (i & dt & at_ & Harr & Hdt & Hat & Hforest & _).
    apply arrival_Returns in Harr as (n & Hn & Hrej & Hacc & -> & Hd).
    exists n, at_. split; [done|]. split; [|split; [|split; [done|split]]].
    + intros m Hm. apply (turn_rejected random s g m Hinv Hs). by apply Hrej.
    + by apply (turn_accepted random s g n Hinv Hs).
    + unfold coex_cells. by rewrite Hforest, list_fmap_insert.
    + lia.
  - intros fuel n Hn Hrej Hacc.
    eapply coex_replaceTree_total. apply arrival_Returns. exists n.
    split; [done|]. split; [|split; [|done]].
    + intros m Hm. apply (turn_rejected random s g m Hinv Hs). by apply Hrej.
    + by apply (turn_accepted random s g n Hinv Hs).
  - intros fuel Hrej. apply coex_replaceTree_Spins, arrival_Spins.
    intros m Hm. apply (turn_rejected random s g m Hinv Hs). by apply Hrej.
Qed.

(** The first replacement of the loaded competition program, under the
    stream [shuffled]: three candidates are rejected, the fourth is
    accepted. *)
Lemma pressure_and_rejection_witness :
  let g := Coexist.loaded shuffled in
  coex_reachable shuffled 25 g /\ 25 <> 0
  /\ match Coexist.replaceTree shuffled 10 g with
     | Coexist.Returns g' =>
         exists n t, (n < 10)%nat
           /\ (forall m, (m < n)%nat -> rejected shuffled g m)
           /\ accepted shuffled g n
           /\ arr_get (Coexist.theForest g)
                (candidate shuffled (Coexist.theForest g) (S (Coexist.draws g)) n)
              = Some t
           /\ coex_cells g'
              = <[Z.to_nat (coex_departing shuffled g) := Plot.species t]> (coex_cells g)
           /\ Coexist.draws g' = (Coexist.draws g + 3 + 2 * n)%nat
     | _ => False
     end.
Proof.
  intros g.
  assert (Hreach : coex_reachable shuffled 25 g).
  { apply (coex_built shuffled 25 Coexist.declared). reflexivity. }
  assert (Hs : 25 <> 0) by lia.
  split; [exact Hreach|]. split; [exact Hs|].
  destruct (Coexist.replaceTree shuffled 10 g) as [g'| |] eqn:E.
  - exact (proj1 (proj2 (proj2 (proj2 (proj2 (proj2
             (pressure_and_rejection shuffled 25 g Hreach Hs)))))) 10%nat g' E).
  - vm_compute in E. discriminate E.
  - vm_compute in E. discriminate E.
Defined.

(** C7.  The clock.  Every replacement that is carried out advances
    [stepCount] by exactly one, in every variant.  In the immigration
    program (and in plain drift as described) a replacement returns whenever
    the forest has a tree, so [B] replacements in a row advance the clock by
    exactly [B], and a batch by exactly [batchSize].  In the competition
    program, on a plot that has trees, a replacement returns as soon as a
    turn of its loop accepts a candidate: it has then used [2 * n] more
    random values than one that accepts at once, [n] being the number of
    candidates rejected, and it has advanced the clock by one; as long as
    every turn rejects, the loop goes on and the clock stands.  In the
    social-distancing model every replacement on a grid the model reaches
    returns, with the clock advanced by one. *)
Theorem clock_advances (random : nat -> sample) :
  (forall g, Immigration.theForest g <> [] ->
     (exists g', Immigration.replaceTree random g = Some g'
        /\ Immigration.stepCount g' = Immigration.stepCount g + 1)
     /\ (forall B, exists g', Immigration.replaceTrees random B g = Some g'
           /\ Immigration.stepCount g' = Immigration.stepCount g + Z.of_nat B)
     /\ (exists g', Immigration.runBatch random g = Some g'
           /\ Immigration.stepCount g'
              = Immigration.stepCount g + Z.of_nat Immigration.batchSize))
  /\ (forall fuel g g', Coexist.replaceTree random fuel g = Coexist.Returns g' ->
        Coexist.stepCount g' = Coexist.stepCount g + 1
        /\ exists n, (n < fuel)%nat
             /\ (forall m, (m < n)%nat ->
                   turn random (Coexist.theForest g) (Coexist.oliveFactor g)
                     (Coexist.orangeFactor g) (S (Coexist.draws g)) m = Some false)
             /\ turn random (Coexist.theForest g) (Coexist.oliveFactor g)
                  (Coexist.orangeFactor g) (S (Coexist.draws g)) n = Some true
             /\ Coexist.draws g' = (Coexist.draws g + 3 + 2 * n)%nat)
  /\ (forall fuel g, Coexist.theForest g <> [] ->
        (exists g' n,
           Coexist.replaceTree random fuel g = Coexist.Returns g'
           /\ Coexist.stepCount g' = Coexist.stepCount g + 1
           /\ (n < fuel)%nat
           /\ (forall m, (m < n)%nat ->
                 turn random (Coexist.theForest g) (Coexist.oliveFactor g)
                   (Coexist.orangeFactor g) (S (Coexist.draws g)) m = Some false)
           /\ turn random (Coexist.theForest g) (Coexist.oliveFactor g)
                (Coexist.orangeFactor g) (S (Coexist.draws g)) n = Some true
           /\ Coexist.draws g' = (Coexist.draws g + 3 + 2 * n)%nat)
        \/ (Coexist.replaceTree random fuel g = Coexist.Spins
            /\ forall m, (m < fuel)%nat ->
                 turn random (Coexist.theForest g) (Coexist.oliveFactor g)
                   (Coexist.orangeFactor g) (S (Coexist.draws g)) m = Some false))
  /\ (forall g g', Socialdx.replaceTree random g = Some g' ->
        Socialdx.stepCount g' = Socialdx.stepCount g + 1)
  /\ (forall s colorMap g,
        species_set (colorMap.*1) -> 0 < s -> sdx_reachable random s colorMap g ->
        exists g', Socialdx.replaceTree random g = Some g'
          /\ Socialdx.stepCount g' = Socialdx.stepCount g + 1)
  /\ (forall B g, Ecodrift.theForest g <> [] ->
        exists g', Ecodrift.runBatch random B g = Some g'
          /\ Ecodrift.stepCount g' = Ecodrift.stepCount g + Z.of_nat B).
Proof.
  split; [|split; [|split; [|split; [|split]]]].
  - intros g Hne. split; [|split].
    + destruct (imm_replaceTree_total random g Hne) as [g' Hg']. exists g'.
      split; [done|].
      by destruct (imm_replaceTree_Some random g g' Hg') as (_ & _ & _ & _ & _ & _ & ? & _).
    + intros B. destruct (imm_replaceTrees_total random B g Hne) as (g' & ? & ? & _).
      eauto.
    + destruct (imm_replaceTrees_total random Immigration.batchSize g Hne)
        as (g1 & Hg1 & Hclock & _).
      unfold Immigration.runBatch. rewrite Hg1. cbn [mbind option_bind].
      eexists. split; [done|]. rewrite <- Hclock.
      case_match; [|done]. unfold Immigration.doStartStop.
      by destruct (Immigration.state (Immigration.show_stepCount g1)).
  - intros fuel g g' Hstep.
    destruct (coex_replaceTree_Returns random fuel g g' Hstep)
      as (i & dt & at_ & Harr & _ & _ & _ & _ & Hclock & _).
    split; [done|].
    apply arrival_Returns in Harr as (n & Hn & Hrej & Hacc & _ & Hd).
    exists n. split; [done|]. split; [done|]. split; [done|]. lia.
  - intros fuel g Hne. by apply coex_replaceTree_outcome.
  - intros g g' Hstep.
    by destruct (sdx_replaceTree_Some random g g' Hstep)
      as (_ & _ & _ & _ & _ & _ & _ & _ & _ & _ & _ & ? & _).
  - intros s colorMap g Hnames Hs Hreach.
    pose proof (sdx_reachable_inv random s colorMap g Hnames Hs Hreach) as Hinv.
    destruct (sdx_replaceTree_total random s colorMap g Hs Hinv) as [g' Hg'].
    exists g'. split; [done|].
    by destruct (sdx_replaceTree_Some random g g' Hg')
      as (_ & _ & _ & _ & _ & _ & _ & _ & _ & _ & _ & ? & _).
  - intros B g Hne. destruct (drift_runBatch_total random B g Hne) as (g' & ? & ? & _).
    eauto.
Qed.

(** A batch of the immigration program on a forest of nine trees: forty
    replacements.  A replacement of the competition program on a plot of
    nine trees, with the slider at 0: the first candidate is rejected, the
    second accepted, and the clock advances by one.  The first replacement
    of the social-distancing model on a grid of side 5. *)
Lemma clock_advances_witness :
  let g := Immigration.build shuffled 3 Immigration.declared in
  let c := Coexist.adjustResources 0 (Coexist.build shuffled 3 Coexist.declared) in
  let x := Socialdx.build shuffled 5 Socialdx.treeColorMap10 500 Socialdx.declared in
  (Immigration.theForest g <> []
   /\ exists g', Immigration.runBatch shuffled g = Some g'
        /\ Immigration.stepCount g' = Immigration.stepCount g + 40)
  /\ (Coexist.theForest c <> []
      /\ exists c', Coexist.replaceTree shuffled 10 c = Coexist.Returns c'
           /\ Coexist.stepCount c' = Coexist.stepCount c + 1
           /\ Coexist.draws c' = (Coexist.draws c + 3 + 2 * 1)%nat)
  /\ (species_set (Socialdx.treeColorMap10.*1) /\ 0 < 5
      /\ exists x', Socialdx.replaceTree shuffled x = Some x'
           /\ Socialdx.stepCount x' = Socialdx.stepCount x + 1).
Proof.
  intros g c x.
  assert (H : Immigration.theForest g <> []) by (vm_compute; discriminate).
  assert (Hc : Coexist.theForest c <> []) by (vm_compute; discriminate).
  assert (Hx : species_set (Socialdx.treeColorMap10.*1)).
  { apply (bool_decide_unpack _). vm_compute. exact I. }
  split; [|split].
  - split; [exact H|].
    exact (proj2 (proj2 (proj1 (clock_advances shuffled) g H))).
  - split; [exact Hc|].
    destruct (proj1 (proj2 (proj2 (clock_advances shuffled))) 10%nat c Hc)
      as [(c' & n & Hc' & Hclock & Hn & Hrej & Hacc & Hd)|[Hspin _]].
    + exists c'. split; [exact Hc'|]. split; [exact Hclock|].
      assert (E : Coexist.draws <$> (match Coexist.replaceTree shuffled 10 c with
                                     | Coexist.Returns a => Some a
                                     | _ => None
                                     end) = Some 14%nat) by (vm_compute; reflexivity).
      rewrite Hc' in E. injection E as E. rewrite E. vm_compute. reflexivity.
    + assert (E : match Coexist.replaceTree shuffled 10 c with
                  | Coexist.Spins => true
                  | _ => false
                  end = false) by (vm_compute; reflexivity).
      rewrite Hspin in E. discriminate E.
  - split; [exact Hx|]. split; [lia|].
    exact (proj1 (proj2 (proj2 (proj2 (proj2 (clock_advances shuffled)))))
             5 Socialdx.treeColorMap10 x Hx ltac:(lia) (sdx_built _ _ _ _ _)).
Defined.

(** C8.  Grid construction, for every side length [s]: it produces exactly
    [s * s] cells; every cell holds a species of the species set; the census
    returned maps every species of the set to the number of cells that hold
    it; hence the counts add up to [s * s] and no cell is vacant.  This holds
    of [createForest] with the ten names of [immigration.js], of
    [createForest] with the two names of the competition program, and of the
    constructor of [Forest] of [socialdx.js] for every colour map whose keys
    form a species set. *)
Theorem grid_construction (random : nat -> sample) (s : Z)
    (colorMap : list (string * string)) (canvasSize : Q) (stepCount : Z)
    (draws : nat) :
  (let forest := (Plot.createForest random Immigration.treeNames s stepCount draws).1.1 in
   let census := (Plot.createForest random Immigration.treeNames s stepCount draws).1.2 in
   Z.of_nat (length forest) = s * s
   /\ populated Immigration.treeNames (Plot.species <$> forest)
   /\ accurate Immigration.treeNames census (Plot.species <$> forest)
   /\ balanced Immigration.treeNames census (Plot.species <$> forest) (s * s)
   /\ vacancies (Plot.species <$> forest) = 0)
  /\ (let forest := (Plot.createForest random Coexist.treeNames s stepCount draws).1.1 in
      let census := (Plot.createForest random Coexist.treeNames s stepCount draws).1.2 in
      Z.of_nat (length forest) = s * s
      /\ populated Coexist.treeNames (Plot.species <$> forest)
      /\ accurate Coexist.treeNames census (Plot.species <$> forest)
      /\ balanced Coexist.treeNames census (Plot.species <$> forest) (s * s)
      /\ vacancies (Plot.species <$> forest) = 0)
  /\ (species_set (colorMap.*1) ->
      let f := (Socialdx.newForest random s colorMap canvasSize stepCount draws).1 in
      Z.of_nat (length (Socialdx.trees f)) = s * s
      /\ Socialdx.N f = s * s
      /\ populated (colorMap.*1) (Socialdx.species <$> Socialdx.trees f)
      /\ accurate (colorMap.*1) (Socialdx.census f) (Socialdx.species <$> Socialdx.trees f)
      /\ balanced (colorMap.*1) (Socialdx.census f)
           (Socialdx.species <$> Socialdx.trees f) (s * s)
      /\ vacancies (Socialdx.species <$> Socialdx.trees f) = 0).
Proof.
  cbv zeta. split; [|split].
  - destruct (Plot.createForest random Immigration.treeNames s stepCount draws)
      as [[forest census] d] eqn:E. cbn [fst snd].
    apply (createForest_spec _ _ imm_treeNames_nonempty) in E as (Hlen & Hpop & Hacc).
    split; [done|]. split; [done|]. split; [done|]. split.
    + apply accurate_balanced; [apply imm_treeNames_NoDup| |done|].
      * by apply populated_settled.
      * by rewrite length_fmap.
    + by eapply populated_no_vacancy.
  - destruct (Plot.createForest random Coexist.treeNames s stepCount draws)
      as [[forest census] d] eqn:E. cbn [fst snd].
    apply (createForest_spec _ _ coex_treeNames_nonempty) in E as (Hlen & Hpop & Hacc).
    split; [done|]. split; [done|]. split; [done|]. split.
    + apply accurate_balanced; [apply coex_treeNames_NoDup| |done|].
      * by apply populated_settled.
      * by rewrite length_fmap.
    + by eapply populated_no_vacancy.
  - intros Hnames.
    destruct (sdx_newForest_counts random s colorMap canvasSize stepCount draws
                (species_set_nonempty _ Hnames)) as (Hlen & HN & _ & Hpop & Hacc).
    split; [done|]. split; [done|]. split; [done|]. split; [done|]. split.
    + apply accurate_balanced; [by apply species_set_NoDup| |done|].
      * by apply populated_settled.
      * by rewrite length_fmap.
    + by eapply populated_no_vacancy.
Qed.

(** The colour map of ten species is a species set, and a forest of side 3
    built from it has nine cells, all of them counted. *)
Lemma grid_construction_witness :
  species_set (Socialdx.treeColorMap10.*1)
  /\ let f := (Socialdx.newForest shuffled 3 Socialdx.treeColorMap10 500 0 0).1 in
     Z.of_nat (length (Socialdx.trees f)) = 3 * 3
     /\ balanced (Socialdx.treeColorMap10.*1) (Socialdx.census f)
          (Socialdx.species <$> Socialdx.trees f) (3 * 3).
Proof.
  assert (H : species_set (Socialdx.treeColorMap10.*1)).
  { apply (bool_decide_unpack _). vm_compute. exact I. }
  split; [exact H|].
  pose proof (proj2 (proj2 (grid_construction shuffled 3 Socialdx.treeColorMap10
                              500 0 0)) H)
    as (Hlen & _ & _ & _ & Hbal & _).
  split; [exact Hlen | exact Hbal].
Defined.

(** C9.  The first replacement immigrates.  Once the immigration program is
    loaded, or reset, the clock is at zero; whatever non-zero interval is
    configured (every interval of the slider's table is non-zero, and so is
    the default), the first replacement returns and its arriving species is
    the element of the full list of species that the random value selects,
    not the species of a tree of the forest. *)
Theorem first_step_immigrates (random : nat -> sample)
    (g g0 : Immigration.Globals) (k : Z) :
  g0 = Immigration.loaded random \/ g0 = Immigration.doReset random g ->
  Immigration.immigrationInterval g0 = Num k -> k <> 0 ->
  Immigration.stepCount g0 = 0
  /\ Forall (fun k' => k' <> 0) (100 :: Immigration.immigrationIntervalList)
  /\ exists g' name,
       Immigration.replaceTree random g0 = Some g'
       /\ name ∈ Immigration.treeNames
       /\ randomElement Immigration.treeNames (imm_second random g0) = Some name
       /\ Immigration.arrivingSpecies g0 (imm_second random g0) = Some (Str name)
       /\ imm_cells g' !! Z.to_nat (imm_departing random g0) = Some (Str name).
Proof.
  intros Hg0 Hk Hnz.
  assert (Hbuilt : exists g1, g0 = Immigration.build random 25 g1
                     /\ Immigration.stepCount g1 = 0).
  { destruct Hg0 as [-> | ->]; eexists; (split; [reflexivity | done]). }
  destruct Hbuilt as (g1 & -> & Hzero).
  assert (Hclock : Immigration.stepCount (Immigration.build random 25 g1) = 0).
  { unfold Immigration.build. by destruct (Plot.createForest _ _ _ _ _) as [[? ?] ?]. }
  assert (Hne : Immigration.theForest (Immigration.build random 25 g1) <> []).
  { destruct (imm_build_inv random 25 g1) as (Hlen & _).
    intros E. rewrite E in Hlen. done. }
  split; [done|]. split.
  { repeat (constructor; [done|]). constructor. }
  destruct (imm_replaceTree_total random _ Hne) as [g' Hg'].
  destruct (imm_replaceTree_arrival random _ g' Hg') as (arr & Harr & Hcell & _).
  destruct (randomElement_is_Some Immigration.treeNames
              (imm_second random (Immigration.build random 25 g1))
              imm_treeNames_nonempty) as [name Hname].
  assert (arr = Str name) as ->.
  { unfold Immigration.arrivingSpecies in Harr.
    rewrite Hk, Hclock in Harr.
    rewrite (proj2 (rem_is_zero_divide 0 k Hnz) (Z.divide_0_r k)) in Harr.
    rewrite Hname in Harr. by injection Harr as <-. }
  exists g', name. split; [done|]. split; [by eapply randomElement_elem_of|].
  done.
Qed.

(** The first replacement after a reset of the loaded program, the interval
    being the default one. *)
Lemma first_step_immigrates_witness :
  let g := Immigration.loaded shuffled in
  let g0 := Immigration.doReset shuffled g in
  Immigration.immigrationInterval g0 = Num 100 /\ 100 <> 0
  /\ Immigration.stepCount g0 = 0
  /\ exists g' name,
       Immigration.replaceTree shuffled g0 = Some g'
       /\ Immigration.arrivingSpecies g0 (imm_second shuffled g0) = Some (Str name).
Proof.
  intros g g0.
  assert (Hk : Immigration.immigrationInterval g0 = Num 100).
  { unfold g0, g, Immigration.doReset, Immigration.loaded, Immigration.init,
      Immigration.build.
    repeat destruct (Plot.createForest _ _ _ _ _) as [[? ?] ?]. reflexivity. }
  assert (Hnz : 100 <> 0) by lia.
  split; [exact Hk|]. split; [exact Hnz|].
  destruct (first_step_immigrates shuffled g g0 100 (or_intror eq_refl) Hk Hnz)
    as (Hclock & _ & g' & name & Hg' & _ & _ & Harr & _).
  split; [exact Hclock|]. exists g', name. split; [exact Hg' | exact Harr].
Defined.

(** C10.  A vacant departing cell.  Every replacement of the
    social-distancing model keeps the census accurate: before and after it,
    the census maps every species of the set to the number of cells that
    hold it, whether the departing cell was vacant or not.  When the
    departing cell is vacant, the decrement lands on the key ["null"], which
    is not a species: no count of a species goes down, and the count of the
    arriving species (if one arrives) goes up by one. *)
Theorem vacant_departure_keeps_census (random : nat -> sample) (s : Z)
    (colorMap : list (string * string)) (g g' : Socialdx.Globals) :
  species_set (colorMap.*1) -> 0 < s ->
  sdx_reachable random s colorMap g ->
  Socialdx.replaceTree random g = Some g' ->
  accurate (colorMap.*1) (Socialdx.census (Socialdx.theForest g)) (sdx_cells g)
  /\ accurate (colorMap.*1) (Socialdx.census (Socialdx.theForest g')) (sdx_cells g')
  /\ (sdx_cells g !! Z.to_nat (sdx_departing random g) = Some Null ->
      ("null" ∉ colorMap.*1)
      /\ exists v,
           sdx_cells g' = <[Z.to_nat (sdx_departing random g) := v]> (sdx_cells g)
           /\ Socialdx.census (Socialdx.theForest g')
              = (if decide (v = Null)
                 then decr (Socialdx.census (Socialdx.theForest g)) "null"
                 else incr (decr (Socialdx.census (Socialdx.theForest g)) "null")
                        (to_key v))
           /\ forall k, k ∈ colorMap.*1 ->
                Socialdx.census (Socialdx.theForest g') !! k
                = Some (Num (population (Str k) (sdx_cells g) + one_if (Str k) v))).
Proof.
  intros Hnames Hs Hreach Hstep.
  pose proof (sdx_reachable_inv random s colorMap g Hnames Hs Hreach) as Hinv.
  pose proof (sdx_replaceTree_inv random s colorMap g g' Hnames Hinv Hstep) as Hinv'.
  pose proof Hinv as (_ & _ & _ & _ & Hset & Hacc).
  pose proof Hinv' as (_ & _ & _ & _ & _ & Hacc').
  split; [done|]. split; [done|]. intros Hvacant.
  assert (Hnull : "null" ∉ colorMap.*1).
  { intros Hin. by destruct (species_set_ordinary _ _ Hnames Hin) as (_ & ? & _). }
  split; [done|].
  destruct (sdx_step random s colorMap g g' Hnames Hs Hinv Hstep)
    as (_ & _ & old & v & Hold & Hcells & _ & Hcensus & _).
  assert (old = Null) as -> by congruence. cbn [to_key] in Hcensus.
  exists v. split; [done|]. split; [done|].
  intros k Hk. rewrite (Hacc' k Hk), Hcells.
  rewrite (population_insert _ _ _ _ _ Hold). do 2 f_equal.
  unfold one_if at 1. rewrite decide_False by done. lia.
Qed.

(** In a forest of side 3 over four species, the fifth replacement picks
    the cell of index 3, which the first one left vacant. *)
Lemma vacant_departure_keeps_census_witness :
  let colorMap := Socialdx.treeColorMap4 in
  let g0 := Socialdx.build shuffled 3 colorMap 500 Socialdx.declared in
  species_set (colorMap.*1) /\ 0 < 3
  /\ match Socialdx.replaceTrees shuffled 4 g0 with
     | Some g =>
         match Socialdx.replaceTree shuffled g with
         | Some g' =>
             sdx_cells g !! Z.to_nat (sdx_departing shuffled g) = Some Null
             /\ accurate (colorMap.*1) (Socialdx.census (Socialdx.theForest g'))
                  (sdx_cells g')
             /\ forall k, k ∈ colorMap.*1 ->
                  exists v,
                    Socialdx.census (Socialdx.theForest g') !! k
                    = Some (Num (population (Str k) (sdx_cells g) + one_if (Str k) v))
         | None => False
         end
     | None => False
     end.
Proof.
  intros colorMap g0.
  assert (H : species_set (colorMap.*1)).
  { apply (bool_decide_unpack _). vm_compute. exact I. }
  split; [exact H|]. split; [lia|].
  destruct (Socialdx.replaceTrees shuffled 4 g0) as [g|] eqn:E;
    [|vm_compute in E; discriminate E].
  destruct (Socialdx.replaceTree shuffled g) as [g'|] eqn:E';
    [|vm_compute in E; injection E as <-; vm_compute in E'; discriminate E'].
  assert (Hreach : sdx_reachable shuffled 3 colorMap g).
  { eapply sdx_replaceTrees_reachable; [apply sdx_built | exact E]. }
  assert (Hvacant : sdx_cells g !! Z.to_nat (sdx_departing shuffled g) = Some Null).
  { vm_compute in E. injection E as <-. vm_compute. reflexivity. }
  destruct (vacant_departure_keeps_census shuffled 3 colorMap g g' H ltac:(lia)
              Hreach E') as (_ & Hacc' & Hnull).
  split; [exact Hvacant|]. split; [exact Hacc'|].
  destruct (Hnull Hvacant) as (_ & v & _ & _ & Hk).
  intros k Hin. exists v. by apply Hk.
Defined.

(* ===================================================================== *)
(** * Part V.  Further properties of the programs                          *)
(* ===================================================================== *)

(** ** Choosing at random *)

(** [randomElement] on an array: the index it computes is an index of the
    array, and the result is the element there; the result is [undefined]
    only for the empty array.  Every element of the array is the result
    for some value of [Math.random()]. *)
Theorem randomElement_selects {A : Type} (arr : list A) :
  (forall u,
     match randomElement arr u with
     | Some a =>
         exists i : nat, (i < length arr)%nat
           /\ randomIndex (Z.of_nat (length arr)) u = Z.of_nat i
           /\ arr !! i = Some a
     | None => arr = []
     end)
  /\ (forall (i : nat) a, arr !! i = Some a ->
        randomElement arr {| s_num := i; s_gap := length arr - S i |} = Some a).
Proof.
  split.
  - intros u. destruct (randomElement arr u) as [a|] eqn:E.
    + unfold randomElement in E. apply arr_get_Some in E as [H0 Hl].
      exists (Z.to_nat (randomIndex (Z.of_nat (length arr)) u)).
      split; [by eapply lookup_lt_Some|]. split; [lia|done].
    + destruct arr as [|a arr]; [done|].
      destruct (randomElement_is_Some (a :: arr) u) as [b Hb]; [done|].
      congruence.
  - intros i a Hi. pose proof (lookup_lt_Some _ _ _ Hi) as Hlt.
    unfold randomElement. rewrite randomIndex_unfold. cbn [s_num s_gap].
    replace (Z.pos (Pos.of_succ_nat (i + (length arr - S i))))
      with (Z.of_nat (length arr)) by lia.
    rewrite Z.div_mul by lia. by rewrite arr_get_nat.
Qed.

(** ** The layout of a forest *)

(** [createForest(s)], for a positive [s], when [d] random values have
    been used: it makes [s * s] trees and uses one random value for each.
    The tree of index [j] sits in column [j mod s] of row [j / s]; its disk
    is centred at [(2 R col + R, 2 R row + R)] and has the radius [R - 1],
    where [R = canvasSize / (2 s)]; its birthdate is the step count; its
    species is the one the random value of index [d + j] selects. *)
Theorem createForest_layout (random : nat -> sample) (names : list string)
    (s stepCount : Z) (d : nat) :
  0 < s ->
  let R := (Plot.canvasSize / (inject_Z s * 2))%Q in
  let forest := (Plot.createForest random names s stepCount d).1.1 in
  length forest = Z.to_nat (s * s)
  /\ (Plot.createForest random names s stepCount d).2 = (d + Z.to_nat (s * s))%nat
  /\ forall (j : nat) t, forest !! j = Some t ->
       plot_site s R stepCount j t
       /\ 0 <= Plot.col t < s /\ 0 <= Plot.row t < s
       /\ Plot.species t = of_option (randomElement names (random (d + j)%nat)).
Proof.
  intros Hs R forest.
  split; [apply createForest_length|]. split; [by apply createForest_draws|].
  intros j t Hj.
  pose proof (createForest_laid random names s Hs stepCount d j t Hj) as Hsite.
  pose proof (lookup_lt_Some _ _ _ Hj) as Hlt.
  unfold forest in Hlt. rewrite createForest_length in Hlt.
  split; [exact Hsite|].
  destruct Hsite as (Hcol & Hrow & _).
  split; [rewrite Hcol; apply Z.mod_pos_bound; lia|].
  split; [|by eapply createForest_drawn].
  rewrite Hrow. split; [apply Z.div_pos; lia|].
  apply Z.div_lt_upper_bound; lia.
Qed.

(** The plot of 25 trees per row that [init()] makes. *)
Lemma createForest_layout_witness :
  0 < 25
  /\ let R := (Plot.canvasSize / (inject_Z 25 * 2))%Q in
     let forest := (Plot.createForest shuffled Immigration.treeNames 25 0 0).1.1 in
     length forest = Z.to_nat (25 * 25)
     /\ (Plot.createForest shuffled Immigration.treeNames 25 0 0).2
        = (0 + Z.to_nat (25 * 25))%nat
     /\ forall (j : nat) t, forest !! j = Some t ->
          plot_site 25 R 0 j t
          /\ 0 <= Plot.col t < 25 /\ 0 <= Plot.row t < 25
          /\ Plot.species t
             = of_option (randomElement Immigration.treeNames (shuffled (0 + j)%nat)).
Proof.
  split; [lia|].
  apply (createForest_layout shuffled Immigration.treeNames 25 0 0). lia.
Defined.

(** The disks of the trees of [createForest(s)], for a side [s] that
    divides 250, as the 25 of the page does.  The half-spacing [R] of the
    centres is then the whole number [250 / s], and the coordinates of
    every centre are whole numbers not above 500, so that the numbers the
    program computes are exact.  The spacing [2 R] of the centres divides
    the canvas into [s] columns and [s] rows; every centre is at least [R]
    away from the edges of the canvas, and the radius is smaller than [R]
    and not negative, so that a disk lies within the canvas; and the
    centres of two trees are at least [2 R] apart along one of the axes, so
    that no two disks overlap. *)
Theorem disks_on_canvas (random : nat -> sample) (names : list string)
    (s stepCount : Z) (d : nat) :
  0 < s -> (s | 250) ->
  let R := (Plot.canvasSize / (inject_Z s * 2))%Q in
  let forest := (Plot.createForest random names s stepCount d).1.1 in
  (R == inject_Z (250 / s))%Q
  /\ (0 < R)%Q
  /\ (2 * R * inject_Z s == Plot.canvasSize)%Q
  /\ (forall (j : nat) t, forest !! j = Some t ->
        (Plot.r t < R)%Q
        /\ (0 <= Plot.r t)%Q
        /\ (R <= Plot.x t <= Plot.canvasSize - R)%Q
        /\ (R <= Plot.y t <= Plot.canvasSize - R)%Q
        /\ (Plot.x t == inject_Z (2 * (250 / s) * Plot.col t + 250 / s))%Q
        /\ (Plot.y t == inject_Z (2 * (250 / s) * Plot.row t + 250 / s))%Q)
  /\ (forall (j j' : nat) t t', j <> j' ->
        forest !! j = Some t -> forest !! j' = Some t' ->
        (2 * R <= Plot.x t - Plot.x t')%Q \/ (2 * R <= Plot.x t' - Plot.x t)%Q
        \/ (2 * R <= Plot.y t - Plot.y t')%Q \/ (2 * R <= Plot.y t' - Plot.y t)%Q).
Proof.
  intros Hs [q Hq] R forest.
  assert (Hqs : 250 / s = q) by (rewrite Hq; apply Z.div_mul; lia).
  assert (Hq1 : 1 <= q) by nia.
  assert (HRq : (R == inject_Z q)%Q) by (by apply half_spacing_whole).
  assert (HC : (0 < Plot.canvasSize)%Q) by done.
  destruct (half_spacing Plot.canvasSize s Hs HC) as [HR HRs]. fold R in HR, HRs.
  assert (H1 : (1 <= R)%Q).
  { rewrite HRq. change 1%Q with (inject_Z 1). by rewrite <- Zle_Qle. }
  assert (Hsite : forall (j : nat) t, forest !! j = Some t ->
            plot_site s R stepCount j t /\ (j < Z.to_nat (s * s))%nat).
  { intros j t Hj. split; [by apply (createForest_laid random names s Hs stepCount d)|].
    apply lookup_lt_Some in Hj. unfold forest in Hj.
    by rewrite createForest_length in Hj. }
  rewrite Hqs.
  split; [exact HRq|]. split; [exact HR|]. split; [exact HRs|]. split.
  - intros j t Hj. destruct (Hsite j t Hj) as [(Hcol & Hrow & Hx & Hy & Hr & _) Hlt].
    assert (Hc : 0 <= Plot.col t < s) by (rewrite Hcol; apply Z.mod_pos_bound; lia).
    assert (Hrw : 0 <= Plot.row t < s).
    { rewrite Hrow. split; [apply Z.div_pos; lia|].
      apply Z.div_lt_upper_bound; lia. }
    pose proof (centre_inside Plot.canvasSize s (Plot.col t) Hs HC Hc) as Hcx.
    pose proof (centre_inside Plot.canvasSize s (Plot.row t) Hs HC Hrw) as Hcy.
    cbv zeta in Hcx, Hcy. fold R in Hcx, Hcy.
    split; [rewrite Hr; lra|]. split; [rewrite Hr; lra|].
    split; [rewrite Hx; exact Hcx|]. split; [rewrite Hy; exact Hcy|].
    split.
    + rewrite Hx, HRq, inject_Z_plus, !inject_Z_mult. reflexivity.
    + rewrite Hy, HRq, inject_Z_plus, !inject_Z_mult. reflexivity.
  - intros j j' t t' Hne Hj Hj'.
    destruct (Hsite j t Hj) as [(Hcol & Hrow & Hx & Hy & _) Hlt].
    destruct (Hsite j' t' Hj') as [(Hcol' & Hrow' & Hx' & Hy' & _) Hlt'].
    assert (Hdiff : Plot.col t <> Plot.col t' \/ Plot.row t <> Plot.row t').
    { destruct (decide (Plot.col t = Plot.col t')) as [Hc|]; [|by left]. right.
      intros Hr. apply Hne.
      pose proof (Z.div_mod (Z.of_nat j) s). pose proof (Z.div_mod (Z.of_nat j') s).
      rewrite Hcol, Hcol' in Hc. rewrite Hrow, Hrow' in Hr. nia. }
    assert (Hgap : forall a b : Z, a < b ->
              (2 * R <= (2 * R * inject_Z b + R) - (2 * R * inject_Z a + R))%Q).
    { intros a b Hab.
      assert (Hq' : (inject_Z (a + 1) <= inject_Z b)%Q) by (rewrite <- Zle_Qle; lia).
      rewrite inject_Z_plus in Hq'. change (inject_Z 1) with 1%Q in Hq'.
      assert (H2 : (0 <= R * (inject_Z b - inject_Z a - 1))%Q)
        by (apply Qmult_le_0_compat; lra).
      lra. }
    rewrite Hx, Hx', Hy, Hy'.
    destruct Hdiff as [Hd|Hd].
    + destruct (Z.lt_total (Plot.col t) (Plot.col t')) as [Hl|[He|Hl]]; [|done|].
      * right; left. by apply Hgap.
      * left. by apply Hgap.
    + destruct (Z.lt_total (Plot.row t) (Plot.row t')) as [Hl|[He|Hl]]; [|done|].
      * right; right; right. by apply Hgap.
      * right; right; left. by apply Hgap.
Qed.

(** The disks of the plot of 25 trees per row: the half-spacing is 10. *)
Lemma disks_on_canvas_witness :
  0 < 25 /\ (25 | 250)
  /\ let R := (Plot.canvasSize / (inject_Z 25 * 2))%Q in
     let forest := (Plot.createForest shuffled Coexist.treeNames 25 0 0).1.1 in
     (R == inject_Z (250 / 25))%Q
     /\ (0 < R)%Q
     /\ (2 * R * inject_Z 25 == Plot.canvasSize)%Q
     /\ (forall (j : nat) t, forest !! j = Some t ->
           (Plot.r t < R)%Q
           /\ (0 <= Plot.r t)%Q
           /\ (R <= Plot.x t <= Plot.canvasSize - R)%Q
           /\ (R <= Plot.y t <= Plot.canvasSize - R)%Q
           /\ (Plot.x t == inject_Z (2 * (250 / 25) * Plot.col t + 250 / 25))%Q
           /\ (Plot.y t == inject_Z (2 * (250 / 25) * Plot.row t + 250 / 25))%Q)
     /\ (forall (j j' : nat) t t', j <> j' ->
           forest !! j = Some t -> forest !! j' = Some t' ->
           (2 * R <= Plot.x t - Plot.x t')%Q \/ (2 * R <= Plot.x t' - Plot.x t)%Q
           \/ (2 * R <= Plot.y t - Plot.y t')%Q \/ (2 * R <= Plot.y t' - Plot.y t)%Q).
Proof.
  assert (Hdiv : (25 | 250)) by (exists 10; reflexivity).
  split; [lia|]. split; [exact Hdiv|].
  apply (disks_on_canvas shuffled Coexist.treeNames 25 0 0); [lia | exact Hdiv].
Defined.

(** The constructor of [Forest], for a positive [gridSize] and a colour
    map whose keys [Object.keys] lists as they are written (no key twice,
    none that starts with a digit, none that is [__proto__]): it makes
    [gridSize * gridSize] trees and uses one random value for each.  The
    tree of index [j] has [idx = j], sits in column [j mod s] of row
    [j / s], from which [colRowToIndex] gives [j] back; its disk and its
    birthdate are those of [createForest]; its species is the one the
    random value of index [d + j] selects among the keys.  Its
    [neighborTrees] are the nine trees of its toroidal 3 x 3 block, all of
    them trees of the forest, the fifth being the tree itself; its
    [neighborSpecies] is empty. *)
Theorem forest_constructor_layout (random : nat -> sample) (s : Z)
    (colorMap : list (string * string)) (canvasSize : Q) (stepCount : Z) (d : nat) :
  0 < s -> keys_as_written (colorMap.*1) ->
  let f := (Socialdx.newForest random s colorMap canvasSize stepCount d).1 in
  let R := (canvasSize / (inject_Z s * 2))%Q in
  length (Socialdx.trees f) = Z.to_nat (s * s)
  /\ (Socialdx.newForest random s colorMap canvasSize stepCount d).2
     = (d + Z.to_nat (s * s))%nat
  /\ Socialdx.s f = s /\ Socialdx.N f = s * s
  /\ Socialdx.treeNames f = colorMap.*1
  /\ forall (j : nat) t, Socialdx.trees f !! j = Some t ->
       sdx_site s R stepCount j t
       /\ Socialdx.colRowToIndex (Socialdx.col t) (Socialdx.row t) s = Z.of_nat j
       /\ Socialdx.species t
          = of_option (randomElement (colorMap.*1) (random (d + j)%nat))
       /\ Socialdx.neighborTrees t = torus_block s (Z.of_nat j)
       /\ length (Socialdx.neighborTrees t) = 9%nat
       /\ Socialdx.neighborTrees t !! 4%nat = Some (Z.of_nat j)
       /\ (forall n, n ∈ Socialdx.neighborTrees t ->
             is_Some (arr_get (Socialdx.trees f) n))
       /\ Socialdx.neighborSpecies t = ∅.
Proof.
  intros Hs _ f R.
  split; [apply newForest_length|]. split; [apply newForest_draws|].
  split; [done|]. split; [done|]. split; [done|].
  intros j t Hj.
  pose proof (lookup_lt_Some _ _ _ Hj) as Hlt.
  unfold f in Hlt. rewrite newForest_length in Hlt.
  destruct (newForest_trees random s colorMap canvasSize stepCount d j t Hs Hj)
    as (Hsite & Hsp & Hnb & Hns).
  pose proof Hsite as (Hidx & Hcol & Hrow & _).
  assert (Hc : 0 <= Socialdx.col t < s) by (rewrite Hcol; apply Z.mod_pos_bound; lia).
  assert (Hr : 0 <= Socialdx.row t < s).
  { rewrite Hrow. split; [apply Z.div_pos; lia|].
    apply Z.div_lt_upper_bound; lia. }
  assert (Hback : Socialdx.colRowToIndex (Socialdx.col t) (Socialdx.row t) s
                  = Z.of_nat j).
  { rewrite Hcol, Hrow. by apply colRowToIndex_of_index. }
  assert (Htorus : Socialdx.neighborTrees t = torus_block s (Z.of_nat j)).
  { rewrite Hnb, Hcol, Hrow. apply neighborIndices_torus; lia. }
  destruct (neighborIndices_centre (Socialdx.col t) (Socialdx.row t) s Hc Hr)
    as [Hlen9 Hfifth].
  split; [exact Hsite|]. split; [exact Hback|]. split; [exact Hsp|].
  split; [exact Htorus|]. split; [by rewrite Hnb|].
  split; [by rewrite Hnb, Hfifth, Hback|]. split; [|exact Hns].
  intros n Hn. rewrite Htorus in Hn. apply torus_block_range in Hn; [|done].
  apply arr_get_in_range. unfold f. rewrite newForest_length. lia.
Qed.

(** The forest of 25 trees per row over ten species that [init()] makes. *)
Lemma forest_constructor_layout_witness :
  0 < 25 /\ keys_as_written (Socialdx.treeColorMap10.*1)
  /\ let f := (Socialdx.newForest shuffled 25 Socialdx.treeColorMap10 500 0 0).1 in
     length (Socialdx.trees f) = Z.to_nat (25 * 25)
     /\ Socialdx.treeNames f = Socialdx.treeColorMap10.*1
     /\ forall (j : nat) t, Socialdx.trees f !! j = Some t ->
          Socialdx.colRowToIndex (Socialdx.col t) (Socialdx.row t) 25 = Z.of_nat j
          /\ Socialdx.neighborTrees t = torus_block 25 (Z.of_nat j)
          /\ Socialdx.neighborTrees t !! 4%nat = Some (Z.of_nat j).
Proof.
  assert (Hkeys : keys_as_written (Socialdx.treeColorMap10.*1)).
  { apply (bool_decide_unpack _). vm_compute. exact I. }
  split; [lia|]. split; [exact Hkeys|]. cbv zeta.
  destruct (forest_constructor_layout shuffled 25 Socialdx.treeColorMap10 500 0 0)
    as (Hlen & _ & _ & _ & Hnames & Htrees); [lia|exact Hkeys|].
  split; [exact Hlen|]. split; [exact Hnames|]. intros j t Hj.
  destruct (Htrees j t Hj) as (_ & Hback & _ & Htorus & _ & Hfifth & _).
  split; [exact Hback|]. split; [exact Htorus | exact Hfifth].
Defined.

(** ** Toroidal coordinates *)

(** [modAdd(a, b, m)], for whole numbers of absolute value at most [2^52]
    (whose sums and differences the program computes exactly) and a
    positive [m]: the result lies in [0 .. m - 1] exactly when
    [- m <= a + b < 2 m], and it is then [a + b] modulo [m].  This is so
    whenever [a] is in [0 .. m - 1] and [b] is an offset between [- m] and
    [m], as in [listNeighbors] and in the scan of [replaceTree]. *)
Theorem modAdd_range (a b m : Z) :
  0 < m <= 2 ^ 52 -> Z.abs a <= 2 ^ 52 -> Z.abs b <= 2 ^ 52 ->
  (0 <= Socialdx.modAdd a b m < m <-> - m <= a + b < 2 * m)
  /\ (- m <= a + b < 2 * m -> Socialdx.modAdd a b m = (a + b) mod m)
  /\ (0 <= a < m -> - m <= b <= m -> 0 <= Socialdx.modAdd a b m < m).
Proof.
  intros [Hm _] _ _. unfold Socialdx.modAdd.
  destruct (Z.ltb_spec (a + b) 0) as [Hneg|Hpos].
  - split; [lia|]. split; [|lia].
    intros H. apply Z.mod_unique with (q := -1); lia.
  - destruct (Z.geb_spec (a + b) m) as [Hge|Hlt].
    + split; [lia|]. split; [|lia].
      intros H. apply Z.mod_unique with (q := 1); lia.
    + split; [lia|]. split; [|lia].
      intros H. symmetry. apply Z.mod_small. lia.
Qed.

(** The left neighbour of column 0 on a grid of side 25 *)
Lemma modAdd_range_witness :
  0 < 25 <= 2 ^ 52 /\ Z.abs 0 <= 2 ^ 52 /\ Z.abs (-1) <= 2 ^ 52
  /\ (0 <= Socialdx.modAdd 0 (-1) 25 < 25 <-> - 25 <= 0 + -1 < 2 * 25)
  /\ (- 25 <= 0 + -1 < 2 * 25 -> Socialdx.modAdd 0 (-1) 25 = (0 + -1) mod 25)
  /\ (0 <= 0 < 25 -> - 25 <= -1 <= 25 -> 0 <= Socialdx.modAdd 0 (-1) 25 < 25)
  /\ Socialdx.modAdd 0 (-1) 25 = 24.
Proof.
  assert (H1 : 0 < 25 <= 2 ^ 52) by (split; [lia | by vm_compute]).
  assert (H2 : Z.abs 0 <= 2 ^ 52) by (by vm_compute).
  assert (H3 : Z.abs (-1) <= 2 ^ 52) by (by vm_compute).
  split; [exact H1|]. split; [exact H2|]. split; [exact H3|].
  destruct (modAdd_range 0 (-1) 25 H1 H2 H3) as (Ha & Hb & Hc).
  split; [exact Ha|]. split; [exact Hb|]. split; [exact Hc|]. reflexivity.
Defined.

(** In every state the social-distancing model reaches on a grid of
    positive side, every tree lists nine neighbours, the fifth of which is
    the tree itself (the one [countConflicts] leaves out), and the lists are
    symmetric: the tree of index [i] lists the tree of index [j] exactly
    when the tree of index [j] lists the tree of index [i]. *)
Theorem neighbour_lists_symmetric (random : nat -> sample) (s : Z)
    (colorMap : list (string * string)) (g : Socialdx.Globals)
    (i j : nat) (t t' : Socialdx.Tree) :
  0 < s -> sdx_reachable random s colorMap g ->
  Socialdx.trees (Socialdx.theForest g) !! i = Some t ->
  Socialdx.trees (Socialdx.theForest g) !! j = Some t' ->
  length (Socialdx.neighborTrees t) = 9%nat
  /\ Socialdx.neighborTrees t !! 4%nat = Some (Z.of_nat i)
  /\ (Z.of_nat j ∈ Socialdx.neighborTrees t
      <-> Z.of_nat i ∈ Socialdx.neighborTrees t').
Proof.
  intros Hs Hreach Hi Hj.
  destruct (sdx_reachable_frame random s colorMap g Hs Hreach)
    as (R & born & _ & _ & Hlen & Hsite).
  pose proof (lookup_lt_Some _ _ _ Hi) as Hilt.
  pose proof (lookup_lt_Some _ _ _ Hj) as Hjlt.
  rewrite Hlen in Hilt, Hjlt.
  destruct (Hsite i t Hi) as [_ Hnb]. destruct (Hsite j t' Hj) as [_ Hnb'].
  rewrite Hnb, Hnb'.
  assert (Hc : 0 <= Z.of_nat i mod s < s) by (apply Z.mod_pos_bound; lia).
  assert (Hr : 0 <= Z.of_nat i / s < s).
  { split; [apply Z.div_pos; lia|]. apply Z.div_lt_upper_bound; lia. }
  destruct (neighborIndices_centre (Z.of_nat i mod s) (Z.of_nat i / s) s Hc Hr)
    as [Hlen9 Hfifth].
  rewrite neighborIndices_torus in Hlen9, Hfifth by lia.
  rewrite colRowToIndex_of_index in Hfifth by done.
  split; [exact Hlen9|]. split; [exact Hfifth|].
  split; intros H; apply torus_block_sym in H; try done; lia.
Qed.

(** The first two trees of the forest [init()] makes list each other. *)
Lemma neighbour_lists_symmetric_witness :
  let g := Socialdx.loaded shuffled in
  0 < 25 /\ sdx_reachable shuffled 25 Socialdx.treeColorMap10 g
  /\ match Socialdx.trees (Socialdx.theForest g) !! 0%nat,
           Socialdx.trees (Socialdx.theForest g) !! 1%nat with
     | Some t, Some t' =>
         length (Socialdx.neighborTrees t) = 9%nat
         /\ Socialdx.neighborTrees t !! 4%nat = Some (Z.of_nat 0)
         /\ (Z.of_nat 1 ∈ Socialdx.neighborTrees t
             <-> Z.of_nat 0 ∈ Socialdx.neighborTrees t')
     | _, _ => False
     end.
Proof.
  cbv zeta.
  assert (Hreach : sdx_reachable shuffled 25 Socialdx.treeColorMap10
                     (Socialdx.loaded shuffled)) by apply sdx_built.
  split; [lia|]. split; [exact Hreach|].
  destruct (Socialdx.trees (Socialdx.theForest (Socialdx.loaded shuffled)) !! 0%nat)
    as [t|] eqn:E0; [|vm_compute in E0; discriminate].
  destruct (Socialdx.trees (Socialdx.theForest (Socialdx.loaded shuffled)) !! 1%nat)
    as [t'|] eqn:E1; [|vm_compute in E1; discriminate].
  apply (neighbour_lists_symmetric shuffled 25 Socialdx.treeColorMap10
           (Socialdx.loaded shuffled) 0 1 t t'); [lia|exact Hreach|exact E0|exact E1].
Defined.

(** ** The census *)

(** In every state a program reaches from a freshly built plot of side
    [s], the census holds for every species of the species set a number,
    which is the number of trees of that species, between [0] and [s * s]:
    no count is ever negative, nor [NaN]. *)
Theorem census_counts_trees (random : nat -> sample) (s : Z)
    (colorMap : list (string * string)) :
  (forall g k, imm_reachable random s g -> k ∈ Immigration.treeNames ->
     exists z, Immigration.theCensus g !! k = Some (Num z)
       /\ z = population (Str k) (imm_cells g) /\ 0 <= z <= s * s)
  /\ (forall g k, coex_reachable random s g -> k ∈ Coexist.treeNames ->
        exists z, Coexist.theCensus g !! k = Some (Num z)
          /\ z = population (Str k) (coex_cells g) /\ 0 <= z <= s * s)
  /\ (species_set (colorMap.*1) -> 0 < s ->
      forall g k, sdx_reachable random s colorMap g -> k ∈ colorMap.*1 ->
        exists z, Socialdx.census (Socialdx.theForest g) !! k = Some (Num z)
          /\ z = population (Str k) (sdx_cells g) /\ 0 <= z <= s * s).
Proof.
  split; [|split].
  - intros g k Hreach Hk.
    destruct (imm_reachable_inv random s g Hreach) as (Hlen & _ & Hacc).
    destruct (accurate_bounded _ _ _ k Hacc Hk) as (z & Hz & Hpop & Hb).
    exists z. split; [done|]. split; [done|].
    unfold imm_cells in Hb. rewrite length_fmap in Hb. lia.
  - intros g k Hreach Hk.
    destruct (coex_reachable_inv random s g Hreach) as (Hlen & _ & Hacc & _).
    destruct (accurate_bounded _ _ _ k Hacc Hk) as (z & Hz & Hpop & Hb).
    exists z. split; [done|]. split; [done|].
    unfold coex_cells in Hb. rewrite length_fmap in Hb. lia.
  - intros Hnames Hs g k Hreach Hk.
    destruct (sdx_reachable_inv random s colorMap g Hnames Hs Hreach)
      as (_ & _ & _ & [Hlen _] & _ & Hacc).
    destruct (accurate_bounded _ _ _ k Hacc Hk) as (z & Hz & Hpop & Hb).
    exists z. split; [done|]. split; [done|].
    unfold sdx_cells in Hb. rewrite length_fmap in Hb. lia.
Qed.

(** ** [immigration.js]: the controls *)

(** Between two events of a session of [immigration.js]: a timer is
    installed exactly while the state is [running] (so [setInterval] is
    never called while a timer is installed); the button reads "Pause"
    while running and "Resume" while paused; the step count is a multiple
    of the batch size, it is what the page shows as soon as a batch has run,
    and the state is [idle] only at step 0.  The forest has 625 trees, and
    a call of [runBatch] by the timer returns. *)
Theorem immigration_controls (random : nat -> sample) (g : Immigration.Globals) :
  imm_session random g ->
  imm_control g
  /\ length (Immigration.theForest g) = 625%nat
  /\ is_Some (Immigration.runBatch random g).
Proof.
  intros Hg. split; [by apply (imm_session_control random)|].
  destruct (imm_session_frame random g Hg) as [Hlen _].
  split; [exact Hlen|].
  destruct (imm_runBatch_spec random g) as (g1 & _ & ->); [|done].
  intros Hnil. by rewrite Hnil in Hlen.
Qed.

(** The page after a click on the start button. *)
Lemma immigration_controls_witness :
  let g := Immigration.doStartStop (Immigration.loaded shuffled) in
  imm_session shuffled g
  /\ imm_control g
  /\ length (Immigration.theForest g) = 625%nat
  /\ is_Some (Immigration.runBatch shuffled g).
Proof.
  cbv zeta.
  assert (Hg : imm_session shuffled (Immigration.doStartStop (Immigration.loaded shuffled)))
    by (apply imm_click; apply imm_loaded).
  split; [exact Hg|].
  exact (immigration_controls shuffled _ Hg).
Defined.

(** A running session of [immigration.js] at step [c]: the calls of
    [runBatch] return and leave the program running until the step count
    reaches the next multiple of [maxSteps], and the batch that reaches it
    pauses the run and clears the timer.  The ceiling is never stepped
    over.  A fresh run pauses by itself after exactly 12500 batches. *)
Theorem immigration_pauses_at_ceiling (random : nat -> sample)
    (g : Immigration.Globals) (n : nat) :
  imm_session random g ->
  Immigration.state g = Immigration.running ->
  let c := Immigration.stepCount g in
  let M := (c / Immigration.maxSteps + 1) * Immigration.maxSteps in
  c + Z.of_nat Immigration.batchSize * Z.of_nat n <= M ->
  exists g',
    imm_batches random n g = Some g'
    /\ Immigration.stepCount g' = c + Z.of_nat Immigration.batchSize * Z.of_nat n
    /\ Immigration.state g'
       = (if decide (Immigration.stepCount g' = M) then Immigration.paused
          else Immigration.running)
    /\ Immigration.timer g'
       = (if decide (Immigration.stepCount g' = M) then false else true).
Proof.
  intros Hg Hst c M Hn.
  destruct (imm_session_control random g Hg) as (Ht & _ & _ & H0 & Hdiv & _).
  destruct (imm_session_frame random g Hg) as [Hlen _].
  fold c in H0, Hdiv.
  assert (HcM : M - Immigration.maxSteps <= c < M).
  { unfold M, Immigration.maxSteps.
    pose proof (Z.div_mod c 500000). pose proof (Z.mod_pos_bound c 500000). lia. }
  apply (imm_batches_until random M n g); try done.
  - exists (c / Immigration.maxSteps + 1). done.
  - intros Hnil. by rewrite Hnil in Hlen.
  - by apply Ht.
Qed.

(** A fresh run: the batch number 12500 pauses it, at step 500000. *)
Lemma immigration_pauses_at_ceiling_witness :
  let g := Immigration.doStartStop (Immigration.loaded shuffled) in
  imm_session shuffled g
  /\ Immigration.state g = Immigration.running
  /\ exists g',
       imm_batches shuffled (Z.to_nat 12500) g = Some g'
       /\ Immigration.stepCount g' = 500000
       /\ Immigration.state g' = Immigration.paused
       /\ Immigration.timer g' = false.
Proof.
  cbv zeta.
  assert (Hg : imm_session shuffled (Immigration.doStartStop (Immigration.loaded shuffled)))
    by (apply imm_click; apply imm_loaded).
  assert (Hst : Immigration.state (Immigration.doStartStop (Immigration.loaded shuffled))
                = Immigration.running) by (vm_compute; reflexivity).
  assert (Hc : Immigration.stepCount (Immigration.doStartStop (Immigration.loaded shuffled))
               = 0) by (vm_compute; reflexivity).
  split; [exact Hg|]. split; [exact Hst|].
  destruct (immigration_pauses_at_ceiling shuffled _ (Z.to_nat 12500) Hg Hst)
    as (g' & Hrun & Hsc & Hst' & Htm').
  { rewrite Hc. vm_compute. discriminate. }
  rewrite Hc in Hsc, Hst', Htm'.
  assert (Hsc' : Immigration.stepCount g' = 500000).
  { rewrite Hsc. vm_compute. reflexivity. }
  rewrite Hsc' in Hst', Htm'.
  exists g'. split; [exact Hrun|]. split; [exact Hsc'|].
  split; [exact Hst'|exact Htm'].
Defined.

(** [adjustImmigrationRate]: the readouts 0 to 27 of the slider select the
    intervals 10, 20, ..., 90, 100, 200, ..., 9000, 10000, that is
    [(readout mod 9 + 1) * 10 ^ (readout / 9 + 1)]; any other readout
    leaves the interval undefined, and no replacement is an immigration
    then.  In a session the interval is never zero: it is undefined or
    lies between 10 and 10000. *)
Theorem immigration_interval_table (readout : Z) (g : Immigration.Globals) :
  let g' := Immigration.adjustImmigrationRate readout g in
  Immigration.immigrationInterval g'
  = (if decide (0 <= readout <= 27)
     then Num ((readout mod 9 + 1) * 10 ^ (readout / 9 + 1))
     else NaN)
  /\ (forall u, ~ 0 <= readout <= 27 ->
        Immigration.arrivingSpecies g' u
        = Plot.species <$> randomElement (Immigration.theForest g) u)
  /\ (forall random g0, imm_session random g0 ->
        Immigration.immigrationInterval g0 = NaN
        \/ exists k, Immigration.immigrationInterval g0 = Num k /\ 10 <= k <= 10000).
Proof.
  intros g'.
  assert (Hiv : Immigration.immigrationInterval g'
                = (if decide (0 <= readout <= 27)
                   then Num ((readout mod 9 + 1) * 10 ^ (readout / 9 + 1))
                   else NaN)).
  { unfold g'. cbn [Immigration.adjustImmigrationRate Immigration.immigrationInterval].
    destruct (decide (0 <= readout <= 27)) as [Hin|Hout].
    - by rewrite immigrationIntervalList_entry.
    - by rewrite immigrationIntervalList_outside. }
  split; [exact Hiv|]. split; [|apply imm_session_interval].
  intros u Hout. unfold Immigration.arrivingSpecies.
  rewrite Hiv, decide_False by done. done.
Qed.

(** ** [immigration.js]: extinct species *)

(** A replacement of [immigration.js] in a state where no tree holds the
    species [k]: unless the step is an immigration, no tree holds [k]
    afterwards; and if a tree does, the step is an immigration, the random
    value has selected [k] in the list of species, and that tree is the
    only one. *)
Theorem immigration_revives (random : nat -> sample) (s : Z)
    (g g' : Immigration.Globals) (k : string) :
  imm_reachable random s g ->
  Immigration.replaceTree random g = Some g' ->
  population (Str k) (imm_cells g) = 0 ->
  (rem_is_zero (Immigration.stepCount g) (Immigration.immigrationInterval g) = false ->
   population (Str k) (imm_cells g') = 0)
  /\ (population (Str k) (imm_cells g') <> 0 ->
      rem_is_zero (Immigration.stepCount g) (Immigration.immigrationInterval g) = true
      /\ randomElement Immigration.treeNames (imm_second random g) = Some k
      /\ population (Str k) (imm_cells g') = 1).
Proof.
  intros Hreach Hstep Hzero.
  destruct (imm_cells_replaceTree random g g' Hstep) as (old & arr & Hold & Harr & Hcells).
  pose proof (proj1 (population_zero _ _) Hzero) as Hnot.
  assert (Hold' : one_if (Str k) old = 0).
  { unfold one_if. destruct (decide (Str k = old)) as [<-|]; [|done].
    exfalso. apply Hnot. by eapply list_elem_of_lookup_2. }
  assert (Hpop : population (Str k) (imm_cells g') = one_if (Str k) arr).
  { rewrite Hcells, (population_insert _ _ _ old) by done. lia. }
  assert (Hlocal : rem_is_zero (Immigration.stepCount g)
                     (Immigration.immigrationInterval g) = false ->
                   one_if (Str k) arr = 0).
  { intros Hrem. unfold Immigration.arrivingSpecies in Harr. rewrite Hrem in Harr.
    destruct (randomElement (Immigration.theForest g) (imm_second random g))
      as [t|] eqn:Ht; [|done].
    injection Harr as <-. apply randomElement_elem_of in Ht.
    unfold one_if. destruct (decide (Str k = Plot.species t)) as [Heq|]; [|done].
    exfalso. apply Hnot. rewrite Heq. unfold imm_cells.
    by apply list_elem_of_fmap_2. }
  split; [intros Hrem; rewrite Hpop; by apply Hlocal|].
  intros Hne. rewrite Hpop in Hne |- *.
  destruct (rem_is_zero (Immigration.stepCount g) (Immigration.immigrationInterval g))
    eqn:Hrem; [|by specialize (Hlocal eq_refl)].
  split; [done|].
  unfold one_if in Hne |- *. destruct (decide (Str k = arr)) as [<-|]; [|done].
  split; [|done].
  unfold Immigration.arrivingSpecies in Harr. rewrite Hrem in Harr.
  destruct (randomElement Immigration.treeNames (imm_second random g)) as [k'|];
    cbn in Harr; congruence.
Qed.

(** A plot of a single tree, an elm: the first replacement is an
    immigration, and brings an oak. *)
Lemma immigration_revives_witness :
  let g := Immigration.build shuffled 1 Immigration.declared in
  imm_reachable shuffled 1 g
  /\ population (Str "oak") (imm_cells g) = 0
  /\ match Immigration.replaceTree shuffled g with
     | Some g' =>
         (rem_is_zero (Immigration.stepCount g) (Immigration.immigrationInterval g)
          = false ->
          population (Str "oak") (imm_cells g') = 0)
         /\ (population (Str "oak") (imm_cells g') <> 0 ->
             rem_is_zero (Immigration.stepCount g) (Immigration.immigrationInterval g)
             = true
             /\ randomElement Immigration.treeNames (imm_second shuffled g) = Some "oak"
             /\ population (Str "oak") (imm_cells g') = 1)
     | None => False
     end.
Proof.
  cbv zeta.
  assert (Hreach : imm_reachable shuffled 1
                     (Immigration.build shuffled 1 Immigration.declared))
    by apply imm_built.
  assert (Hzero : population (Str "oak")
                    (imm_cells (Immigration.build shuffled 1 Immigration.declared)) = 0)
    by (vm_compute; reflexivity).
  split; [exact Hreach|]. split; [exact Hzero|].
  destruct (Immigration.replaceTree shuffled
              (Immigration.build shuffled 1 Immigration.declared)) as [g'|] eqn:E;
    [|vm_compute in E; discriminate].
  exact (immigration_revives shuffled 1 _ g' "oak" Hreach E Hzero).
Defined.

(** ** The competition program *)

(** [flipBiasedCoin] and [testCoinFlip].  A flip is a yea exactly when
    its random value is below the bias.  The test flips the coin [reps]
    times, on as many random values: the yeas are as many as the random
    values of the test that are below the bias, the nays are the others.  A
    bias of 1 or more gives yeas only, a bias of 0 or less gives nays
    only, and on the same random values a larger bias never gives fewer
    yeas.  An infinite bias gives yeas only, a bias of minus infinity or
    [NaN] nays only. *)
Theorem testCoinFlip_counts (random : nat -> sample) (b : Q) (reps : Z) (d : nat) :
  let n := Z.to_nat reps in
  let yeas := below_count random b d n in
  (forall u, Coexist.flipBiasedCoin (Coexist.Fin b) u = true <-> (sample_Q u < b)%Q)
  /\ Coexist.testCoinFlip random (Coexist.Fin b) reps d
     = (yeas, Z.of_nat n - yeas, (d + n)%nat)
  /\ 0 <= yeas <= Z.of_nat n
  /\ ((1 <= b)%Q -> yeas = Z.of_nat n)
  /\ ((b <= 0)%Q -> yeas = 0)
  /\ (forall b', (b <= b')%Q -> yeas <= below_count random b' d n)
  /\ Coexist.testCoinFlip random Coexist.PosInf reps d = (Z.of_nat n, 0, (d + n)%nat)
  /\ (forall bias, bias = Coexist.NegInf \/ bias = Coexist.NotANumber ->
        Coexist.testCoinFlip random bias reps d = (0, Z.of_nat n, (d + n)%nat)).
Proof.
  intros n yeas. unfold yeas. rewrite <- heads_below.
  split; [intros u; apply flip_below|]. split; [|split; [|split; [|split; [|split; [|split]]]]].
  - unfold Coexist.testCoinFlip. fold n. by rewrite testCoinFlip_loop_heads.
  - apply heads_range.
  - intros Hb. by apply heads_all.
  - intros Hb. by apply heads_none.
  - intros b' Hb. rewrite <- heads_below. by apply heads_monotone.
  - unfold Coexist.testCoinFlip. fold n.
    rewrite testCoinFlip_loop_heads, heads_PosInf. do 2 f_equal. lia.
  - intros bias Hbias. unfold Coexist.testCoinFlip. fold n.
    rewrite testCoinFlip_loop_heads, heads_not_finite by done. do 2 f_equal. lia.
Qed.

(** Between two events of a session of the competition program: a timer
    is installed exactly while the state is [running]; the button reads
    "Pause" while running, "Resume" while paused, and "Done" and is
    disabled when the run is done, which happens only when one of the two
    species has a census count of zero; the step count is a multiple of the
    batch size, it is what the page shows as soon as a batch has run, and
    the state is [idle] only at step 0.  The forest has 625 trees. *)
Theorem competition_controls (random : nat -> sample) (g : Coexist.Globals) :
  coex_session random g ->
  coex_control g /\ length (Coexist.theForest g) = 625%nat.
Proof.
  intros Hg. split; [by apply (coex_session_control random)|].
  by destruct (coex_session_frame random g Hg) as [Hlen _].
Qed.

(** The page after a click on the start button and a move of the slider. *)
Lemma competition_controls_witness :
  let g := Coexist.adjustResources 30 (Coexist.doStartStop (Coexist.loaded shuffled)) in
  coex_session shuffled g
  /\ coex_control g /\ length (Coexist.theForest g) = 625%nat.
Proof.
  cbv zeta.
  assert (Hg : coex_session shuffled
                 (Coexist.adjustResources 30
                    (Coexist.doStartStop (Coexist.loaded shuffled))))
    by (apply coex_slide; apply coex_click; apply coex_loaded).
  split; [exact Hg|].
  exact (competition_controls shuffled _ Hg).
Defined.

(** Extinction is final in the competition program.  Once no tree holds
    the species [k], whatever follows without a reset (replacements,
    batches, clicks, moves of the slider) leaves it so: no tree holds [k],
    its census count is zero, and [finished()] holds.  Hence every later
    batch ends the run: it leaves the program [done], or [paused] when the
    step count is a multiple of 500000, with the timer cleared. *)
Theorem competition_extinction_is_final (random : nat -> sample) (s : Z)
    (g g' : Coexist.Globals) (k : string) :
  coex_reachable random s g -> k ∈ Coexist.treeNames ->
  population (Str k) (coex_cells g) = 0 ->
  coex_later random g g' ->
  population (Str k) (coex_cells g') = 0
  /\ get (Coexist.theCensus g') k = Num 0
  /\ Coexist.finished g' = true
  /\ forall fuel g'', Coexist.runBatch random fuel g' = Coexist.Returns g'' ->
       Coexist.state g''
       = (if Z.rem (Coexist.stepCount g'') 500000 =? 0 then Coexist.paused
          else Coexist.done)
       /\ Coexist.timer g'' = false.
Proof.
  intros Hreach Hk Hzero Hlater.
  assert (Hfinal : forall g1, coex_later random g g1 ->
            population (Str k) (coex_cells g1) = 0
            /\ get (Coexist.theCensus g1) k = Num 0
            /\ Coexist.finished g1 = true).
  { intros g1 Hg1.
    pose proof (coex_later_extinct random g g1 (Str k) Hg1 Hzero) as Hz.
    pose proof (coex_later_reachable random s g g1 Hreach Hg1) as Hr1.
    destruct (coex_reachable_inv random s g1 Hr1) as (_ & _ & Hacc & _).
    assert (Hget : get (Coexist.theCensus g1) k = Num 0).
    { rewrite (accurate_get _ _ _ _ Hacc Hk). by rewrite Hz. }
    split; [done|]. split; [done|].
    unfold Coexist.finished, Coexist.treeNames in *.
    apply elem_of_cons in Hk as [->|Hk].
    - rewrite Hget. cbn. by rewrite orb_true_r.
    - apply list_elem_of_singleton in Hk as ->. rewrite Hget. cbn.
      by rewrite orb_true_r. }
  destruct (Hfinal g' Hlater) as (H1 & H2 & H3).
  split; [done|]. split; [done|]. split; [done|].
  intros fuel g'' Hbatch.
  destruct (Hfinal g'' (coex_then_batch random g fuel g' g'' Hlater Hbatch))
    as (_ & _ & Hfin).
  destruct (coex_runBatch_Returns random fuel g' g'' Hbatch) as (g1 & Hg1 & ->).
  destruct (coex_batchEnd_rest (Coexist.show_stepCount g1))
    as (_ & Hcen & _ & _ & _ & _ & Hsc & _).
  rewrite Hsc.
  assert (Hfin1 : Coexist.finished (Coexist.show_stepCount g1) = true).
  { unfold Coexist.finished in Hfin |- *. by rewrite Hsc, Hcen in Hfin. }
  unfold Coexist.batchEnd. rewrite Hfin1.
  unfold Coexist.doStartStop. cbn [Coexist.state Coexist.set_control].
  by destruct (Z.rem _ _ =? 0).
Qed.

(** A plot of a single tree, an olive: there is no orange tree, and after
    a batch of forty replacements there is none either; the batch ends the
    run. *)
Lemma competition_extinction_is_final_witness :
  let g := Coexist.build shuffled 1 Coexist.declared in
  coex_reachable shuffled 1 g /\ "orange" ∈ Coexist.treeNames
  /\ population (Str "orange") (coex_cells g) = 0
  /\ match Coexist.runBatch shuffled 50 g with
     | Coexist.Returns g' =>
         coex_later shuffled g g'
         /\ Coexist.stepCount g' = 40
         /\ population (Str "orange") (coex_cells g') = 0
         /\ get (Coexist.theCensus g') "orange" = Num 0
         /\ Coexist.finished g' = true
         /\ Coexist.state g' = Coexist.done
         /\ Coexist.timer g' = false
     | _ => False
     end.
Proof.
  cbv zeta.
  assert (Hreach : coex_reachable shuffled 1 (Coexist.build shuffled 1 Coexist.declared))
    by (by apply coex_built).
  assert (Hk : "orange" ∈ Coexist.treeNames) by (right; left).
  assert (Hzero : population (Str "orange")
                    (coex_cells (Coexist.build shuffled 1 Coexist.declared)) = 0)
    by (vm_compute; reflexivity).
  split; [exact Hreach|]. split; [exact Hk|]. split; [exact Hzero|].
  assert (E40 : match Coexist.runBatch shuffled 50
                        (Coexist.build shuffled 1 Coexist.declared) with
                | Coexist.Returns x => Some (Coexist.stepCount x)
                | _ => None
                end = Some 40) by (vm_compute; reflexivity).
  destruct (Coexist.runBatch shuffled 50 (Coexist.build shuffled 1 Coexist.declared))
    as [g'| |] eqn:E; [|discriminate E40|discriminate E40].
  injection E40 as E40.
  assert (Hlater : coex_later shuffled (Coexist.build shuffled 1 Coexist.declared) g')
    by exact (coex_then_batch shuffled _ 50%nat _ g' (coex_now shuffled _) E).
  destruct (competition_extinction_is_final shuffled 1 _ _ "orange"
              Hreach Hk Hzero Hlater) as (H1 & H2 & H3 & _).
  destruct (competition_extinction_is_final shuffled 1 _ _ "orange"
              Hreach Hk Hzero (coex_now shuffled _)) as (_ & _ & _ & Hbatch).
  destruct (Hbatch 50%nat g' E) as [Hstate Htimer].
  rewrite E40 in Hstate.
  split; [exact Hlater|]. split; [exact E40|]. split; [exact H1|].
  split; [exact H2|]. split; [exact H3|]. split; [exact Hstate | exact Htimer].
Defined.

(** The resources of a session of the competition program: iron and
    calcium always add up to 100.  As long as the slider keeps the iron
    between 0 and 100, the two pressure factors are numbers between 0 and
    16/25, so that the bias given to [flipBiasedCoin] lies in [0, 1]. *)
Theorem competition_bias_in_range (random : nat -> sample) (g : Coexist.Globals) :
  coex_session random g ->
  (0 <= Coexist.iron g <= 100)%Q ->
  (Coexist.iron g + Coexist.calcium g == 100)%Q
  /\ exists qo qg,
       Coexist.oliveFactor g = Coexist.Fin qo
       /\ Coexist.orangeFactor g = Coexist.Fin qg
       /\ (0 <= qo <= 16 # 25)%Q /\ (0 <= qg <= 16 # 25)%Q.
Proof.
  intros Hg Hiron.
  pose proof (coex_session_resources random g Hg) as Hsum.
  pose proof (coex_reachable_inv random 25 g (coex_session_reachable random g Hg))
    as Hinv.
  destruct (coex_factors 25 g Hinv) as [HoF HgF]; [done|].
  destruct (coex_census 25 g Hinv) as (Ho & Hgc & Hpops).
  pose proof Hinv as (_ & _ & _ & Hp).
  pose proof (population_nonneg (Str "olive") (coex_cells g)) as Ho0.
  pose proof (population_nonneg (Str "orange") (coex_cells g)) as Hg0.
  split; [exact Hsum|].
  eexists _, _. split; [exact HoF|]. split; [exact HgF|].
  unfold census_count. rewrite Ho, Hgc, Hp.
  split; apply pressure_bounds; try done; try lia; lra.
Qed.

(** The loaded program, the slider moved to 30. *)
Lemma competition_bias_in_range_witness :
  let g := Coexist.adjustResources 30 (Coexist.loaded shuffled) in
  coex_session shuffled g
  /\ (0 <= Coexist.iron g <= 100)%Q
  /\ (Coexist.iron g + Coexist.calcium g == 100)%Q
  /\ exists qo qg,
       Coexist.oliveFactor g = Coexist.Fin qo
       /\ Coexist.orangeFactor g = Coexist.Fin qg
       /\ (0 <= qo <= 16 # 25)%Q /\ (0 <= qg <= 16 # 25)%Q.
Proof.
  cbv zeta.
  assert (Hg : coex_session shuffled (Coexist.adjustResources 30 (Coexist.loaded shuffled)))
    by (apply coex_slide; apply coex_loaded).
  assert (Hiron : (0 <= Coexist.iron (Coexist.adjustResources 30 (Coexist.loaded shuffled))
                   <= 100)%Q).
  { cbn [Coexist.iron Coexist.adjustResources]. split; by vm_compute. }
  split; [exact Hg|]. split; [exact Hiron|].
  exact (competition_bias_in_range shuffled _ Hg Hiron).
Defined.

(** A starved survivor makes the competition program hang.  In a state
    where only one of the two species is left, and the resource of that
    species is zero or less (the slider at one end), the rejection loop of
    [replaceTree] rejects every candidate: the replacement does not return,
    however many turns the loop is given. *)
Theorem competition_starved_survivor_hangs (random : nat -> sample) (s : Z)
    (g : Coexist.Globals) (fuel : nat) :
  coex_reachable random s g -> s <> 0 ->
  (population (Str "orange") (coex_cells g) = 0 /\ (Coexist.iron g <= 0)%Q)
  \/ (population (Str "olive") (coex_cells g) = 0 /\ (Coexist.calcium g <= 0)%Q) ->
  Coexist.replaceTree random fuel g = Coexist.Spins
  /\ Coexist.runBatch random fuel g = Coexist.Spins.
Proof.
  intros Hreach Hs Hcase.
  pose proof (coex_reachable_inv random s g Hreach) as Hinv.
  assert (Hspin : Coexist.replaceTree random fuel g = Coexist.Spins).
  { apply coex_replaceTree_Spins, arrival_Spins. intros m _.
    destruct Hcase as [[Hzero Hcap]|[Hzero Hcap]].
    - apply (coex_starved_turns random s g "olive" "orange"); try done.
      left. done.
    - apply (coex_starved_turns random s g "orange" "olive"); try done.
      right. done. }
  split; [exact Hspin|].
  unfold Coexist.runBatch, Coexist.batchSize. cbn [Coexist.replaceTrees].
  by rewrite Hspin.
Qed.

(** A plot of a single tree, an olive, with the slider at 0: no iron. *)
Lemma competition_starved_survivor_hangs_witness :
  let g := Coexist.adjustResources 0 (Coexist.build shuffled 1 Coexist.declared) in
  coex_reachable shuffled 1 g /\ 1 <> 0
  /\ population (Str "orange") (coex_cells g) = 0 /\ (Coexist.iron g <= 0)%Q
  /\ Coexist.replaceTree shuffled 1000 g = Coexist.Spins
  /\ Coexist.runBatch shuffled 1000 g = Coexist.Spins.
Proof.
  cbv zeta.
  assert (Hreach : coex_reachable shuffled 1
                     (Coexist.adjustResources 0
                        (Coexist.build shuffled 1 Coexist.declared)))
    by (apply coex_adjusted; by apply coex_built).
  assert (Hzero : population (Str "orange")
                    (coex_cells (Coexist.adjustResources 0
                                   (Coexist.build shuffled 1 Coexist.declared))) = 0)
    by (vm_compute; reflexivity).
  assert (Hcap : (Coexist.iron (Coexist.adjustResources 0
                                  (Coexist.build shuffled 1 Coexist.declared)) <= 0)%Q)
    by (cbn [Coexist.iron Coexist.adjustResources]; by vm_compute).
  split; [exact Hreach|]. split; [lia|]. split; [exact Hzero|]. split; [exact Hcap|].
  apply (competition_starved_survivor_hangs shuffled 1 _ 1000 Hreach); [lia|].
  left. split; [exact Hzero|exact Hcap].
Defined.

(** The timeline of a session of the competition program: it holds one
    sample for every [timelineInterval] steps begun since the page was
    loaded or reset, in each of its three arrays; the two counts of a
    sample add up to the 625 trees, and the number of species of a sample
    is the number of positive counts, 1 or 2. *)
Theorem competition_timeline (random : nat -> sample) (g : Coexist.Globals) :
  coex_session random g ->
  coex_sampled g
  /\ forall present, present ∈ Coexist.timelineNumberOfSpecies g ->
       present = 1 \/ present = 2.
Proof.
  intros Hg. pose proof (coex_session_sampled random g Hg) as Hs.
  split; [exact Hs|].
  destruct Hs as (ol & og & _ & _ & _ & _ & _ & Hent).
  intros present Hin. apply list_elem_of_lookup_1 in Hin as [i Hi].
  destruct (Hent i present Hi) as (a & b & _ & _ & Ha & Hb & Hab & ->).
  destruct (Z.ltb_spec 0 a), (Z.ltb_spec 0 b); lia.
Qed.

(** The page after a click on the start button and a first batch: at
    step 40 the timeline holds one sample, taken at step 0, with both
    species present. *)
Lemma competition_timeline_witness :
  let g0 := Coexist.doStartStop (Coexist.loaded shuffled) in
  match Coexist.runBatch shuffled 50 g0 with
  | Coexist.Returns g =>
      coex_session shuffled g
      /\ Coexist.stepCount g = 40
      /\ Coexist.timelineNumberOfSpecies g = [2]
      /\ coex_sampled g
      /\ forall present, present ∈ Coexist.timelineNumberOfSpecies g ->
           present = 1 \/ present = 2
  | _ => False
  end.
Proof.
  cbv zeta.
  assert (Hg0 : coex_session shuffled (Coexist.doStartStop (Coexist.loaded shuffled)))
    by (apply coex_click; apply coex_loaded).
  assert (Htimer : Coexist.timer (Coexist.doStartStop (Coexist.loaded shuffled)) = true)
    by (vm_compute; reflexivity).
  assert (E1 : match Coexist.runBatch shuffled 50
                       (Coexist.doStartStop (Coexist.loaded shuffled)) with
               | Coexist.Returns x =>
                   Some (Coexist.stepCount x, Coexist.timelineNumberOfSpecies x)
               | _ => None
               end = Some (40, [2])) by (vm_compute; reflexivity).
  destruct (Coexist.runBatch shuffled 50 (Coexist.doStartStop (Coexist.loaded shuffled)))
    as [g| |] eqn:E; [|discriminate E1|discriminate E1].
  injection E1 as Hstep Hsamples.
  assert (Hg : coex_session shuffled g)
    by exact (coex_tick shuffled 50%nat _ g Hg0 Htimer E).
  split; [exact Hg|]. split; [exact Hstep|]. split; [exact Hsamples|].
  exact (competition_timeline shuffled g Hg).
Defined.

(** ** [socialdx.js] *)

(** Between two events of a session of [socialdx.js]: a timer is
    installed exactly while the state is [running]; the button reads
    "Pause" while running and "Resume" while paused; the step count is a
    multiple of the batch size, it is what the page shows as soon as a
    batch has run, and the state is [idle] only at step 0.  The forest has
    625 trees, and a call of [runBatch] by the timer returns: no
    replacement throws. *)
Theorem socialdx_controls (random : nat -> sample) (g : Socialdx.Globals) :
  sdx_session random g ->
  sdx_control g
  /\ length (Socialdx.trees (Socialdx.theForest g)) = 625%nat
  /\ is_Some (Socialdx.runBatch random g).
Proof.
  intros Hg. split; [by apply (sdx_session_control random)|].
  destruct (sdx_session_frame random g Hg) as (_ & _ & Hlen & _).
  split; [exact Hlen|]. by apply sdx_runBatch_total.
Qed.

(** The page after a click on the start button. *)
Lemma socialdx_controls_witness :
  let g := Socialdx.doStartStop (Socialdx.loaded shuffled) in
  sdx_session shuffled g
  /\ sdx_control g
  /\ length (Socialdx.trees (Socialdx.theForest g)) = 625%nat
  /\ is_Some (Socialdx.runBatch shuffled g).
Proof.
  cbv zeta.
  assert (Hg : sdx_session shuffled (Socialdx.doStartStop (Socialdx.loaded shuffled)))
    by (apply sdx_click; apply sdx_loaded).
  split; [exact Hg|].
  exact (socialdx_controls shuffled _ Hg).
Defined.

(** Ten species are enough, nine are not.  In a state where ten distinct
    species each have a tree somewhere in the forest, a replacement always
    finds a species for the departing site: the site is not left vacant.
    With the nine species of [treeColorMap9] on a grid of side 6 there is a
    forest, in which all nine have trees, whose first replacement finds
    none and leaves the site vacant. *)
Theorem ten_species_suffice :
  (forall (random : nat -> sample) (s : Z) (colorMap : list (string * string))
          (g : Socialdx.Globals) (alive : list string),
     species_set (colorMap.*1) -> 0 < s -> sdx_reachable random s colorMap g ->
     NoDup alive -> (10 <= length alive)%nat ->
     Forall (fun k => Str k ∈ sdx_cells g) alive ->
     exists g' k,
       Socialdx.replaceTree random g = Some g'
       /\ k ∈ colorMap.*1
       /\ sdx_cells g'
          = <[Z.to_nat (sdx_departing random g) := Str k]> (sdx_cells g))
  /\ (let g := Socialdx.build ninths 6 Socialdx.treeColorMap9 500 Socialdx.declared in
      sdx_reachable ninths 6 Socialdx.treeColorMap9 g
      /\ Forall (fun k => Str k ∈ sdx_cells g) (Socialdx.treeColorMap9.*1)
      /\ exists g',
           Socialdx.replaceTree ninths g = Some g'
           /\ sdx_cells g' = <[Z.to_nat (sdx_departing ninths g) := Null]> (sdx_cells g)).
Proof.
  split.
  - intros random s colorMap g alive Hnames Hs Hreach Hnd Hlen Halive.
    pose proof (sdx_reachable_inv random s colorMap g Hnames Hs Hreach) as Hinv.
    destruct (sdx_replaceTree_total random s colorMap g Hs Hinv) as [g' Hg'].
    destruct (hood_pigeonhole s (sdx_cells g) (sdx_departing random g) alive Hnd Hlen)
      as (k0 & Hk0 & Hfree).
    assert (Hin : Str k0 ∈ sdx_cells g) by (by eapply Forall_forall in Halive).
    destruct (sdx_found random s colorMap g g' (Str k0) Hnames Hs Hinv Hg' Hin)
      as (v & Hv & _ & Hvin & Hcells); [done|].
    destruct Hinv as (_ & _ & _ & _ & Hset & _).
    eapply Forall_forall in Hset; [|exact Hvin].
    destruct Hset as [->|(k & -> & Hk)]; [done|].
    by exists g', k.
  - cbv zeta. split; [apply sdx_built|]. split.
    + apply (bool_decide_unpack _). by vm_compute.
    + eexists. split; [by vm_compute|]. by vm_compute.
Qed.

(** Extinction is final in the social-distancing model.  Once no tree
    holds the species [k], whatever follows without a reset leaves it so:
    no tree holds [k], and its census count is zero. *)
Theorem socialdx_extinction_is_final (random : nat -> sample) (s : Z)
    (colorMap : list (string * string)) (g g' : Socialdx.Globals) (k : string) :
  species_set (colorMap.*1) -> 0 < s -> sdx_reachable random s colorMap g ->
  k ∈ colorMap.*1 -> population (Str k) (sdx_cells g) = 0 ->
  sdx_later random g g' ->
  population (Str k) (sdx_cells g') = 0
  /\ Socialdx.census (Socialdx.theForest g') !! k = Some (Num 0).
Proof.
  intros Hnames Hs Hreach Hk Hzero Hlater.
  pose proof (sdx_later_extinct random g g' (Str k) Hlater) as Hz.
  rewrite Hz by done. split; [done|].
  pose proof (sdx_later_reachable random s colorMap g g' Hreach Hlater) as Hr'.
  destruct (sdx_reachable_inv random s colorMap g' Hnames Hs Hr')
    as (_ & _ & _ & _ & _ & Hacc).
  rewrite (Hacc k Hk), Hz by done. done.
Qed.

(** A forest of four trees over four species, none of them a beech: after
    a batch of forty replacements there is no beech either. *)
Lemma socialdx_extinction_is_final_witness :
  let g := Socialdx.build shuffled 2 Socialdx.treeColorMap4 500 Socialdx.declared in
  species_set (Socialdx.treeColorMap4.*1) /\ 0 < 2
  /\ sdx_reachable shuffled 2 Socialdx.treeColorMap4 g
  /\ "beech" ∈ Socialdx.treeColorMap4.*1
  /\ population (Str "beech") (sdx_cells g) = 0
  /\ match Socialdx.runBatch shuffled g with
     | Some g' =>
         sdx_later shuffled g g'
         /\ Socialdx.stepCount g' = 40
         /\ population (Str "beech") (sdx_cells g') = 0
         /\ Socialdx.census (Socialdx.theForest g') !! "beech" = Some (Num 0)
     | None => False
     end.
Proof.
  cbv zeta.
  assert (Hnames : species_set (Socialdx.treeColorMap4.*1))
    by (apply (bool_decide_unpack _); by vm_compute).
  assert (Hreach : sdx_reachable shuffled 2 Socialdx.treeColorMap4
                     (Socialdx.build shuffled 2 Socialdx.treeColorMap4 500
                        Socialdx.declared)) by apply sdx_built.
  assert (Hk : "beech" ∈ Socialdx.treeColorMap4.*1)
    by (apply (bool_decide_unpack _); by vm_compute).
  assert (Hzero : population (Str "beech")
                    (sdx_cells (Socialdx.build shuffled 2 Socialdx.treeColorMap4 500
                                  Socialdx.declared)) = 0)
    by (vm_compute; reflexivity).
  split; [exact Hnames|]. split; [lia|]. split; [exact Hreach|].
  split; [exact Hk|]. split; [exact Hzero|].
  assert (E40 : Socialdx.stepCount
                  <$> Socialdx.runBatch shuffled
                        (Socialdx.build shuffled 2 Socialdx.treeColorMap4 500
                           Socialdx.declared)
                = Some 40) by (vm_compute; reflexivity).
  destruct (Socialdx.runBatch shuffled
              (Socialdx.build shuffled 2 Socialdx.treeColorMap4 500 Socialdx.declared))
    as [g'|] eqn:E; [|discriminate E40].
  injection E40 as E40.
  assert (Hlater : sdx_later shuffled
                     (Socialdx.build shuffled 2 Socialdx.treeColorMap4 500
                        Socialdx.declared) g')
    by exact (sdx_then_batch shuffled _ _ g' (sdx_now shuffled _) E).
  destruct (socialdx_extinction_is_final shuffled 2 Socialdx.treeColorMap4 _ _ "beech"
              Hnames ltac:(lia) Hreach Hk Hzero Hlater) as [H1 H2].
  split; [exact Hlater|]. split; [exact E40|]. split; [exact H1 | exact H2].
Defined.

(** [countConflicts()] in every state the social-distancing model reaches
    on a grid of positive side: it returns; its result is half the number
    of clashes, where every tree is compared with its eight neighbours (two
    vacant neighbours clash as well); and since opposite directions see the
    same clashes, every clash is counted exactly twice: the result is a
    whole number, the number of clashing pairs, at most [4 * s * s]. *)
Theorem countConflicts_counts_pairs (random : nat -> sample) (s : Z)
    (colorMap : list (string * string)) (g : Socialdx.Globals) :
  0 < s -> sdx_reachable random s colorMap g ->
  let cells := sdx_cells g in
  let pairs := clashes_along s cells (-1, -1) + clashes_along s cells (-1, 0)
               + clashes_along s cells (-1, 1) + clashes_along s cells (0, -1) in
  Socialdx.countConflicts (Socialdx.theForest g)
  = Some (inject_Z (clashes s cells) / 2)%Q
  /\ clashes s cells = 2 * pairs
  /\ (inject_Z (clashes s cells) / 2 == inject_Z pairs)%Q
  /\ 0 <= pairs <= 4 * (s * s).
Proof.
  intros Hs Hreach cells pairs.
  destruct (sdx_reachable_frame random s colorMap g Hs Hreach) as (R & born & Hframe).
  pose proof Hframe as (_ & _ & Hlen & _).
  assert (Hlen' : Z.of_nat (length cells) = s * s).
  { unfold cells, sdx_cells. rewrite length_fmap. nia. }
  pose proof (clashes_even s cells Hs Hlen') as Heven. fold pairs in Heven.
  pose proof (clashes_range s cells) as Hrange.
  split; [by eapply countConflicts_clashes|]. split; [exact Heven|].
  split; [|lia].
  rewrite Heven, inject_Z_mult. change (inject_Z 2) with 2%Q. field.
Qed.

(** The forest that [init()] makes. *)
Lemma countConflicts_counts_pairs_witness :
  let g := Socialdx.loaded shuffled in
  0 < 25 /\ sdx_reachable shuffled 25 Socialdx.treeColorMap10 g
  /\ exists pairs,
       Socialdx.countConflicts (Socialdx.theForest g)
       = Some (inject_Z (clashes 25 (sdx_cells g)) / 2)%Q
       /\ clashes 25 (sdx_cells g) = 2 * pairs
       /\ 0 <= pairs <= 4 * (25 * 25).
Proof.
  cbv zeta.
  assert (Hreach : sdx_reachable shuffled 25 Socialdx.treeColorMap10
                     (Socialdx.loaded shuffled)) by apply sdx_built.
  split; [lia|]. split; [exact Hreach|].
  destruct (countConflicts_counts_pairs shuffled 25 Socialdx.treeColorMap10
              (Socialdx.loaded shuffled) ltac:(lia) Hreach) as (H1 & H2 & _ & H4).
  eexists. split; [exact H1|]. split; [exact H2|exact H4].
Defined.

(** An arrival adds no conflict.  When a replacement of the
    social-distancing model gives the departing site a species, the number
    of clashes of the grid does not grow, and [countConflicts()] returns no
    more after the replacement than before. *)
Theorem arrival_adds_no_conflict (random : nat -> sample) (s : Z)
    (colorMap : list (string * string)) (g g' : Socialdx.Globals) :
  species_set (colorMap.*1) -> 0 < s ->
  sdx_reachable random s colorMap g ->
  Socialdx.replaceTree random g = Some g' ->
  sdx_cells g' !! Z.to_nat (sdx_departing random g) <> Some Null ->
  clashes s (sdx_cells g') <= clashes s (sdx_cells g)
  /\ exists q q',
       Socialdx.countConflicts (Socialdx.theForest g) = Some q
       /\ Socialdx.countConflicts (Socialdx.theForest g') = Some q'
       /\ (q' <= q)%Q.
Proof.
  intros Hnames Hs Hreach Hstep Harrival.
  pose proof (sdx_reachable_inv random s colorMap g Hnames Hs Hreach) as Hinv.
  destruct (sdx_step random s colorMap g g' Hnames Hs Hinv Hstep)
    as (Hd & _ & old & v & Hold & Hcells & Hfirst & _).
  pose proof Hinv as (_ & _ & _ & [Hlen _] & _).
  assert (Hlen' : Z.of_nat (length (sdx_cells g)) = s * s).
  { unfold sdx_cells. by rewrite length_fmap. }
  assert (Hv : v ∉ hood s (sdx_cells g) (sdx_departing random g)).
  { destruct Hfirst as [[-> _]|(j & _ & _ & [_ Hv] & _)]; [|done].
    exfalso. apply Harrival. rewrite Hcells. apply list_lookup_insert_eq. lia. }
  assert (Hle : clashes s (sdx_cells g') <= clashes s (sdx_cells g)).
  { rewrite Hcells. by apply clashes_insert_le. }
  split; [exact Hle|].
  destruct (sdx_reachable_frame random s colorMap g Hs Hreach) as (R & born & Hf).
  destruct (sdx_reachable_frame random s colorMap g' Hs
              (sdx_replaced random s colorMap g g' Hreach Hstep)) as (R' & born' & Hf').
  eexists _, _.
  split; [by eapply countConflicts_clashes|].
  split; [by eapply countConflicts_clashes|].
  fold (sdx_cells g) (sdx_cells g').
  unfold Qdiv. apply Qmult_le_compat_r; [|done]. by rewrite <- Zle_Qle.
Qed.

(** The first replacement in a forest of side 5 over ten species: a
    species arrives. *)
Lemma arrival_adds_no_conflict_witness :
  let g := Socialdx.build shuffled 5 Socialdx.treeColorMap10 500 Socialdx.declared in
  species_set (Socialdx.treeColorMap10.*1) /\ 0 < 5
  /\ sdx_reachable shuffled 5 Socialdx.treeColorMap10 g
  /\ match Socialdx.replaceTree shuffled g with
     | Some g' =>
         sdx_cells g' !! Z.to_nat (sdx_departing shuffled g) <> Some Null
         /\ clashes 5 (sdx_cells g') <= clashes 5 (sdx_cells g)
     | None => False
     end.
Proof.
  intros g.
  assert (Hnames : species_set (Socialdx.treeColorMap10.*1))
    by (apply (bool_decide_unpack _); by vm_compute).
  assert (Hreach : sdx_reachable shuffled 5 Socialdx.treeColorMap10 g)
    by apply sdx_built.
  split; [exact Hnames|]. split; [lia|]. split; [exact Hreach|].
  destruct (Socialdx.replaceTree shuffled g) as [g'|] eqn:E;
    [|vm_compute in E; discriminate E].
  assert (Harrival : sdx_cells g' !! Z.to_nat (sdx_departing shuffled g) <> Some Null).
  { pose proof E as E'. vm_compute in E'. injection E' as <-.
    intros H. vm_compute in H. discriminate H. }
  split; [exact Harrival|].
  exact (proj1 (arrival_adds_no_conflict shuffled 5 Socialdx.treeColorMap10 g g'
                  Hnames ltac:(lia) Hreach E Harrival)).
Defined.

(** ** Sessions of the three programs *)

(** The trees are created only by [init()], at step 0, and they keep
    their sites: in every state of a session of each of the three programs
    the forest has 625 trees, and the tree of index [j] has the birthdate
    0, sits in column [j mod 25] of row [j / 25], and has the disk it was
    given when it was created.  Replacements change species, nothing else;
    in the social-distancing model the trees also keep the list of their
    nine neighbours. *)
Theorem trees_born_at_step_zero (random : nat -> sample) :
  let R := (Plot.canvasSize / (inject_Z 25 * 2))%Q in
  (forall g, imm_session random g ->
     length (Immigration.theForest g) = 625%nat
     /\ forall (j : nat), (j < 625)%nat ->
          exists t, Immigration.theForest g !! j = Some t
            /\ Plot.birthdate t = 0 /\ plot_site 25 R 0 j t)
  /\ (forall g, coex_session random g ->
        length (Coexist.theForest g) = 625%nat
        /\ forall (j : nat), (j < 625)%nat ->
             exists t, Coexist.theForest g !! j = Some t
               /\ Plot.birthdate t = 0 /\ plot_site 25 R 0 j t)
  /\ (forall g, sdx_session random g ->
        length (Socialdx.trees (Socialdx.theForest g)) = 625%nat
        /\ forall (j : nat), (j < 625)%nat ->
             exists t, Socialdx.trees (Socialdx.theForest g) !! j = Some t
               /\ Socialdx.birthdate t = 0
               /\ sdx_site 25 (500 / (inject_Z 25 * 2))%Q 0 j t
               /\ Socialdx.neighborTrees t = torus_block 25 (Z.of_nat j)).
Proof.
  intros R. split; [|split].
  - intros g Hg. destruct (imm_session_frame random g Hg) as [Hlen Hsite].
    split; [exact Hlen|]. intros j Hj.
    destruct (lookup_lt_is_Some_2 (Immigration.theForest g) j) as [t Ht]; [lia|].
    exists t. split; [done|]. pose proof (Hsite j t Ht) as Hs.
    split; [by destruct Hs as (_ & _ & _ & _ & _ & ?)|done].
  - intros g Hg. destruct (coex_session_frame random g Hg) as [Hlen Hsite].
    split; [exact Hlen|]. intros j Hj.
    destruct (lookup_lt_is_Some_2 (Coexist.theForest g) j) as [t Ht]; [lia|].
    exists t. split; [done|]. pose proof (Hsite j t Ht) as Hs.
    split; [by destruct Hs as (_ & _ & _ & _ & _ & ?)|done].
  - intros g Hg.
    destruct (sdx_session_frame random g Hg) as (_ & _ & Hlen & Hsite).
    split; [exact Hlen|]. intros j Hj.
    destruct (lookup_lt_is_Some_2 (Socialdx.trees (Socialdx.theForest g)) j)
      as [t Ht]; [lia|].
    exists t. split; [done|]. destruct (Hsite j t Ht) as [Hs Hnb].
    split; [by destruct Hs as (_ & _ & _ & _ & _ & _ & ?)|done].
Qed.

(** The plot [immigration.js] shows when the page has loaded, and its
    tree of index 26: column 1 of row 1. *)
Lemma trees_born_at_step_zero_witness :
  let g := Immigration.loaded shuffled in
  imm_session shuffled g
  /\ length (Immigration.theForest g) = 625%nat
  /\ exists t, Immigration.theForest g !! 26%nat = Some t
       /\ Plot.birthdate t = 0 /\ Plot.col t = 1 /\ Plot.row t = 1.
Proof.
  cbv zeta.
  assert (Hg : imm_session shuffled (Immigration.loaded shuffled)) by apply imm_loaded.
  split; [exact Hg|].
  destruct (proj1 (trees_born_at_step_zero shuffled) _ Hg) as [Hlen Htrees].
  split; [exact Hlen|].
  destruct (Htrees 26%nat ltac:(lia)) as (t & Ht & Hb & Hcol & Hrow & _).
  exists t. split; [exact Ht|]. split; [exact Hb|].
  split; [rewrite Hcol; reflexivity | rewrite Hrow; reflexivity].
Defined.

(** The reset button, in every state of a session: the state is [idle],
    the step count and its display are 0, the button reads "Start", and no
    timer is left installed (a running timer is cleared, and there is none
    otherwise); the forest and the census are those [createForest(25)] or
    [new Forest(25, treeColorMap10, 500)] makes from the next random values,
    with the birthdate 0.  In the competition program the resources are
    back to 50 and 50, the timeline is empty and the button is enabled.  In
    [immigration.js] the immigration interval is not reset. *)
Theorem reset_starts_afresh (random : nat -> sample) :
  (forall g, imm_session random g ->
     let g' := Immigration.doReset random g in
     Immigration.state g' = Immigration.idle
     /\ Immigration.stepCount g' = 0
     /\ Immigration.stepCountDisplay g' = 0
     /\ Immigration.startStopButton g' = "Start"
     /\ Immigration.timer g' = false
     /\ Immigration.immigrationInterval g' = Immigration.immigrationInterval g
     /\ (Immigration.theForest g', Immigration.theCensus g', Immigration.draws g')
        = Plot.createForest random Immigration.treeNames 25 0 (Immigration.draws g))
  /\ (forall g, coex_session random g ->
        let g' := Coexist.doReset random g in
        Coexist.state g' = Coexist.idle
        /\ Coexist.stepCount g' = 0
        /\ Coexist.stepCountDisplay g' = 0
        /\ Coexist.startStopButton g' = "Start"
        /\ Coexist.buttonDisabled g' = false
        /\ Coexist.timer g' = false
        /\ Coexist.iron g' = 50%Q /\ Coexist.calcium g' = 50%Q
        /\ Coexist.timeline g' = Coexist.initTimeline
        /\ Coexist.timelineNumberOfSpecies g' = []
        /\ (Coexist.theForest g', Coexist.theCensus g', Coexist.draws g')
           = Plot.createForest random Coexist.treeNames 25 0 (Coexist.draws g))
  /\ (forall g, sdx_session random g ->
        let g' := Socialdx.doReset random g in
        Socialdx.state g' = Socialdx.idle
        /\ Socialdx.stepCount g' = 0
        /\ Socialdx.stepCountDisplay g' = 0
        /\ Socialdx.startStopButton g' = "Start"
        /\ Socialdx.timer g' = false
        /\ (Socialdx.theForest g', Socialdx.draws g')
           = Socialdx.newForest random 25 Socialdx.treeColorMap10 500 0
               (Socialdx.draws g)).
Proof.
  split; [|split].
  - intros g Hg g'.
    destruct (imm_session_control random g Hg) as (Ht & _).
    unfold g', Immigration.doReset, Immigration.init.
    match goal with |- context [Immigration.build random 25 ?g0] =>
      destruct (imm_build_fields random 25 g0)
        as (Hst & Hsc & Htm & Hplot & Hiv & Hbt & Hdp) end.
    rewrite Hst, Hsc, Htm, Hplot, Hiv, Hbt, Hdp.
    cbn [Immigration.stepCount Immigration.timer Immigration.stepCountDisplay
         Immigration.startStopButton Immigration.immigrationInterval Immigration.draws].
    split; [reflexivity|]. split; [reflexivity|]. split; [reflexivity|].
    split; [reflexivity|]. split; [|split; reflexivity].
    destruct (Immigration.state g) eqn:Hstate; [|reflexivity|];
      (destruct (Immigration.timer g) eqn:Htimer; [|reflexivity]);
      destruct Ht as [Ht _]; specialize (Ht eq_refl); congruence.
  - intros g Hg g'.
    destruct (coex_session_control random g Hg) as (Ht & _).
    unfold g', Coexist.doReset, Coexist.init.
    match goal with |- context [Coexist.build random 25 ?g0] =>
      destruct (coex_build_fields random 25 g0)
        as (Hst & Hsc & Htm & _ & Hi & Hc & Htl & Hseen & Hbt & Hdis & Hdp);
      pose proof (coex_build_plot random 25 g0) as Hplot end.
    cbv zeta in Hplot.
    rewrite Hst, Hsc, Htm, Hplot, Hi, Hc, Htl, Hseen, Hbt, Hdis, Hdp.
    cbn [Coexist.stepCount Coexist.timer Coexist.stepCountDisplay
         Coexist.startStopButton Coexist.buttonDisabled Coexist.draws].
    split; [reflexivity|]. split; [reflexivity|]. split; [reflexivity|].
    split; [reflexivity|]. split; [reflexivity|].
    split; [|repeat (split; [reflexivity|]); reflexivity].
    destruct (Coexist.state g) eqn:Hstate; try reflexivity;
      (destruct (Coexist.timer g) eqn:Htimer; [|reflexivity]);
      destruct Ht as [Ht _]; specialize (Ht eq_refl); congruence.
  - intros g Hg g'.
    destruct (sdx_session_control random g Hg) as (Ht & _).
    unfold g', Socialdx.doReset, Socialdx.init.
    match goal with |- context [Socialdx.build random 25 _ _ ?g0] =>
      destruct (sdx_build_fields random 25 Socialdx.treeColorMap10 500 g0)
        as (Hst & Hsc & Htm & Hf & Hd & Hbt & Hdp) end.
    rewrite Hst, Hsc, Htm, Hf, Hd, Hbt, Hdp.
    cbn [Socialdx.stepCount Socialdx.timer Socialdx.stepCountDisplay
         Socialdx.startStopButton Socialdx.draws].
    split; [reflexivity|]. split; [reflexivity|]. split; [reflexivity|].
    split; [reflexivity|]. split.
    + destruct (Socialdx.state g) eqn:Hstate; [|reflexivity|];
        (destruct (Socialdx.timer g) eqn:Htimer; [|reflexivity]);
        destruct Ht as [Ht _]; specialize (Ht eq_refl); congruence.
    + symmetry. apply surjective_pairing.
Qed.




(** [listNeighborSpecies] and the field [neighborSpecies].  In every state
    the social-distancing model reaches, [listNeighborSpecies] on the tree
    of index [d] returns, and the keys it records are exactly the species
    present in the nine cells of the neighbourhood of [d], the species of
    the tree itself among them; vacant cells add no key.  A replacement
    leaves in the field [neighborSpecies] of the departing tree the keys of
    the neighbourhood as it was before the departure, and leaves the field
    of every other tree as it is. *)
Theorem neighborSpecies_lists_hood (random : nat -> sample) (s : Z)
    (colorMap : list (string * string)) (g : Socialdx.Globals) :
  species_set (colorMap.*1) -> 0 < s -> sdx_reachable random s colorMap g ->
  (forall (d : nat) t,
     Socialdx.trees (Socialdx.theForest g) !! d = Some t ->
     exists ns,
       Socialdx.listNeighborSpecies (Socialdx.trees (Socialdx.theForest g)) t = Some ns
       /\ (forall k, k ∈ ns <-> Str k ∈ hood s (sdx_cells g) (Z.of_nat d))
       /\ (forall k, Socialdx.species t = Str k -> k ∈ ns))
  /\ (forall g', Socialdx.replaceTree random g = Some g' ->
        let d := Z.to_nat (sdx_departing random g) in
        (exists t', Socialdx.trees (Socialdx.theForest g') !! d = Some t'
           /\ forall k, k ∈ Socialdx.neighborSpecies t'
                <-> Str k ∈ hood s (sdx_cells g) (sdx_departing random g))
        /\ forall (j : nat), j <> d ->
             Socialdx.neighborSpecies <$> Socialdx.trees (Socialdx.theForest g') !! j
             = Socialdx.neighborSpecies <$> Socialdx.trees (Socialdx.theForest g) !! j).
Proof.
  intros Hnames Hs Hreach.
  pose proof (sdx_reachable_inv random s colorMap g Hnames Hs Hreach) as Hinv.
  split.
  - intros d t Hdt.
    destruct (listNeighborSpecies_hood s colorMap g d t Hnames Hs Hinv Hdt)
      as (ns & Hns & Hiff).
    exists ns. split; [exact Hns|]. split; [exact Hiff|].
    intros k Hk. apply Hiff. apply hood_elem. exists (Z.of_nat d).
    pose proof Hinv as (_ & _ & _ & [Hlen _] & _).
    split.
    + apply torus_block_self; [done|]. apply lookup_lt_Some in Hdt. lia.
    + unfold sdx_cells. by rewrite arr_get_nat, list_lookup_fmap, Hdt, <- Hk.
  - intros g' Hstep d.
    destruct (sdx_replaceTree_Some random g g' Hstep)
      as (dt & ns & rep & Hdt & Hns & _ & Htrees & _).
    cbv zeta in Htrees. apply arr_get_Some in Hdt as [Hd0 Hdt]. fold d in Hdt, Htrees.
    destruct (listNeighborSpecies_hood s colorMap g d dt Hnames Hs Hinv Hdt)
      as (ns' & Hns' & Hiff).
    assert (ns' = ns) as -> by congruence.
    rewrite Htrees. split.
    + eexists. split; [apply list_lookup_insert_eq; by eapply lookup_lt_Some|].
      cbn [Socialdx.neighborSpecies Socialdx.set_species Socialdx.set_neighborSpecies].
      intros k. rewrite Hiff. unfold d. by rewrite Z2Nat.id.
    + intros j Hj. by rewrite list_lookup_insert_ne.
Qed.

(** The first replacement in a forest of side 5 over ten species. *)
Lemma neighborSpecies_lists_hood_witness :
  let g := Socialdx.build shuffled 5 Socialdx.treeColorMap10 500 Socialdx.declared in
  species_set (Socialdx.treeColorMap10.*1) /\ 0 < 5
  /\ sdx_reachable shuffled 5 Socialdx.treeColorMap10 g
  /\ forall (d : nat) t,
       Socialdx.trees (Socialdx.theForest g) !! d = Some t ->
       exists ns,
         Socialdx.listNeighborSpecies (Socialdx.trees (Socialdx.theForest g)) t = Some ns
         /\ (forall k, k ∈ ns <-> Str k ∈ hood 5 (sdx_cells g) (Z.of_nat d))
         /\ (forall k, Socialdx.species t = Str k -> k ∈ ns).
Proof.
  intros g.
  assert (Hnames : species_set (Socialdx.treeColorMap10.*1))
    by (apply (bool_decide_unpack _); by vm_compute).
  assert (Hreach : sdx_reachable shuffled 5 Socialdx.treeColorMap10 g)
    by apply sdx_built.
  split; [exact Hnames|]. split; [lia|]. split; [exact Hreach|].
  exact (proj1 (neighborSpecies_lists_hood shuffled 5 Socialdx.treeColorMap10 g
                  Hnames ltac:(lia) Hreach)).
Defined.


(** ** Drawing *)

(** The colour of a tree.  In every state the drift programs reach, every
    tree is drawn in the colour that [treeColorMap] gives to its species,
    never in the white of [getTreeColor]'s default.  In every state the
    social-distancing model reaches, over a colour map whose keys form a
    species set, a tree is drawn in the colour that the map gives to its
    species (white if that colour is the empty string), and a vacant site
    is drawn white. *)
Theorem tree_colours (random : nat -> sample) (s : Z)
    (colorMap : list (string * string)) :
  (forall g t, imm_reachable random s g -> t ∈ Immigration.theForest g ->
     exists k c, Plot.species t = Str k /\ (k, c) ∈ Immigration.treeColorMap
       /\ Immigration.getTreeColor (Plot.species t) = Some c /\ c <> "#ffffff")
  /\ (forall g t, coex_reachable random s g -> t ∈ Coexist.theForest g ->
        exists k c, Plot.species t = Str k /\ (k, c) ∈ Coexist.treeColorMap
          /\ Coexist.getTreeColor (Plot.species t) = Some c /\ c <> "#ffffff")
  /\ (species_set (colorMap.*1) -> 0 < s ->
      forall g t, sdx_reachable random s colorMap g ->
        t ∈ Socialdx.trees (Socialdx.theForest g) ->
        (Socialdx.species t = Null /\ Socialdx.fillStyle colorMap t = Some "#ffffff")
        \/ exists k c, Socialdx.species t = Str k /\ (k, c) ∈ colorMap
             /\ Socialdx.fillStyle colorMap t
                = Some (if String.eqb c "" then "#ffffff" else c)).
Proof.
  split; [|split].
  - intros g t Hreach Ht.
    destruct (imm_reachable_inv random s g Hreach) as (_ & Hpop & _).
    rewrite imm_treeNames_keys in Hpop.
    destruct (populated_colour Immigration.treeColorMap (imm_cells g) (Plot.species t))
      as (k & c & Hk & Hin & Hc).
    + rewrite <- imm_treeNames_keys. apply imm_treeNames_NoDup.
    + exact Hpop.
    + unfold imm_cells. by apply list_elem_of_fmap_2.
    + exists k, c. split; [done|]. split; [done|].
      unfold Immigration.getTreeColor. rewrite Hc.
      assert (Hall : Forall (fun p : string * string => p.2 <> "" /\ p.2 <> "#ffffff")
                       Immigration.treeColorMap)
        by (apply (bool_decide_unpack _); by vm_compute).
      eapply Forall_forall in Hall; [|exact Hin]. cbn in Hall. destruct Hall as [H1 H2].
      apply String.eqb_neq in H1. by rewrite H1.
  - intros g t Hreach Ht.
    destruct (coex_reachable_inv random s g Hreach) as (_ & Hpop & _).
    rewrite coex_treeNames_keys in Hpop.
    destruct (populated_colour Coexist.treeColorMap (coex_cells g) (Plot.species t))
      as (k & c & Hk & Hin & Hc).
    + rewrite <- coex_treeNames_keys. apply coex_treeNames_NoDup.
    + exact Hpop.
    + unfold coex_cells. by apply list_elem_of_fmap_2.
    + exists k, c. split; [done|]. split; [done|].
      unfold Coexist.getTreeColor. rewrite Hc.
      assert (Hall : Forall (fun p : string * string => p.2 <> "" /\ p.2 <> "#ffffff")
                       Coexist.treeColorMap)
        by (apply (bool_decide_unpack _); by vm_compute).
      eapply Forall_forall in Hall; [|exact Hin]. cbn in Hall. destruct Hall as [H1 H2].
      apply String.eqb_neq in H1. by rewrite H1.
  - intros Hnames Hs g t Hreach Ht.
    destruct (sdx_reachable_inv random s colorMap g Hnames Hs Hreach)
      as (_ & _ & _ & _ & Hset & _).
    assert (Hin : Socialdx.species t ∈ sdx_cells g)
      by (unfold sdx_cells; by apply list_elem_of_fmap_2).
    eapply Forall_forall in Hset; [|exact Hin].
    unfold Socialdx.fillStyle.
    destruct Hset as [Hnull|(k & Hk & Hkin)].
    + left. split; [done|]. rewrite Hnull. apply lookup_or_missing.
      * cbn [to_key]. intros Hmem.
        by destruct (species_set_ordinary _ _ Hnames Hmem) as (_ & ? & _).
      * cbn [to_key]. apply (bool_decide_unpack _). by vm_compute.
    + right. apply list_elem_of_fmap in Hkin as ([k' c] & Hk' & Hmem).
      cbn in Hk'. subst k'. exists k, c. split; [done|]. split; [done|].
      rewrite Hk. apply lookup_or_own; [|done]. by apply species_set_NoDup.
Qed.


(** ** A forest of a single species *)

(** Once a single species holds the whole forest, nothing changes any
    more, except by immigration.  In a state of [immigration.js] where
    every tree holds the species [k], a replacement that is not an
    immigration leaves the forest and the census as they are; and if a
    replacement changes the forest, it is an immigration, and the random
    value has selected a species other than [k].  In such a state of the
    competition program, every replacement that returns leaves the forest
    and the census as they are. *)
Theorem monodominance_is_absorbing (random : nat -> sample) (s : Z) (k : string) :
  (forall g g', imm_reachable random s g ->
     Forall (fun t => Plot.species t = Str k) (Immigration.theForest g) ->
     Immigration.replaceTree random g = Some g' ->
     (rem_is_zero (Immigration.stepCount g) (Immigration.immigrationInterval g) = false ->
      Immigration.theForest g' = Immigration.theForest g
      /\ Immigration.theCensus g' = Immigration.theCensus g)
     /\ (Immigration.theForest g' <> Immigration.theForest g ->
         rem_is_zero (Immigration.stepCount g) (Immigration.immigrationInterval g) = true
         /\ exists k', k' <> k
              /\ randomElement Immigration.treeNames (imm_second random g) = Some k'))
  /\ (forall fuel g g', coex_reachable random s g ->
        Forall (fun t => Plot.species t = Str k) (Coexist.theForest g) ->
        Coexist.replaceTree random fuel g = Coexist.Returns g' ->
        Coexist.theForest g' = Coexist.theForest g
        /\ Coexist.theCensus g' = Coexist.theCensus g).
Proof.
  split.
  - intros g g' Hreach Hall Hstep.
    destruct (imm_reachable_inv random s g Hreach) as (_ & Hpop & Hacc).
    destruct (imm_replaceTree_Some random g g' Hstep)
      as (dt & arr & Hdt & Harr & Hforest & Hcensus & _).
    apply arr_get_Some in Hdt as [_ Hdt].
    assert (Hsp : Plot.species dt = Str k).
    { eapply Forall_forall in Hall; [exact Hall|]. by eapply list_elem_of_lookup_2. }
    assert (Hk : k ∈ Immigration.treeNames).
    { unfold populated in Hpop. rewrite Forall_forall in Hpop.
      destruct (Hpop (Str k)) as (k' & Hk' & Hin); [|by injection Hk' as ->].
      unfold imm_cells. rewrite <- Hsp. apply list_elem_of_fmap_2.
      by eapply list_elem_of_lookup_2. }
    assert (Hsame : arr = Str k ->
              Immigration.theForest g' = Immigration.theForest g
              /\ Immigration.theCensus g' = Immigration.theCensus g).
    { intros ->. rewrite Hforest, Hcensus, Hsp. cbn [to_key].
      split; [by apply insert_same_species|]. by eapply incr_decr_same. }
    assert (Hlocal : rem_is_zero (Immigration.stepCount g)
                       (Immigration.immigrationInterval g) = false ->
                     arr = Str k).
    { intros Hrem. unfold Immigration.arrivingSpecies in Harr. rewrite Hrem in Harr.
      destruct (randomElement (Immigration.theForest g) (imm_second random g))
        as [t|] eqn:Ht; [|done].
      injection Harr as <-. apply randomElement_elem_of in Ht.
      by eapply Forall_forall in Hall. }
    split; [intros Hrem; by apply Hsame, Hlocal|].
    intros Hchanged.
    destruct (rem_is_zero (Immigration.stepCount g) (Immigration.immigrationInterval g))
      eqn:Hrem; [|exfalso; apply Hchanged; by apply Hsame, Hlocal].
    split; [done|].
    unfold Immigration.arrivingSpecies in Harr. rewrite Hrem in Harr.
    injection Harr as <-.
    destruct (randomElement_is_Some Immigration.treeNames (imm_second random g)
                imm_treeNames_nonempty) as [k' Hk'].
    rewrite Hk' in Hsame. cbn [of_option] in Hsame.
    exists k'. split; [|done]. intros ->. apply Hchanged. by apply Hsame.
  - intros fuel g g' Hreach Hall Hstep.
    destruct (coex_reachable_inv random s g Hreach) as (_ & Hpop & Hacc & _).
    destruct (coex_replaceTree_Returns random fuel g g' Hstep)
      as (i & dt & at_ & _ & Hdt & Hat & Hforest & Hcensus & _).
    apply arr_get_Some in Hdt as [_ Hdt]. apply arr_get_Some in Hat as [_ Hat].
    assert (Hsp : Plot.species dt = Str k).
    { eapply Forall_forall in Hall; [exact Hall|]. by eapply list_elem_of_lookup_2. }
    assert (Hsp' : Plot.species at_ = Str k).
    { eapply Forall_forall in Hall; [exact Hall|]. by eapply list_elem_of_lookup_2. }
    assert (Hk : k ∈ Coexist.treeNames).
    { unfold populated in Hpop. rewrite Forall_forall in Hpop.
      destruct (Hpop (Str k)) as (k' & Hk' & Hin); [|by injection Hk' as ->].
      unfold coex_cells. rewrite <- Hsp. apply list_elem_of_fmap_2.
      by eapply list_elem_of_lookup_2. }
    rewrite Hforest, Hcensus, Hsp, Hsp'. cbn [to_key].
    split; [by apply insert_same_species|]. by eapply incr_decr_same.
Qed.

Lemma monodominance_is_absorbing_witness :
  let g := Immigration.build shuffled 1 Immigration.declared in
  let c := Coexist.build shuffled 1 Coexist.declared in
  (imm_reachable shuffled 1 g
   /\ Forall (fun t => Plot.species t = Str "elm") (Immigration.theForest g)
   /\ match Immigration.replaceTree shuffled g with
      | Some g' =>
          (rem_is_zero (Immigration.stepCount g) (Immigration.immigrationInterval g)
           = false ->
           Immigration.theForest g' = Immigration.theForest g
           /\ Immigration.theCensus g' = Immigration.theCensus g)
          /\ (Immigration.theForest g' <> Immigration.theForest g ->
              rem_is_zero (Immigration.stepCount g) (Immigration.immigrationInterval g)
              = true
              /\ exists k', k' <> "elm"
                   /\ randomElement Immigration.treeNames (imm_second shuffled g)
                      = Some k')
      | None => False
      end)
  /\ (coex_reachable shuffled 1 c
      /\ Forall (fun t => Plot.species t = Str "olive") (Coexist.theForest c)
      /\ match Coexist.replaceTree shuffled 50 c with
         | Coexist.Returns c' =>
             Coexist.theForest c' = Coexist.theForest c
             /\ Coexist.theCensus c' = Coexist.theCensus c
         | _ => False
         end).
Proof.
  cbv zeta.
  assert (Hreach : imm_reachable shuffled 1
                     (Immigration.build shuffled 1 Immigration.declared))
    by apply imm_built.
  assert (Hall : Forall (fun t => Plot.species t = Str "elm")
                   (Immigration.theForest
                      (Immigration.build shuffled 1 Immigration.declared)))
    by (vm_compute; repeat constructor).
  assert (Hreach' : coex_reachable shuffled 1
                      (Coexist.build shuffled 1 Coexist.declared))
    by (by apply coex_built).
  assert (Hall' : Forall (fun t => Plot.species t = Str "olive")
                    (Coexist.theForest (Coexist.build shuffled 1 Coexist.declared)))
    by (vm_compute; repeat constructor).
  split.
  - split; [exact Hreach|]. split; [exact Hall|].
    destruct (Immigration.replaceTree shuffled
                (Immigration.build shuffled 1 Immigration.declared)) as [g'|] eqn:E.
    + exact (proj1 (monodominance_is_absorbing shuffled 1 "elm") _ g' Hreach Hall E).
    + vm_compute in E. discriminate.
  - split; [exact Hreach'|]. split; [exact Hall'|].
    destruct (Coexist.replaceTree shuffled 50
                (Coexist.build shuffled 1 Coexist.declared)) as [c'| |] eqn:E.
    + exact (proj2 (monodominance_is_absorbing shuffled 1 "olive") 50%nat _ c'
               Hreach' Hall' E).
    + vm_compute in E. discriminate.
    + vm_compute in E. discriminate.
Defined.

(** ** The competition program: the ends of the slider *)

(** A species without resource gains no tree.  In a replacement of the
    competition program that returns, in a state where the calcium is zero
    or less, the candidate accepted is an olive tree: the departing site
    becomes olive, and the number of orange trees does not grow.  Likewise
    for the olive trees when the iron is zero or less. *)
Theorem competition_no_resource_no_gain (random : nat -> sample) (s : Z)
    (fuel : nat) (g g' : Coexist.Globals) (k other : string) :
  coex_reachable random s g -> s <> 0 ->
  (k = "orange" /\ other = "olive" /\ (Coexist.calcium g <= 0)%Q)
  \/ (k = "olive" /\ other = "orange" /\ (Coexist.iron g <= 0)%Q) ->
  Coexist.replaceTree random fuel g = Coexist.Returns g' ->
  coex_cells g' = <[Z.to_nat (coex_departing random g) := Str other]> (coex_cells g)
  /\ population (Str k) (coex_cells g') <= population (Str k) (coex_cells g).
Proof.
  intros Hreach Hs Hcase Hstep.
  pose proof (coex_reachable_inv random s g Hreach) as Hinv.
  destruct (coex_accepted_flip random fuel g g' Hstep)
    as (n & old & at_ & Hold & Hin & Hflip & Hcells).
  destruct (coex_factors s g Hinv Hs) as [HoF HgF].
  destruct (coex_census s g Hinv) as (Ho & Hg & Hsum).
  pose proof Hinv as (_ & Hpop & _ & Hp).
  pose proof (population_nonneg (Str "olive") (coex_cells g)) as Ho0.
  pose proof (population_nonneg (Str "orange") (coex_cells g)) as Hg0.
  assert (Hss : 0 < s * s) by nia.
  assert (Hsp : Plot.species at_ = Str other).
  { eapply Forall_forall in Hpop; [|exact Hin].
    destruct Hpop as (k' & Hk' & Hmem). rewrite Hk' in *.
    assert (k' <> k); [|unfold Coexist.treeNames in Hmem;
      apply elem_of_cons in Hmem as [->|Hmem];
      [|apply list_elem_of_singleton in Hmem as ->];
      destruct Hcase as [(-> & -> & _)|(-> & -> & _)]; done].
    intros ->. unfold Coexist.bias, census_count in *.
    rewrite Ho, Hg, Hp in *.
    destruct Hcase as [(-> & -> & Hcap)|(-> & -> & Hcap)].
    - rewrite decide_False in Hflip by done. rewrite HgF in Hflip.
      rewrite flip_never in Hflip; [done|].
      apply pressure_nonpositive; [done|done|lia|done].
    - rewrite decide_True in Hflip by done. rewrite HoF in Hflip.
      rewrite flip_never in Hflip; [done|].
      apply pressure_nonpositive; [done|done|lia|done]. }
  rewrite Hsp in Hcells. split; [exact Hcells|].
  rewrite Hcells, (population_insert _ _ _ old) by done.
  unfold one_if.
  assert (Str k <> Str other) by (destruct Hcase as [(-> & -> & _)|(-> & -> & _)]; done).
  rewrite (decide_False (P := Str k = Str other)) by done.
  destruct (decide (Str k = old)); lia.
Qed.

(** A plot of four trees with the slider at 100: no calcium. *)
Lemma competition_no_resource_no_gain_witness :
  let g := Coexist.adjustResources 100 (Coexist.build shuffled 2 Coexist.declared) in
  coex_reachable shuffled 2 g /\ 2 <> 0
  /\ (Coexist.calcium g <= 0)%Q
  /\ match Coexist.replaceTree shuffled 10 g with
     | Coexist.Returns g' =>
         coex_cells g'
         = <[Z.to_nat (coex_departing shuffled g) := Str "olive"]> (coex_cells g)
         /\ population (Str "orange") (coex_cells g')
            <= population (Str "orange") (coex_cells g)
     | _ => False
     end.
Proof.
  intros g.
  assert (Hreach : coex_reachable shuffled 2 g)
    by (apply coex_adjusted; by apply coex_built).
  assert (Hcap : (Coexist.calcium g <= 0)%Q)
    by (unfold g; cbn [Coexist.calcium Coexist.adjustResources]; by vm_compute).
  split; [exact Hreach|]. split; [lia|]. split; [exact Hcap|].
  destruct (Coexist.replaceTree shuffled 10 g) as [g'| |] eqn:E;
    [|vm_compute in E; discriminate E|vm_compute in E; discriminate E].
  apply (competition_no_resource_no_gain shuffled 2 10 g g' "orange" "olive"
           Hreach ltac:(lia)); [|exact E].
  left. split; [done|]. split; [done|exact Hcap].
Defined.

(** [finished()] of the competition program, in every state it reaches:
    it holds exactly when the step count is a multiple of 500000, or every
    tree of the forest is an orange tree, or every tree is an olive tree:
    one species has taken over the entire territory. *)
Theorem competition_finished_means_takeover (random : nat -> sample) (s : Z)
    (g : Coexist.Globals) :
  coex_reachable random s g ->
  (is_zero (get (Coexist.theCensus g) "olive") = true
   <-> Forall (fun t => Plot.species t = Str "orange") (Coexist.theForest g))
  /\ (is_zero (get (Coexist.theCensus g) "orange") = true
      <-> Forall (fun t => Plot.species t = Str "olive") (Coexist.theForest g))
  /\ (Coexist.finished g = true
      <-> (500000 | Coexist.stepCount g)
          \/ Forall (fun t => Plot.species t = Str "orange") (Coexist.theForest g)
          \/ Forall (fun t => Plot.species t = Str "olive") (Coexist.theForest g)).
Proof.
  intros Hreach.
  pose proof (coex_reachable_inv random s g Hreach) as Hinv.
  destruct (coex_census s g Hinv) as (Ho & Hg & _).
  pose proof Hinv as (_ & Hpop & _).
  assert (Holive : is_zero (get (Coexist.theCensus g) "olive") = true
                   <-> Forall (fun t => Plot.species t = Str "orange")
                         (Coexist.theForest g)).
  { rewrite Ho. cbn [is_zero]. rewrite Z.eqb_eq.
    rewrite (coex_takeover _ "olive" "orange" Hpop) by (by left).
    unfold coex_cells. by rewrite Forall_fmap. }
  assert (Horange : is_zero (get (Coexist.theCensus g) "orange") = true
                    <-> Forall (fun t => Plot.species t = Str "olive")
                          (Coexist.theForest g)).
  { rewrite Hg. cbn [is_zero]. rewrite Z.eqb_eq.
    rewrite (coex_takeover _ "orange" "olive" Hpop) by (by right).
    unfold coex_cells. by rewrite Forall_fmap. }
  split; [exact Holive|]. split; [exact Horange|].
  unfold Coexist.finished. rewrite !orb_true_iff, Holive, Horange.
  rewrite Z.eqb_eq, Z.rem_divide by done. tauto.
Qed.

(** A plot of a single tree, an olive. *)
Lemma competition_finished_means_takeover_witness :
  let g := Coexist.build shuffled 1 Coexist.declared in
  coex_reachable shuffled 1 g
  /\ (Coexist.finished g = true
      <-> (500000 | Coexist.stepCount g)
          \/ Forall (fun t => Plot.species t = Str "orange") (Coexist.theForest g)
          \/ Forall (fun t => Plot.species t = Str "olive") (Coexist.theForest g)).
Proof.
  intros g.
  assert (Hreach : coex_reachable shuffled 1 g) by (by apply coex_built).
  split; [exact Hreach|].
  exact (proj2 (proj2 (competition_finished_means_takeover shuffled 1 g Hreach))).
Defined.
